(** * SimEng pipeline core: a shallow embedding and its properties

    The development follows the C++ sources of the simulator:
    - [PipelineBuffer]   src/include/simeng/pipeline/PipelineBuffer.hh
    - [LSQ]              src/lib/pipeline/LoadStoreQueue.cc
    - [ROB]              src/outoforder/ReorderBuffer.cc
    - [MMU]              src/lib/memory/MMU.cc
    - [DispatchIssue]    src/lib/pipeline/DispatchIssueUnit.cc
    - [InorderCore]      src/lib/models/inorder/Core.cc

    Machine integers are integers of [Z] with the wrap-around of their width
    written out; [std::vector] and [std::deque] are lists; [std::map] is a
    key-sorted association list (module [StdMap]). *)

From Stdlib Require Import ZArith List Bool Lia Sorted.
From Stdlib.Strings Require Import Byte.
From stdpp Require Import base list.
Import ListNotations.

Set Default Proof Using "Type".

(** ** Machine arithmetic *)

Definition wrap64 (x : Z) : Z := (x mod 2 ^ 64)%Z.
Definition wrap16 (x : Z) : Z := (x mod 2 ^ 16)%Z.

Lemma wrap64_small (x : Z) : (0 <= x < 2 ^ 64)%Z -> wrap64 x = x.
Proof. intros H. unfold wrap64. now apply Z.mod_small. Qed.

Lemma wrap16_small (x : Z) : (0 <= x < 2 ^ 16)%Z -> wrap16 x = x.
Proof. intros H. unfold wrap16. now apply Z.mod_small. Qed.

Lemma wrap64_range (x : Z) : (0 <= wrap64 x < 2 ^ 64)%Z.
Proof. unfold wrap64. apply Z.mod_pos_bound. lia. Qed.

(** ** PipelineBuffer<T> *)

Module PipelineBuffer.
Section Buffer.
Context {T : Type}.

  (** The private members of the class. [length] is the constant 2. *)
Record t : Type := mk {
    width : nat;
    buffer : list T;
    headIsStart : bool;
    isStalled_ : bool;
    emptyVal_ : T
  }.

Definition length_ : nat := 2.

  (** Constructor, for a parameter [int width] that is not negative: the
      member [width] is an [unsigned short] and keeps the parameter modulo
      2^16, while the vector gets [width * length] elements of the parameter
      itself ([buffer(width * length, initialValue)]). *)
Definition make (w : nat) (initialValue : T) : t :=
    {| width := Z.to_nat (wrap16 (Z.of_nat w));
       buffer := replicate (w * length_) initialValue;
       headIsStart := false; isStalled_ := false; emptyVal_ := initialValue |}.

  (** [tick]: do nothing when stalled, otherwise flip [headIsStart]. *)
Definition tick (b : t) : t :=
    if isStalled_ b then b
    else {| width := width b; buffer := buffer b;
            headIsStart := negb (headIsStart b);
            isStalled_ := isStalled_ b; emptyVal_ := emptyVal_ b |}.

  (** [getTailSlots] returns [&ptr[headIsStart * width]] and [getHeadSlots]
      returns [&ptr[!headIsStart * width]]; the offsets of the two rows. *)
Definition tailOffset (b : t) : nat := Nat.b2n (headIsStart b) * width b.
Definition headOffset (b : t) : nat := Nat.b2n (negb (headIsStart b)) * width b.

  (** Reading and writing slot [i] through the returned pointer. An index
      outside the vector is undefined behaviour in C++; here the read gives
      [None] and the write changes nothing. *)
Definition getTailSlot (b : t) (i : nat) : option T := buffer b !! (tailOffset b + i).
Definition getHeadSlot (b : t) (i : nat) : option T := buffer b !! (headOffset b + i).

Definition setBuffer (b : t) (l : list T) : t :=
    {| width := width b; buffer := l; headIsStart := headIsStart b;
       isStalled_ := isStalled_ b; emptyVal_ := emptyVal_ b |}.

Definition setTailSlot (b : t) (i : nat) (v : T) : t :=
    setBuffer b (<[tailOffset b + i := v]> (buffer b)).
Definition setHeadSlot (b : t) (i : nat) (v : T) : t :=
    setBuffer b (<[headOffset b + i := v]> (buffer b)).

Definition isStalled (b : t) : bool := isStalled_ b.

Definition stall (stalled : bool) (b : t) : t :=
    {| width := width b; buffer := buffer b; headIsStart := headIsStart b;
       isStalled_ := stalled; emptyVal_ := emptyVal_ b |}.

Definition fill (value : T) (b : t) : t :=
    setBuffer b (replicate (length (buffer b)) value).

Definition getWidth (b : t) : nat := width b.

  (** The class invariant set up by the constructor: two rows of [width]. *)
Definition wf (b : t) : Prop := length (buffer b) = width b * length_.

  (** A width that fits the [unsigned short] gives two rows of that width. *)
Lemma make_wf w v : (Z.of_nat w < 2 ^ 16)%Z -> wf (make w v).
  Proof.
    intros Hw. unfold wf, make; simpl.
    rewrite length_replicate, wrap16_small by lia. now rewrite Nat2Z.id.
  Qed.

Lemma tick_wf b : wf b -> wf (tick b).
  Proof. unfold wf, tick. now destruct (isStalled_ b). Qed.

Lemma setTailSlot_wf b i v : wf b -> wf (setTailSlot b i v).
  Proof. unfold wf, setTailSlot; simpl. now rewrite length_insert. Qed.

Lemma stall_wf s b : wf b -> wf (stall s b).
  Proof. now unfold wf, stall. Qed.

Lemma fill_wf v b : wf b -> wf (fill v b).
  Proof. unfold wf, fill; simpl. now rewrite length_replicate. Qed.

Lemma tailOffset_tick b :
    isStalled_ b = false -> headOffset (tick b) = tailOffset b.
  Proof.
    intros Hs. unfold tick, headOffset, tailOffset. rewrite Hs; simpl.
    now rewrite negb_involutive.
  Qed.

Lemma headOffset_tick b :
    isStalled_ b = false -> tailOffset (tick b) = headOffset b.
  Proof. intros Hs. unfold tick, headOffset, tailOffset. now rewrite Hs. Qed.

Lemma tick_stalled b : isStalled_ b = true -> tick b = b.
  Proof. intros Hs. unfold tick. now rewrite Hs. Qed.

Lemma buffer_tick b : buffer (tick b) = buffer b.
  Proof. unfold tick. now destruct (isStalled_ b). Qed.

Lemma tailOffset_in_range b i :
    wf b -> i < width b -> tailOffset b + i < length (buffer b).
  Proof.
    unfold wf, tailOffset, length_. intros -> Hi.
    destruct (headIsStart b); simpl; lia.
  Qed.

  (** C6. A value written to tail slot [i] of a buffer that is not stalled is
      the value read at head slot [i] after [tick]; the other head slots then
      show the former tail row. When the buffer is stalled, [tick] returns
      the buffer unchanged, so head and tail rows keep contents and roles. *)
Theorem C6_pipeline_buffer_shift (b : t) (i : nat) (v : T) :
    wf b -> i < width b ->
    (isStalled_ b = false ->
       getHeadSlot (tick (setTailSlot b i v)) i = Some v
       /\ (forall j, j <> i ->
             getHeadSlot (tick (setTailSlot b i v)) j = getTailSlot b j)
       /\ (forall j, getTailSlot (tick b) j = getHeadSlot b j)
       /\ (forall j, getHeadSlot (tick b) j = getTailSlot b j))
    /\ (isStalled_ b = true ->
          tick b = b
          /\ tick (setTailSlot b i v) = setTailSlot b i v
          /\ (forall j, getHeadSlot (tick b) j = getHeadSlot b j)
          /\ (forall j, getTailSlot (tick b) j = getTailSlot b j)
          /\ headIsStart (tick b) = headIsStart b).
  Proof.
    intros Hwf Hi. split; intros Hs.
    - assert (Hs' : isStalled_ (setTailSlot b i v) = false) by exact Hs.
      repeat split.
      + unfold getHeadSlot. rewrite (tailOffset_tick _ Hs'), buffer_tick.
        change (tailOffset (setTailSlot b i v)) with (tailOffset b).
        apply list_lookup_insert_eq. now apply tailOffset_in_range.
      + intros j Hj. unfold getHeadSlot, getTailSlot.
        rewrite (tailOffset_tick _ Hs'), buffer_tick.
        change (tailOffset (setTailSlot b i v)) with (tailOffset b).
        apply list_lookup_insert_ne. lia.
      + intros j. unfold getTailSlot, getHeadSlot.
        now rewrite (headOffset_tick _ Hs), buffer_tick.
      + intros j. unfold getTailSlot, getHeadSlot.
        now rewrite (tailOffset_tick _ Hs), buffer_tick.
    - rewrite (tick_stalled b Hs). repeat split; try reflexivity.
      apply tick_stalled. exact Hs.
  Qed.

End Buffer.

(** The statement of C6 at a width-2 buffer of numbers. *)
Lemma C6_pipeline_buffer_shift_witness :
  wf (make 2 0%Z) /\ 1 < width (make 2 0%Z)
  /\ isStalled_ (make 2 0%Z) = false
  /\ getHeadSlot (tick (setTailSlot (make 2 0%Z) 1 7%Z)) 1 = Some 7%Z.
Proof.
  split; [now apply make_wf|]. split; [vm_compute; lia|]. split; [reflexivity|].
  apply (C6_pipeline_buffer_shift (make 2 0%Z) 1 7%Z);
    [now apply make_wf | vm_compute; lia | reflexivity].
Defined.

(** *** Contents of the two rows *)

Section Contents.
Context {T : Type}.

(** The comparison [i != emptyVal_] of [isEmpty], as the test for equality
    that it negates. *)
Variable eqb : T -> T -> bool.
Hypothesis eqb_eq : forall x y, eqb x y = true <-> x = y.

(** [isEmpty]: the loop over the whole vector returns false at the first
    element that differs from [emptyVal_]. *)
Definition isEmpty (b : @t T) : bool :=
  forallb (fun i => eqb i (emptyVal_ b)) (buffer b).

(** [n] calls of [tick]. *)
Fixpoint ticks (n : nat) (b : @t T) : @t T :=
  match n with
  | O => b
  | S n' => ticks n' (tick b)
  end.

Lemma headOffset_in_range (b : @t T) i :
  wf b -> i < width b -> headOffset b + i < length (buffer b).
Proof.
  unfold wf, headOffset, length_. intros -> Hi.
  destruct (headIsStart b); simpl; lia.
Qed.

Lemma lookup_row (b : @t T) k x :
  wf b -> buffer b !! k = Some x ->
  exists i, i < width b /\ (getHeadSlot b i = Some x \/ getTailSlot b i = Some x).
Proof.
  intros Hwf Hk. pose proof (lookup_lt_Some _ _ _ Hk) as Hlt.
  unfold wf, length_ in Hwf. rewrite Hwf in Hlt.
  unfold getHeadSlot, getTailSlot, headOffset, tailOffset.
  destruct (Nat.lt_ge_cases k (width b)) as [Hlo|Hhi].
  - exists k. split; [exact Hlo|].
    destruct (headIsStart b); simpl; rewrite ?Nat.add_0_r; auto.
  - exists (k - width b). split; [lia|].
    destruct (headIsStart b); simpl;
      repeat match goal with
             | |- context [buffer b !! ?e] =>
                 lazymatch e with
                 | k => fail
                 | _ => replace e with k by lia
                 end
             end; auto.
Qed.

Lemma ticks_fields n : forall b : @t T,
  buffer (ticks n b) = buffer b /\ width (ticks n b) = width b
  /\ isStalled_ (ticks n b) = isStalled_ b /\ emptyVal_ (ticks n b) = emptyVal_ b.
Proof.
  induction n as [|n IH]; intros b; simpl; [auto|].
  destruct (IH (tick b)) as (H1 & H2 & H3 & H4).
  rewrite H1, H2, H3, H4. unfold tick.
  destruct (isStalled_ b) eqn:E; simpl; auto.
Qed.

(** X1. On a buffer of two rows of [width] slots, [isEmpty] answers true
    exactly when every head slot and every tail slot holds the value the
    buffer was constructed with; a freshly constructed buffer is empty. *)
Theorem X1_isEmpty_rows (b : @t T) :
  wf b ->
  (isEmpty b = true <->
   forall i, i < width b ->
     getHeadSlot b i = Some (emptyVal_ b) /\ getTailSlot b i = Some (emptyVal_ b))
  /\ (forall w v, isEmpty (make w v) = true).
Proof using eqb_eq.
  intros Hwf. split; [split|].
  - intros He i Hi. unfold isEmpty in He. rewrite forallb_forall in He.
    assert (Hx : forall k x, buffer b !! k = Some x -> x = emptyVal_ b).
    { intros k x Hk. apply eqb_eq, He, list_elem_of_In.
      apply list_elem_of_lookup. now exists k. }
    destruct (lookup_lt_is_Some_2 _ _ (headOffset_in_range b i Hwf Hi)) as [x Hh].
    destruct (lookup_lt_is_Some_2 _ _ (tailOffset_in_range b i Hwf Hi)) as [y Ht].
    unfold getHeadSlot, getTailSlot. rewrite Hh, Ht.
    now rewrite (Hx _ _ Hh), (Hx _ _ Ht).
  - intros Hall. unfold isEmpty. apply forallb_forall. intros x Hx.
    apply list_elem_of_In, list_elem_of_lookup in Hx as [k Hk].
    destruct (lookup_row b k x Hwf Hk) as (i & Hi & [H|H]);
      destruct (Hall i Hi) as [Hh Ht]; apply eqb_eq; congruence.
  - intros w v. unfold isEmpty, make. simpl. apply forallb_forall.
    intros x Hx. apply list_elem_of_In, elem_of_replicate in Hx as [-> _].
    now apply eqb_eq.
Qed.

(** X2. The two rows do not overlap: a write to tail slot [i] is read back
    at tail slot [i] and changes no other tail slot and no head slot, and a
    write to head slot [i] is read back there and changes no other head slot
    and no tail slot. *)
Theorem X2_rows_independent (b : @t T) (i : nat) (v : T) :
  wf b -> i < width b ->
  getTailSlot (setTailSlot b i v) i = Some v
  /\ (forall j, j <> i -> getTailSlot (setTailSlot b i v) j = getTailSlot b j)
  /\ (forall j, j < width b -> getHeadSlot (setTailSlot b i v) j = getHeadSlot b j)
  /\ getHeadSlot (setHeadSlot b i v) i = Some v
  /\ (forall j, j <> i -> getHeadSlot (setHeadSlot b i v) j = getHeadSlot b j)
  /\ (forall j, j < width b -> getTailSlot (setHeadSlot b i v) j = getTailSlot b j).
Proof.
  intros Hwf Hi.
  pose proof (tailOffset_in_range b i Hwf Hi) as Ht.
  pose proof (headOffset_in_range b i Hwf Hi) as Hh.
  unfold getTailSlot, getHeadSlot, setTailSlot, setHeadSlot, setBuffer,
    tailOffset, headOffset in *. simpl.
  repeat split.
  - now apply list_lookup_insert_eq.
  - intros j Hj. apply list_lookup_insert_ne. lia.
  - intros j Hj. apply list_lookup_insert_ne.
    destruct (headIsStart b); simpl; lia.
  - now apply list_lookup_insert_eq.
  - intros j Hj. apply list_lookup_insert_ne. lia.
  - intros j Hj. apply list_lookup_insert_ne.
    destruct (headIsStart b); simpl; lia.
Qed.

(** X3. [fill(value)] overwrites both rows and nothing else: afterwards
    every head slot and every tail slot reads [value], and still does after
    any number of ticks, stalled or not; the width, the stall flag and the
    roles of the rows are as before, and a buffer with at least one slot is
    then empty exactly when [value] is the empty value. *)
Theorem X3_fill_all_slots (b : @t T) (value : T) (n i : nat) :
  wf b -> i < width b ->
  getHeadSlot (ticks n (fill value b)) i = Some value
  /\ getTailSlot (ticks n (fill value b)) i = Some value
  /\ width (fill value b) = width b
  /\ isStalled (fill value b) = isStalled b
  /\ headIsStart (fill value b) = headIsStart b
  /\ (isEmpty (ticks n (fill value b)) = true <-> value = emptyVal_ b).
Proof using eqb_eq.
  intros Hwf Hi.
  destruct (ticks_fields n (fill value b)) as (Hb & Hw & _ & He).
  assert (Hwf' : wf (ticks n (fill value b))).
  { unfold wf. rewrite Hb, Hw. now apply fill_wf. }
  assert (Hi' : i < width (ticks n (fill value b))) by (now rewrite Hw).
  assert (Hall : forall k x, buffer (ticks n (fill value b)) !! k = Some x ->
                             x = value).
  { intros k x. rewrite Hb. unfold fill. simpl. intros Hk.
    now apply lookup_replicate in Hk as [-> _]. }
  destruct (lookup_lt_is_Some_2 _ _ (headOffset_in_range _ i Hwf' Hi')) as [x Hh].
  destruct (lookup_lt_is_Some_2 _ _ (tailOffset_in_range _ i Hwf' Hi')) as [y Ht].
  split; [unfold getHeadSlot; rewrite Hh; now rewrite (Hall _ _ Hh)|].
  split; [unfold getTailSlot; rewrite Ht; now rewrite (Hall _ _ Ht)|].
  split; [reflexivity|]. split; [reflexivity|]. split; [reflexivity|].
  unfold isEmpty. rewrite forallb_forall, He. simpl. split.
  - intros Hf. apply eqb_eq, Hf, list_elem_of_In, list_elem_of_lookup.
    exists (headOffset (ticks n (fill value b)) + i).
    rewrite Hh. now rewrite (Hall _ _ Hh).
  - intros -> z Hz. apply list_elem_of_In, list_elem_of_lookup in Hz as [k Hk].
    apply eqb_eq. now apply Hall in Hk.
Qed.

End Contents.

(** The buffer of two rows of two numbers used below. *)
Lemma make2_wf : wf (make 2 0%Z).
Proof. now apply make_wf. Qed.

Lemma X1_isEmpty_rows_witness :
  wf (setTailSlot (make 2 0%Z) 1 7%Z)
  /\ getTailSlot (setTailSlot (make 2 0%Z) 1 7%Z) 1 = Some 7%Z
  /\ isEmpty Z.eqb (setTailSlot (make 2 0%Z) 1 7%Z) <> true
  /\ isEmpty Z.eqb (make 2 0%Z) = true.
Proof.
  split; [apply setTailSlot_wf, make2_wf|]. split; [reflexivity|].
  destruct (X1_isEmpty_rows Z.eqb Z.eqb_eq (setTailSlot (make 2 0%Z) 1 7%Z)
              (setTailSlot_wf _ 1 7%Z make2_wf)) as [Hiff Hmake].
  split; [|apply Hmake].
  intros He. destruct (proj1 Hiff He 1) as [_ Ht]; [vm_compute; lia|].
  discriminate Ht.
Defined.

Lemma X2_rows_independent_witness :
  wf (make 2 0%Z) /\ 1 < width (make 2 0%Z)
  /\ getTailSlot (setTailSlot (make 2 0%Z) 1 7%Z) 1 = Some 7%Z
  /\ getHeadSlot (setTailSlot (make 2 0%Z) 1 7%Z) 1 = getHeadSlot (make 2 0%Z) 1.
Proof.
  split; [apply make2_wf|]. split; [vm_compute; lia|].
  destruct (X2_rows_independent (make 2 0%Z) 1 7%Z make2_wf)
    as (H1 & _ & H3 & _); [vm_compute; lia|].
  split; [exact H1|]. apply H3. vm_compute; lia.
Defined.

Lemma X3_fill_all_slots_witness :
  wf (stall true (setTailSlot (make 2 0%Z) 1 7%Z))
  /\ 1 < width (stall true (setTailSlot (make 2 0%Z) 1 7%Z))
  /\ getHeadSlot
       (ticks 3 (fill 9%Z (stall true (setTailSlot (make 2 0%Z) 1 7%Z)))) 1
     = Some 9%Z
  /\ isStalled (fill 9%Z (stall true (setTailSlot (make 2 0%Z) 1 7%Z))) = true.
Proof.
  split; [apply stall_wf, setTailSlot_wf, make2_wf|]. split; [vm_compute; lia|].
  destruct (X3_fill_all_slots Z.eqb Z.eqb_eq
              (stall true (setTailSlot (make 2 0%Z) 1 7%Z)) 9%Z 3 1)
    as (H1 & _ & _ & H4 & _);
    [apply stall_wf, setTailSlot_wf, make2_wf | vm_compute; lia |].
  split; [exact H1|exact H4].
Defined.

End PipelineBuffer.

(** ** Data shared by the units *)

(** [Register] is [{type : u8, tag : u16}]. *)
Record Register : Type := mkRegister { rtype : Z; rtag : Z }.

(** A [RegisterValue] is a byte container; [RegisterValue()] is empty. *)
Definition RegisterValue : Type := list byte.

(** [MemoryAccessTarget] is [{uint64_t vaddr; uint16_t size}]. *)
Record MemoryAccessTarget : Type := mkTarget { vaddr : Z; size : Z }.

(** What the units read from an [Instruction] through its getters, as
    observed when the unit's function is called. Calls that change an
    instruction ([execute], [supplyData], ...) are recorded in the calling
    unit's state as a log of calls on the instruction. *)
Record Instruction : Type := mkInstruction {
  sequenceId : Z;
  instructionId : Z;
  microOpIndex : Z;
  instructionAddress : Z;
  generatedAddresses : list MemoryAccessTarget;
  lsqLatency : Z;
  data : list RegisterValue;
  destinationRegisters : list Register;
  isLoad : bool;
  isStore : bool;
  isStoreData : bool;
  isStoreCond : bool;
  isLoadReserved : bool;
  isCondResultReady : bool;
  canCommit : bool;
  exceptionEncountered : bool
}.

(** ** std::map with 64-bit keys: a list of bindings in ascending key order *)

Module StdMap.
Section Map.
Context {V : Type}.

Definition t : Type := list (Z * V).

  (** [find]: the binding of [k], if any. *)
Fixpoint find (k : Z) (m : t) : option V :=
    match m with
    | [] => None
    | (k', v) :: m' => if (k' =? k)%Z then Some v else find k m'
    end.

  (** A new binding goes before the first greater key. *)
Fixpoint insert_sorted (k : Z) (v : V) (m : t) : t :=
    match m with
    | [] => [(k, v)]
    | (k', v') :: m' =>
        if (k <? k')%Z then (k, v) :: m else (k', v') :: insert_sorted k v m'
    end.

  (** The mapped value of an existing key is changed in place. *)
Fixpoint replace (k : Z) (f : V -> V) (m : t) : t :=
    match m with
    | [] => []
    | (k', v') :: m' =>
        if (k' =? k)%Z then (k', f v') :: m' else (k', v') :: replace k f m'
    end.

  (** [operator[]] followed by an update of the mapped value: a missing key
      is first bound to the default [d]. *)
Definition update (k : Z) (d : V) (f : V -> V) (m : t) : t :=
    match find k m with
    | Some _ => replace k f m
    | None => insert_sorted k (f d) m
    end.

  (** [emplace]: binds [k] unless it is bound already. *)
Definition emplace (k : Z) (v : V) (m : t) : t :=
    match find k m with
    | Some _ => m
    | None => insert_sorted k v m
    end.

  (** [erase] by key. *)
Fixpoint erase (k : Z) (m : t) : t :=
    match m with
    | [] => []
    | (k', v) :: m' => if (k' =? k)%Z then m' else (k', v) :: erase k m'
    end.

Definition values (m : t) : list V := map snd m.
Definition keys (m : t) : list Z := map fst m.


Lemma In_insert_sorted k v m kv :
    In kv (insert_sorted k v m) <-> kv = (k, v) \/ In kv m.
  Proof.
    induction m as [|[k' v'] m IH]; simpl.
    - intuition.
    - destruct (k <? k')%Z; simpl; [intuition|].
      rewrite IH. intuition.
  Qed.



Lemma In_emplace k v m kv :
    In kv (emplace k v m) -> kv = (k, v) \/ In kv m.
  Proof.
    unfold emplace. destruct (find k m); [auto|]. now rewrite In_insert_sorted.
  Qed.

Lemma In_erase k m kv : In kv (erase k m) -> In kv m.
  Proof.
    induction m as [|[k' v'] m IH]; simpl; [tauto|].
    destruct (k' =? k)%Z; simpl; [tauto|].
    intros [<-|H]; auto.
  Qed.

Lemma find_insert_sorted_eq k v m :
    find k m = None -> find k (insert_sorted k v m) = Some v.
  Proof.
    induction m as [|[k' v'] m IH]; simpl.
    - now rewrite Z.eqb_refl.
    - destruct (Z.eqb_spec k' k) as [->|Hne]; [discriminate|].
      intros H. destruct (k <? k')%Z; simpl.
      + now rewrite Z.eqb_refl.
      + destruct (Z.eqb_spec k' k); [lia|]. now apply IH.
  Qed.

Lemma find_insert_sorted_ne k k0 v m :
    k0 <> k -> find k0 (insert_sorted k v m) = find k0 m.
  Proof.
    intros Hne. induction m as [|[k' v'] m IH]; simpl.
    - destruct (Z.eqb_spec k k0); [lia|reflexivity].
    - destruct (k <? k')%Z; simpl.
      + destruct (Z.eqb_spec k k0); [lia|reflexivity].
      + now rewrite IH.
  Qed.

Lemma find_replace_eq k f m :
    find k (replace k f m) = option_map f (find k m).
  Proof.
    induction m as [|[k' v'] m IH]; simpl; [reflexivity|].
    destruct (Z.eqb_spec k' k) as [->|Hne]; simpl.
    - now rewrite Z.eqb_refl.
    - destruct (Z.eqb_spec k' k); [lia|]. exact IH.
  Qed.

Lemma find_replace_ne k k0 f m :
    k0 <> k -> find k0 (replace k f m) = find k0 m.
  Proof.
    intros Hne. induction m as [|[k' v'] m IH]; simpl; [reflexivity|].
    destruct (Z.eqb_spec k' k) as [->|Hne']; simpl.
    - destruct (Z.eqb_spec k k0); [lia|reflexivity].
    - now rewrite IH.
  Qed.

Lemma find_update_eq k d f m :
    find k (update k d f m) = Some (f (default d (find k m))).
  Proof.
    unfold update. destruct (find k m) as [v|] eqn:E.
    - now rewrite find_replace_eq, E.
    - now apply find_insert_sorted_eq.
  Qed.

Lemma find_update_ne k k0 d f m :
    k0 <> k -> find k0 (update k d f m) = find k0 m.
  Proof.
    intros Hne. unfold update. destruct (find k m).
    - now apply find_replace_ne.
    - now apply find_insert_sorted_ne.
  Qed.

Lemma find_erase_ne k k0 m : k0 <> k -> find k0 (erase k m) = find k0 m.
  Proof.
    intros Hne. induction m as [|[k' v'] m IH]; simpl; [reflexivity|].
    destruct (Z.eqb_spec k' k) as [->|Hne']; simpl.
    - destruct (Z.eqb_spec k k0); [lia|reflexivity].
    - now rewrite IH.
  Qed.

End Map.
Arguments t : clear implicits.
End StdMap.

(** ** LoadStoreQueue *)

Module LSQ.

Inductive CompletionOrder : Type := INORDER | OUTOFORDER.

(** Calls made on instructions held by the queue. *)
Inductive InsnCall : Type :=
| CallExecute (insn : Instruction)
| CallSetCommitReady (insn : Instruction) (ready : bool)
| CallSupplyData (insn : Instruction) (address : Z) (value : RegisterValue).

(** The members of [LoadStoreQueue] that its functions read and write.
    [requestedLoads_] maps a sequence id to the load and a cycle stamp,
    [conflictionMap_] maps a store's sequence id to the loads waiting on it,
    the two request queues map a due cycle to the instructions to send. *)
Record t : Type := mk {
  completionOrder_ : CompletionOrder;
  loadQueue_ : list Instruction;
  storeQueue_ : list (Instruction * list RegisterValue);
  requestedLoads_ : StdMap.t (Instruction * Z);
  conflictionMap_ : StdMap.t (list Instruction);
  requestLoadQueue_ : StdMap.t (list Instruction);
  requestStoreQueue_ : StdMap.t (list Instruction);
  completedRequests_ : list Instruction;
  requestedCondStore_ : option Instruction;
  violatingLoad_ : option Instruction;
  tickCounter_ : Z;
  calls : list InsnCall
}.

Definition set_loadQueue (f : list Instruction -> list Instruction) (q : t) : t :=
  mk (completionOrder_ q) (f (loadQueue_ q)) (storeQueue_ q) (requestedLoads_ q)
     (conflictionMap_ q) (requestLoadQueue_ q) (requestStoreQueue_ q)
     (completedRequests_ q) (requestedCondStore_ q) (violatingLoad_ q)
     (tickCounter_ q) (calls q).
Definition set_storeQueue
    (f : list (Instruction * list RegisterValue) ->
         list (Instruction * list RegisterValue)) (q : t) : t :=
  mk (completionOrder_ q) (loadQueue_ q) (f (storeQueue_ q)) (requestedLoads_ q)
     (conflictionMap_ q) (requestLoadQueue_ q) (requestStoreQueue_ q)
     (completedRequests_ q) (requestedCondStore_ q) (violatingLoad_ q)
     (tickCounter_ q) (calls q).
Definition set_requestedLoads
    (f : StdMap.t (Instruction * Z) -> StdMap.t (Instruction * Z)) (q : t) : t :=
  mk (completionOrder_ q) (loadQueue_ q) (storeQueue_ q) (f (requestedLoads_ q))
     (conflictionMap_ q) (requestLoadQueue_ q) (requestStoreQueue_ q)
     (completedRequests_ q) (requestedCondStore_ q) (violatingLoad_ q)
     (tickCounter_ q) (calls q).
Definition set_conflictionMap
    (f : StdMap.t (list Instruction) -> StdMap.t (list Instruction)) (q : t) : t :=
  mk (completionOrder_ q) (loadQueue_ q) (storeQueue_ q) (requestedLoads_ q)
     (f (conflictionMap_ q)) (requestLoadQueue_ q) (requestStoreQueue_ q)
     (completedRequests_ q) (requestedCondStore_ q) (violatingLoad_ q)
     (tickCounter_ q) (calls q).
Definition set_requestLoadQueue
    (f : StdMap.t (list Instruction) -> StdMap.t (list Instruction)) (q : t) : t :=
  mk (completionOrder_ q) (loadQueue_ q) (storeQueue_ q) (requestedLoads_ q)
     (conflictionMap_ q) (f (requestLoadQueue_ q)) (requestStoreQueue_ q)
     (completedRequests_ q) (requestedCondStore_ q) (violatingLoad_ q)
     (tickCounter_ q) (calls q).
Definition set_requestStoreQueue
    (f : StdMap.t (list Instruction) -> StdMap.t (list Instruction)) (q : t) : t :=
  mk (completionOrder_ q) (loadQueue_ q) (storeQueue_ q) (requestedLoads_ q)
     (conflictionMap_ q) (requestLoadQueue_ q) (f (requestStoreQueue_ q))
     (completedRequests_ q) (requestedCondStore_ q) (violatingLoad_ q)
     (tickCounter_ q) (calls q).
Definition set_completedRequests
    (f : list Instruction -> list Instruction) (q : t) : t :=
  mk (completionOrder_ q) (loadQueue_ q) (storeQueue_ q) (requestedLoads_ q)
     (conflictionMap_ q) (requestLoadQueue_ q) (requestStoreQueue_ q)
     (f (completedRequests_ q)) (requestedCondStore_ q) (violatingLoad_ q)
     (tickCounter_ q) (calls q).
Definition set_requestedCondStore (v : option Instruction) (q : t) : t :=
  mk (completionOrder_ q) (loadQueue_ q) (storeQueue_ q) (requestedLoads_ q)
     (conflictionMap_ q) (requestLoadQueue_ q) (requestStoreQueue_ q)
     (completedRequests_ q) v (violatingLoad_ q) (tickCounter_ q) (calls q).
Definition set_violatingLoad (v : option Instruction) (q : t) : t :=
  mk (completionOrder_ q) (loadQueue_ q) (storeQueue_ q) (requestedLoads_ q)
     (conflictionMap_ q) (requestLoadQueue_ q) (requestStoreQueue_ q)
     (completedRequests_ q) (requestedCondStore_ q) v (tickCounter_ q) (calls q).
Definition set_tickCounter (c : Z) (q : t) : t :=
  mk (completionOrder_ q) (loadQueue_ q) (storeQueue_ q) (requestedLoads_ q)
     (conflictionMap_ q) (requestLoadQueue_ q) (requestStoreQueue_ q)
     (completedRequests_ q) (requestedCondStore_ q) (violatingLoad_ q) c (calls q).
Definition log_call (c : InsnCall) (q : t) : t :=
  mk (completionOrder_ q) (loadQueue_ q) (storeQueue_ q) (requestedLoads_ q)
     (conflictionMap_ q) (requestLoadQueue_ q) (requestStoreQueue_ q)
     (completedRequests_ q) (requestedCondStore_ q) (violatingLoad_ q)
     (tickCounter_ q) (calls q ++ [c]).

(** [requestsOverlap]: neither region ends before the other begins; the sums
    are 64-bit. *)
Definition requestsOverlap (a b : MemoryAccessTarget) : bool :=
  negb ((wrap64 (vaddr a + size a) <=? vaddr b)%Z
        || (wrap64 (vaddr b + size b) <=? vaddr a)%Z).

Definition addLoad (insn : Instruction) (q : t) : t :=
  set_loadQueue (fun l => l ++ [insn]) q.
Definition addStore (insn : Instruction) (q : t) : t :=
  set_storeQueue (fun l => l ++ [(insn, [])]) q.

(** The two nested loops over store and load addresses that leave at the
    first overlapping pair. *)
Definition anyOverlap (str_addresses ld_addresses : list MemoryAccessTarget) : bool :=
  existsb (fun strAddr =>
             existsb (fun ldAddr => requestsOverlap strAddr ldAddr) ld_addresses)
          str_addresses.

(** The walk of [startLoad] over the store queue, from [rbegin] on: the first
    store older than the load with an overlapping address. *)
Fixpoint findConflict (seqId : Z) (ld_addresses : list MemoryAccessTarget)
    (stores : list (Instruction * list RegisterValue)) : option Instruction :=
  match stores with
  | [] => None
  | (store, _) :: rest =>
      if (sequenceId store <? seqId)%Z
         && anyOverlap (generatedAddresses store) ld_addresses
      then Some store
      else findConflict seqId ld_addresses rest
  end.

Definition push_request (cycle : Z) (insn : Instruction)
    (m : StdMap.t (list Instruction)) : StdMap.t (list Instruction) :=
  StdMap.update cycle [] (fun l => l ++ [insn]) m.

Definition startLoad (insn : Instruction) (q : t) : t :=
  let ld_addresses := generatedAddresses insn in
  if (length ld_addresses =? 0)%nat then
    set_completedRequests (fun l => l ++ [insn]) (log_call (CallExecute insn) q)
  else
    let q1 := match completionOrder_ q with
              | INORDER => set_completedRequests (fun l => l ++ [insn]) q
              | OUTOFORDER => q
              end in
    match findConflict (sequenceId insn) ld_addresses (rev (storeQueue_ q1)) with
    | Some store =>
        set_conflictionMap
          (StdMap.update (sequenceId store) [] (fun l => l ++ [insn])) q1
    | None =>
        set_requestedLoads (StdMap.emplace (sequenceId insn) (insn, 0%Z))
          (set_requestLoadQueue
             (push_request (wrap64 (tickCounter_ q1 + lsqLatency insn)) insn) q1)
    end.

(** The search of [supplyStoreData] for the store-queue entry of the same
    macro-op and micro-op index. *)
Fixpoint attachData (macroOpNum microOpNum : Z) (d : list RegisterValue)
    (stores : list (Instruction * list RegisterValue))
    : list (Instruction * list RegisterValue) :=
  match stores with
  | [] => []
  | (entry, old) :: rest =>
      if (instructionId entry =? macroOpNum)%Z && (microOpIndex entry =? microOpNum)%Z
      then (entry, d) :: rest
      else (entry, old) :: attachData macroOpNum microOpNum d rest
  end.

Definition supplyStoreData (insn : Instruction) (q : t) : t :=
  if negb (isStoreData insn) then q
  else set_storeQueue
         (attachData (instructionId insn) (microOpIndex insn) (data insn)) q.

(** [uop->supplyData(addresses[i].vaddr, data[i])] for each data item. *)
Fixpoint supplyAll (uop : Instruction) (addresses : list MemoryAccessTarget)
    (d : list RegisterValue) (q : t) : t :=
  match addresses, d with
  | a :: addresses', v :: d' =>
      supplyAll uop addresses' d' (log_call (CallSupplyData uop (vaddr a) v) q)
  | _, _ => q
  end.

(** [startStore]; [None] is a failed assertion (or the front of an empty
    store queue). *)
Definition startStore (uop : Instruction) (q : t) : option t :=
  match storeQueue_ q with
  | [] => None
  | (_, d) :: _ =>
      let addresses := generatedAddresses uop in
      if (length addresses =? 0)%nat then Some q
      else
        let q1 := log_call (CallSetCommitReady uop false) q in
        if negb (length addresses =? length d)%nat then None
        else
          let q2 := supplyAll uop addresses d q1 in
          let q3 := set_requestStoreQueue (push_request (tickCounter_ q2) uop) q2 in
          if isStoreCond uop && negb (isCondResultReady uop) then
            match requestedCondStore_ q3 with
            | Some _ => None
            | None =>
                let q4 := set_requestedCondStore (Some uop) q3 in
                Some (match completionOrder_ q4 with
                      | INORDER => set_completedRequests (fun l => l ++ [uop]) q4
                      | OUTOFORDER => q4
                      end)
            end
          else Some q3
  end.

(** One round of the loop of [commitStore] over [requestedLoads_]: the body
    run on [load] with the current [violatingLoad_]. *)
Definition scanLoad (uop : Instruction) (addresses : list MemoryAccessTarget)
    (violating : option Instruction) (load : Z * (Instruction * Z))
    : option Instruction :=
  let ld := fst (snd load) in
  if match violating with
     | Some v => (sequenceId ld >? sequenceId v)%Z
     | None => false
     end
  then violating
  else if negb (sequenceId ld =? sequenceId uop)%Z then
    fold_left
      (fun viol storeReq =>
         fold_left
           (fun viol' loadReq =>
              if requestsOverlap storeReq loadReq then Some ld else viol')
           (generatedAddresses ld) viol)
      addresses violating
  else violating.

(** The loads released by a committing store: each is queued for the cycle
    [tickCounter_ + 1 + latency] and registered in [requestedLoads_]. *)
Definition releaseLoad (q : t) (load : Instruction) : t :=
  set_requestedLoads (StdMap.emplace (sequenceId load) (load, 0%Z))
    (set_requestLoadQueue
       (push_request (wrap64 (tickCounter_ q + 1 + lsqLatency load)) load) q).

(** [commitStore]; [None] is a failed assertion. *)
Definition commitStore (uop : Instruction) (q : t) : option (bool * t) :=
  match storeQueue_ q with
  | [] => None
  | (front, _) :: _ =>
      if negb (sequenceId front =? sequenceId uop)%Z then None
      else
        let addresses := generatedAddresses uop in
        if (length addresses =? 0)%nat then
          Some (false, set_storeQueue (fun l => tail l) q)
        else
          let violating :=
            fold_left (scanLoad uop addresses) (requestedLoads_ q) None in
          let q1 := set_violatingLoad violating q in
          let q2 :=
            match StdMap.find (sequenceId uop) (conflictionMap_ q1) with
            | Some ldVec =>
                set_conflictionMap (StdMap.erase (sequenceId uop))
                  (fold_left releaseLoad ldVec q1)
            | None => q1
            end in
          Some (match violatingLoad_ q2 with Some _ => true | None => false end,
                set_storeQueue (fun l => tail l) q2)
  end.

Definition getViolatingLoad (q : t) : option Instruction := violatingLoad_ q.

(** The first entry of the load queue that is a load. *)
Fixpoint firstLoad (loads : list Instruction) : option Instruction :=
  match loads with
  | [] => None
  | entry :: rest => if isLoad entry then Some entry else firstLoad rest
  end.
Fixpoint eraseFirstLoad (loads : list Instruction) : list Instruction :=
  match loads with
  | [] => []
  | entry :: rest => if isLoad entry then rest else entry :: eraseFirstLoad rest
  end.

(** [commitLoad]; [None] is a failed assertion. *)
Definition commitLoad (uop : Instruction) (q : t) : option t :=
  match loadQueue_ q with
  | [] => None
  | front :: _ =>
      if negb (sequenceId front =? sequenceId uop)%Z then None
      else
        match firstLoad (loadQueue_ q) with
        | Some entry =>
            Some (set_loadQueue eraseFirstLoad
                    (set_requestedLoads (StdMap.erase (sequenceId entry)) q))
        | None => Some q
        end
  end.

(** [purgeFlushed]; [flushed] is [isFlushed()] of each instruction at the
    time of the call. *)
Definition keepLive (flushed : Instruction -> bool) (l : list Instruction)
    : list Instruction :=
  List.filter (fun i => negb (flushed i)) l.

Definition purgeFlushed (flushed : Instruction -> bool) (q : t) : t :=
  (* flushed loads leave the load queue and requestedLoads_ *)
  let q1 := set_requestedLoads
              (fun m => fold_left
                          (fun m' entry =>
                             if flushed entry
                             then StdMap.erase (sequenceId entry) m' else m')
                          (loadQueue_ q) m) q in
  let q2 := set_loadQueue (keepLive flushed) q1 in
  (* flushed stores leave the store queue, with their confliction entry *)
  let q3 := set_conflictionMap
              (fun m => fold_left
                          (fun m' entry =>
                             if flushed (fst entry)
                             then StdMap.erase (sequenceId (fst entry)) m' else m')
                          (storeQueue_ q2) m) q2 in
  let q4 := set_storeQueue
              (List.filter (fun entry => negb (flushed (fst entry)))) q3 in
  (* flushed loads leave the confliction map *)
  let q5 := set_conflictionMap
              (map (fun kv => (fst kv, keepLive flushed (snd kv)))) q4 in
  (* flushed loads leave the load request queue; empty entries are erased *)
  set_requestLoadQueue
    (fun m => List.filter (fun kv => negb (length (snd kv) =? 0)%nat)
                (map (fun kv => (fst kv, keepLive flushed (snd kv))) m)) q5.

Section Tick.
  (** The MMU behind [mmu_]: its state and the two calls of [tick]. *)
Context {M : Type}.
Variable requestRead : Instruction -> M -> bool * M.
Variable requestWrite : Instruction -> list RegisterValue -> M -> bool * M.

  (** One call of [requestRead] or [requestWrite] made by [tick]: the type
      of the request, the due cycle of its queue entry, the instruction and
      the MMU's answer. *)
Record Sent : Type := mkSent {
    sentStore : bool;
    sentCycle : Z;
    sentInsn : Instruction;
    sentAccepted : bool
  }.

  (** The inner loop over the instructions of the chosen entry: accepted
      requests are erased from the vector, the first rejection ends the loop.
      The result is the remaining vector, whether no request was rejected,
      the MMU and the calls made. *)
Fixpoint sendInsns (isStoreReq : bool) (cycle : Z) (insns : list Instruction)
      (mmu : M) : list Instruction * bool * M * list Sent :=
    match insns with
    | [] => ([], true, mmu, [])
    | insn :: rest =>
        let (accepted, mmu') :=
          if isStoreReq then requestWrite insn (data insn) mmu
          else requestRead insn mmu in
        if accepted then
          let '(remaining, ok, mmu'', sent) :=
            sendInsns isStoreReq cycle rest mmu' in
          (remaining, ok, mmu'', mkSent isStoreReq cycle insn true :: sent)
        else (insns, false, mmu', [mkSent isStoreReq cycle insn false])
    end.

  (** The variables of the request loop of [tick]. Both iterators stay at
      the [begin()] of their queue: they only move by the [erase] of the
      first entry. *)
Record Dispatch : Type := mkDispatch {
    dLoadQueue : StdMap.t (list Instruction);
    dStoreQueue : StdMap.t (list Instruction);
    exceededLoad : bool;
    exceededStore : bool;
    dMMU : M;
    dSent : list Sent
  }.

  (** [earliestLoad] and [earliestStore]. *)
Definition earliest (queue : StdMap.t (list Instruction)) (exceeded : bool)
      : bool * Z :=
    match queue with
    | [] => (false, 0%Z)
    | (cycle, _) :: _ => if exceeded then (false, 0%Z) else (true, cycle)
    end.

  (** The choice between the two: [Some chooseLoad], or [None] for [break]. *)
Definition choose (earliestLoad earliestStore : bool * Z) : option bool :=
    if fst earliestLoad then
      Some (negb (fst earliestStore
                  && (snd earliestLoad >=? snd earliestStore)%Z))
    else if negb (fst earliestStore) then None
    else Some false.

Fixpoint sendLoop (fuel : nat) (now : Z) (d : Dispatch) : option Dispatch :=
    match fuel with
    | O => None
    | S fuel' =>
        if (length (dLoadQueue d) + length (dStoreQueue d) =? 0)%nat then Some d
        else
          match choose (earliest (dLoadQueue d) (exceededLoad d))
                       (earliest (dStoreQueue d) (exceededStore d)) with
          | None => Some d
          | Some chooseLoad =>
              match (if chooseLoad then dLoadQueue d else dStoreQueue d) with
              | [] => None
              | (cycle, insns) :: others =>
                  if (cycle <=? now)%Z then
                    let '(remaining, ok, mmu', sent) :=
                      sendInsns (negb chooseLoad) cycle insns (dMMU d) in
                    let queue' :=
                      if (length remaining =? 0)%nat then others
                      else (cycle, remaining) :: others in
                    sendLoop fuel' now
                      {| dLoadQueue := if chooseLoad then queue' else dLoadQueue d;
                         dStoreQueue := if chooseLoad then dStoreQueue d else queue';
                         exceededLoad :=
                           if chooseLoad then exceededLoad d || negb ok
                           else exceededLoad d;
                         exceededStore :=
                           if chooseLoad then exceededStore d
                           else exceededStore d || negb ok;
                         dMMU := mmu';
                         dSent := dSent d ++ sent |}
                  else Some d
              end
          end
    end.

  (** [tick], up to the end of the request loop: the cycle counter is
      incremented and the ready requests are sent. The rest of [tick] moves
      completed instructions to the completion slots and touches neither the
      request queues nor the MMU. *)
Definition tickStart (q : t) (mmu : M) : Dispatch :=
    {| dLoadQueue := requestLoadQueue_ q; dStoreQueue := requestStoreQueue_ q;
       exceededLoad := false; exceededStore := false;
       dMMU := mmu; dSent := [] |}.

Definition tickFuel (d : Dispatch) : nat :=
    length (dLoadQueue d) + length (dStoreQueue d) + 3.

Definition tick (q : t) (mmu : M) : option (t * M * list Sent) :=
    let q1 := set_tickCounter (wrap64 (tickCounter_ q + 1)) q in
    match sendLoop (tickFuel (tickStart q1 mmu)) (tickCounter_ q1)
                   (tickStart q1 mmu) with
    | Some d =>
        Some (set_requestStoreQueue (fun _ => dStoreQueue d)
                (set_requestLoadQueue (fun _ => dLoadQueue d) q1),
              dMMU d, dSent d)
    | None => None
    end.

  (** The calls that change the queue, and a run of one of them. *)
Inductive Op : Type :=
  | OpAddLoad (insn : Instruction)
  | OpAddStore (insn : Instruction)
  | OpStartLoad (insn : Instruction)
  | OpSupplyStoreData (insn : Instruction)
  | OpStartStore (uop : Instruction)
  | OpCommitStore (uop : Instruction)
  | OpCommitLoad (uop : Instruction)
  | OpPurgeFlushed (flushed : Instruction -> bool)
  | OpTick (mmu : M).

Definition run (op : Op) (q : t) : option t :=
    match op with
    | OpAddLoad insn => Some (addLoad insn q)
    | OpAddStore insn => Some (addStore insn q)
    | OpStartLoad insn => Some (startLoad insn q)
    | OpSupplyStoreData insn => Some (supplyStoreData insn q)
    | OpStartStore uop => startStore uop q
    | OpCommitStore uop => option_map snd (commitStore uop q)
    | OpCommitLoad uop => commitLoad uop q
    | OpPurgeFlushed flushed => Some (purgeFlushed flushed q)
    | OpTick mmu => option_map (fun r => fst (fst r)) (tick q mmu)
    end.

Fixpoint runAll (ops : list Op) (q : t) : option t :=
    match ops with
    | [] => Some q
    | op :: ops' =>
        match run op q with
        | Some q' => runAll ops' q'
        | None => None
        end
    end.

End Tick.

(** *** Properties of [commitStore] *)










(** C9. [commitStore] on a store without generated addresses returns false,
    removes the front entry of the store queue and nothing else:
    [requestedLoads_], [conflictionMap_], the load request queue and the
    recorded [violatingLoad_] are as before. *)
Theorem C9_commitStore_no_addresses
    (uop front : Instruction) (d : list RegisterValue)
    (rest : list (Instruction * list RegisterValue)) (q : t) :
  storeQueue_ q = (front, d) :: rest ->
  sequenceId front = sequenceId uop ->
  generatedAddresses uop = [] ->
  exists q', commitStore uop q = Some (false, q')
    /\ storeQueue_ q' = rest
    /\ requestedLoads_ q' = requestedLoads_ q
    /\ conflictionMap_ q' = conflictionMap_ q
    /\ violatingLoad_ q' = violatingLoad_ q
    /\ getViolatingLoad q' = getViolatingLoad q
    /\ requestLoadQueue_ q' = requestLoadQueue_ q
    /\ requestStoreQueue_ q' = requestStoreQueue_ q
    /\ loadQueue_ q' = loadQueue_ q
    /\ completedRequests_ q' = completedRequests_ q
    /\ tickCounter_ q' = tickCounter_ q.
Proof.
  intros Hq Hseq Haddr. unfold commitStore. rewrite Hq, Hseq, Z.eqb_refl, Haddr.
  simpl. eexists. split; [reflexivity|]. simpl. rewrite Hq. simpl.
  repeat split; reflexivity.
Qed.


(** *** Concrete instructions and queues for the examples *)

Definition insn (seq : Z) (addresses : list MemoryAccessTarget) (latency : Z)
    (load : bool) : Instruction :=
  {| sequenceId := seq; instructionId := seq; microOpIndex := 0;
     instructionAddress := (4096 + 4 * seq)%Z;
     generatedAddresses := addresses; lsqLatency := latency;
     data := []; destinationRegisters := [];
     isLoad := load; isStore := negb load; isStoreData := false;
     isStoreCond := false; isLoadReserved := false; isCondResultReady := false;
     canCommit := true; exceptionEncountered := false |}.

Definition emptyQueue (order : CompletionOrder) (now : Z) : t :=
  {| completionOrder_ := order; loadQueue_ := []; storeQueue_ := [];
     requestedLoads_ := []; conflictionMap_ := []; requestLoadQueue_ := [];
     requestStoreQueue_ := []; completedRequests_ := [];
     requestedCondStore_ := None; violatingLoad_ := None;
     tickCounter_ := now; calls := [] |}.

(** A store with sequence id 5 writing bytes 100..107, and a load reading
    bytes 104..107. *)
Definition store5 : Instruction := insn 5 [mkTarget 100 8] 1 false.
Definition load7 : Instruction := insn 7 [mkTarget 104 4] 2 true.
Definition load9 : Instruction := insn 9 [mkTarget 100 2] 2 true.
Definition store6_noaddr : Instruction := insn 6 [] 1 false.


(** The store at the front and two younger requested loads. *)
Definition queue_younger_loads : t :=
  set_requestedLoads (fun _ => [(7%Z, (load7, 0%Z)); (9%Z, (load9, 0%Z))])
    (addStore store5 (emptyQueue OUTOFORDER 10)).



Lemma C9_commitStore_no_addresses_witness :
  exists q',
    commitStore store6_noaddr
      (set_violatingLoad (Some load7)
         (set_storeQueue (fun l => tail l)
            (addStore store6_noaddr queue_younger_loads)))
    = Some (false, q')
    /\ storeQueue_ q' = []
    /\ violatingLoad_ q' = Some load7.
Proof.
  destruct (C9_commitStore_no_addresses store6_noaddr store6_noaddr [] []
              (set_violatingLoad (Some load7)
                 (set_storeQueue (fun l => tail l)
                    (addStore store6_noaddr queue_younger_loads))))
    as (q' & H1 & H2 & _ & _ & H3 & _); [reflexivity..|].
  exists q'. auto.
Defined.

(** *** Loads held back by an older store *)

(** [L] has a request queued in the load request queue. *)
Definition scheduled (L : Instruction) (q : t) : Prop :=
  exists cycle l, In (cycle, l) (requestLoadQueue_ q) /\ In L l.








Lemma find_push_request_eq cycle i m :
  StdMap.find cycle (push_request cycle i m)
  = Some (default [] (StdMap.find cycle m) ++ [i]).
Proof.
  unfold push_request.
  exact (StdMap.find_update_eq cycle [] (fun l => l ++ [i]) m).
Qed.

Lemma find_push_request_ne cycle c i m :
  c <> cycle -> StdMap.find c (push_request cycle i m) = StdMap.find c m.
Proof. unfold push_request. apply StdMap.find_update_ne. Qed.




(** *** The request loop of [tick] *)

(** The order of the calls of one tick: by due cycle, and a store request
    before a load request of the same cycle. *)
Definition before (a b : Sent) : Prop :=
  (sentCycle a < sentCycle b)%Z
  \/ (sentCycle a = sentCycle b /\ (sentStore a = true \/ sentStore b = false)).

(** After a rejected call, no later call is of the same type. *)
Fixpoint noneAfterReject (sent : list Sent) : Prop :=
  match sent with
  | [] => True
  | x :: rest =>
      (sentAccepted x = false ->
       Forall (fun y => sentStore y <> sentStore x) rest)
      /\ noneAfterReject rest
  end.

(** A [std::map] keeps its keys in strictly ascending order. *)
Definition keysAscending {V : Type} (m : StdMap.t V) : Prop :=
  StronglySorted (fun a b => (fst a < fst b)%Z) m.

Lemma sorted_app {A : Type} (R : A -> A -> Prop) (a b : list A) :
  StronglySorted R a -> StronglySorted R b ->
  (forall x y, In x a -> In y b -> R x y) ->
  StronglySorted R (a ++ b).
Proof.
  induction a as [|x a IH]; simpl; intros Ha Hb Hab; [exact Hb|].
  apply StronglySorted_inv in Ha as [Ha Hx]. constructor.
  - apply IH; [exact Ha | exact Hb |].
    intros x' y Hx' Hy. apply Hab; [now right | exact Hy].
  - apply Forall_app. split; [exact Hx|].
    apply List.Forall_forall. intros y Hy. apply Hab; [now left | exact Hy].
Qed.

Lemma noneAfterReject_app (a b : list Sent) :
  noneAfterReject a -> noneAfterReject b ->
  (forall x y, In x a -> sentAccepted x = false -> In y b ->
               sentStore y <> sentStore x) ->
  noneAfterReject (a ++ b).
Proof.
  induction a as [|x a IH]; simpl; intros Ha Hb Hab; [exact Hb|].
  destruct Ha as [Hx Ha]. split.
  - intros Hrej. apply Forall_app. split; [auto|].
    apply List.Forall_forall. intros y Hy. apply (Hab x y); [now left|assumption..].
  - apply IH; [exact Ha | exact Hb |].
    intros x' y Hx' Hr Hy. apply (Hab x' y); [now right|assumption..].
Qed.

Section TickProps.
Context {M : Type}.
Variable requestRead : Instruction -> M -> bool * M.
Variable requestWrite : Instruction -> list RegisterValue -> M -> bool * M.

Local Abbreviation sendInsns := (sendInsns requestRead requestWrite).
Local Abbreviation sendLoop := (sendLoop requestRead requestWrite).
Local Abbreviation tick := (tick requestRead requestWrite).
Local Abbreviation run := (run requestRead requestWrite).
Local Abbreviation runAll := (runAll requestRead requestWrite).

Lemma sendInsns_spec s c insns : forall mmu remaining ok mmu' sent,
  sendInsns s c insns mmu = (remaining, ok, mmu', sent) ->
  incl remaining insns
  /\ (ok = true -> remaining = [] /\ Forall (fun x => sentAccepted x = true) sent)
  /\ (ok = false ->
      remaining <> []
      /\ exists acc x, sent = acc ++ [x]
           /\ Forall (fun y => sentAccepted y = true) acc
           /\ sentAccepted x = false)
  /\ Forall (fun x => sentStore x = s /\ sentCycle x = c) sent.
Proof.
  induction insns as [|i insns IH]; intros mmu remaining ok mmu' sent; simpl.
  - intros [= <- <- <- <-]. repeat split; auto; try discriminate.
    apply incl_refl.
  - destruct (if s then requestWrite i (data i) mmu else requestRead i mmu)
      as [accepted mmu1].
    destruct accepted.
    + destruct (sendInsns s c insns mmu1) as [[[rem1 ok1] mmu2] sent1] eqn:E.
      intros [= <- <- <- <-].
      destruct (IH _ _ _ _ _ E) as (Hincl & Hok & Hrej & Hall).
      split; [now apply incl_tl|]. split; [|split].
      * intros Ht. destruct (Hok Ht). split; [assumption|]. now constructor.
      * intros Hf. destruct (Hrej Hf) as (Hne & acc & x & -> & Hacc & Hx).
        split; [exact Hne|].
        exists (mkSent s c i true :: acc), x. split; [reflexivity|].
        split; [now constructor|exact Hx].
      * constructor; [now split|exact Hall].
    + intros [= <- <- <- <-]. split; [apply incl_refl|]. split; [discriminate|].
      split.
      * intros _. split; [discriminate|].
        exists [], (mkSent s c i false). repeat split. constructor.
      * constructor; [now split|constructor].
Qed.

Lemma sendInsns_noneAfterReject s c insns mmu remaining ok mmu' sent :
  sendInsns s c insns mmu = (remaining, ok, mmu', sent) ->
  noneAfterReject sent.
Proof.
  intros E. destruct (sendInsns_spec _ _ _ _ _ _ _ _ E) as (_ & Hok & Hrej & _).
  destruct ok.
  - destruct (Hok eq_refl) as [_ Hacc]. clear -Hacc.
    induction sent as [|x sent IH]; simpl; [exact I|].
    apply Forall_cons_iff in Hacc as [Hx Hacc]. split; [congruence|auto].
  - destruct (Hrej eq_refl) as (_ & acc & x & -> & Hacc & Hx). clear -Hacc.
    induction acc as [|y acc IH]; simpl.
    + split; [intros _; constructor|exact I].
    + apply Forall_cons_iff in Hacc as [Hy Hacc]. split; [congruence|auto].
Qed.

Lemma choose_load lq sq exL exS :
  choose (earliest lq exL) (earliest sq exS) = Some true ->
  exists cL l lq', lq = (cL, l) :: lq' /\ exL = false
    /\ (sq = [] \/ exS = true
        \/ exists cS ls sq', sq = (cS, ls) :: sq' /\ (cL < cS)%Z).
Proof.
  unfold choose, earliest.
  destruct lq as [|[cL l] lq']; simpl.
  - destruct sq as [|[cS ls] sq']; simpl; [discriminate|].
    destruct exS; simpl; discriminate.
  - destruct exL; simpl.
    + destruct sq as [|[cS ls] sq']; simpl; [discriminate|].
      destruct exS; simpl; discriminate.
    + intros H. exists cL, l, lq'. split; [reflexivity|]. split; [reflexivity|].
      destruct sq as [|[cS ls] sq']; [now left|]. right.
      destruct exS; [now left|]. right. simpl in H.
      exists cS, ls, sq'. split; [reflexivity|].
      destruct (Z.geb_spec cL cS); [discriminate|lia].
Qed.

Lemma choose_store lq sq exL exS :
  choose (earliest lq exL) (earliest sq exS) = Some false ->
  exists cS ls sq', sq = (cS, ls) :: sq' /\ exS = false
    /\ (lq = [] \/ exL = true
        \/ exists cL l lq', lq = (cL, l) :: lq' /\ (cS <= cL)%Z).
Proof.
  unfold choose, earliest.
  destruct sq as [|[cS ls] sq']; simpl.
  - destruct lq as [|[cL l] lq']; simpl; [discriminate|].
    destruct exL; simpl; discriminate.
  - destruct exS; simpl.
    + destruct lq as [|[cL l] lq']; simpl; [discriminate|].
      destruct exL; simpl; discriminate.
    + intros H. exists cS, ls, sq'. split; [reflexivity|]. split; [reflexivity|].
      destruct lq as [|[cL l] lq']; [now left|]. right.
      destruct exL; [now left|]. right. simpl in H.
      exists cL, l, lq'. split; [reflexivity|].
      destruct (Z.geb_spec cL cS); [lia|discriminate].
Qed.

Lemma choose_none lq sq exL exS :
  choose (earliest lq exL) (earliest sq exS) = None ->
  (lq = [] \/ exL = true) /\ (sq = [] \/ exS = true).
Proof.
  unfold choose, earliest.
  destruct lq as [|[cL l] lq']; simpl.
  - destruct sq as [|[cS ls] sq']; simpl; [auto|].
    destruct exS; simpl; [auto|discriminate].
  - destruct exL; simpl; [|discriminate].
    destruct sq as [|[cS ls] sq']; simpl; [auto|].
    destruct exS; simpl; [auto|discriminate].
Qed.

Lemma keysAscending_head {V : Type} c (l : V) m :
  keysAscending ((c, l) :: m) ->
  keysAscending m /\ forall c' l', In (c', l') m -> (c < c')%Z.
Proof.
  intros H. apply StronglySorted_inv in H as [Hm Hc]. split; [exact Hm|].
  intros c' l' Hin. rewrite List.Forall_forall in Hc. exact (Hc _ Hin).
Qed.

Lemma keysAscending_rehead {V : Type} c (l l2 : V) m :
  keysAscending ((c, l) :: m) -> keysAscending ((c, l2) :: m).
Proof.
  intros H. apply StronglySorted_inv in H as [Hm Hc]. constructor; assumption.
Qed.

Lemma same_entry_sorted s c (sent : list Sent) :
  Forall (fun x => sentStore x = s /\ sentCycle x = c) sent ->
  StronglySorted before sent.
Proof.
  induction sent as [|x sent IH]; intros H; [constructor|].
  apply Forall_cons_iff in H as [[Hs Hc] H]. constructor; [auto|].
  apply List.Forall_forall. intros y Hy. rewrite List.Forall_forall in H.
  destruct (H y Hy) as [Hs' Hc']. right. split; [congruence|].
  destruct s; [left|right]; congruence.
Qed.

(** What the loop keeps true of its variables. *)
Record LoopInv (now : Z) (d : @Dispatch M) : Prop := mkLoopInv {
  inv_loads : keysAscending (dLoadQueue d);
  inv_stores : keysAscending (dStoreQueue d);
  inv_sorted : StronglySorted before (dSent d);
  inv_next_load :
    exceededLoad d = false ->
    forall x c l, In x (dSent d) -> In (c, l) (dLoadQueue d) ->
                  (sentCycle x <= c)%Z;
  inv_next_store :
    exceededStore d = false ->
    forall x c l, In x (dSent d) -> In (c, l) (dStoreQueue d) ->
                  (sentCycle x < c)%Z \/ (sentCycle x = c /\ sentStore x = true);
  inv_ready : forall x, In x (dSent d) -> (sentCycle x <= now)%Z;
  inv_rejected :
    forall x, In x (dSent d) -> sentAccepted x = false ->
              (if sentStore x then exceededStore d else exceededLoad d) = true;
  inv_none_after : noneAfterReject (dSent d);
  inv_exceeded_load :
    exceededLoad d = true ->
    exists x, In x (dSent d) /\ sentStore x = false /\ sentAccepted x = false;
  inv_exceeded_store :
    exceededStore d = true ->
    exists x, In x (dSent d) /\ sentStore x = true /\ sentAccepted x = false
}.

(** What holds when the loop is left: a queue whose type was not rejected
    has no entry due by now. *)
Definition drained (now : Z) (d : @Dispatch M) : Prop :=
  (exceededLoad d = false ->
   forall c l, In (c, l) (dLoadQueue d) -> (now < c)%Z)
  /\ (exceededStore d = false ->
      forall c l, In (c, l) (dStoreQueue d) -> (now < c)%Z).

Lemma loop_step_load now d cL l lq' remaining ok mmu' sent :
  LoopInv now d ->
  dLoadQueue d = (cL, l) :: lq' -> exceededLoad d = false ->
  (dStoreQueue d = [] \/ exceededStore d = true
   \/ exists cS ls sq', dStoreQueue d = (cS, ls) :: sq' /\ (cL < cS)%Z) ->
  (cL <= now)%Z ->
  sendInsns false cL l (dMMU d) = (remaining, ok, mmu', sent) ->
  LoopInv now
    {| dLoadQueue := if (length remaining =? 0)%nat then lq'
                     else (cL, remaining) :: lq';
       dStoreQueue := dStoreQueue d;
       exceededLoad := exceededLoad d || negb ok;
       exceededStore := exceededStore d;
       dMMU := mmu'; dSent := dSent d ++ sent |}.
Proof.
  intros [Hl Hs Hso Hnl Hns Hrd Hrj Hna Hel Hes] Elq ExL Hst Hnow E.
  destruct (sendInsns_spec _ _ _ _ _ _ _ _ E) as (Hincl & Hok & Hrej & Hall).
  rewrite Elq in Hl, Hnl. destruct (keysAscending_head _ _ _ Hl) as [Hl' Hlt].
  rewrite List.Forall_forall in Hall.
  constructor; simpl.
  - destruct (length remaining =? 0)%nat; [exact Hl'|].
    now apply (keysAscending_rehead _ l).
  - exact Hs.
  - apply sorted_app; [exact Hso | |].
    + apply (same_entry_sorted false cL). now apply List.Forall_forall.
    + intros x y Hx Hy. destruct (Hall y Hy) as [Hty Hcy].
      pose proof (Hnl ExL x cL l Hx (or_introl eq_refl)) as Hle.
      unfold before. rewrite Hcy, Hty.
      destruct (Z.eq_dec (sentCycle x) cL); [right; auto|left; lia].
  - rewrite ExL; simpl. intros Hok' x c l0 Hx Hin.
    apply negb_false_iff in Hok'. destruct (Hok Hok') as [-> _]. simpl in Hin.
    apply in_app_or in Hx as [Hx|Hx].
    + apply (Hnl ExL x c l0 Hx). now right.
    + destruct (Hall x Hx) as [_ ->]. specialize (Hlt c l0 Hin). lia.
  - intros ExS x c l0 Hx Hin. apply in_app_or in Hx as [Hx|Hx].
    + now apply (Hns ExS x c l0).
    + destruct (Hall x Hx) as [_ ->]. left.
      destruct Hst as [Hst|[Hst|(cS & ls & sq' & Hst & Hlt')]];
        [rewrite Hst in Hin; destruct Hin | congruence |].
      rewrite Hst in Hin, Hs. destruct Hin as [[= <- <-]|Hin]; [exact Hlt'|].
      destruct (keysAscending_head _ _ _ Hs) as [_ Hlt2].
      specialize (Hlt2 c l0 Hin). lia.
  - intros x Hx. apply in_app_or in Hx as [Hx|Hx]; [auto|].
    destruct (Hall x Hx) as [_ ->]. exact Hnow.
  - intros x Hx Hr. apply in_app_or in Hx as [Hx|Hx].
    + specialize (Hrj x Hx Hr). destruct (sentStore x); [exact Hrj|].
      rewrite Hrj. reflexivity.
    + destruct (Hall x Hx) as [-> _]. rewrite ExL; simpl.
      destruct ok; [|reflexivity]. destruct (Hok eq_refl) as [_ Hacc].
      rewrite List.Forall_forall in Hacc. rewrite (Hacc x Hx) in Hr. discriminate.
  - apply noneAfterReject_app; [exact Hna | |].
    + eapply sendInsns_noneAfterReject; eauto.
    + intros x y Hx Hr Hy. destruct (Hall y Hy) as [-> _].
      specialize (Hrj x Hx Hr). destruct (sentStore x); [discriminate|congruence].
  - rewrite ExL; simpl. intros Hok'. apply negb_true_iff in Hok'.
    destruct (Hrej Hok') as (_ & acc & x & -> & _ & Hx).
    exists x. split; [apply in_or_app; right; apply in_or_app; right; now left|].
    split; [|exact Hx].
    apply (Hall x). apply in_or_app; right; now left.
  - intros ExS. destruct (Hes ExS) as (x & Hx & Hty & Hr).
    exists x. split; [apply in_or_app; now left|auto].
Qed.

Lemma loop_step_store now d cS ls sq' remaining ok mmu' sent :
  LoopInv now d ->
  dStoreQueue d = (cS, ls) :: sq' -> exceededStore d = false ->
  (dLoadQueue d = [] \/ exceededLoad d = true
   \/ exists cL l lq', dLoadQueue d = (cL, l) :: lq' /\ (cS <= cL)%Z) ->
  (cS <= now)%Z ->
  sendInsns true cS ls (dMMU d) = (remaining, ok, mmu', sent) ->
  LoopInv now
    {| dLoadQueue := dLoadQueue d;
       dStoreQueue := if (length remaining =? 0)%nat then sq'
                      else (cS, remaining) :: sq';
       exceededLoad := exceededLoad d;
       exceededStore := exceededStore d || negb ok;
       dMMU := mmu'; dSent := dSent d ++ sent |}.
Proof.
  intros [Hl Hs Hso Hnl Hns Hrd Hrj Hna Hel Hes] Esq ExS Hld Hnow E.
  destruct (sendInsns_spec _ _ _ _ _ _ _ _ E) as (Hincl & Hok & Hrej & Hall).
  rewrite Esq in Hs, Hns. destruct (keysAscending_head _ _ _ Hs) as [Hs' Hlt].
  rewrite List.Forall_forall in Hall.
  constructor; simpl.
  - exact Hl.
  - destruct (length remaining =? 0)%nat; [exact Hs'|].
    now apply (keysAscending_rehead _ ls).
  - apply sorted_app; [exact Hso | |].
    + apply (same_entry_sorted true cS). now apply List.Forall_forall.
    + intros x y Hx Hy. destruct (Hall y Hy) as [Hty Hcy].
      pose proof (Hns ExS x cS ls Hx (or_introl eq_refl)) as Hle.
      unfold before. rewrite Hcy. destruct Hle as [Hle|[Hle Hx']]; [now left|].
      right. auto.
  - intros ExL x c l0 Hx Hin. apply in_app_or in Hx as [Hx|Hx].
    + now apply (Hnl ExL x c l0).
    + destruct (Hall x Hx) as [_ ->].
      destruct Hld as [Hld|[Hld|(cL & l & lq' & Hld & Hle)]];
        [rewrite Hld in Hin; destruct Hin | congruence |].
      rewrite Hld in Hin, Hl. destruct Hin as [[= <- <-]|Hin]; [exact Hle|].
      destruct (keysAscending_head _ _ _ Hl) as [_ Hlt2].
      specialize (Hlt2 c l0 Hin). lia.
  - rewrite ExS; simpl. intros Hok' x c l0 Hx Hin.
    apply negb_false_iff in Hok'. destruct (Hok Hok') as [-> _]. simpl in Hin.
    apply in_app_or in Hx as [Hx|Hx].
    + apply (Hns ExS x c l0 Hx). now right.
    + destruct (Hall x Hx) as [_ ->]. left. exact (Hlt c l0 Hin).
  - intros x Hx. apply in_app_or in Hx as [Hx|Hx]; [auto|].
    destruct (Hall x Hx) as [_ ->]. exact Hnow.
  - intros x Hx Hr. apply in_app_or in Hx as [Hx|Hx].
    + specialize (Hrj x Hx Hr). destruct (sentStore x); [|exact Hrj].
      rewrite Hrj. reflexivity.
    + destruct (Hall x Hx) as [-> _]. rewrite ExS; simpl.
      destruct ok; [|reflexivity]. destruct (Hok eq_refl) as [_ Hacc].
      rewrite List.Forall_forall in Hacc. rewrite (Hacc x Hx) in Hr. discriminate.
  - apply noneAfterReject_app; [exact Hna | |].
    + eapply sendInsns_noneAfterReject; eauto.
    + intros x y Hx Hr Hy. destruct (Hall y Hy) as [-> _].
      specialize (Hrj x Hx Hr). destruct (sentStore x); [congruence|discriminate].
  - intros ExL. destruct (Hel ExL) as (x & Hx & Hty & Hr).
    exists x. split; [apply in_or_app; now left|auto].
  - rewrite ExS; simpl. intros Hok'. apply negb_true_iff in Hok'.
    destruct (Hrej Hok') as (_ & acc & x & -> & _ & Hx).
    exists x. split; [apply in_or_app; right; apply in_or_app; right; now left|].
    split; [|exact Hx].
    apply (Hall x). apply in_or_app; right; now left.
Qed.

Lemma sendLoop_S fuel now d :
  sendLoop (S fuel) now d =
  if (length (dLoadQueue d) + length (dStoreQueue d) =? 0)%nat then Some d
  else
    match choose (earliest (dLoadQueue d) (exceededLoad d))
                 (earliest (dStoreQueue d) (exceededStore d)) with
    | None => Some d
    | Some chooseLoad =>
        match (if chooseLoad then dLoadQueue d else dStoreQueue d) with
        | [] => None
        | (cycle, insns) :: others =>
            if (cycle <=? now)%Z then
              let '(remaining, ok, mmu', sent) :=
                sendInsns (negb chooseLoad) cycle insns (dMMU d) in
              let queue' :=
                if (length remaining =? 0)%nat then others
                else (cycle, remaining) :: others in
              sendLoop fuel now
                {| dLoadQueue := if chooseLoad then queue' else dLoadQueue d;
                   dStoreQueue := if chooseLoad then dStoreQueue d else queue';
                   exceededLoad :=
                     if chooseLoad then exceededLoad d || negb ok
                     else exceededLoad d;
                   exceededStore :=
                     if chooseLoad then exceededStore d
                     else exceededStore d || negb ok;
                   dMMU := mmu';
                   dSent := dSent d ++ sent |}
            else Some d
        end
    end.
Proof. reflexivity. Qed.

Lemma sendLoop_spec now fuel : forall d d',
  LoopInv now d -> sendLoop fuel now d = Some d' ->
  LoopInv now d' /\ drained now d'.
Proof.
  induction fuel as [|fuel IH]; intros d d' Hinv H; [discriminate|].
  rewrite sendLoop_S in H.
  destruct (Nat.eqb_spec (length (dLoadQueue d) + length (dStoreQueue d)) 0)
    as [Elen|Elen].
  - injection H as <-. split; [exact Hinv|].
    destruct (dLoadQueue d) eqn:El; [|simpl in Elen; lia].
    destruct (dStoreQueue d) eqn:Es; [|simpl in Elen; lia].
    unfold drained. rewrite El, Es. split; intros _ c l [].
  - destruct (choose _ _) as [[|]|] eqn:Ec.
    + destruct (choose_load _ _ _ _ Ec) as (cL & l & lq' & Elq & ExL & Hst).
      rewrite Elq in H. destruct (Z.leb_spec cL now) as [Hnow|Hnow].
      * cbn [negb] in H.
        destruct (sendInsns false cL l (dMMU d)) as [[[rem ok] mmu'] sent] eqn:E.
        apply IH in H; [exact H|]. eapply loop_step_load; eauto.
      * injection H as <-. split; [exact Hinv|].
        destruct Hinv as [Hl Hs _ _ _ _ _ _ _ _]. rewrite Elq in Hl.
        destruct (keysAscending_head _ _ _ Hl) as [_ Hlt].
        unfold drained. rewrite Elq. split.
        -- intros _ c l0 [[= <- <-]|Hin]; [exact Hnow|].
           specialize (Hlt c l0 Hin). lia.
        -- intros ExS c l0 Hin.
           destruct Hst as [Hst|[Hst|(cS & ls & sq' & Hst & Hlt')]];
             [rewrite Hst in Hin; destruct Hin | congruence |].
           rewrite Hst in Hin, Hs. destruct Hin as [[= <- <-]|Hin]; [lia|].
           destruct (keysAscending_head _ _ _ Hs) as [_ Hlt2].
           specialize (Hlt2 c l0 Hin). lia.
    + destruct (choose_store _ _ _ _ Ec) as (cS & ls & sq' & Esq & ExS & Hld).
      rewrite Esq in H. destruct (Z.leb_spec cS now) as [Hnow|Hnow].
      * cbn [negb] in H.
        destruct (sendInsns true cS ls (dMMU d)) as [[[rem ok] mmu'] sent] eqn:E.
        apply IH in H; [exact H|]. eapply loop_step_store; eauto.
      * injection H as <-. split; [exact Hinv|].
        destruct Hinv as [Hl Hs _ _ _ _ _ _ _ _]. rewrite Esq in Hs.
        destruct (keysAscending_head _ _ _ Hs) as [_ Hlt].
        unfold drained. rewrite Esq. split.
        -- intros ExL c l0 Hin.
           destruct Hld as [Hld|[Hld|(cL & l & lq' & Hld & Hle)]];
             [rewrite Hld in Hin; destruct Hin | congruence |].
           rewrite Hld in Hin, Hl. destruct Hin as [[= <- <-]|Hin]; [lia|].
           destruct (keysAscending_head _ _ _ Hl) as [_ Hlt2].
           specialize (Hlt2 c l0 Hin). lia.
        -- intros _ c l0 [[= <- <-]|Hin]; [exact Hnow|].
           specialize (Hlt c l0 Hin). lia.
    + injection H as <-. split; [exact Hinv|].
      destruct (choose_none _ _ _ _ Ec) as [Hl Hs]. split.
      * intros ExL c l Hin. destruct Hl as [Hl|Hl]; [|congruence].
        rewrite Hl in Hin. destruct Hin.
      * intros ExS c l Hin. destruct Hs as [Hs|Hs]; [|congruence].
        rewrite Hs in Hin. destruct Hin.
Qed.

(** The loop ends: each round erases an entry or sets a flag. *)
Definition loopMeasure (d : @Dispatch M) : nat :=
  length (dLoadQueue d) + length (dStoreQueue d)
  + Nat.b2n (negb (exceededLoad d)) + Nat.b2n (negb (exceededStore d)).

Lemma sendLoop_total now fuel : forall d,
  loopMeasure d < fuel -> exists d', sendLoop fuel now d = Some d'.
Proof.
  induction fuel as [|fuel IH]; intros d Hm; [lia|].
  rewrite sendLoop_S.
  destruct (_ =? 0)%nat; [eauto|].
  destruct (choose _ _) as [[|]|] eqn:Ec; [| |eauto].
  - destruct (choose_load _ _ _ _ Ec) as (cL & l & lq' & Elq & ExL & _).
    rewrite Elq. destruct (cL <=? now)%Z; [|eauto]. cbn [negb].
    destruct (sendInsns false cL l (dMMU d)) as [[[rem ok] mmu'] sent] eqn:E.
    destruct (sendInsns_spec _ _ _ _ _ _ _ _ E) as (_ & Hok & Hrej & _).
    apply IH. unfold loopMeasure in *. simpl. rewrite Elq, ExL in *. simpl in *.
    destruct ok.
    + destruct (Hok eq_refl) as [-> _]. simpl. lia.
    + destruct (Hrej eq_refl) as [Hne _].
      destruct rem; [congruence|]. simpl. lia.
  - destruct (choose_store _ _ _ _ Ec) as (cS & ls & sq' & Esq & ExS & _).
    rewrite Esq. destruct (cS <=? now)%Z; [|eauto]. cbn [negb].
    destruct (sendInsns true cS ls (dMMU d)) as [[[rem ok] mmu'] sent] eqn:E.
    destruct (sendInsns_spec _ _ _ _ _ _ _ _ E) as (_ & Hok & Hrej & _).
    apply IH. unfold loopMeasure in *. simpl. rewrite Esq, ExS in *. simpl in *.
    destruct ok.
    + destruct (Hok eq_refl) as [-> _]. simpl. lia.
    + destruct (Hrej eq_refl) as [Hne _].
      destruct rem; [congruence|]. simpl. lia.
Qed.


Lemma tick_total (q : t) (mmu : M) : exists r, tick q mmu = Some r.
Proof.
  unfold tick.
  set (q1 := set_tickCounter _ q).
  destruct (sendLoop_total (tickCounter_ q1) (tickFuel (tickStart q1 mmu))
              (tickStart q1 mmu)) as [d' ->]; [|eauto].
  unfold loopMeasure, tickFuel. simpl. lia.
Qed.

(** The requests of a queue in the order in which the loop comes to them: by
    due cycle, and within an entry from the front of its vector. *)
Definition requestsOf (queue : StdMap.t (list Instruction))
    : list (Z * Instruction) :=
  concat (map (fun e => map (pair (fst e)) (snd e)) queue).

(** The accepted calls of one type, as due cycle and instruction. *)
Definition acceptedOf (isStoreReq : bool) (sent : list (@Sent))
    : list (Z * Instruction) :=
  map (fun x => (sentCycle x, sentInsn x))
      (List.filter (fun x => sentAccepted x && Bool.eqb (sentStore x) isStoreReq)
                   sent).

(** The MMU after the calls listed in [sent], made in that order; [None]
    when the MMU answers one of them otherwise than listed. *)
Fixpoint replay (sent : list (@Sent)) (mmu : M) : option M :=
  match sent with
  | [] => Some mmu
  | x :: rest =>
      let (accepted, mmu') :=
        if sentStore x then requestWrite (sentInsn x) (data (sentInsn x)) mmu
        else requestRead (sentInsn x) mmu in
      if Bool.eqb accepted (sentAccepted x) then replay rest mmu' else None
  end.

Lemma replay_app (a b : list (@Sent)) : forall mmu,
  replay (a ++ b) mmu
  = match replay a mmu with Some mmu' => replay b mmu' | None => None end.
Proof.
  induction a as [|x a IH]; intros mmu; simpl; [reflexivity|].
  destruct (if sentStore x then _ else _) as [accepted mmu1].
  destruct (Bool.eqb accepted (sentAccepted x)); [apply IH|reflexivity].
Qed.

Lemma acceptedOf_app s (a b : list (@Sent)) :
  acceptedOf s (a ++ b) = acceptedOf s a ++ acceptedOf s b.
Proof. unfold acceptedOf. now rewrite List.filter_app, map_app. Qed.

(** The calls of the inner loop are the requests of the entry from its front
    on, each made on the MMU the call before left; a rejected request and
    those behind it stay. *)
Lemma sendInsns_conserves s c insns : forall mmu remaining ok mmu' sent,
  sendInsns s c insns mmu = (remaining, ok, mmu', sent) ->
  map (pair c) insns = acceptedOf s sent ++ map (pair c) remaining
  /\ acceptedOf (negb s) sent = []
  /\ replay sent mmu = Some mmu'
  /\ (forall x, In x sent -> sentAccepted x = false ->
        ok = false /\ exists rest, remaining = sentInsn x :: rest)
  /\ (forall x, In x sent -> sentStore x = s /\ sentCycle x = c).
Proof.
  induction insns as [|i insns IH]; intros mmu remaining ok mmu' sent; simpl.
  - intros [= <- <- <- <-]. repeat split; auto; contradiction.
  - destruct (if s then requestWrite i (data i) mmu else requestRead i mmu)
      as [accepted mmu1] eqn:Ecall.
    destruct accepted.
    + destruct (sendInsns s c insns mmu1) as [[[rem1 ok1] mmu2] sent1] eqn:E.
      intros [= <- <- <- <-].
      destruct (IH _ _ _ _ _ E) as (H1 & H2 & H3 & H4 & H5).
      unfold acceptedOf in *. simpl. rewrite eqb_reflx.
      split; [simpl; now rewrite H1|].
      split; [now destruct s|].
      split; [rewrite Ecall; exact H3|].
      split.
      * intros x [<-|Hx] Hr; [discriminate|]. now apply H4.
      * intros x [<-|Hx]; [auto|]. now apply H5.
    + intros [= <- <- <- <-]. unfold acceptedOf. simpl.
      split; [reflexivity|]. split; [reflexivity|].
      split; [now rewrite Ecall|].
      split.
      * intros x [<-|[]] _. split; [reflexivity|]. now exists insns.
      * intros x [<-|[]]. auto.
Qed.

Lemma requestsOf_cons c insns others :
  requestsOf ((c, insns) :: others) = map (pair c) insns ++ requestsOf others.
Proof. reflexivity. Qed.

Lemma requestsOf_rest c (remaining : list Instruction) others :
  requestsOf (if (length remaining =? 0)%nat then others
              else (c, remaining) :: others)
  = map (pair c) remaining ++ requestsOf others.
Proof. destruct remaining; reflexivity. Qed.

(** What the request loop does with the queues and the MMU. *)
Lemma sendLoop_conserves now fuel : forall d d',
  sendLoop fuel now d = Some d' ->
  exists sent,
    dSent d' = dSent d ++ sent
    /\ requestsOf (dLoadQueue d) = acceptedOf false sent ++ requestsOf (dLoadQueue d')
    /\ requestsOf (dStoreQueue d)
       = acceptedOf true sent ++ requestsOf (dStoreQueue d')
    /\ replay sent (dMMU d) = Some (dMMU d')
    /\ (forall x, In x sent -> sentAccepted x = false ->
          exists rest others,
            (if sentStore x then dStoreQueue d' else dLoadQueue d')
            = (sentCycle x, sentInsn x :: rest) :: others)
    /\ (exceededLoad d = true -> dLoadQueue d' = dLoadQueue d)
    /\ (exceededStore d = true -> dStoreQueue d' = dStoreQueue d).
Proof.
  induction fuel as [|fuel IH]; intros d d' H; [discriminate|].
  assert (Hstop : d' = d ->
    exists sent,
      dSent d' = dSent d ++ sent
      /\ requestsOf (dLoadQueue d)
         = acceptedOf false sent ++ requestsOf (dLoadQueue d')
      /\ requestsOf (dStoreQueue d)
         = acceptedOf true sent ++ requestsOf (dStoreQueue d')
      /\ replay sent (dMMU d) = Some (dMMU d')
      /\ (forall x, In x sent -> sentAccepted x = false ->
            exists rest others,
              (if sentStore x then dStoreQueue d' else dLoadQueue d')
              = (sentCycle x, sentInsn x :: rest) :: others)
      /\ (exceededLoad d = true -> dLoadQueue d' = dLoadQueue d)
      /\ (exceededStore d = true -> dStoreQueue d' = dStoreQueue d)).
  { intros ->. exists []. rewrite app_nil_r. repeat split; auto.
    intros x []. }
  rewrite sendLoop_S in H.
  destruct (_ =? 0)%nat; [injection H as <-; now apply Hstop|].
  destruct (choose _ _) as [[|]|] eqn:Ec; [| |injection H as <-; now apply Hstop].
  - destruct (choose_load _ _ _ _ Ec) as (cL & l & lq' & Elq & ExL & _).
    rewrite Elq in H. destruct (cL <=? now)%Z;
      [|injection H as <-; now apply Hstop].
    cbn [negb] in H.
    destruct (sendInsns false cL l (dMMU d)) as [[[rem ok] mmu'] sent1] eqn:E.
    destruct (sendInsns_conserves _ _ _ _ _ _ _ _ E) as (C1 & C2 & C3 & C4 & C5).
    cbn [negb] in C2.
    destruct (IH _ _ H) as (sent2 & S1 & S2 & S3 & S4 & S5 & S6 & S7).
    cbn [dSent dLoadQueue dStoreQueue dMMU exceededLoad exceededStore] in *.
    exists (sent1 ++ sent2).
    split; [now rewrite S1, app_assoc|].
    split.
    { rewrite Elq, requestsOf_cons, C1, acceptedOf_app, <- !app_assoc. f_equal.
      rewrite <- S2. apply eq_sym, requestsOf_rest. }
    split; [now rewrite acceptedOf_app, C2, S3|].
    split; [now rewrite replay_app, C3|].
    split.
    { intros x Hx Hr. apply in_app_or in Hx as [Hx|Hx]; [|now apply S5].
      destruct (C4 x Hx Hr) as [-> (rest & ->)].
      destruct (C5 x Hx) as [-> ->].
      rewrite S6 by (now rewrite ExL). simpl. eauto. }
    split; [rewrite ExL; discriminate|exact S7].
  - destruct (choose_store _ _ _ _ Ec) as (cS & ls & sq' & Esq & ExS & _).
    rewrite Esq in H. destruct (cS <=? now)%Z;
      [|injection H as <-; now apply Hstop].
    cbn [negb] in H.
    destruct (sendInsns true cS ls (dMMU d)) as [[[rem ok] mmu'] sent1] eqn:E.
    destruct (sendInsns_conserves _ _ _ _ _ _ _ _ E) as (C1 & C2 & C3 & C4 & C5).
    cbn [negb] in C2.
    destruct (IH _ _ H) as (sent2 & S1 & S2 & S3 & S4 & S5 & S6 & S7).
    cbn [dSent dLoadQueue dStoreQueue dMMU exceededLoad exceededStore] in *.
    exists (sent1 ++ sent2).
    split; [now rewrite S1, app_assoc|].
    split; [now rewrite acceptedOf_app, C2|].
    split.
    { rewrite Esq, requestsOf_cons, C1, acceptedOf_app, <- !app_assoc. f_equal.
      rewrite <- S3. apply eq_sym, requestsOf_rest. }
    split; [now rewrite replay_app, C3|].
    split.
    { intros x Hx Hr. apply in_app_or in Hx as [Hx|Hx]; [|now apply S5].
      destruct (C4 x Hx Hr) as [-> (rest & ->)].
      destruct (C5 x Hx) as [-> ->].
      rewrite S7 by (now rewrite ExS). simpl. eauto. }
    split; [exact S6|rewrite ExS; discriminate].
Qed.

(** C7. One [tick] sends the requests of the two queues as follows. Every
    call is for an entry due by the current cycle. The calls are in the order
    of their due cycles, and of two calls of the same due cycle a store
    request is never after a load request: the loop takes the load entry only
    when its due cycle is strictly less than the store entry's. After a
    rejected call no later call is of the same type. A type that was never
    rejected is served to the end: its queue keeps no entry due by now,
    whatever happened to the other type. The calls are made on the MMU one
    after the other, each on the state that the call before left. The
    requests accepted are the first requests of their queue, in the order of
    the queue, and are what the queue loses; a rejected request stays at the
    front of its queue. Nothing else of the queue changes but the cycle
    counter. *)
Theorem C7_tick_request_order (q : t) (mmu : M) :
  keysAscending (requestLoadQueue_ q) ->
  keysAscending (requestStoreQueue_ q) ->
  exists q' mmu' sent,
    tick q mmu = Some (q', mmu', sent)
    /\ tickCounter_ q' = wrap64 (tickCounter_ q + 1)
    /\ (forall x, In x sent -> (sentCycle x <= tickCounter_ q')%Z)
    /\ StronglySorted before sent
    /\ noneAfterReject sent
    /\ ((forall x, In x sent -> sentStore x = false -> sentAccepted x = true) ->
        forall c l, In (c, l) (requestLoadQueue_ q') -> (tickCounter_ q' < c)%Z)
    /\ ((forall x, In x sent -> sentStore x = true -> sentAccepted x = true) ->
        forall c l, In (c, l) (requestStoreQueue_ q') -> (tickCounter_ q' < c)%Z)
    /\ (forall cL cS, choose (true, cL) (true, cS) = Some (cL <? cS)%Z)
    /\ replay sent mmu = Some mmu'
    /\ requestsOf (requestLoadQueue_ q)
       = acceptedOf false sent ++ requestsOf (requestLoadQueue_ q')
    /\ requestsOf (requestStoreQueue_ q)
       = acceptedOf true sent ++ requestsOf (requestStoreQueue_ q')
    /\ (forall x, In x sent -> sentAccepted x = false ->
          exists rest others,
            (if sentStore x then requestStoreQueue_ q' else requestLoadQueue_ q')
            = (sentCycle x, sentInsn x :: rest) :: others)
    /\ q' = set_requestStoreQueue (fun _ => requestStoreQueue_ q')
              (set_requestLoadQueue (fun _ => requestLoadQueue_ q')
                 (set_tickCounter (wrap64 (tickCounter_ q + 1)) q)).
Proof.
  intros Hl Hs. unfold tick.
  set (q1 := set_tickCounter (wrap64 (tickCounter_ q + 1)) q).
  assert (Hinv : LoopInv (tickCounter_ q1) (tickStart q1 mmu)).
  { constructor; simpl; try (intros; contradiction); try discriminate;
      try assumption; try exact I. constructor. }
  destruct (sendLoop_total (tickCounter_ q1) (tickFuel (tickStart q1 mmu))
              (tickStart q1 mmu)) as [d' Hd'].
  { unfold loopMeasure, tickFuel. simpl. lia. }
  rewrite Hd'.
  destruct (sendLoop_spec _ _ _ _ Hinv Hd')
    as ([_ _ Hso _ _ Hrd _ Hna Hel Hes] & Hdl & Hds).
  destruct (sendLoop_conserves _ _ _ _ Hd')
    as (sent & S1 & S2 & S3 & S4 & S5 & _ & _).
  simpl in S1, S2, S3, S4. subst sent.
  eexists _, _, _. split; [reflexivity|]. simpl.
  split; [reflexivity|]. split; [exact Hrd|]. split; [exact Hso|].
  split; [exact Hna|]. split; [|split; [|split]].
  - intros Hacc. apply Hdl. destruct (exceededLoad d') eqn:Ex; [|reflexivity].
    destruct (Hel eq_refl) as (x & Hx & Hty & Hr).
    rewrite (Hacc x Hx Hty) in Hr. discriminate.
  - intros Hacc. apply Hds. destruct (exceededStore d') eqn:Ex; [|reflexivity].
    destruct (Hes eq_refl) as (x & Hx & Hty & Hr).
    rewrite (Hacc x Hx Hty) in Hr. discriminate.
  - intros cL cS. unfold choose. simpl. f_equal.
    unfold Z.geb, Z.ltb. now destruct (cL ?= cS)%Z.
  - split; [exact S4|]. split; [exact S2|]. split; [exact S3|].
    split; [exact S5|]. reflexivity.
Qed.







End TickProps.

(** *** An MMU that takes one load per tick and every store *)

Definition oneLoad_requestRead (i : Instruction) (taken : nat) : bool * nat :=
  ((taken <? 1)%nat, S taken).
Definition oneLoad_requestWrite (i : Instruction) (d : list RegisterValue)
    (taken : nat) : bool * nat := (true, taken).

Definition load11 : Instruction := insn 11 [mkTarget 300 4] 2 true.
Definition store8 : Instruction := insn 8 [mkTarget 200 8] 1 false.

(** Loads due at cycles 3 and 5, stores due at cycles 3 and 12, at cycle 9. *)
Definition queue_requests : t :=
  set_requestStoreQueue (fun _ => [(3%Z, [store5]); (12%Z, [store8])])
    (set_requestLoadQueue (fun _ => [(3%Z, [load7]); (5%Z, [load9; load11])])
       (emptyQueue OUTOFORDER 9)).

(** The store due at 3 goes first, then the load due at 3; of the two loads
    due at 5 the first is rejected and the second is not tried; the store due
    at 12 is not ready at cycle 10. *)
Example tick_queue_requests :
  option_map (fun r => (snd r, requestLoadQueue_ (fst (fst r)),
                        requestStoreQueue_ (fst (fst r))))
    (tick oneLoad_requestRead oneLoad_requestWrite queue_requests 0)
  = Some ([mkSent true 3 store5 true; mkSent false 3 load7 true;
           mkSent false 5 load9 false],
          [(5%Z, [load9; load11])], [(12%Z, [store8])]).
Proof. reflexivity. Qed.

Lemma C7_tick_request_order_witness :
  keysAscending (requestLoadQueue_ queue_requests)
  /\ keysAscending (requestStoreQueue_ queue_requests)
  /\ exists q' mmu' sent,
       tick oneLoad_requestRead oneLoad_requestWrite queue_requests 0
       = Some (q', mmu', sent)
       /\ StronglySorted before sent /\ noneAfterReject sent
       /\ replay oneLoad_requestRead oneLoad_requestWrite sent 0 = Some mmu'
       /\ requestsOf (requestLoadQueue_ queue_requests)
          = acceptedOf false sent ++ requestsOf (requestLoadQueue_ q').
Proof.
  assert (Hl : keysAscending (requestLoadQueue_ queue_requests)).
  { unfold keysAscending. simpl. repeat constructor; simpl; lia. }
  assert (Hs : keysAscending (requestStoreQueue_ queue_requests)).
  { unfold keysAscending. simpl. repeat constructor; simpl; lia. }
  split; [exact Hl|]. split; [exact Hs|].
  destruct (C7_tick_request_order oneLoad_requestRead oneLoad_requestWrite
              queue_requests 0 Hl Hs)
    as (q' & mmu' & sent & H1 & _ & _ & H2 & H3 & _ & _ & _ & H4 & H5 & _).
  exists q', mmu', sent. auto 10.
Defined.

(** The store of sequence id 5 (bytes 100..107) is in the store queue when
    the load of sequence id 7 (bytes 104..107) starts. *)
Definition queue_with_store : t := addStore store5 (emptyQueue OUTOFORDER 10).

Example startLoad_conflict :
  conflictionMap_ (startLoad load7 queue_with_store) = [(5%Z, [load7])]
  /\ requestLoadQueue_ (startLoad load7 queue_with_store) = []
  /\ option_map (fun r => requestLoadQueue_ (snd r))
       (commitStore store5 (startLoad load7 queue_with_store))
     = Some [(13%Z, [load7])].
Proof. repeat split. Qed.


(** *** Further properties of the queue operations *)

Lemma find_emplace_eq {V : Type} k (v : V) m :
  StdMap.find k (StdMap.emplace k v m) = Some (default v (StdMap.find k m)).
Proof.
  unfold StdMap.emplace. destruct (StdMap.find k m) as [w|] eqn:E; simpl.
  - exact E.
  - now apply StdMap.find_insert_sorted_eq.
Qed.

Lemma find_emplace_ne {V : Type} k k0 (v : V) m :
  k0 <> k -> StdMap.find k0 (StdMap.emplace k v m) = StdMap.find k0 m.
Proof.
  intros Hne. unfold StdMap.emplace. destruct (StdMap.find k m); [reflexivity|].
  now apply StdMap.find_insert_sorted_ne.
Qed.

Lemma find_None_not_In {V : Type} k (m : StdMap.t V) :
  StdMap.find k m = None <-> forall v, ~ In (k, v) m.
Proof.
  induction m as [|[k' v'] m IH]; simpl.
  - split; [intros _ v []|reflexivity].
  - destruct (Z.eqb_spec k' k) as [->|Hne].
    + split; [discriminate|]. intros H. exfalso. apply (H v'). now left.
    + rewrite IH. split.
      * intros H v [[= -> ->]|Hin]; [contradiction|]. exact (H v Hin).
      * intros H v Hin. apply (H v). now right.
Qed.

Lemma find_erase_eq {V : Type} k (m : StdMap.t V) :
  keysAscending m -> StdMap.find k (StdMap.erase k m) = None.
Proof.
  induction m as [|[k' v'] m IH]; intros Hs; simpl; [reflexivity|].
  apply StronglySorted_inv in Hs as [Hs Hall].
  destruct (Z.eqb_spec k' k) as [->|Hne]; simpl.
  - apply find_None_not_In. intros v Hin.
    rewrite List.Forall_forall in Hall. specialize (Hall _ Hin). simpl in Hall. lia.
  - destruct (Z.eqb_spec k' k); [contradiction|]. now apply IH.
Qed.


Lemma findConflict_none_iff seqId lds stores :
  (forall S d, In (S, d) stores -> (sequenceId S < seqId)%Z ->
               anyOverlap (generatedAddresses S) lds = false) ->
  findConflict seqId lds stores = None.
Proof.
  induction stores as [|[s d] stores IH]; intros H; simpl; [reflexivity|].
  destruct (Z.ltb_spec (sequenceId s) seqId) as [Hlt|Hge]; simpl.
  - rewrite (H s d (or_introl eq_refl) Hlt). apply IH.
    intros S d' Hin. apply (H S d'). now right.
  - apply IH. intros S d' Hin. apply (H S d'). now right.
Qed.

(** X4. For two targets of positive size that end below 2^64,
    [requestsOverlap] is true exactly when the two byte ranges share an
    address; the test is symmetric in its arguments. *)
Theorem X4_requestsOverlap_shared_address (a b : MemoryAccessTarget) :
  (0 <= vaddr a)%Z -> (0 <= vaddr b)%Z -> (0 < size a)%Z -> (0 < size b)%Z ->
  (vaddr a + size a < 2 ^ 64)%Z -> (vaddr b + size b < 2 ^ 64)%Z ->
  (requestsOverlap a b = true <->
   exists x, (vaddr a <= x < vaddr a + size a)%Z
             /\ (vaddr b <= x < vaddr b + size b)%Z)
  /\ requestsOverlap a b = requestsOverlap b a.
Proof.
  intros Ha Hb Hsa Hsb Hea Heb. unfold requestsOverlap.
  rewrite !wrap64_small by lia. split.
  - rewrite negb_true_iff, orb_false_iff, !Z.leb_gt. split.
    + intros [H1 H2]. exists (Z.max (vaddr a) (vaddr b)). lia.
    + intros (x & H1 & H2). lia.
  - f_equal. apply orb_comm.
Qed.

Lemma X4_requestsOverlap_shared_address_witness :
  requestsOverlap (mkTarget 100 8) (mkTarget 104 4) = true
  /\ requestsOverlap (mkTarget 100 8) (mkTarget 104 4)
     = requestsOverlap (mkTarget 104 4) (mkTarget 100 8).
Proof.
  destruct (X4_requestsOverlap_shared_address (mkTarget 100 8) (mkTarget 104 4))
    as [Hiff Hsym]; simpl; try lia.
  split; [|exact Hsym]. apply Hiff. exists 104%Z. simpl. lia.
Defined.


(** X6. A load with at least one address that no older store of the store
    queue overlaps is queued by [startLoad] for the cycle
    [tickCounter_ + latency] (a 64-bit sum), behind the loads already queued
    for that cycle, and is registered in [requestedLoads_] under its sequence
    id unless that id is registered already; the confliction map is
    unchanged. A load without addresses is executed at once and put on the
    completed requests; it is neither queued nor registered. *)
Theorem X6_startLoad_schedules (L : Instruction) (q : t) :
  (generatedAddresses L <> [] ->
   (forall S d, In (S, d) (storeQueue_ q) -> (sequenceId S < sequenceId L)%Z ->
                anyOverlap (generatedAddresses S) (generatedAddresses L) = false) ->
   StdMap.find (wrap64 (tickCounter_ q + lsqLatency L))
               (requestLoadQueue_ (startLoad L q))
   = Some (default [] (StdMap.find (wrap64 (tickCounter_ q + lsqLatency L))
                                   (requestLoadQueue_ q)) ++ [L])
   /\ (forall c, c <> wrap64 (tickCounter_ q + lsqLatency L) ->
         StdMap.find c (requestLoadQueue_ (startLoad L q))
         = StdMap.find c (requestLoadQueue_ q))
   /\ StdMap.find (sequenceId L) (requestedLoads_ (startLoad L q))
      = Some (default (L, 0%Z) (StdMap.find (sequenceId L) (requestedLoads_ q)))
   /\ (forall k, k <> sequenceId L ->
         StdMap.find k (requestedLoads_ (startLoad L q))
         = StdMap.find k (requestedLoads_ q))
   /\ conflictionMap_ (startLoad L q) = conflictionMap_ q
   /\ calls (startLoad L q) = calls q
   /\ completedRequests_ (startLoad L q)
      = match completionOrder_ q with
        | INORDER => completedRequests_ q ++ [L]
        | OUTOFORDER => completedRequests_ q
        end)
  /\ (generatedAddresses L = [] ->
      calls (startLoad L q) = calls q ++ [CallExecute L]
      /\ completedRequests_ (startLoad L q) = completedRequests_ q ++ [L]
      /\ requestLoadQueue_ (startLoad L q) = requestLoadQueue_ q
      /\ requestedLoads_ (startLoad L q) = requestedLoads_ q
      /\ conflictionMap_ (startLoad L q) = conflictionMap_ q).
Proof.
  split.
  - intros Hne Hno.
    assert (Hlen : (length (generatedAddresses L) =? 0)%nat = false).
    { destruct (generatedAddresses L); [congruence|reflexivity]. }
    set (q1 := match completionOrder_ q with
               | INORDER => set_completedRequests (fun l => l ++ [L]) q
               | OUTOFORDER => q
               end).
    assert (E : storeQueue_ q1 = storeQueue_ q
                /\ conflictionMap_ q1 = conflictionMap_ q
                /\ requestLoadQueue_ q1 = requestLoadQueue_ q
                /\ requestedLoads_ q1 = requestedLoads_ q /\ calls q1 = calls q
                /\ tickCounter_ q1 = tickCounter_ q
                /\ completedRequests_ q1
                   = match completionOrder_ q with
                     | INORDER => completedRequests_ q ++ [L]
                     | OUTOFORDER => completedRequests_ q
                     end)
      by (unfold q1; now destruct (completionOrder_ q)).
    destruct E as (E1 & E2 & E3 & E4 & E5 & E6 & E7).
    assert (Ef : findConflict (sequenceId L) (generatedAddresses L)
                   (rev (storeQueue_ q1)) = None).
    { apply findConflict_none_iff. intros S d Hin. rewrite E1 in Hin.
      apply in_rev in Hin. now apply (Hno S d). }
    unfold startLoad. rewrite Hlen. fold q1. rewrite Ef. simpl.
    rewrite E2, E3, E4, E5, E6, E7.
    split; [apply find_push_request_eq|].
    split; [intros c Hc; now apply find_push_request_ne|].
    split; [apply find_emplace_eq|].
    split; [intros k Hk; now apply find_emplace_ne|].
    repeat split.
  - intros He. unfold startLoad. rewrite He. simpl. repeat split.
Qed.

Lemma X6_startLoad_schedules_witness :
  StdMap.find 12%Z (requestLoadQueue_ (startLoad load7 (emptyQueue OUTOFORDER 10)))
  = Some [load7]
  /\ StdMap.find 7%Z (requestedLoads_ (startLoad load7 (emptyQueue OUTOFORDER 10)))
     = Some (load7, 0%Z).
Proof.
  destruct (X6_startLoad_schedules load7 (emptyQueue OUTOFORDER 10)) as [H _].
  destruct H as (H1 & _ & H3 & _); [discriminate | intros S d [] |].
  split; [exact H1|exact H3].
Defined.

Lemma attachData_no_match macroOpNum microOpNum d stores :
  (forall e old, In (e, old) stores ->
     instructionId e <> macroOpNum \/ microOpIndex e <> microOpNum) ->
  attachData macroOpNum microOpNum d stores = stores.
Proof.
  induction stores as [|[e old] stores IH]; intros H; simpl; [reflexivity|].
  destruct (H e old (or_introl eq_refl)) as [Hn|Hn].
  - destruct (Z.eqb_spec (instructionId e) macroOpNum); [contradiction|]. simpl.
    f_equal. apply IH. intros e' old' Hin. apply (H e' old'). now right.
  - destruct (Z.eqb_spec (microOpIndex e) microOpNum); [contradiction|].
    rewrite andb_false_r. f_equal. apply IH.
    intros e' old' Hin. apply (H e' old'). now right.
Qed.

Lemma attachData_first_match macroOpNum microOpNum d before e old after :
  (forall e' old', In (e', old') before ->
     instructionId e' <> macroOpNum \/ microOpIndex e' <> microOpNum) ->
  instructionId e = macroOpNum -> microOpIndex e = microOpNum ->
  attachData macroOpNum microOpNum d (before ++ (e, old) :: after)
  = before ++ (e, d) :: after.
Proof.
  intros Hb He1 He2. induction before as [|[e' old'] before IH]; simpl.
  - now rewrite He1, He2, !Z.eqb_refl.
  - destruct (Hb e' old' (or_introl eq_refl)) as [Hn|Hn].
    + destruct (Z.eqb_spec (instructionId e') macroOpNum); [contradiction|]. simpl.
      f_equal. apply IH. intros e2 old2 Hin. apply (Hb e2 old2). now right.
    + destruct (Z.eqb_spec (microOpIndex e') microOpNum); [contradiction|].
      rewrite andb_false_r. f_equal. apply IH.
      intros e2 old2 Hin. apply (Hb e2 old2). now right.
Qed.

Lemma set_storeQueue_same q l :
  l = storeQueue_ q -> set_storeQueue (fun _ => l) q = q.
Proof. intros ->. now destruct q. Qed.

(** X7. [supplyStoreData] of a store-data operation replaces the data of
    the first entry of the store queue that has the operation's instruction id
    and micro-op index, and of that entry only: entries before and after it,
    also later ones with the same identifiers, keep their data. When no entry
    matches, or the operation is not a store-data operation, the queue is left
    as it is. *)
Theorem X7_supplyStoreData_first_match (insn : Instruction) (q : t) :
  (isStoreData insn = false -> supplyStoreData insn q = q)
  /\ (isStoreData insn = true ->
      (forall e old, In (e, old) (storeQueue_ q) ->
         instructionId e <> instructionId insn
         \/ microOpIndex e <> microOpIndex insn) ->
      storeQueue_ (supplyStoreData insn q) = storeQueue_ q)
  /\ (forall before e old after,
        isStoreData insn = true ->
        storeQueue_ q = before ++ (e, old) :: after ->
        (forall e' old', In (e', old') before ->
           instructionId e' <> instructionId insn
           \/ microOpIndex e' <> microOpIndex insn) ->
        instructionId e = instructionId insn ->
        microOpIndex e = microOpIndex insn ->
        storeQueue_ (supplyStoreData insn q) = before ++ (e, data insn) :: after
        /\ loadQueue_ (supplyStoreData insn q) = loadQueue_ q
        /\ requestStoreQueue_ (supplyStoreData insn q) = requestStoreQueue_ q
        /\ calls (supplyStoreData insn q) = calls q).
Proof.
  unfold supplyStoreData. split; [|split].
  - now intros ->.
  - intros -> Hno. simpl. now apply attachData_no_match.
  - intros before e old after -> Hq Hb He1 He2. simpl. rewrite Hq.
    split; [now apply attachData_first_match|]. repeat split.
Qed.

Lemma supplyAll_calls uop : forall addresses d q,
  calls (supplyAll uop addresses d q)
  = calls q ++ map (fun ad => CallSupplyData uop (vaddr (fst ad)) (snd ad))
                   (combine addresses d)
  /\ storeQueue_ (supplyAll uop addresses d q) = storeQueue_ q
  /\ requestStoreQueue_ (supplyAll uop addresses d q) = requestStoreQueue_ q
  /\ tickCounter_ (supplyAll uop addresses d q) = tickCounter_ q
  /\ requestedCondStore_ (supplyAll uop addresses d q) = requestedCondStore_ q
  /\ completedRequests_ (supplyAll uop addresses d q) = completedRequests_ q
  /\ completionOrder_ (supplyAll uop addresses d q) = completionOrder_ q.
Proof.
  induction addresses as [|a addresses IH]; intros d q; simpl.
  - now rewrite app_nil_r.
  - destruct d as [|v d]; simpl; [now rewrite app_nil_r|].
    destruct (IH d (log_call (CallSupplyData uop (vaddr a) v) q))
      as (H1 & H2 & H3 & H4 & H5 & H6 & H7).
    rewrite H1, H2, H3, H4, H5, H6, H7. simpl. rewrite <- app_assoc.
    repeat split.
Qed.

(** X8. [startStore] of a store with addresses takes the data recorded in
    the entry at the front of the store queue: it resets the commit-ready
    flag, passes address [i] with data item [i] to [supplyData] for every [i]
    in order, and queues the store for the current cycle, behind the stores
    already queued for it. A store conditional whose result is not ready is
    recorded as the one in flight. The call fails when the numbers of
    addresses and data items differ, or when a second conditional store would
    be in flight; a store without addresses changes nothing. *)
Theorem X8_startStore_front_data
    (uop front : Instruction) (d : list RegisterValue)
    (rest : list (Instruction * list RegisterValue)) (q : t) :
  storeQueue_ q = (front, d) :: rest ->
  (generatedAddresses uop = [] -> startStore uop q = Some q)
  /\ (generatedAddresses uop <> [] ->
      length (generatedAddresses uop) <> length d -> startStore uop q = None)
  /\ (generatedAddresses uop <> [] ->
      length (generatedAddresses uop) = length d ->
      isStoreCond uop && negb (isCondResultReady uop) = true ->
      requestedCondStore_ q <> None -> startStore uop q = None)
  /\ (generatedAddresses uop <> [] ->
      length (generatedAddresses uop) = length d ->
      (isStoreCond uop && negb (isCondResultReady uop) = true ->
       requestedCondStore_ q = None) ->
      exists q', startStore uop q = Some q'
        /\ calls q'
           = calls q ++ CallSetCommitReady uop false
               :: map (fun ad => CallSupplyData uop (vaddr (fst ad)) (snd ad))
                      (combine (generatedAddresses uop) d)
        /\ StdMap.find (tickCounter_ q) (requestStoreQueue_ q')
           = Some (default [] (StdMap.find (tickCounter_ q) (requestStoreQueue_ q))
                   ++ [uop])
        /\ (forall c, c <> tickCounter_ q ->
              StdMap.find c (requestStoreQueue_ q')
              = StdMap.find c (requestStoreQueue_ q))
        /\ storeQueue_ q' = storeQueue_ q
        /\ requestedCondStore_ q'
           = (if isStoreCond uop && negb (isCondResultReady uop)
              then Some uop else requestedCondStore_ q)).
Proof.
  intros Hq. unfold startStore. rewrite Hq.
  split; [intros ->; reflexivity|].
  assert (H0 : generatedAddresses uop <> [] ->
               (length (generatedAddresses uop) =? 0)%nat = false).
  { destruct (generatedAddresses uop); [congruence|reflexivity]. }
  set (q1 := log_call (CallSetCommitReady uop false) q).
  destruct (supplyAll_calls uop (generatedAddresses uop) d q1)
    as (H1 & H2 & H3 & H4 & H5 & H6 & H7).
  split; [|split].
  - intros Hne Hlen. rewrite (H0 Hne).
    destruct (Nat.eqb_spec (length (generatedAddresses uop)) (length d));
      [contradiction|reflexivity].
  - intros Hne Hlen Hc Hin. rewrite (H0 Hne), Hlen, Nat.eqb_refl. simpl.
    rewrite Hc. simpl. rewrite H5. simpl. now destruct (requestedCondStore_ q).
  - intros Hne Hlen Hc. rewrite (H0 Hne), Hlen, Nat.eqb_refl. simpl.
    destruct (isStoreCond uop && negb (isCondResultReady uop)) eqn:Ec.
    + simpl. rewrite H5. simpl. rewrite (Hc eq_refl).
      eexists. split; [reflexivity|].
      rewrite H7. simpl.
      destruct (completionOrder_ q); simpl; rewrite H1, H2, H3, H4; simpl;
        rewrite <- app_assoc; simpl;
        (split; [reflexivity|]);
        (split; [apply find_push_request_eq|]);
        (split; [intros c Hcne; now apply find_push_request_ne|]);
        (split; [exact Hq|reflexivity]).
    + eexists. split; [reflexivity|]. simpl. rewrite H1, H2, H3, H4, H5. simpl.
      rewrite <- app_assoc. simpl.
      split; [reflexivity|].
      split; [apply find_push_request_eq|].
      split; [intros c Hcne; now apply find_push_request_ne|].
      split; [exact Hq|reflexivity].
Qed.

(** A store of two addresses, and a queue whose front entry has its two
    data items. *)
Definition store4_two : Instruction :=
  insn 4 [mkTarget 64 4; mkTarget 96 4] 1 false.

Definition queue_with_data : t :=
  set_storeQueue (fun _ => [(store4_two, [[x01]; [x02]])])
    (emptyQueue OUTOFORDER 10).

Lemma X8_startStore_front_data_witness :
  exists q', startStore store4_two queue_with_data = Some q'
    /\ calls q' = [CallSetCommitReady store4_two false;
                   CallSupplyData store4_two 64 [x01];
                   CallSupplyData store4_two 96 [x02]]
    /\ StdMap.find 10%Z (requestStoreQueue_ q') = Some [store4_two].
Proof.
  destruct (X8_startStore_front_data store4_two store4_two [[x01]; [x02]] []
              queue_with_data eq_refl) as (_ & _ & _ & H).
  destruct H as (q' & H1 & H2 & H3 & _);
    [discriminate | reflexivity | discriminate |].
  exists q'. split; [exact H1|]. split; [exact H2|exact H3].
Defined.

Lemma X7_supplyStoreData_first_match_witness :
  storeQueue_
    (supplyStoreData
       (mkInstruction 20 4 0 0 [] 0 [[x0a]; [x0b]] [] false false true false
                      false false true false)
       queue_with_data)
  = [(store4_two, [[x0a]; [x0b]])].
Proof.
  destruct (X7_supplyStoreData_first_match
              (mkInstruction 20 4 0 0 [] 0 [[x0a]; [x0b]] [] false false true
                             false false false true false)
              queue_with_data) as (_ & _ & H).
  destruct (H [] store4_two [[x01]; [x02]] [] eq_refl eq_refl) as [H1 _];
    [intros ? ? [] | reflexivity | reflexivity |].
  exact H1.
Defined.


(** X9. [commitLoad] fails on an empty load queue and when the front entry
    has another sequence id than the given load. Otherwise, with a load at
    the front, it removes that entry from the load queue and its registration
    from [requestedLoads_]: the sequence id is no longer registered, the
    registrations of other sequence ids stay, and nothing else changes. *)
Theorem X9_commitLoad_front (uop : Instruction) (q : t) :
  (loadQueue_ q = [] -> commitLoad uop q = None)
  /\ (forall front rest,
        loadQueue_ q = front :: rest ->
        sequenceId front <> sequenceId uop -> commitLoad uop q = None)
  /\ (forall front rest,
        loadQueue_ q = front :: rest ->
        sequenceId front = sequenceId uop ->
        isLoad front = true ->
        keysAscending (requestedLoads_ q) ->
        exists q', commitLoad uop q = Some q'
          /\ loadQueue_ q' = rest
          /\ StdMap.find (sequenceId uop) (requestedLoads_ q') = None
          /\ (forall k, k <> sequenceId uop ->
                StdMap.find k (requestedLoads_ q')
                = StdMap.find k (requestedLoads_ q))
          /\ storeQueue_ q' = storeQueue_ q
          /\ conflictionMap_ q' = conflictionMap_ q
          /\ requestLoadQueue_ q' = requestLoadQueue_ q
          /\ completedRequests_ q' = completedRequests_ q).
Proof.
  unfold commitLoad. split; [now intros ->|]. split.
  - intros front rest -> Hne.
    destruct (Z.eqb_spec (sequenceId front) (sequenceId uop)); [contradiction|].
    reflexivity.
  - intros front rest Hq Hseq Hld Hs. rewrite Hq, Hseq, Z.eqb_refl. simpl.
    rewrite Hld. eexists. split; [reflexivity|]. simpl. rewrite Hq. simpl.
    rewrite Hld, Hseq.
    split; [reflexivity|]. split; [now apply find_erase_eq|].
    split; [intros k Hk; now apply StdMap.find_erase_ne|].
    repeat split.
Qed.

Lemma X9_commitLoad_front_witness :
  exists q',
    commitLoad load7
      (set_requestedLoads (fun _ => [(7%Z, (load7, 0%Z)); (9%Z, (load9, 0%Z))])
         (addLoad load9 (addLoad load7 (emptyQueue OUTOFORDER 10))))
    = Some q'
    /\ loadQueue_ q' = [load9]
    /\ StdMap.find 7%Z (requestedLoads_ q') = None.
Proof.
  destruct (X9_commitLoad_front load7
              (set_requestedLoads
                 (fun _ => [(7%Z, (load7, 0%Z)); (9%Z, (load9, 0%Z))])
                 (addLoad load9 (addLoad load7 (emptyQueue OUTOFORDER 10)))))
    as (_ & _ & H).
  destruct (H load7 [load9] eq_refl eq_refl eq_refl) as (q' & H1 & H2 & H3 & _).
  { repeat constructor; simpl; lia. }
  exists q'. auto.
Defined.

(** *** [purgeFlushed] *)

Lemma In_fold_erase {V A : Type} (f : A -> bool) (key : A -> Z) (l : list A) :
  forall (m : StdMap.t V) kv,
    In kv (fold_left (fun m' e => if f e then StdMap.erase (key e) m' else m') l m) ->
    In kv m.
Proof.
  induction l as [|e l IH]; intros m kv; simpl; [auto|].
  intros H. apply IH in H. destruct (f e); [now apply StdMap.In_erase in H|exact H].
Qed.

Lemma erase_keysAscending {V : Type} k (m : StdMap.t V) :
  keysAscending m -> keysAscending (StdMap.erase k m).
Proof.
  induction m as [|[k' v'] m IH]; intros Hs; simpl; [constructor|].
  apply StronglySorted_inv in Hs as [Hs Hall].
  destruct (k' =? k)%Z; [exact Hs|].
  constructor; [now apply IH|].
  rewrite List.Forall_forall in Hall |- *. intros x Hx.
  apply Hall. now apply StdMap.In_erase in Hx.
Qed.

Lemma find_erase_None {V : Type} k k0 (m : StdMap.t V) :
  keysAscending m -> StdMap.find k0 m = None ->
  StdMap.find k0 (StdMap.erase k m) = None.
Proof.
  intros Hs Hf. destruct (Z.eq_dec k0 k) as [->|Hne].
  - now apply find_erase_eq.
  - now rewrite StdMap.find_erase_ne.
Qed.

Lemma fold_erase_other {V A : Type} (f : A -> bool) (key : A -> Z) (l : list A) k :
  (forall e, In e l -> f e = true -> key e <> k) ->
  forall m : StdMap.t V,
    StdMap.find k
      (fold_left (fun m' e => if f e then StdMap.erase (key e) m' else m') l m)
    = StdMap.find k m.
Proof.
  induction l as [|e l IH]; intros H m; simpl; [reflexivity|].
  rewrite IH by (intros e' He'; apply H; now right).
  destruct (f e) eqn:Ef; [|reflexivity].
  apply StdMap.find_erase_ne. intros ->. now apply (H e (or_introl eq_refl) Ef).
Qed.

Lemma fold_erase_keeps_None {V A : Type} (f : A -> bool) (key : A -> Z)
    (l : list A) k :
  forall m : StdMap.t V,
    keysAscending m -> StdMap.find k m = None ->
    StdMap.find k
      (fold_left (fun m' e => if f e then StdMap.erase (key e) m' else m') l m)
    = None.
Proof.
  induction l as [|e l IH]; intros m Hs Hf; simpl; [exact Hf|].
  destruct (f e).
  - apply IH; [now apply erase_keysAscending|now apply find_erase_None].
  - now apply IH.
Qed.

Lemma fold_erase_flushed {V A : Type} (f : A -> bool) (key : A -> Z)
    (l : list A) e :
  In e l -> f e = true ->
  forall m : StdMap.t V,
    keysAscending m ->
    StdMap.find (key e)
      (fold_left (fun m' e => if f e then StdMap.erase (key e) m' else m') l m)
    = None.
Proof.
  induction l as [|x l IH]; intros Hin Hf m Hs; [destruct Hin|]. simpl.
  destruct Hin as [->|Hin].
  - rewrite Hf. apply fold_erase_keeps_None;
      [now apply erase_keysAscending|now apply find_erase_eq].
  - destruct (f x); apply IH; auto. now apply erase_keysAscending.
Qed.

Lemma keepLive_spec flushed l i :
  In i (keepLive flushed l) <-> In i l /\ flushed i = false.
Proof.
  unfold keepLive. rewrite filter_In, negb_true_iff. tauto.
Qed.

(** X10. After [purgeFlushed] no flushed instruction is left in the load
    queue, the store queue, the confliction map or the load request queue,
    and the instructions that are not flushed keep their places and order:
    the two queues are filtered, every remaining confliction or request entry
    is a former entry with its flushed loads removed, and no request entry is
    left empty. A flushed load of the load queue loses its registration in
    [requestedLoads_]; registrations under other sequence ids stay. The store
    request queue and the completed requests are not touched. *)
Theorem X10_purgeFlushed_removes (flushed : Instruction -> bool) (q : t) :
  let q' := purgeFlushed flushed q in
  (forall i, flushed i = true ->
     ~ In i (loadQueue_ q') /\ ~ In i (map fst (storeQueue_ q'))
     /\ ~ scheduled i q'
     /\ forall k l, In (k, l) (conflictionMap_ q') -> ~ In i l)
  /\ loadQueue_ q' = List.filter (fun i => negb (flushed i)) (loadQueue_ q)
  /\ storeQueue_ q'
     = List.filter (fun e => negb (flushed (fst e))) (storeQueue_ q)
  /\ (forall c l, In (c, l) (requestLoadQueue_ q') ->
        l <> [] /\ exists l0, In (c, l0) (requestLoadQueue_ q)
                              /\ l = keepLive flushed l0)
  /\ (forall c l0, In (c, l0) (requestLoadQueue_ q) -> keepLive flushed l0 <> [] ->
        In (c, keepLive flushed l0) (requestLoadQueue_ q'))
  /\ (forall k l, In (k, l) (conflictionMap_ q') ->
        exists l0, In (k, l0) (conflictionMap_ q) /\ l = keepLive flushed l0)
  /\ (forall k, (forall i, In i (loadQueue_ q) -> flushed i = true ->
                           sequenceId i <> k) ->
        StdMap.find k (requestedLoads_ q') = StdMap.find k (requestedLoads_ q))
  /\ (keysAscending (requestedLoads_ q) ->
      forall i, In i (loadQueue_ q) -> flushed i = true ->
        StdMap.find (sequenceId i) (requestedLoads_ q') = None)
  /\ requestStoreQueue_ q' = requestStoreQueue_ q
  /\ completedRequests_ q' = completedRequests_ q
  /\ violatingLoad_ q' = violatingLoad_ q
  /\ calls q' = calls q.
Proof.
  intros q'. unfold q', purgeFlushed. simpl.
  assert (Hreq : forall c l,
    In (c, l) (List.filter (fun kv => negb (length (snd kv) =? 0)%nat)
                 (map (fun kv => (fst kv, keepLive flushed (snd kv)))
                      (requestLoadQueue_ q))) <->
    l <> [] /\ exists l0, In (c, l0) (requestLoadQueue_ q)
                          /\ l = keepLive flushed l0).
  { intros c l. rewrite filter_In, in_map_iff. simpl. split.
    - intros [([c0 l0] & [= <- <-] & Hin) Hlen]. simpl. split.
      + intros E. rewrite E in Hlen. discriminate.
      + now exists l0.
    - intros [Hne (l0 & Hin & ->)]. split.
      + now exists (c, l0).
      + destruct (keepLive flushed l0); [congruence|reflexivity]. }
  assert (Hcm : forall k l,
    In (k, l)
       (map (fun kv => (fst kv, keepLive flushed (snd kv)))
          (fold_left
             (fun m' entry =>
                if flushed (fst entry)
                then StdMap.erase (sequenceId (fst entry)) m' else m')
             (storeQueue_ q) (conflictionMap_ q))) ->
    exists l0, In (k, l0) (conflictionMap_ q) /\ l = keepLive flushed l0).
  { intros k l Hin. apply in_map_iff in Hin as ([k0 l0] & [= <- <-] & Hin).
    exists l0. split; [|reflexivity].
    exact (In_fold_erase (fun e => flushed (fst e))
             (fun e => sequenceId (fst e)) _ _ _ Hin). }
  split.
  { intros i Hi. split; [|split; [|split]].
    - unfold keepLive. rewrite filter_In, Hi. simpl. intros [_ [=]].
    - rewrite in_map_iff. intros ([s d] & <- & Hin).
      apply filter_In in Hin as [_ Hl]. simpl in Hl, Hi. rewrite Hi in Hl.
      discriminate.
    - intros (c & l & Hin & HL). simpl in Hin.
      apply Hreq in Hin as [_ (l0 & _ & ->)].
      apply keepLive_spec in HL as [_ HL]. congruence.
    - intros k l Hin HL. apply Hcm in Hin as (l0 & _ & ->).
      apply keepLive_spec in HL as [_ HL]. congruence. }
  split; [reflexivity|]. split; [reflexivity|].
  split; [intros c l Hin; now apply Hreq|].
  split; [intros c l0 Hin Hne; apply Hreq; eauto|].
  split; [exact Hcm|].
  split.
  { intros k Hk. exact (fold_erase_other flushed sequenceId _ k Hk _). }
  split.
  { intros Hs i Hin Hi.
    exact (fold_erase_flushed flushed sequenceId _ i Hin Hi _ Hs). }
  repeat split.
Qed.

(** *** The hand-over of completed requests at the end of [tick] *)

Section Completion.
(** [isFlushed()] and [hasExecuted()] of each instruction, as read by the
    loop. *)
Variable isFlushed : Instruction -> bool.
Variable hasExecuted : Instruction -> bool.

(** What the loop changes: [completedRequests_], the completion slots, and
    the instructions whose destination registers and results were passed to
    [forwardOperands_]. *)
Record Writeback : Type := mkWriteback {
  wCompleted : list Instruction;
  wSlots : list (@PipelineBuffer.t (option Instruction));
  wForwarded : list Instruction
}.

(** The loop [while (completedRequests_.size() > 0 && count <
    completionSlots_.size())] at the end of [tick]. Each round either moves
    [count] on or pops the front of the queue; the result is [None] when the
    rounds allowed by [fuel] are used up. *)
Fixpoint writeback (fuel : nat) (count : nat) (w : Writeback) : option Writeback :=
  match fuel with
  | O => None
  | S fuel' =>
      match wCompleted w with
      | [] => Some w
      | insn :: rest =>
          match wSlots w !! count with
          | None => Some w
          | Some slot =>
              if PipelineBuffer.isStalled slot then writeback fuel' (S count) w
              else if isFlushed insn then
                writeback fuel' count (mkWriteback rest (wSlots w) (wForwarded w))
              else if isLoad insn && negb (hasExecuted insn) then Some w
              else if isStoreCond insn && negb (isCondResultReady insn) then Some w
              else
                writeback fuel' (S count)
                  (mkWriteback rest
                     (<[count := PipelineBuffer.setTailSlot slot 0 (Some insn)]>
                        (wSlots w))
                     (wForwarded w ++ [insn]))
          end
      end
  end.

(** The writes of [placed] into the tail slots of the named completion
    slots, in order. *)
Definition place (slots : list (@PipelineBuffer.t (option Instruction)))
    (placed : list (nat * Instruction))
    : list (@PipelineBuffer.t (option Instruction)) :=
  fold_left
    (fun s p =>
       match s !! fst p with
       | Some slot => <[fst p := PipelineBuffer.setTailSlot slot 0 (Some (snd p))]> s
       | None => s
       end)
    placed slots.

Definition unstalled (slots : list (@PipelineBuffer.t (option Instruction)))
    (i : nat) : Prop :=
  exists slot, slots !! i = Some slot /\ PipelineBuffer.isStalled slot = false.

Lemma place_length placed : forall slots, length (place slots placed) = length slots.
Proof.
  induction placed as [|p placed IH]; intros slots; [reflexivity|].
  unfold place in *. simpl. rewrite IH.
  destruct (slots !! fst p); [apply length_insert|reflexivity].
Qed.

Lemma place_lookup_other placed : forall slots i,
  ~ In i (map fst placed) -> place slots placed !! i = slots !! i.
Proof.
  induction placed as [|p placed IH]; intros slots i Hi; [reflexivity|].
  unfold place in *. simpl. simpl in Hi. rewrite IH by tauto.
  destruct (slots !! fst p); [|reflexivity].
  apply list_lookup_insert_ne. tauto.
Qed.

Lemma writeback_spec fuel : forall count w,
  length (wCompleted w) + (length (wSlots w) - count) < fuel ->
  exists w' prefix placed,
    writeback fuel count w = Some w'
    /\ wCompleted w = prefix ++ wCompleted w'
    /\ wForwarded w' = wForwarded w ++ map snd placed
    /\ map snd placed = List.filter (fun i => negb (isFlushed i)) prefix
    /\ wSlots w' = place (wSlots w) placed
    /\ StronglySorted lt (map fst placed)
    /\ Forall (fun i => count <= i /\ unstalled (wSlots w) i) (map fst placed).
Proof.
  induction fuel as [|fuel IH]; intros count w Hfuel; [lia|].
  simpl. destruct (wCompleted w) as [|insn rest] eqn:Ec.
  { exists w, [], []. simpl. rewrite app_nil_r.
    repeat split; auto; constructor. }
  destruct (wSlots w !! count) as [slot|] eqn:Es.
  2:{ exists w, [], []. simpl. rewrite app_nil_r, Ec.
      repeat split; auto; constructor. }
  pose proof (lookup_lt_Some _ _ _ Es) as Hlt.
  destruct (PipelineBuffer.isStalled slot) eqn:Est.
  { destruct (IH (S count) w) as (w' & prefix & placed & H1 & H2 & H3 & H4 & H5 & H6 & H7).
    { rewrite Ec. simpl in *. lia. }
    exists w', prefix, placed. rewrite Ec in H2.
    repeat split; auto.
    eapply List.Forall_impl; [|exact H7]. simpl. intros i [? ?]. split; [lia|auto]. }
  destruct (isFlushed insn) eqn:Efl.
  { destruct (IH count (mkWriteback rest (wSlots w) (wForwarded w)))
      as (w' & prefix & placed & H1 & H2 & H3 & H4 & H5 & H6 & H7).
    { simpl in *. lia. }
    simpl in *. exists w', (insn :: prefix), placed.
    split; [exact H1|]. split; [now rewrite H2|]. split; [exact H3|].
    split; [cbn [List.filter]; now rewrite Efl|]. auto. }
  destruct (isLoad insn && negb (hasExecuted insn)).
  { exists w, [], []. simpl. rewrite app_nil_r, Ec.
    repeat split; auto; constructor. }
  destruct (isStoreCond insn && negb (isCondResultReady insn)).
  { exists w, [], []. simpl. rewrite app_nil_r, Ec.
    repeat split; auto; constructor. }
  destruct (IH (S count)
              (mkWriteback rest
                 (<[count := PipelineBuffer.setTailSlot slot 0 (Some insn)]>
                    (wSlots w))
                 (wForwarded w ++ [insn])))
    as (w' & prefix & placed & H1 & H2 & H3 & H4 & H5 & H6 & H7).
  { simpl in *. rewrite length_insert. lia. }
  simpl in *. exists w', (insn :: prefix), ((count, insn) :: placed).
  split; [exact H1|]. split; [now rewrite H2|].
  split; [rewrite H3, <- app_assoc; reflexivity|].
  split; [cbn [List.filter map snd]; rewrite Efl; simpl; now f_equal|].
  split; [unfold place; simpl; rewrite Es; exact H5|].
  split.
  { simpl. constructor; [exact H6|].
    eapply List.Forall_impl; [|exact H7]. simpl. intros i [? _]. lia. }
  simpl. constructor.
  { split; [lia|]. exists slot. auto. }
  eapply List.Forall_impl; [|exact H7]. simpl. intros i [Hi (s & Hs & Hst)].
  split; [lia|]. exists s. split; [|exact Hst].
  rewrite list_lookup_insert_ne in Hs by lia. exact Hs.
Qed.

(** X11. The loop that hands completed requests to the completion slots
    ends within one round per queued request and slot. It takes requests from
    the front of [completedRequests_] only: what it removes is a prefix of
    the queue, of which the flushed ones are dropped and the others are
    forwarded and written, in queue order, to the tail slots of completion
    slots of strictly increasing index, none of them stalled. So a slot
    receives at most one request, a stalled slot none, and slots not written
    are unchanged. *)
Theorem X11_writeback_in_order (w : Writeback) :
  exists w' prefix placed,
    writeback (S (length (wCompleted w) + length (wSlots w))) 0 w = Some w'
    /\ wCompleted w = prefix ++ wCompleted w'
    /\ map snd placed = List.filter (fun i => negb (isFlushed i)) prefix
    /\ wForwarded w' = wForwarded w ++ map snd placed
    /\ wSlots w' = place (wSlots w) placed
    /\ StronglySorted lt (map fst placed)
    /\ Forall (unstalled (wSlots w)) (map fst placed)
    /\ length (wSlots w') = length (wSlots w)
    /\ (forall i, ~ In i (map fst placed) -> wSlots w' !! i = wSlots w !! i)
    /\ length placed <= length (wSlots w).
Proof.
  destruct (writeback_spec (S (length (wCompleted w) + length (wSlots w))) 0 w)
    as (w' & prefix & placed & H1 & H2 & H3 & H4 & H5 & H6 & H7); [lia|].
  exists w', prefix, placed.
  split; [exact H1|]. split; [exact H2|]. split; [exact H4|].
  split; [exact H3|]. split; [exact H5|]. split; [exact H6|].
  split; [eapply List.Forall_impl; [|exact H7]; simpl; tauto|].
  split; [rewrite H5; apply place_length|].
  split; [intros i Hi; rewrite H5; now apply place_lookup_other|].
  assert (Hb : forall (l : list nat) n,
             StronglySorted lt l -> Forall (fun i => i < n) l -> length l <= n).
  { intros l. induction l as [|x l IHl] using rev_ind; intros n Hs Hf; simpl; [lia|].
    rewrite length_app. simpl.
    apply Forall_app in Hf as [Hf Hx]. apply Forall_cons_1 in Hx as [Hx _].
    assert (Hs' : StronglySorted lt l /\ Forall (fun i => i < x) l).
    { clear -Hs. induction l as [|y l IHl]; simpl in *; [split; constructor|].
      apply StronglySorted_inv in Hs as [Hs Hy].
      destruct (IHl Hs) as [H1 H2]. split.
      - constructor; [exact H1|]. apply Forall_app in Hy as [Hy _]. exact Hy.
      - constructor; [|exact H2]. apply Forall_app in Hy as [_ Hy].
        now apply Forall_cons_1 in Hy as [Hy _]. }
    destruct Hs' as [Hs1 Hs2]. specialize (IHl x Hs1 Hs2). lia. }
  rewrite <- (length_map fst placed). apply Hb; [exact H6|].
  eapply List.Forall_impl; [|exact H7]. simpl.
  intros i [_ (s & Hs & _)]. now apply lookup_lt_Some in Hs.
Qed.

End Completion.

(** Three completed requests, the second of them flushed, and three slots of
    which the first is stalled. *)
Lemma X10_purgeFlushed_removes_witness :
  StdMap.find 7%Z
    (requestedLoads_
       (purgeFlushed (fun i => (sequenceId i =? 7)%Z)
          (set_requestedLoads
             (fun _ => [(7%Z, (load7, 0%Z)); (9%Z, (load9, 0%Z))])
             (addLoad load9 (addLoad load7 (emptyQueue OUTOFORDER 10))))))
  = None.
Proof.
  destruct (X10_purgeFlushed_removes (fun i => (sequenceId i =? 7)%Z)
              (set_requestedLoads
                 (fun _ => [(7%Z, (load7, 0%Z)); (9%Z, (load9, 0%Z))])
                 (addLoad load9 (addLoad load7 (emptyQueue OUTOFORDER 10)))))
    as (_ & _ & _ & _ & _ & _ & _ & H & _).
  apply (H ltac:(repeat constructor; simpl; lia) load7);
    [simpl; auto | reflexivity].
Defined.

End LSQ.

(** ** ReorderBuffer *)

Module ROB.
Section Rob.
(** The register alias table behind [rat]: its state and [commit]. *)
Context {R : Type}.
Variable ratCommit : Register -> R -> R.

(** The members of [ReorderBuffer], with the two units it refers to and the
    instructions passed to [raiseException]. *)
Record t : Type := mk {
  buffer : list Instruction;
  maxSize : nat;
  shouldFlush_ : bool;
  flushAfter : Z;
  pc : Z;
  rat : R;
  lsq : LSQ.t;
  raised : list Instruction
}.

Definition shouldFlush (rob : t) : bool := shouldFlush_ rob.
Definition getFlushAddress (rob : t) : Z := pc rob.
Definition getFlushSeqId (rob : t) : Z := flushAfter rob.
Definition size (rob : t) : nat := length (buffer rob).

(** How one round of the loop of [commit] ends: [break], [return n + 1],
    the end of the body, or a failed assertion in the load/store queue. *)
Inductive Step : Type :=
| Break (rob : t)
| Return (rob : t)
| Next (rob : t)
| Abort.

Definition commitBody (rob : t) : Step :=
  match buffer rob with
  | [] => Abort
  | uop :: rest =>
      if negb (canCommit uop) then Break rob
      else if exceptionEncountered uop then
        Return (mk rest (maxSize rob) (shouldFlush_ rob) (flushAfter rob)
                   (pc rob) (rat rob) (lsq rob) (raised rob ++ [uop]))
      else
        let rat' := fold_left (fun r reg => ratCommit reg r)
                              (destinationRegisters uop) (rat rob) in
        if isStore uop then
          match LSQ.commitStore uop (lsq rob) with
          | None => Abort
          | Some (violationFound, lsq') =>
              if violationFound then
                match LSQ.getViolatingLoad lsq' with
                | None => Abort
                | Some load =>
                    Return (mk rest (maxSize rob) true
                               (wrap64 (sequenceId load - 1))
                               (instructionAddress load) rat' lsq' (raised rob))
                end
              else
                Next (mk rest (maxSize rob) (shouldFlush_ rob) (flushAfter rob)
                         (pc rob) rat' lsq' (raised rob))
          end
        else if isLoad uop then
          match LSQ.commitLoad uop (lsq rob) with
          | None => Abort
          | Some lsq' =>
              Next (mk rest (maxSize rob) (shouldFlush_ rob) (flushAfter rob)
                       (pc rob) rat' lsq' (raised rob))
          end
        else
          Next (mk rest (maxSize rob) (shouldFlush_ rob) (flushAfter rob)
                   (pc rob) rat' (lsq rob) (raised rob))
  end.

(** The loop [for (n = 0; n < maxCommits; n++)], with [left = maxCommits - n]
    rounds to go. *)
Fixpoint commitLoop (left n : nat) (rob : t) : option (nat * t) :=
  match left with
  | O => Some (n, rob)
  | S left' =>
      match commitBody rob with
      | Break rob' => Some (n, rob')
      | Return rob' => Some (n + 1, rob')
      | Next rob' => commitLoop left' (n + 1) rob'
      | Abort => None
      end
  end.

Definition commit (maxCommitSize : nat) (rob : t) : option (nat * t) :=
  let rob0 := mk (buffer rob) (maxSize rob) false (flushAfter rob) (pc rob)
                 (rat rob) (lsq rob) (raised rob) in
  commitLoop (Nat.min maxCommitSize (length (buffer rob0))) 0 rob0.

(** [k] rounds that reach the end of the body. *)
Fixpoint walk (k : nat) (rob : t) : option t :=
  match k with
  | O => Some rob
  | S k' =>
      match commitBody rob with
      | Next rob' => walk k' rob'
      | _ => None
      end
  end.

Lemma commitBody_Next rob rob' :
  commitBody rob = Next rob' ->
  exists uop, buffer rob = uop :: buffer rob'.
Proof.
  unfold commitBody. destruct (buffer rob) as [|uop rest]; [discriminate|].
  destruct (negb (canCommit uop)); [discriminate|].
  destruct (exceptionEncountered uop); [discriminate|].
  destruct (isStore uop).
  - destruct (LSQ.commitStore uop (lsq rob)) as [[[|] lsq']|]; try discriminate.
    + destruct (LSQ.getViolatingLoad lsq'); discriminate.
    + intros [= <-]. now exists uop.
  - destruct (isLoad uop).
    + destruct (LSQ.commitLoad uop (lsq rob)); [|discriminate].
      intros [= <-]. now exists uop.
    + intros [= <-]. now exists uop.
Qed.

Lemma walk_length k : forall rob robk,
  walk k rob = Some robk -> length (buffer rob) = k + length (buffer robk).
Proof.
  induction k as [|k IH]; intros rob robk; simpl.
  - now intros [= <-].
  - destruct (commitBody rob) as [| |rob'|] eqn:E; try discriminate.
    intros H. destruct (commitBody_Next _ _ E) as [uop ->]. simpl.
    now rewrite (IH _ _ H).
Qed.

Lemma commitLoop_walk k : forall left n rob robk rob',
  walk k rob = Some robk -> k < left -> commitBody robk = Return rob' ->
  commitLoop left n rob = Some (n + k + 1, rob').
Proof.
  induction k as [|k IH]; intros left n rob robk rob' Hw Hlt Hret;
    (destruct left as [|left]; [lia|]); simpl in Hw |- *.
  - injection Hw as <-. rewrite Hret. f_equal. f_equal. lia.
  - destruct (commitBody rob) as [| |rob1|]; try discriminate.
    rewrite (IH left (n + 1) rob1 robk rob' Hw ltac:(lia) Hret).
    f_equal. f_equal. lia.
Qed.

Lemma commitStore_true_violating uop q q' :
  LSQ.commitStore uop q = Some (true, q') ->
  exists load, LSQ.getViolatingLoad q' = Some load.
Proof.
  unfold LSQ.commitStore.
  destruct (LSQ.storeQueue_ q) as [|[f d] rest]; [discriminate|].
  destruct (negb _); [discriminate|].
  destruct (_ =? 0)%nat; [discriminate|].
  set (q2 := match StdMap.find _ _ with Some _ => _ | None => _ end).
  intros [= Hb <-]. unfold LSQ.getViolatingLoad. simpl.
  destruct (LSQ.violatingLoad_ q2) as [load|]; [now exists load|discriminate].
Qed.

(** C3. In [commit(maxCommitSize)], let the first [k] instructions of the
    buffer retire without ending the walk, [k < maxCommitSize], and let the
    next one be a store that can commit, has no exception, and for which
    [commitStore] reports a violation. Then [commit] returns [k + 1] with
    exactly these [k + 1] instructions popped, [shouldFlush()] is true, the
    recorded flush-after id is the violating load's sequence id minus 1 (in
    64 bits) and [getFlushAddress()] is the load's instruction address. *)
Theorem C3_commit_stops_on_violation
    (maxCommitSize k : nat) (rob robk : t) (uop : Instruction)
    (rest : list Instruction) (lsq' : LSQ.t) :
  k < maxCommitSize ->
  walk k (mk (buffer rob) (maxSize rob) false (flushAfter rob) (pc rob)
             (rat rob) (lsq rob) (raised rob)) = Some robk ->
  buffer robk = uop :: rest ->
  canCommit uop = true -> exceptionEncountered uop = false ->
  isStore uop = true ->
  LSQ.commitStore uop (lsq robk) = Some (true, lsq') ->
  exists load rob',
    LSQ.getViolatingLoad lsq' = Some load
    /\ commit maxCommitSize rob = Some (k + 1, rob')
    /\ buffer rob' = rest
    /\ buffer rob = firstn (k + 1) (buffer rob) ++ buffer rob'
    /\ shouldFlush rob' = true
    /\ getFlushSeqId rob' = wrap64 (sequenceId load - 1)
    /\ ((1 <= sequenceId load <= 2 ^ 64)%Z ->
        getFlushSeqId rob' = (sequenceId load - 1)%Z)
    /\ getFlushAddress rob' = instructionAddress load
    /\ lsq rob' = lsq'.
Proof.
  intros Hk Hw Hbuf Hcan Hexc Hst Hcs.
  destruct (commitStore_true_violating _ _ _ Hcs) as [load Hload].
  set (rob' := mk rest (maxSize robk) true (wrap64 (sequenceId load - 1))
                  (instructionAddress load)
                  (fold_left (fun r reg => ratCommit reg r)
                             (destinationRegisters uop) (rat robk))
                  lsq' (raised robk)).
  assert (Hret : commitBody robk = Return rob').
  { unfold commitBody. now rewrite Hbuf, Hcan, Hexc, Hst, Hcs, Hload. }
  pose proof (walk_length _ _ _ Hw) as Hlen. simpl in Hlen.
  exists load, rob'. split; [exact Hload|]. split.
  { unfold commit.
    rewrite (commitLoop_walk k _ 0 _ robk rob' Hw); [reflexivity| |exact Hret].
    simpl. rewrite Hlen, Hbuf. simpl. lia. }
  split; [reflexivity|]. split.
  { clear -Hw Hbuf. simpl.
    set (rob0 := mk (buffer rob) _ _ _ _ _ _ _) in Hw.
    change (buffer rob) with (buffer rob0). clearbody rob0.
    revert rob0 Hw. induction k as [|k IH]; intros rob0 Hw; simpl in Hw.
    - injection Hw as ->. now rewrite Hbuf.
    - destruct (commitBody rob0) as [| |rob1|] eqn:E; try discriminate.
      destruct (commitBody_Next _ _ E) as [u Hu]. rewrite Hu. simpl.
      f_equal. now apply IH. }
  split; [reflexivity|]. split; [reflexivity|]. split.
  { intros Hr. simpl. apply wrap64_small. lia. }
  split; reflexivity.
Qed.

End Rob.

(** A buffer of an add, the store of sequence id 5 and a further add, with
    the younger overlapping loads having requested memory. *)
Definition add4 : Instruction := LSQ.insn 4 [] 0 false.
Definition add6 : Instruction := LSQ.insn 6 [] 0 false.

Definition plain (i : Instruction) : Instruction :=
  mkInstruction (sequenceId i) (instructionId i) (microOpIndex i)
    (instructionAddress i) (generatedAddresses i) (lsqLatency i) (data i)
    (destinationRegisters i) false false false false false false
    (canCommit i) (exceptionEncountered i).

Definition rob_example : @t unit :=
  mk [plain add4; LSQ.store5; plain add6] 8 false 0 0 tt
     LSQ.queue_younger_loads [].

Example commit_rob_example :
  option_map (fun r => (fst r, buffer (snd r), shouldFlush (snd r),
                        getFlushSeqId (snd r), getFlushAddress (snd r)))
    (commit (fun _ r => r) 4 rob_example)
  = Some (2, [plain add6], true, 6%Z, 4124%Z).
Proof. reflexivity. Qed.

Lemma C3_commit_stops_on_violation_witness :
  exists load rob',
    LSQ.getViolatingLoad
      (snd (default (false, LSQ.queue_younger_loads)
              (LSQ.commitStore LSQ.store5 LSQ.queue_younger_loads))) = Some load
    /\ commit (fun _ r => r) 4 rob_example = Some (1 + 1, rob')
    /\ buffer rob' = [plain add6]
    /\ shouldFlush rob' = true
    /\ getFlushSeqId rob' = wrap64 (sequenceId load - 1)
    /\ getFlushAddress rob' = instructionAddress load.
Proof.
  destruct (C3_commit_stops_on_violation (fun _ r => r) 4 1 rob_example
              (mk [LSQ.store5; plain add6] 8 false 0 0 tt
                  LSQ.queue_younger_loads [])
              LSQ.store5 [plain add6]
              (snd (default (false, LSQ.queue_younger_loads)
                      (LSQ.commitStore LSQ.store5 LSQ.queue_younger_loads))))
    as (load & rob' & H1 & H2 & H3 & _ & H4 & H5 & _ & H6 & _);
    [lia | reflexivity | reflexivity | reflexivity | reflexivity | reflexivity
     | reflexivity |].
  exists load, rob'. repeat split; assumption.
Defined.

(** *** [reserve], [flush] and the retired prefix of [commit] *)

Definition wrap32 (x : Z) : Z := (x mod 2 ^ 32)%Z.

Section Order.
Context {R : Type}.
(** [rat.commit] and [rat.rewind] of the register alias table. *)
Variable ratCommit : Register -> R -> R.
Variable ratRewind : Register -> R -> R.

Local Abbreviation commitBody := (commitBody ratCommit).
Local Abbreviation commitLoop := (commitLoop ratCommit).
Local Abbreviation commit := (commit ratCommit).
Local Abbreviation walk := (walk ratCommit).

(** [insn->setSequenceId(seqId)]. *)
Definition setSequenceId (seqId : Z) (i : Instruction) : Instruction :=
  mkInstruction seqId (instructionId i) (microOpIndex i) (instructionAddress i)
    (generatedAddresses i) (lsqLatency i) (data i) (destinationRegisters i)
    (isLoad i) (isStore i) (isStoreData i) (isStoreCond i) (isLoadReserved i)
    (isCondResultReady i) (canCommit i) (exceptionEncountered i).

(** [reserve], with the member [seqId] passed and returned beside the other
    members; [None] is the failed assertion on a full buffer. *)
Definition reserve (insn : Instruction) (rob : @t R) (seqId : Z)
    : option (@t R * Z) :=
  if (length (buffer rob) <? maxSize rob)%nat then
    Some (mk (buffer rob ++ [setSequenceId seqId insn]) (maxSize rob)
             (shouldFlush_ rob) (flushAfter rob) (pc rob) (rat rob) (lsq rob)
             (raised rob),
          wrap64 (seqId + 1))
  else None.

(** The loop of [flush] from the back of the buffer, on the buffer
    reversed: it ends at the first instruction that is not newer than
    [afterSeqId]. The result is what is left of the reversed buffer, the
    register alias table and the instructions marked as flushed. *)
Fixpoint flushBack (afterSeqId : Z) (backwards : list Instruction) (r : R)
    (flushed : list Instruction) : list Instruction * R * list Instruction :=
  match backwards with
  | [] => ([], r, flushed)
  | uop :: rest =>
      if (sequenceId uop <=? afterSeqId)%Z then (backwards, r, flushed)
      else
        flushBack afterSeqId rest
          (fold_left (fun r' reg => ratRewind reg r') (destinationRegisters uop) r)
          (flushed ++ [uop])
  end.

(** [flush(afterSeqId)]; the second component lists the instructions on which
    [setFlushed] was called, in the order of the calls. *)
Definition flush (afterSeqId : Z) (rob : @t R) : @t R * list Instruction :=
  let '(backwards, r, flushed) :=
    flushBack afterSeqId (rev (buffer rob)) (rat rob) [] in
  (mk (rev backwards) (maxSize rob) (shouldFlush_ rob) (flushAfter rob) (pc rob)
      r (lsq rob) (raised rob),
   flushed).

(** [getFreeSpace], an [unsigned int]. *)
Definition getFreeSpace (rob : @t R) : Z :=
  wrap32 (Z.of_nat (maxSize rob) - Z.of_nat (length (buffer rob))).

Lemma commitBody_cases (rob : @t R) :
  match commitBody rob with
  | Break rob' =>
      rob' = rob /\ exists uop rest, buffer rob = uop :: rest /\ canCommit uop = false
  | Return rob' =>
      exists uop, buffer rob = uop :: buffer rob' /\ canCommit uop = true
                  /\ maxSize rob' = maxSize rob
  | Next rob' =>
      exists uop, buffer rob = uop :: buffer rob' /\ canCommit uop = true
                  /\ maxSize rob' = maxSize rob
                  /\ shouldFlush_ rob' = shouldFlush_ rob
                  /\ raised rob' = raised rob
  | Abort => True
  end.
Proof.
  unfold ROB.commitBody. destruct (buffer rob) as [|uop rest]; [exact I|].
  destruct (canCommit uop) eqn:Ec; simpl; [|split; [reflexivity|eauto]].
  destruct (exceptionEncountered uop); [exists uop; auto|].
  destruct (isStore uop).
  - destruct (LSQ.commitStore uop (lsq rob)) as [[[|] lsq']|]; try exact I.
    + destruct (LSQ.getViolatingLoad lsq'); [|exact I]. exists uop. auto.
    + exists uop. simpl. auto.
  - destruct (isLoad uop).
    + destruct (LSQ.commitLoad uop (lsq rob)); [|exact I]. exists uop. simpl. auto.
    + exists uop. simpl. auto.
Qed.

Lemma commitLoop_prefix remaining : forall n (rob : @t R) n' rob',
  commitLoop remaining n rob = Some (n', rob') ->
  n <= n' <= n + remaining
  /\ n' - n <= length (buffer rob)
  /\ buffer rob' = skipn (n' - n) (buffer rob)
  /\ Forall (fun u => canCommit u = true) (firstn (n' - n) (buffer rob))
  /\ maxSize rob' = maxSize rob.
Proof.
  induction remaining as [|remaining IH]; intros n rob n' rob'; simpl.
  - intros [= <- <-]. rewrite Nat.sub_diag. simpl.
    repeat split; auto; lia.
  - pose proof (commitBody_cases rob) as Hc.
    destruct (ROB.commitBody ratCommit rob) as [r1|r1|r1|]; try discriminate.
    + intros [= <- <-]. destruct Hc as [-> _]. rewrite Nat.sub_diag. simpl.
      repeat split; auto; lia.
    + intros [= <- <-]. destruct Hc as (uop & Hb & Hcan & Hm).
      replace (n + 1 - n) with 1 by lia. rewrite Hb. simpl.
      repeat split; auto; lia.
    + intros H. destruct Hc as (uop & Hb & Hcan & Hm & _).
      destruct (IH _ _ _ _ H) as (H1 & H2 & H3 & H4 & H5).
      replace (n' - n) with (S (n' - (n + 1))) by lia. rewrite Hb. simpl.
      split; [lia|]. split; [lia|]. split; [exact H3|].
      split; [constructor; assumption|congruence].
Qed.

Lemma commitLoop_plain remaining : forall n (rob : @t R),
  Forall (fun u => isStore u = false /\ isLoad u = false) (buffer rob) ->
  remaining <= length (buffer rob) ->
  exists n' rob', commitLoop remaining n rob = Some (n', rob')
    /\ shouldFlush_ rob' = shouldFlush_ rob /\ lsq rob' = lsq rob.
Proof.
  induction remaining as [|remaining IH]; intros n rob Hall Hlen; simpl.
  - eauto.
  - unfold ROB.commitBody. destruct (buffer rob) as [|uop rest] eqn:Eb;
      [simpl in Hlen; lia|].
    apply Forall_cons_1 in Hall as [[Hs Hl] Hall].
    destruct (canCommit uop); simpl; [|eauto].
    destruct (exceptionEncountered uop); [eexists _, _; split; [reflexivity|auto]|].
    rewrite Hs, Hl.
    destruct (IH (n + 1)
                (mk rest (maxSize rob) (shouldFlush_ rob) (flushAfter rob) (pc rob)
                    (fold_left (fun r reg => ratCommit reg r)
                               (destinationRegisters uop) (rat rob))
                    (lsq rob) (raised rob)))
      as (n' & rob' & H1 & H2 & H3); [exact Hall | simpl in *; lia |].
    exists n', rob'. auto.
Qed.

Lemma commit_prefix (maxCommitSize : nat) (rob : @t R) n rob' :
  commit maxCommitSize rob = Some (n, rob') ->
  n <= maxCommitSize /\ n <= length (buffer rob)
  /\ buffer rob' = skipn n (buffer rob)
  /\ Forall (fun u => canCommit u = true) (firstn n (buffer rob))
  /\ maxSize rob' = maxSize rob
  /\ size rob' = size rob - n.
Proof.
  unfold ROB.commit. simpl. intros H.
  apply commitLoop_prefix in H as (H1 & H2 & H3 & H4 & H5).
  simpl in *. rewrite Nat.sub_0_r in *.
  repeat split; auto; try lia.
  unfold size. rewrite H3, length_skipn. reflexivity.
Qed.

(** X12. [commit(maxCommitSize)] retires a prefix of the buffer: when it
    returns [n], at most [maxCommitSize] and at most the size of the buffer,
    the buffer is the former one without its first [n] instructions, each of
    which could commit, and the capacity is unchanged. With no loads and
    stores in the buffer it always returns, reports no flush and leaves the
    load/store queue alone. With [maxCommitSize] 0, an empty buffer, or a
    front instruction that cannot commit, it returns 0 and removes nothing. *)
Theorem X12_commit_retires_prefix (maxCommitSize : nat) (rob : @t R) :
  (forall n rob',
     commit maxCommitSize rob = Some (n, rob') ->
     n <= maxCommitSize /\ n <= length (buffer rob)
     /\ buffer rob' = skipn n (buffer rob)
     /\ Forall (fun u => canCommit u = true) (firstn n (buffer rob))
     /\ maxSize rob' = maxSize rob
     /\ size rob' = size rob - n)
  /\ (Forall (fun u => isStore u = false /\ isLoad u = false) (buffer rob) ->
      exists n rob', commit maxCommitSize rob = Some (n, rob')
        /\ shouldFlush rob' = false /\ lsq rob' = lsq rob)
  /\ (maxCommitSize = 0 \/ buffer rob = []
      \/ (exists uop rest, buffer rob = uop :: rest /\ canCommit uop = false) ->
      exists rob', commit maxCommitSize rob = Some (0, rob')
        /\ buffer rob' = buffer rob /\ shouldFlush rob' = false
        /\ lsq rob' = lsq rob /\ rat rob' = rat rob /\ raised rob' = raised rob).
Proof.
  split; [intros n rob'; apply commit_prefix|].
  unfold ROB.commit. simpl. split.
  - intros Hall.
    destruct (commitLoop_plain (Nat.min maxCommitSize (length (buffer rob))) 0
                (mk (buffer rob) (maxSize rob) false (flushAfter rob) (pc rob)
                    (rat rob) (lsq rob) (raised rob)))
      as (n & rob' & H1 & H2 & H3); [exact Hall | simpl; lia |].
    exists n, rob'. auto.
  - intros [->|[->|(uop & rest & Hb & Hc)]].
    + simpl. eexists. split; [reflexivity|]. simpl. auto.
    + rewrite Nat.min_0_r. simpl. eexists. split; [reflexivity|]. simpl. auto.
    + rewrite Hb. destruct maxCommitSize as [|m].
      * simpl. eexists. split; [reflexivity|]. simpl. auto.
      * simpl. unfold ROB.commitBody. simpl. rewrite Hc. simpl.
        eexists. split; [reflexivity|]. simpl. auto.
Qed.

Lemma walk_fields k : forall (rob robk : @t R),
  walk k rob = Some robk ->
  shouldFlush_ robk = shouldFlush_ rob /\ raised robk = raised rob
  /\ maxSize robk = maxSize rob.
Proof.
  induction k as [|k IH]; intros rob robk; simpl.
  - intros [= <-]. auto.
  - pose proof (commitBody_cases rob) as Hc.
    destruct (ROB.commitBody ratCommit rob) as [| |rob1|]; try discriminate.
    intros H. destruct Hc as (uop & _ & _ & Hm & Hs & Hr).
    destruct (IH _ _ H) as (H1 & H2 & H3). split; [congruence|].
    split; congruence.
Qed.

(** X13. In [commit(maxCommitSize)], let the first [k] instructions retire
    without ending the walk, [k < maxCommitSize], and let the next one be
    ready to commit with an exception recorded. Then [commit] returns
    [k + 1] with these [k + 1] instructions popped; the instruction is passed
    to [raiseException] once, behind the instructions raised before; its
    destination registers are not committed to the register alias table, the
    load/store queue is not called for it, and no flush is requested. *)
Theorem X13_commit_stops_on_exception
    (maxCommitSize k : nat) (rob robk : @t R) (uop : Instruction)
    (rest : list Instruction) :
  k < maxCommitSize ->
  walk k (mk (buffer rob) (maxSize rob) false (flushAfter rob) (pc rob)
             (rat rob) (lsq rob) (raised rob)) = Some robk ->
  buffer robk = uop :: rest ->
  canCommit uop = true -> exceptionEncountered uop = true ->
  exists rob',
    commit maxCommitSize rob = Some (k + 1, rob')
    /\ buffer rob' = rest
    /\ raised rob' = raised rob ++ [uop]
    /\ rat rob' = rat robk
    /\ lsq rob' = lsq robk
    /\ shouldFlush rob' = false
    /\ getFlushSeqId rob' = getFlushSeqId robk
    /\ getFlushAddress rob' = getFlushAddress robk.
Proof.
  intros Hk Hw Hbuf Hcan Hexc.
  set (rob' := mk rest (maxSize robk) (shouldFlush_ robk) (flushAfter robk)
                  (pc robk) (rat robk) (lsq robk) (raised robk ++ [uop])).
  assert (Hret : commitBody robk = Return rob').
  { unfold ROB.commitBody. now rewrite Hbuf, Hcan, Hexc. }
  pose proof (walk_length _ _ _ _ Hw) as Hlen. simpl in Hlen.
  destruct (walk_fields _ _ _ Hw) as (Hs & Hr & _). simpl in Hs, Hr.
  exists rob'. split.
  { unfold ROB.commit.
    rewrite (commitLoop_walk ratCommit k _ 0 _ robk rob' Hw); [reflexivity| |exact Hret].
    simpl. rewrite Hlen, Hbuf. simpl. lia. }
  unfold shouldFlush. simpl. rewrite Hs, Hr. repeat split.
Qed.

(** The sequence ids of the buffer rise strictly from front to back and lie
    below the next id to hand out; the buffer is within its capacity. *)
Definition ordered (rob : @t R) (seqId : Z) : Prop :=
  StronglySorted Z.lt (map sequenceId (buffer rob))
  /\ Forall (fun u => (0 <= sequenceId u < seqId)%Z) (buffer rob)
  /\ length (buffer rob) <= maxSize rob.

(** The calls that change the buffer. *)
Inductive Op : Type :=
| OpReserve (insn : Instruction)
| OpCommit (maxCommitSize : nat)
| OpFlush (afterSeqId : Z).

Definition run (op : Op) (s : @t R * Z) : option (@t R * Z) :=
  match op with
  | OpReserve insn => reserve insn (fst s) (snd s)
  | OpCommit m => option_map (fun r => (snd r, snd s)) (commit m (fst s))
  | OpFlush a => Some (fst (flush a (fst s)), snd s)
  end.

Fixpoint runAll (ops : list Op) (s : @t R * Z) : option (@t R * Z) :=
  match ops with
  | [] => Some s
  | op :: ops' =>
      match run op s with
      | Some s' => runAll ops' s'
      | None => None
      end
  end.

Lemma sorted_skipn (l : list Z) n :
  StronglySorted Z.lt l -> StronglySorted Z.lt (skipn n l).
Proof.
  revert l. induction n as [|n IH]; intros l Hs; [exact Hs|].
  destruct l as [|x l]; [constructor|]. simpl.
  apply StronglySorted_inv in Hs as [Hs _]. now apply IH.
Qed.

Lemma Forall_skipn {A : Type} (P : A -> Prop) (l : list A) n :
  Forall P l -> Forall P (skipn n l).
Proof.
  revert l. induction n as [|n IH]; intros l Hf; [exact Hf|].
  destruct l as [|x l]; [constructor|]. simpl.
  apply Forall_cons_1 in Hf as [_ Hf]. now apply IH.
Qed.

Lemma flushBack_spec afterSeqId backwards : forall r flushed,
  exists gone kept,
    backwards = gone ++ kept
    /\ flushBack afterSeqId backwards r flushed
       = (kept,
          fold_left (fun r' uop =>
                       fold_left (fun r'' reg => ratRewind reg r'')
                                 (destinationRegisters uop) r')
                    gone r,
          flushed ++ gone)
    /\ Forall (fun u => (afterSeqId < sequenceId u)%Z) gone
    /\ match kept with
       | [] => True
       | u :: _ => (sequenceId u <= afterSeqId)%Z
       end.
Proof.
  induction backwards as [|uop rest IH]; intros r flushed; simpl.
  - exists [], []. simpl. rewrite app_nil_r. repeat split; auto.
  - destruct (Z.leb_spec (sequenceId uop) afterSeqId) as [Hle|Hgt].
    + exists [], (uop :: rest). simpl. rewrite app_nil_r. repeat split; auto.
    + destruct (IH (fold_left (fun r' reg => ratRewind reg r')
                              (destinationRegisters uop) r) (flushed ++ [uop]))
        as (gone & kept & H1 & H2 & H3 & H4).
      exists (uop :: gone), kept. simpl. rewrite H2, <- app_assoc. simpl.
      split; [now rewrite H1|]. split; [reflexivity|].
      split; [constructor; [lia|exact H3]|exact H4].
Qed.

Lemma flush_prefix afterSeqId (rob : @t R) :
  exists gone,
    buffer rob = buffer (fst (flush afterSeqId rob)) ++ rev gone
    /\ snd (flush afterSeqId rob) = gone
    /\ Forall (fun u => (afterSeqId < sequenceId u)%Z) gone
    /\ rat (fst (flush afterSeqId rob))
       = fold_left (fun r' uop =>
                      fold_left (fun r'' reg => ratRewind reg r'')
                                (destinationRegisters uop) r')
                   gone (rat rob)
    /\ match rev (buffer (fst (flush afterSeqId rob))) with
       | [] => True
       | u :: _ => (sequenceId u <= afterSeqId)%Z
       end
    /\ maxSize (fst (flush afterSeqId rob)) = maxSize rob.
Proof.
  unfold flush.
  destruct (flushBack_spec afterSeqId (rev (buffer rob)) (rat rob) [])
    as (gone & kept & H1 & H2 & H3 & H4).
  rewrite H2. simpl. exists gone.
  split.
  { rewrite <- (rev_involutive (buffer rob)), H1, rev_app_distr. reflexivity. }
  split; [reflexivity|]. split; [exact H3|]. split; [reflexivity|].
  split; [now rewrite rev_involutive|reflexivity].
Qed.

Lemma sorted_app_inv (a b : list Z) :
  StronglySorted Z.lt (a ++ b) ->
  StronglySorted Z.lt a /\ StronglySorted Z.lt b
  /\ forall x y, In x a -> In y b -> (x < y)%Z.
Proof.
  induction a as [|x a IH]; simpl; intros Hs.
  - split; [constructor|]. split; [exact Hs|]. intros ? ? [].
  - apply StronglySorted_inv in Hs as [Hs Hx].
    destruct (IH Hs) as (H1 & H2 & H3).
    apply Forall_app in Hx as [Hxa Hxb]. rewrite List.Forall_forall in Hxb.
    split; [constructor; assumption|]. split; [exact H2|].
    intros x' y [<-|Hin] Hy; [now apply Hxb|now apply H3].
Qed.

Lemma run_ordered op (rob rob' : @t R) seqId seqId' :
  ordered rob seqId -> (0 <= seqId)%Z -> (seqId + 1 < 2 ^ 64)%Z ->
  run op (rob, seqId) = Some (rob', seqId') ->
  ordered rob' seqId' /\ (seqId <= seqId' <= seqId + 1)%Z
  /\ maxSize rob' = maxSize rob.
Proof.
  intros (Hs & Hb & Hl) H0 Hlim. destruct op as [insn|m|a]; simpl.
  - unfold reserve. destruct (Nat.ltb_spec (length (buffer rob)) (maxSize rob));
      [|discriminate].
    intros [= <- <-]. rewrite wrap64_small by lia.
    split; [|split; [lia|reflexivity]]. unfold ordered. simpl.
    rewrite map_app, length_app. simpl. split; [|split; [|lia]].
    + apply LSQ.sorted_app; [exact Hs|repeat constructor|].
      intros x y Hx [<-|[]]. apply in_map_iff in Hx as (u & <- & Hu).
      rewrite List.Forall_forall in Hb. specialize (Hb u Hu). lia.
    + apply Forall_app. split.
      * eapply List.Forall_impl; [|exact Hb]. simpl. intros u Hu. lia.
      * repeat constructor; simpl; lia.
  - destruct (ROB.commit ratCommit m rob) as [[n r1]|] eqn:Ec; [|discriminate].
    simpl. intros [= <- <-].
    destruct (commit_prefix m rob n r1 Ec) as (_ & _ & Hbuf & _ & Hm & _).
    split; [|split; [lia|exact Hm]]. unfold ordered. rewrite Hbuf, Hm.
    split; [rewrite <- skipn_map; now apply sorted_skipn|].
    split; [now apply Forall_skipn|]. rewrite length_skipn. lia.
  - intros [= <- <-].
    destruct (flush_prefix a rob) as (gone & Hbuf & _ & _ & _ & _ & Hm).
    split; [|split; [lia|exact Hm]]. unfold ordered. rewrite Hm.
    rewrite Hbuf, map_app in Hs. apply sorted_app_inv in Hs as [Hs _].
    rewrite Hbuf in Hb, Hl. apply Forall_app in Hb as [Hb _].
    rewrite length_app in Hl. split; [exact Hs|]. split; [exact Hb|lia].
Qed.

Lemma runAll_ordered ops : forall (rob rob' : @t R) seqId seqId',
  ordered rob seqId -> (0 <= seqId)%Z ->
  (seqId + Z.of_nat (length ops) < 2 ^ 64)%Z ->
  runAll ops (rob, seqId) = Some (rob', seqId') ->
  ordered rob' seqId' /\ (seqId <= seqId' <= seqId + Z.of_nat (length ops))%Z
  /\ maxSize rob' = maxSize rob.
Proof.
  induction ops as [|op ops IH]; intros rob rob' seqId seqId' Ho H0 Hlim; simpl.
  - intros [= <- <-]. split; [exact Ho|]. split; [lia|reflexivity].
  - destruct (run op (rob, seqId)) as [[rob1 seqId1]|] eqn:E; [|discriminate].
    intros H. simpl length in Hlim.
    destruct (run_ordered op rob rob1 seqId seqId1 Ho H0 ltac:(lia) E)
      as (Ho1 & Hr & Hm).
    destruct (IH rob1 rob' seqId1 seqId' Ho1 ltac:(lia) ltac:(lia) H)
      as (Ho' & Hr' & Hm').
    split; [exact Ho'|]. split; [lia|congruence].
Qed.

(** X14. Starting from a buffer whose sequence ids rise strictly from front
    to back and lie below the next id to hand out, any calls of [reserve],
    [commit] and [flush] that return keep it so, as long as the id counter
    stays below 2^64: [reserve] numbers the instructions in the order of the
    calls. The buffer never exceeds its capacity, which does not change, so
    [getFreeSpace] is the capacity minus the size, without wrap-around. *)
Theorem X14_buffer_stays_ordered
    (ops : list Op) (rob rob' : @t R) (seqId seqId' : Z) :
  ordered rob seqId -> (0 <= seqId)%Z ->
  (seqId + Z.of_nat (length ops) < 2 ^ 64)%Z ->
  (Z.of_nat (maxSize rob) < 2 ^ 32)%Z ->
  runAll ops (rob, seqId) = Some (rob', seqId') ->
  StronglySorted Z.lt (map sequenceId (buffer rob'))
  /\ Forall (fun u => (0 <= sequenceId u < seqId')%Z) (buffer rob')
  /\ size rob' <= maxSize rob'
  /\ maxSize rob' = maxSize rob
  /\ (seqId <= seqId')%Z
  /\ getFreeSpace rob' = (Z.of_nat (maxSize rob) - Z.of_nat (size rob'))%Z.
Proof.
  intros Ho H0 Hlim Hmax Hrun.
  destruct (runAll_ordered ops rob rob' seqId seqId' Ho H0 Hlim Hrun)
    as ((H1 & H2 & H3) & H4 & H5).
  unfold size, getFreeSpace. rewrite H5 in *.
  repeat split; auto; try lia.
  unfold wrap32. apply Z.mod_small. lia.
Qed.

Lemma sorted_last_bound (l : list Instruction) (u : Instruction) (a : Z) :
  StronglySorted Z.lt (map sequenceId (l ++ [u])) ->
  (sequenceId u <= a)%Z ->
  Forall (fun x => (sequenceId x <= a)%Z) (l ++ [u]).
Proof.
  intros Hs Hu. rewrite map_app in Hs.
  apply sorted_app_inv in Hs as (_ & _ & Hlt).
  apply Forall_app. split; [|repeat constructor; exact Hu].
  apply List.Forall_forall. intros x Hx.
  specialize (Hlt (sequenceId x) (sequenceId u)
                  (in_map sequenceId _ _ Hx) (or_introl eq_refl)). lia.
Qed.

Lemma filter_all {A : Type} (f : A -> bool) (l : list A) :
  Forall (fun x => f x = true) l -> List.filter f l = l.
Proof.
  induction 1 as [|x l Hx _ IH]; simpl; [reflexivity|]. now rewrite Hx, IH.
Qed.

Lemma filter_none {A : Type} (f : A -> bool) (l : list A) :
  Forall (fun x => f x = false) l -> List.filter f l = [].
Proof.
  induction 1 as [|x l Hx _ IH]; simpl; [reflexivity|]. now rewrite Hx, IH.
Qed.

(** X15. On a buffer whose sequence ids rise from front to back,
    [flush(afterSeqId)] removes exactly the instructions with a sequence id
    greater than [afterSeqId] and keeps the others in place. The removed
    instructions are marked as flushed from the youngest to the oldest, and in
    that order each of their destination registers is rewound in the register
    alias table. A second [flush] with the same id removes nothing. *)
Theorem X15_flush_removes_newer (afterSeqId : Z) (rob : @t R) :
  StronglySorted Z.lt (map sequenceId (buffer rob)) ->
  buffer (fst (flush afterSeqId rob))
  = List.filter (fun u => (sequenceId u <=? afterSeqId)%Z) (buffer rob)
  /\ snd (flush afterSeqId rob)
     = rev (List.filter (fun u => (afterSeqId <? sequenceId u)%Z) (buffer rob))
  /\ rat (fst (flush afterSeqId rob))
     = fold_left (fun r' uop =>
                    fold_left (fun r'' reg => ratRewind reg r'')
                              (destinationRegisters uop) r')
                 (snd (flush afterSeqId rob)) (rat rob)
  /\ lsq (fst (flush afterSeqId rob)) = lsq rob
  /\ maxSize (fst (flush afterSeqId rob)) = maxSize rob
  /\ flush afterSeqId (fst (flush afterSeqId rob))
     = (fst (flush afterSeqId rob), []).
Proof.
  intros Hs.
  destruct (flush_prefix afterSeqId rob) as (gone & Hbuf & Hgone & Hnew & Hrat & Hlast & Hm).
  set (kept := buffer (fst (flush afterSeqId rob))) in *.
  assert (Hkept : Forall (fun x => (sequenceId x <= afterSeqId)%Z) kept).
  { destruct (rev kept) as [|u r] eqn:Er.
    - apply (f_equal (@rev _)) in Er. rewrite rev_involutive in Er.
      rewrite Er. constructor.
    - apply (f_equal (@rev _)) in Er. rewrite rev_involutive in Er. simpl in Er.
      rewrite Er. apply sorted_last_bound; [|exact Hlast].
      rewrite Hbuf, Er, map_app in Hs. now apply sorted_app_inv in Hs as [Hs _]. }
  assert (Hgone' : Forall (fun u => (afterSeqId < sequenceId u)%Z) (rev gone)).
  { apply List.Forall_forall. intros x Hx. apply in_rev in Hx.
    rewrite List.Forall_forall in Hnew. now apply Hnew. }
  split; [|split; [|split; [|split; [|split]]]].
  - rewrite Hbuf, List.filter_app.
    rewrite (filter_all _ kept), (filter_none _ (rev gone)).
    + now rewrite app_nil_r.
    + eapply List.Forall_impl; [|exact Hgone']. simpl. intros u Hu.
      apply Z.leb_gt. lia.
    + eapply List.Forall_impl; [|exact Hkept]. simpl. intros u Hu.
      apply Z.leb_le. lia.
  - rewrite Hgone, Hbuf, List.filter_app.
    rewrite (filter_none _ kept), (filter_all _ (rev gone)).
    + simpl. now rewrite rev_involutive.
    + eapply List.Forall_impl; [|exact Hgone']. simpl. intros u Hu.
      apply Z.ltb_lt. lia.
    + eapply List.Forall_impl; [|exact Hkept]. simpl. intros u Hu.
      apply Z.ltb_ge. lia.
  - rewrite Hgone. exact Hrat.
  - unfold flush. now destruct (flushBack _ _ _ _) as [[? ?] ?].
  - exact Hm.
  - clear -Hlast. fold kept in Hlast. unfold flush at 1.
    change (buffer (fst (flush afterSeqId rob))) with kept.
    destruct (fst (flush afterSeqId rob)) as [b m s f p r l ra] eqn:E.
    simpl in *. subst kept. simpl in Hlast.
    destruct (rev b) as [|u rest] eqn:Er; simpl.
    + apply (f_equal (@rev _)) in Er. rewrite rev_involutive in Er. now subst b.
    + apply Z.leb_le in Hlast. rewrite Hlast. simpl.
      apply (f_equal (@rev _)) in Er. rewrite rev_involutive in Er. simpl in Er.
      now rewrite Er.
Qed.

End Order.

(** A buffer of capacity 4 in use: three instructions are reserved, one is
    retired, and the buffer is flushed after sequence id 1. *)
Definition rob_empty : @t unit :=
  mk [] 4 false 0 0 tt (LSQ.emptyQueue LSQ.OUTOFORDER 10) [].

Definition ops_example : list Op :=
  [OpReserve (plain add4); OpReserve (plain add6); OpReserve (plain add4);
   OpCommit 1; OpFlush 1].

Example run_ops_example :
  option_map (fun s => (map sequenceId (buffer (fst s)), snd s))
    (runAll (fun _ r => r) (fun _ r => r) ops_example (rob_empty, 0%Z))
  = Some ([1%Z], 3%Z).
Proof. reflexivity. Qed.

Lemma X12_commit_retires_prefix_witness :
  exists n rob',
    commit (fun _ r => r) 4 (mk [plain add4; plain add6] 8 true 0 0 tt
                                (LSQ.emptyQueue LSQ.OUTOFORDER 10) [])
    = Some (n, rob')
    /\ shouldFlush rob' = false.
Proof.
  destruct (X12_commit_retires_prefix (fun _ r => r) 4
              (mk [plain add4; plain add6] 8 true 0 0 tt
                  (LSQ.emptyQueue LSQ.OUTOFORDER 10) [])) as (_ & H & _).
  destruct H as (n & rob' & H1 & H2 & _).
  { repeat constructor. }
  exists n, rob'. auto.
Defined.

Definition faulting6 : Instruction :=
  mkInstruction 6 6 0 4120 [] 0 [] [mkRegister 0 3] false false false false
                false false true true.

Lemma X13_commit_stops_on_exception_witness :
  exists rob',
    commit (fun _ r => r) 4
      (mk [plain add4; faulting6; plain add6] 8 false 0 0 tt
          (LSQ.emptyQueue LSQ.OUTOFORDER 10) [])
    = Some (1 + 1, rob')
    /\ buffer rob' = [plain add6]
    /\ raised rob' = [faulting6]
    /\ shouldFlush rob' = false.
Proof.
  destruct (X13_commit_stops_on_exception (fun _ r => r) 4 1
              (mk [plain add4; faulting6; plain add6] 8 false 0 0 tt
                  (LSQ.emptyQueue LSQ.OUTOFORDER 10) [])
              (mk [faulting6; plain add6] 8 false 0 0 tt
                  (LSQ.emptyQueue LSQ.OUTOFORDER 10) [])
              faulting6 [plain add6])
    as (rob' & H1 & H2 & H3 & _ & _ & H4 & _);
    [lia | reflexivity | reflexivity | reflexivity | reflexivity |].
  exists rob'. auto.
Defined.

Lemma X14_buffer_stays_ordered_witness :
  exists rob' seqId',
    runAll (fun _ r => r) (fun _ r => r) ops_example (rob_empty, 0%Z)
    = Some (rob', seqId')
    /\ StronglySorted Z.lt (map sequenceId (buffer rob'))
    /\ getFreeSpace rob' = (4 - Z.of_nat (size rob'))%Z.
Proof.
  destruct (runAll (fun _ r => r) (fun _ r => r) ops_example (rob_empty, 0%Z))
    as [[rob' seqId']|] eqn:E; [|vm_compute in E; discriminate E].
  exists rob', seqId'. split; [reflexivity|].
  destruct (X14_buffer_stays_ordered (fun _ r => r) (fun _ r => r) ops_example
              rob_empty rob' 0 seqId') as (H1 & _ & _ & _ & _ & H6).
  - repeat split; simpl; [constructor | constructor | lia].
  - lia.
  - simpl. lia.
  - simpl. lia.
  - exact E.
  - split; [exact H1|exact H6].
Defined.

Lemma X15_flush_removes_newer_witness :
  map sequenceId
    (buffer (fst (flush (fun _ r => r) 5
                    (mk [plain add4; LSQ.store5; plain add6; LSQ.load7] 8 false
                        0 0 tt (LSQ.emptyQueue LSQ.OUTOFORDER 10) []))))
  = [4%Z; 5%Z]
  /\ map sequenceId
       (snd (flush (fun _ r => r) 5
               (mk [plain add4; LSQ.store5; plain add6; LSQ.load7] 8 false
                   0 0 tt (LSQ.emptyQueue LSQ.OUTOFORDER 10) [])))
     = [7%Z; 6%Z].
Proof.
  destruct (X15_flush_removes_newer (fun _ r => r) 5
              (mk [plain add4; LSQ.store5; plain add6; LSQ.load7] 8 false
                  0 0 tt (LSQ.emptyQueue LSQ.OUTOFORDER 10) []))
    as (H1 & H2 & _).
  { repeat constructor; simpl; lia. }
  rewrite H1, H2. split; reflexivity.
Defined.

End ROB.

(** ** MMU *)

Module MMU.

(** *** MemPacket *)

Inductive Access : Type := Read | Write.

(** The fields of a [MemPacket]; its metadata bits are booleans. The thread
    id passed to the packet constructors is not kept. *)
Record MemPacket : Type := mkPacket {
  vaddr_ : Z;
  paddr_ : Z;
  size_ : Z;
  insnSeqId_ : Z;
  packetOrderId_ : Z;
  packetSplitId_ : Z;
  payload_ : list byte;
  access : Access;
  isRequest : bool;
  isAtomic : bool;
  isInstrRead : bool;
  isFaulty : bool;
  ignore : bool;
  isUntimed : bool;
  hasFailed : bool
}.

Definition isRead (p : MemPacket) : bool :=
  match access p with Read => true | Write => false end.
Definition isWrite (p : MemPacket) : bool :=
  match access p with Read => false | Write => true end.

Definition createReadRequest (vaddr size seqId pktOrderId : Z) : MemPacket :=
  mkPacket vaddr 0 size seqId pktOrderId 0 [] Read true
           false false false false false false.

Definition createWriteRequest (vaddr size seqId pktOrderId : Z)
    (payload : list byte) : MemPacket :=
  mkPacket vaddr 0 size seqId pktOrderId 0 payload Write true
           false false false false false false.

Definition set_splitId (s : Z) (p : MemPacket) : MemPacket :=
  mkPacket (vaddr_ p) (paddr_ p) (size_ p) (insnSeqId_ p) (packetOrderId_ p) s
           (payload_ p) (access p) (isRequest p) (isAtomic p) (isInstrRead p)
           (isFaulty p) (ignore p) (isUntimed p) (hasFailed p).
Definition set_paddr (a : Z) (p : MemPacket) : MemPacket :=
  mkPacket (vaddr_ p) a (size_ p) (insnSeqId_ p) (packetOrderId_ p)
           (packetSplitId_ p) (payload_ p) (access p) (isRequest p) (isAtomic p)
           (isInstrRead p) (isFaulty p) (ignore p) (isUntimed p) (hasFailed p).
Definition markAsAtomic (p : MemPacket) : MemPacket :=
  mkPacket (vaddr_ p) (paddr_ p) (size_ p) (insnSeqId_ p) (packetOrderId_ p)
           (packetSplitId_ p) (payload_ p) (access p) (isRequest p) true
           (isInstrRead p) (isFaulty p) (ignore p) (isUntimed p) (hasFailed p).
Definition markAsInstrRead (p : MemPacket) : MemPacket :=
  mkPacket (vaddr_ p) (paddr_ p) (size_ p) (insnSeqId_ p) (packetOrderId_ p)
           (packetSplitId_ p) (payload_ p) (access p) (isRequest p) (isAtomic p)
           true (isFaulty p) (ignore p) (isUntimed p) (hasFailed p).
Definition markAsFaulty (p : MemPacket) : MemPacket :=
  mkPacket (vaddr_ p) (paddr_ p) (size_ p) (insnSeqId_ p) (packetOrderId_ p)
           (packetSplitId_ p) (payload_ p) (access p) (isRequest p) (isAtomic p)
           (isInstrRead p) true (ignore p) (isUntimed p) (hasFailed p).
Definition markAsIgnored (p : MemPacket) : MemPacket :=
  mkPacket (vaddr_ p) (paddr_ p) (size_ p) (insnSeqId_ p) (packetOrderId_ p)
           (packetSplitId_ p) (payload_ p) (access p) (isRequest p) (isAtomic p)
           (isInstrRead p) (isFaulty p) true (isUntimed p) (hasFailed p).
Definition markAsUntimed (p : MemPacket) : MemPacket :=
  mkPacket (vaddr_ p) (paddr_ p) (size_ p) (insnSeqId_ p) (packetOrderId_ p)
           (packetSplitId_ p) (payload_ p) (access p) (isRequest p) (isAtomic p)
           (isInstrRead p) (isFaulty p) (ignore p) true (hasFailed p).

(** What the memory behind the port makes of a request: the packet turned
    into a response, with the payload read (for a read) and the failure bit
    of the access. *)
Definition turnIntoResponse (payload : list byte) (failed : bool)
    (p : MemPacket) : MemPacket :=
  mkPacket (vaddr_ p) (paddr_ p) (size_ p) (insnSeqId_ p) (packetOrderId_ p)
           (packetSplitId_ p)
           (match access p with Read => payload | Write => payload_ p end)
           (access p) false (isAtomic p) (isInstrRead p) (isFaulty p) (ignore p)
           (isUntimed p) failed.

(** *** Splitting a memory target on cache-line boundaries *)

(** Modelled from the spec: [downAlign] is not among the sources. It rounds
    [val] down to a multiple of [align]; for a power of two this is
    [val & ~(align - 1)] (lemma [downAlign_mask]). *)
Definition downAlign (val align : Z) : Z := (val - val mod align)%Z.

(** [isAligned]; [None] is the failed assertion on a size of 0. *)
Definition isAligned (cacheLineWidth : Z) (target : MemoryAccessTarget)
    : option bool :=
  if (size target =? 0)%Z then None
  else
    let startAddr := vaddr target in
    let endAddr := wrap64 (vaddr target + size target - 1) in
    Some (downAlign startAddr cacheLineWidth =? downAlign endAddr cacheLineWidth)%Z.

(** [regSize]: the bytes up to the end of the line of [nextAddr], or what
    remains, as a [uint16_t]. *)
Definition regionSize (cacheLineWidth nextAddr remSize : Z) : Z :=
  wrap16 (Z.min (wrap64 (wrap64 (downAlign nextAddr cacheLineWidth + cacheLineWidth)
                         - nextAddr))
                remSize).

(** The loop [while (remSize != 0)] of [createReadMemPackets]; it ends within
    [fuel] rounds or the result is [None]. *)
Fixpoint splitRead (fuel : nat) (cacheLineWidth nextAddr remSize nextSplitId : Z)
    (insnSeqId pktOrderId : Z) : option (list MemPacket) :=
  if (remSize =? 0)%Z then Some []
  else
    match fuel with
    | O => None
    | S fuel' =>
        let regSize := regionSize cacheLineWidth nextAddr remSize in
        let req := set_splitId nextSplitId
                     (createReadRequest nextAddr regSize insnSeqId pktOrderId) in
        match splitRead fuel' cacheLineWidth (wrap64 (nextAddr + regSize))
                        (wrap64 (remSize - regSize)) (wrap16 (nextSplitId + 1))
                        insnSeqId pktOrderId with
        | Some rest => Some (req :: rest)
        | None => None
        end
    end.

(** The same loop in [createWriteMemPackets], which also cuts the data. *)
Fixpoint splitWrite (fuel : nat) (cacheLineWidth nextAddr remSize nextSplitId : Z)
    (remData : list byte) (insnSeqId pktOrderId : Z) : option (list MemPacket) :=
  if (remSize =? 0)%Z then Some []
  else
    match fuel with
    | O => None
    | S fuel' =>
        let regSize := regionSize cacheLineWidth nextAddr remSize in
        let regData := firstn (Z.to_nat regSize) remData in
        let req := set_splitId nextSplitId
                     (createWriteRequest nextAddr regSize insnSeqId pktOrderId
                                         regData) in
        match splitWrite fuel' cacheLineWidth (wrap64 (nextAddr + regSize))
                         (wrap64 (remSize - regSize)) (wrap16 (nextSplitId + 1))
                         (skipn (Z.to_nat regSize) remData)
                         insnSeqId pktOrderId with
        | Some rest => Some (req :: rest)
        | None => None
        end
    end.

(** The packets [createReadMemPackets] appends to the output vector. *)
Definition createReadMemPackets (cacheLineWidth : Z) (target : MemoryAccessTarget)
    (insnSeqId pktOrderId : Z) : option (list MemPacket) :=
  match isAligned cacheLineWidth target with
  | None => None
  | Some true =>
      Some [createReadRequest (vaddr target) (size target) insnSeqId pktOrderId]
  | Some false =>
      splitRead (Z.to_nat (size target)) cacheLineWidth (vaddr target)
                (size target) 0 insnSeqId pktOrderId
  end.

(** The packets [createWriteMemPackets] appends to the output vector. *)
Definition createWriteMemPackets (cacheLineWidth : Z) (target : MemoryAccessTarget)
    (data : list byte) (insnSeqId pktOrderId : Z) : option (list MemPacket) :=
  match isAligned cacheLineWidth target with
  | None => None
  | Some true =>
      Some [createWriteRequest (vaddr target) (size target) insnSeqId pktOrderId
                               data]
  | Some false =>
      splitWrite (Z.to_nat (size target)) cacheLineWidth (vaddr target)
                 (size target) 0 data insnSeqId pktOrderId
  end.

(** *** Reassembly of read responses *)

(** [RegisterValue(ptr, bytes)]: the first [bytes] bytes at [ptr]. *)
Definition registerValue (bytes : list byte) (n : Z) : RegisterValue :=
  firstn (Z.to_nat n) bytes.

(** The loop of [supplyLoadInsnData] over the packets after the first:
    [None] is a null packet, [Some None] a faulty one, otherwise the merged
    data and size. *)
Fixpoint mergeRest (rest : list (option MemPacket)) (mergedData : list byte)
    (mergedSize : Z) : option (option (list byte * Z)) :=
  match rest with
  | [] => Some (Some (mergedData, mergedSize))
  | None :: _ => None
  | Some p :: rest' =>
      if isFaulty p then Some None
      else mergeRest rest' (mergedData ++ payload_ p) (wrap16 (mergedSize + size_ p))
  end.

(** The address and value passed to [supplyData] for one packet vector. *)
Definition mergeSplits (pktVec : list (option MemPacket))
    : option (Z * RegisterValue) :=
  match pktVec with
  | [] => None
  | None :: _ => None
  | Some p0 :: rest =>
      let addr := vaddr_ p0 in
      if isFaulty p0 then Some (addr, [])
      else
        match mergeRest rest (payload_ p0) (wrap16 (size_ p0)) with
        | None => None
        | Some None => Some (addr, [])
        | Some (Some (mergedData, mergedSize)) =>
            Some (addr, registerValue mergedData mergedSize)
        end
  end.

(** *** The state of the MMU *)

(** The configuration read by the constructor. *)
Record Config : Type := mkConfig {
  cacheLineWidth_ : Z;
  loadBandwidth_ : Z;
  storeBandwidth_ : Z;
  requestLimit_ : Z;
  loadRequestLimit_ : Z;
  storeRequestLimit_ : Z;
  exclusiveRequests_ : bool
}.

(** Calls made on instructions held by the MMU. *)
Inductive InsnCall : Type :=
| CallSetCommitReady (insn : Instruction)
| CallSupplyData (insn : Instruction) (address : Z) (value : RegisterValue)
| CallUpdateCondStoreResult (insn : Instruction) (success : bool).

(** An entry of [requestedStores_]. *)
Record StoreEntry : Type := mkStoreEntry {
  storeInsn : Instruction;
  storeRemaining : Z;
  storeFailed : bool
}.

(** The members of [MMU]. [loads_] and [stores_] are [loadsStores_[LD]] and
    [loadsStores_[STR]]. [sent] lists the packets handed to [port_->send]
    and not answered yet; [calls] lists the calls made on instructions. *)
Record t : Type := mk {
  config : Config;
  loads_ : list (list MemPacket);
  stores_ : list (list MemPacket);
  pendingDataRequests_ : Z;
  requestedLoads_ : StdMap.t (Instruction * Z);
  requestedStores_ : StdMap.t StoreEntry;
  readResponses_ : StdMap.t (StdMap.t (list (option MemPacket)));
  completedInstrReads_ : list (MemoryAccessTarget * RegisterValue * Z);
  pendingRequests_ : StdMap.t (list MemPacket);
  numInsnReads_ : Z;
  numDataReads_ : Z;
  numDataWrites_ : Z;
  sent : list MemPacket;
  calls : list InsnCall
}.

Definition init (c : Config) : t :=
  mk c [] [] 0 [] [] [] [] [] 0 0 0 [] [].

Definition set_loads (v : list (list MemPacket)) (m : t) : t :=
  mk (config m) v (stores_ m) (pendingDataRequests_ m) (requestedLoads_ m)
     (requestedStores_ m) (readResponses_ m) (completedInstrReads_ m)
     (pendingRequests_ m) (numInsnReads_ m) (numDataReads_ m) (numDataWrites_ m)
     (sent m) (calls m).
Definition set_stores (v : list (list MemPacket)) (m : t) : t :=
  mk (config m) (loads_ m) v (pendingDataRequests_ m) (requestedLoads_ m)
     (requestedStores_ m) (readResponses_ m) (completedInstrReads_ m)
     (pendingRequests_ m) (numInsnReads_ m) (numDataReads_ m) (numDataWrites_ m)
     (sent m) (calls m).
Definition set_pendingDataRequests (v : Z) (m : t) : t :=
  mk (config m) (loads_ m) (stores_ m) v (requestedLoads_ m)
     (requestedStores_ m) (readResponses_ m) (completedInstrReads_ m)
     (pendingRequests_ m) (numInsnReads_ m) (numDataReads_ m) (numDataWrites_ m)
     (sent m) (calls m).
Definition set_requestedLoads (v : StdMap.t (Instruction * Z)) (m : t) : t :=
  mk (config m) (loads_ m) (stores_ m) (pendingDataRequests_ m) v
     (requestedStores_ m) (readResponses_ m) (completedInstrReads_ m)
     (pendingRequests_ m) (numInsnReads_ m) (numDataReads_ m) (numDataWrites_ m)
     (sent m) (calls m).
Definition set_requestedStores (v : StdMap.t StoreEntry) (m : t) : t :=
  mk (config m) (loads_ m) (stores_ m) (pendingDataRequests_ m) (requestedLoads_ m)
     v (readResponses_ m) (completedInstrReads_ m)
     (pendingRequests_ m) (numInsnReads_ m) (numDataReads_ m) (numDataWrites_ m)
     (sent m) (calls m).
Definition set_readResponses
    (v : StdMap.t (StdMap.t (list (option MemPacket)))) (m : t) : t :=
  mk (config m) (loads_ m) (stores_ m) (pendingDataRequests_ m) (requestedLoads_ m)
     (requestedStores_ m) v (completedInstrReads_ m)
     (pendingRequests_ m) (numInsnReads_ m) (numDataReads_ m) (numDataWrites_ m)
     (sent m) (calls m).
Definition set_completedInstrReads
    (v : list (MemoryAccessTarget * RegisterValue * Z)) (m : t) : t :=
  mk (config m) (loads_ m) (stores_ m) (pendingDataRequests_ m) (requestedLoads_ m)
     (requestedStores_ m) (readResponses_ m) v
     (pendingRequests_ m) (numInsnReads_ m) (numDataReads_ m) (numDataWrites_ m)
     (sent m) (calls m).
Definition set_pendingRequests (v : StdMap.t (list MemPacket)) (m : t) : t :=
  mk (config m) (loads_ m) (stores_ m) (pendingDataRequests_ m) (requestedLoads_ m)
     (requestedStores_ m) (readResponses_ m) (completedInstrReads_ m)
     v (numInsnReads_ m) (numDataReads_ m) (numDataWrites_ m)
     (sent m) (calls m).
Definition set_counters (i r w : Z) (m : t) : t :=
  mk (config m) (loads_ m) (stores_ m) (pendingDataRequests_ m) (requestedLoads_ m)
     (requestedStores_ m) (readResponses_ m) (completedInstrReads_ m)
     (pendingRequests_ m) i r w (sent m) (calls m).
Definition set_sent (v : list MemPacket) (m : t) : t :=
  mk (config m) (loads_ m) (stores_ m) (pendingDataRequests_ m) (requestedLoads_ m)
     (requestedStores_ m) (readResponses_ m) (completedInstrReads_ m)
     (pendingRequests_ m) (numInsnReads_ m) (numDataReads_ m) (numDataWrites_ m)
     v (calls m).
Definition log_call (c : InsnCall) (m : t) : t :=
  mk (config m) (loads_ m) (stores_ m) (pendingDataRequests_ m) (requestedLoads_ m)
     (requestedStores_ m) (readResponses_ m) (completedInstrReads_ m)
     (pendingRequests_ m) (numInsnReads_ m) (numDataReads_ m) (numDataWrites_ m)
     (sent m) (calls m ++ [c]).

(** [m[k] = v] on a map: the binding is made or overwritten. *)
Definition assign {V : Type} (k : Z) (v : V) (m : StdMap.t V) : StdMap.t V :=
  StdMap.update k v (fun _ => v) m.

(** [vector::resize(n)] on a vector of packet pointers. *)
Definition resize (n : nat) (l : list (option MemPacket)) : list (option MemPacket) :=
  firstn n (l ++ repeat None n).

(** [readResponses_[insnSeqId][pktOrderId].resize(n)]. *)
Definition resizeResponses (insnSeqId pktOrderId : Z) (n : nat)
    (r : StdMap.t (StdMap.t (list (option MemPacket))))
    : StdMap.t (StdMap.t (list (option MemPacket))) :=
  StdMap.update insnSeqId [] (StdMap.update pktOrderId [] (resize n)) r.

(** *** Responses: the receiver registered by [initPort] *)

(** [supplyLoadInsnData], on the packet vectors of orders [0 .. n - 1]. *)
Fixpoint supplyOrders (insn : Instruction)
    (packets : StdMap.t (list (option MemPacket))) (i : Z) (n : nat) (m : t)
    : option t :=
  match n with
  | O => Some m
  | S n' =>
      match mergeSplits (default [] (StdMap.find i packets)) with
      | None => None
      | Some (addr, value) =>
          supplyOrders insn packets (i + 1) n'
            (log_call (CallSupplyData insn addr value) m)
      end
  end.

Definition supplyLoadInsnData (insnSeqId : Z) (m : t) : option t :=
  match StdMap.find insnSeqId (requestedLoads_ m) with
  | None => None
  | Some (insn, _) =>
      match StdMap.find insnSeqId (readResponses_ m) with
      | None => None
      | Some packets =>
          match supplyOrders insn packets 0 (length packets) m with
          | None => None
          | Some m' =>
              Some (set_readResponses
                      (StdMap.erase insnSeqId (readResponses_ m'))
                      (set_requestedLoads
                         (StdMap.erase insnSeqId (requestedLoads_ m')) m'))
          end
      end
  end.

(** The receiver; [None] is a failed assertion or an access outside a
    vector. *)
Definition receive (packet : MemPacket) (m : t) : option t :=
  if isInstrRead packet then
    if isFaulty packet || ignore packet then
      Some (set_completedInstrReads
              (completedInstrReads_ m
               ++ [(mkTarget (vaddr_ packet) (size_ packet), [],
                    insnSeqId_ packet)]) m)
    else
      Some (set_completedInstrReads
              (completedInstrReads_ m
               ++ [(mkTarget (vaddr_ packet) (size_ packet),
                    registerValue (payload_ packet) (size_ packet),
                    insnSeqId_ packet)]) m)
  else
    let m1 := set_pendingDataRequests (wrap64 (pendingDataRequests_ m - 1)) m in
    let seqId := insnSeqId_ packet in
    if isRead packet then
      match StdMap.find seqId (requestedLoads_ m1) with
      | None => None
      | Some (insn, remaining) =>
          let orders := default [] (StdMap.find seqId (readResponses_ m1)) in
          let splits := default [] (StdMap.find (packetOrderId_ packet) orders) in
          if (Z.to_nat (packetSplitId_ packet) <? length splits)%nat then
            let m2 := set_readResponses
                        (assign seqId
                           (assign (packetOrderId_ packet)
                              (<[Z.to_nat (packetSplitId_ packet) := Some packet]>
                                 splits) orders)
                           (readResponses_ m1)) m1 in
            let remaining' := wrap16 (remaining - 1) in
            let m3 := set_requestedLoads
                        (assign seqId (insn, remaining') (requestedLoads_ m2)) m2 in
            if (remaining' =? 0)%Z then supplyLoadInsnData seqId m3 else Some m3
          else None
      end
    else
      match StdMap.find seqId (requestedStores_ m1) with
      | None => Some m1
      | Some str =>
          let remaining' := wrap16 (storeRemaining str - 1) in
          let failed' := if hasFailed packet then true else storeFailed str in
          let m2 := set_requestedStores
                      (assign seqId (mkStoreEntry (storeInsn str) remaining' failed')
                              (requestedStores_ m1)) m1 in
          if (remaining' =? 0)%Z then
            Some (log_call (CallUpdateCondStoreResult (storeInsn str) (negb failed'))
                           m2)
          else Some m2
      end.

(** *** Translation and [issueRequest] *)

(** The answer of [translate_] as [getFaultCode] reads it. *)
Inductive Translation : Type :=
| DataAbort
| Pending
| Ignored
| Mapped (paddr : Z).

Definition countRequest (request : MemPacket) (m : t) : t :=
  if isInstrRead request then
    set_counters (wrap64 (numInsnReads_ m + 1)) (numDataReads_ m) (numDataWrites_ m) m
  else if isRead request then
    set_counters (numInsnReads_ m) (wrap64 (numDataReads_ m + 1)) (numDataWrites_ m) m
  else
    set_counters (numInsnReads_ m) (numDataReads_ m) (wrap64 (numDataWrites_ m + 1)) m.

Definition send (request : MemPacket) (m : t) : t :=
  set_sent (sent m ++ [request]) m.

Definition issueRequest (translate : Z -> Translation) (request : MemPacket)
    (m : t) : option t :=
  match translate (vaddr_ request) with
  | DataAbort => receive (markAsFaulty request) m
  | Pending =>
      Some (set_pendingRequests
              (StdMap.update (vaddr_ request) [] (fun l => l ++ [request])
                             (pendingRequests_ m)) m)
  | Ignored => Some (send (markAsIgnored request) (countRequest (markAsIgnored request) m))
  | Mapped paddr =>
      Some (send (set_paddr paddr request) (countRequest (set_paddr paddr request) m))
  end.

(** *** Requests *)

(** The loop of [requestRead] over the targets: the packets of target [i]
    are appended to the new entry of [loadsStores_[LD]] and the response
    vector of order [i] is sized. *)
Fixpoint readTargets (cacheLineWidth seqId : Z) (targets : list MemoryAccessTarget)
    (i : Z) (responses : StdMap.t (StdMap.t (list (option MemPacket))))
    : option (list MemPacket * StdMap.t (StdMap.t (list (option MemPacket)))) :=
  match targets with
  | [] => Some ([], responses)
  | target :: targets' =>
      match createReadMemPackets cacheLineWidth target seqId (wrap16 i) with
      | None => None
      | Some pkts =>
          match readTargets cacheLineWidth seqId targets' (i + 1)
                            (resizeResponses seqId (wrap16 i) (length pkts) responses) with
          | None => None
          | Some (rest, responses') => Some (pkts ++ rest, responses')
          end
      end
  end.

(** The bytes [wdata .. wdata + size] of a register value; bytes past its
    end read as zero. *)
Definition formatData (value : RegisterValue) (size : Z) : list byte :=
  firstn (Z.to_nat size) (value ++ repeat x00 (Z.to_nat size)).

(** The loop of [requestWrite] over the targets and their data. *)
Fixpoint writeTargets (cacheLineWidth seqId : Z) (targets : list MemoryAccessTarget)
    (data : list RegisterValue) (i : Z) : option (list MemPacket) :=
  match targets, data with
  | [], _ => Some []
  | target :: targets', value :: data' =>
      match createWriteMemPackets cacheLineWidth target
                                  (formatData value (size target)) seqId (wrap16 i) with
      | None => None
      | Some pkts =>
          match writeTargets cacheLineWidth seqId targets' data' (i + 1) with
          | None => None
          | Some rest => Some (pkts ++ rest)
          end
      end
  | _ :: _, [] => None
  end.

(** The admission test of [requestRead]. *)
Definition admitsRead (m : t) : bool :=
  let c := config m in
  if exclusiveRequests_ c && negb (length (stores_ m) =? 0)%nat then false
  else if negb (exclusiveRequests_ c)
          && (Z.of_nat (length (loads_ m)) + Z.of_nat (length (stores_ m))
              >=? requestLimit_ c)%Z then false
  else if (Z.of_nat (length (loads_ m)) >=? loadRequestLimit_ c)%Z then false
  else true.

(** The admission test of [requestWrite]. *)
Definition admitsWrite (m : t) : bool :=
  let c := config m in
  if exclusiveRequests_ c && negb (length (loads_ m) =? 0)%nat then false
  else if negb (exclusiveRequests_ c)
          && (Z.of_nat (length (loads_ m)) + Z.of_nat (length (stores_ m))
              >=? requestLimit_ c)%Z then false
  else if (Z.of_nat (length (stores_ m)) >=? storeRequestLimit_ c)%Z then false
  else true.

(** [requestRead]; [None] is a failed assertion or a split that does not
    end. *)
Definition requestRead (uop : Instruction) (m : t) : option (bool * t) :=
  if negb (admitsRead m) then Some (false, m)
  else
    let seqId := sequenceId uop in
    match readTargets (cacheLineWidth_ (config m)) seqId (generatedAddresses uop) 0
                      (readResponses_ m) with
    | None => None
    | Some (pkts, responses) =>
        let pkts' := if isLoadReserved uop then map markAsAtomic pkts else pkts in
        let totalReqs := wrap16 (Z.of_nat (length pkts')) in
        Some (true,
              set_requestedLoads (assign seqId (uop, totalReqs) (requestedLoads_ m))
                (set_pendingDataRequests (wrap64 (pendingDataRequests_ m + totalReqs))
                   (set_readResponses responses
                      (set_loads (loads_ m ++ [pkts']) m))))
    end.

(** [requestWrite(uop, data)]. *)
Definition requestWrite (uop : Instruction) (data : list RegisterValue) (m : t)
    : option (bool * t) :=
  if negb (admitsWrite m) then Some (false, m)
  else
    let seqId := sequenceId uop in
    if negb (length data =? length (generatedAddresses uop))%nat then None
    else
      match writeTargets (cacheLineWidth_ (config m)) seqId (generatedAddresses uop)
                         data 0 with
      | None => None
      | Some pkts =>
          let pkts' := if isStoreCond uop then map markAsAtomic pkts else pkts in
          let totalReqs := wrap16 (Z.of_nat (length pkts')) in
          Some (true,
                set_requestedStores
                  (assign seqId (mkStoreEntry uop totalReqs false)
                          (requestedStores_ m))
                  (set_pendingDataRequests
                     (wrap64 (pendingDataRequests_ m + totalReqs))
                     (set_stores (stores_ m ++ [pkts']) m)))
      end.

Fixpoint issueAll (translate : Z -> Translation) (pkts : list MemPacket) (m : t)
    : option t :=
  match pkts with
  | [] => Some m
  | p :: pkts' =>
      match issueRequest translate p m with
      | None => None
      | Some m' => issueAll translate pkts' m'
      end
  end.

(** [requestWrite(target, data)], the untimed write. *)
Definition requestWriteUntimed (translate : Z -> Translation)
    (target : MemoryAccessTarget) (data : RegisterValue) (m : t) : option t :=
  match createWriteMemPackets (cacheLineWidth_ (config m)) target
                              (formatData data (size target)) 0 0 with
  | None => None
  | Some pktVec =>
      let pktVecSize := wrap16 (Z.of_nat (length pktVec)) in
      match issueAll translate (firstn (Z.to_nat pktVecSize) pktVec) m with
      | None => None
      | Some m' =>
          Some (set_pendingDataRequests
                  (wrap64 (pendingDataRequests_ m' + pktVecSize)) m')
      end
  end.

(** [requestInstrRead]; [None] when the target is not aligned. *)
Definition requestInstrRead (translate : Z -> Translation)
    (target : MemoryAccessTarget) (m : t) : option t :=
  match isAligned (cacheLineWidth_ (config m)) target with
  | Some true =>
      issueRequest translate
        (markAsInstrRead
           (markAsUntimed (createReadRequest (vaddr target) (size target) 0 0))) m
  | _ => None
  end.

Definition hasPendingRequests (m : t) : bool :=
  negb (pendingDataRequests_ m =? 0)%Z.

(** *** [tick] and [processRequests] *)

(** The store whose last packet is about to be sent becomes ready to commit,
    unless it is a store conditional. *)
Definition lastStorePacket (pkt : MemPacket) (m : t) : option t :=
  match StdMap.find (insnSeqId_ pkt) (requestedStores_ m) with
  | None => None
  | Some str =>
      if negb (isStoreCond (storeInsn str)) then
        Some (set_requestedStores
                (StdMap.erase (insnSeqId_ pkt) (requestedStores_ m))
                (log_call (CallSetCommitReady (storeInsn str)) m))
      else Some m
  end.

(** The loop over the packets of one instruction. The result is the packets
    left (not empty when the bandwidth is used up), the bandwidth used, the
    MMU and the packets issued. *)
Fixpoint sendPackets (translate : Z -> Translation) (isStoreReq : bool)
    (bandwidthLimit : Z) (pkts : list MemPacket) (bandwidthUsed : Z) (m : t)
    : option (list MemPacket * Z * t * list MemPacket) :=
  match pkts with
  | [] => Some ([], bandwidthUsed, m, [])
  | pkt :: rest =>
      if (wrap64 (bandwidthUsed + size_ pkt) <=? bandwidthLimit)%Z then
        match (if isStoreReq && (length rest =? 0)%nat
               then lastStorePacket pkt m else Some m) with
        | None => None
        | Some m1 =>
            match issueRequest translate pkt m1 with
            | None => None
            | Some m2 =>
                match sendPackets translate isStoreReq bandwidthLimit rest
                                  (wrap64 (bandwidthUsed + size_ pkt)) m2 with
                | None => None
                | Some (remaining, used, m3, issued) =>
                    Some (remaining, used, m3, pkt :: issued)
                end
            end
        end
      else Some (pkts, bandwidthUsed, m, [])
  end.

(** The loop over the instructions of [loadsStores_[isStore]]. *)
Fixpoint sendInsns (translate : Z -> Translation) (isStoreReq : bool)
    (bandwidthLimit : Z) (insns : list (list MemPacket)) (bandwidthUsed : Z)
    (m : t) : option (list (list MemPacket) * t * list MemPacket) :=
  match insns with
  | [] => Some ([], m, [])
  | insn :: others =>
      match sendPackets translate isStoreReq bandwidthLimit insn bandwidthUsed m with
      | None => None
      | Some ([], used, m1, issued) =>
          match sendInsns translate isStoreReq bandwidthLimit others used m1 with
          | None => None
          | Some (remaining, m2, issued') => Some (remaining, m2, issued ++ issued')
          end
      | Some (remaining, _, m1, issued) => Some (remaining :: others, m1, issued)
      end
  end.

(** [processRequests]; the second component lists the packets issued. *)
Definition processRequests (translate : Z -> Translation) (isStoreReq : bool)
    (m : t) : option (t * list MemPacket) :=
  let bandwidthLimit :=
    if isStoreReq then storeBandwidth_ (config m) else loadBandwidth_ (config m) in
  match sendInsns translate isStoreReq bandwidthLimit
                  (if isStoreReq then stores_ m else loads_ m) 0 m with
  | None => None
  | Some (remaining, m', issued) =>
      Some (if isStoreReq then set_stores remaining m' else set_loads remaining m',
            issued)
  end.

(** [tick]; the result lists the store packets and the load packets issued. *)
Definition tick (translate : Z -> Translation) (m : t)
    : option (t * list MemPacket * list MemPacket) :=
  if exclusiveRequests_ (config m) then
    let isStoreReq := negb (length (stores_ m) =? 0)%nat in
    match processRequests translate isStoreReq m with
    | None => None
    | Some (m', issued) =>
        Some (if isStoreReq then (m', issued, []) else (m', [], issued))
    end
  else
    match processRequests translate true m with
    | None => None
    | Some (m1, issuedStores) =>
        match processRequests translate false m1 with
        | None => None
        | Some (m2, issuedLoads) => Some (m2, issuedStores, issuedLoads)
        end
    end.

(** [supplyDelayedTranslation]: the parked requests of [vaddr] are issued
    again, by index into the vector as it is at each round; the vector is
    erased after the loop. A request parked again under [vaddr] is reached
    by the loop in turn: with one round more than the vector is long, the
    result is [None] when that happens. *)
Fixpoint reissue (fuel : nat) (translate : Z -> Translation) (vaddr : Z) (i : nat)
    (m : t) : option t :=
  match fuel with
  | O => None
  | S fuel' =>
      match StdMap.find vaddr (pendingRequests_ m) with
      | None => None
      | Some parked =>
          match nth_error parked i with
          | None => Some m
          | Some p =>
              match issueRequest translate p m with
              | None => None
              | Some m' => reissue fuel' translate vaddr (S i) m'
              end
          end
      end
  end.

Definition supplyDelayedTranslation (translate : Z -> Translation)
    (vaddr paddr : Z) (m : t) : option t :=
  match StdMap.find vaddr (pendingRequests_ m) with
  | None => Some m
  | Some parked =>
      match reissue (S (length parked)) translate vaddr 0 m with
      | None => None
      | Some m' =>
          Some (set_pendingRequests (StdMap.erase vaddr (pendingRequests_ m')) m')
      end
  end.

(** The memory answers the [n]-th packet in flight. *)
Definition deliver (n : nat) (payload : list byte) (failed : bool) (m : t)
    : option t :=
  match nth_error (sent m) n with
  | None => None
  | Some p =>
      receive (turnIntoResponse payload failed p)
              (set_sent (firstn n (sent m) ++ skipn (S n) (sent m)) m)
  end.

(** *** Splitting: properties *)

Local Open Scope Z_scope.

Lemma downAlign_mask (val k : Z) :
  0 <= k -> downAlign val (2 ^ k) = Z.land val (Z.lnot (2 ^ k - 1)).
Proof.
  intros Hk. unfold downAlign.
  replace (2 ^ k - 1) with (Z.ones k) by (rewrite Z.ones_equiv; lia).
  rewrite <- Z.ldiff_land, Z.ldiff_ones_r by exact Hk.
  rewrite Z.shiftr_div_pow2, Z.shiftl_mul_pow2 by exact Hk.
  pose proof (Z.div_mod val (2 ^ k)) as H.
  assert (2 ^ k <> 0) by (apply Z.pow_nonzero; lia). specialize (H H0). lia.
Qed.

Lemma mod_add_small (a k w : Z) :
  0 < w -> 0 <= k -> a mod w + k < w -> (a + k) mod w = a mod w + k.
Proof.
  intros Hw Hk Hlt. symmetry.
  apply (Z.mod_unique (a + k) w (a / w)).
  - left. pose proof (Z.mod_pos_bound a w Hw). lia.
  - pose proof (Z.div_mod a w ltac:(lia)). lia.
Qed.

Lemma downAlign_same_line (a k w : Z) :
  0 < w -> 0 <= k -> a mod w + k < w -> downAlign a w = downAlign (a + k) w.
Proof.
  intros Hw Hk Hlt. unfold downAlign. rewrite mod_add_small by assumption. lia.
Qed.

Lemma downAlign_eq_bound (a k w : Z) :
  0 < w -> 0 <= k -> downAlign a w = downAlign (a + k) w -> k < w.
Proof.
  unfold downAlign. intros Hw Hk H.
  pose proof (Z.mod_pos_bound a w Hw). pose proof (Z.mod_pos_bound (a + k) w Hw).
  lia.
Qed.

Lemma regionSize_bounds (w a r : Z) :
  0 < w < 2 ^ 64 -> 0 <= a < 2 ^ 64 -> 0 < r < 2 ^ 16 ->
  regionSize w a r = Z.min (w - a mod w) r
  /\ 0 < regionSize w a r <= r
  /\ regionSize w a r <= w
  /\ a mod w + (regionSize w a r - 1) < w.
Proof.
  intros Hw Ha Hr. unfold regionSize, downAlign.
  pose proof (Z.mod_pos_bound a w ltac:(lia)) as Hm.
  assert (E : wrap64 (wrap64 (a - a mod w + w) - a) = w - a mod w).
  { unfold wrap64. rewrite Zminus_mod_idemp_l.
    replace (a - a mod w + w - a) with (w - a mod w) by lia.
    apply Z.mod_small. lia. }
  rewrite E. rewrite wrap16_small by lia. lia.
Qed.

(** The packets of a split lie one after the other, from [start] on. *)
Fixpoint contiguous (start : Z) (pkts : list MemPacket) : Prop :=
  match pkts with
  | [] => True
  | p :: rest => vaddr_ p = start /\ contiguous (start + size_ p) rest
  end.

(** Their split ids count up from [k]. *)
Fixpoint numbered (k : Z) (pkts : list MemPacket) : Prop :=
  match pkts with
  | [] => True
  | p :: rest => packetSplitId_ p = k /\ numbered (k + 1) rest
  end.

Definition totalSize (pkts : list MemPacket) : Z :=
  fold_right (fun p acc => size_ p + acc) 0 pkts.

(** A packet within one cache line. *)
Definition inOneLine (w : Z) (p : MemPacket) : Prop :=
  0 < size_ p <= w
  /\ downAlign (vaddr_ p) w = downAlign (vaddr_ p + size_ p - 1) w.

(** What a read packet and a write packet of the same split share. *)
Definition shape (p : MemPacket) : Z * Z * Z * Z * Z :=
  (vaddr_ p, size_ p, packetSplitId_ p, insnSeqId_ p, packetOrderId_ p).

(** A request as it leaves the split: no flag set. *)
Definition fresh (p : MemPacket) : Prop :=
  isRequest p = true /\ isFaulty p = false /\ isInstrRead p = false
  /\ ignore p = false /\ hasFailed p = false.

Lemma splitWrite_spec (w seqId ordId : Z) (fuel : nat) :
  0 < w < 2 ^ 64 ->
  forall (a r k : Z) (data : list byte),
    0 <= a -> 0 <= r -> a + r <= 2 ^ 64 -> 0 <= k -> k + r < 2 ^ 16 ->
    r <= Z.of_nat fuel -> length data = Z.to_nat r ->
    exists pkts,
      splitWrite fuel w a r k data seqId ordId = Some pkts
      /\ Forall (inOneLine w) pkts
      /\ Forall (fun p => length (payload_ p) = Z.to_nat (size_ p)
                          /\ insnSeqId_ p = seqId /\ packetOrderId_ p = ordId
                          /\ access p = Write /\ fresh p) pkts
      /\ totalSize pkts = r
      /\ contiguous a pkts
      /\ numbered k pkts
      /\ concat (map payload_ pkts) = data.
Proof.
  intros Hw. induction fuel as [|fuel IH]; intros a r k data Ha Hr Har Hk Hkr Hf Hd.
  - assert (r = 0) by lia. subst r. simpl.
    exists []. repeat split; try constructor.
    destruct data; [reflexivity|discriminate].
  - cbn [splitWrite]. destruct (Z.eqb_spec r 0) as [->|Hr0].
    + exists []. repeat split; try constructor.
      destruct data; [reflexivity|discriminate].
    + destruct (regionSize_bounds w a r Hw ltac:(lia) ltac:(lia))
        as (Ereg & Hreg & Hregw & Hline).
      set (g := regionSize w a r) in *.
      assert (Ea : wrap64 (a + g) = a + g \/ r - g = 0).
      { destruct (Z.eq_dec (r - g) 0); [now right|left].
        apply wrap64_small. lia. }
      assert (Er : wrap64 (r - g) = r - g) by (apply wrap64_small; lia).
      assert (Ek : wrap16 (k + 1) = k + 1) by (apply wrap16_small; lia).
      rewrite Er, Ek.
      destruct Ea as [Ea|Ea].
      * rewrite Ea.
        destruct (IH (a + g) (r - g) (k + 1) (skipn (Z.to_nat g) data))
          as (pkts & -> & Hl & Hp & Ht & Hc & Hn & Hcat); try lia.
        { rewrite length_skipn. lia. }
        eexists. split; [reflexivity|]. split; [|split; [|split; [|split; [|split]]]].
        -- constructor; [|exact Hl]. unfold inOneLine. simpl.
           split; [lia|].
           replace (a + g - 1) with (a + (g - 1)) by lia.
           apply downAlign_same_line; lia.
        -- constructor; [|exact Hp]. simpl. repeat split.
           rewrite length_firstn. lia.
        -- simpl. lia.
        -- simpl. split; [reflexivity|exact Hc].
        -- simpl. split; [reflexivity|exact Hn].
        -- simpl. rewrite Hcat. apply firstn_skipn.
      * rewrite Ea. assert (Hfuel : splitWrite fuel w (wrap64 (a + g)) 0 (k + 1)
                                      (skipn (Z.to_nat g) data) seqId ordId = Some []).
        { destruct fuel; reflexivity. }
        rewrite Hfuel.
        eexists. split; [reflexivity|]. split; [|split; [|split; [|split; [|split]]]].
        -- constructor; [|constructor]. unfold inOneLine. simpl.
           split; [lia|].
           replace (a + g - 1) with (a + (g - 1)) by lia.
           apply downAlign_same_line; lia.
        -- constructor; [|constructor]. simpl. repeat split.
           rewrite length_firstn. lia.
        -- simpl. lia.
        -- simpl. auto.
        -- simpl. auto.
        -- simpl. rewrite app_nil_r. apply firstn_all2. lia.
Qed.

Lemma splitRead_shape (w seqId ordId : Z) (fuel : nat) :
  forall (a r k : Z) (data : list byte) (wpkts : list MemPacket),
    splitWrite fuel w a r k data seqId ordId = Some wpkts ->
    exists rpkts,
      splitRead fuel w a r k seqId ordId = Some rpkts
      /\ map shape rpkts = map shape wpkts
      /\ Forall (fun p => access p = Read /\ fresh p) rpkts.
Proof.
  induction fuel as [|fuel IH]; intros a r k data wpkts; simpl.
  - destruct (r =? 0); [|discriminate]. intros [= <-].
    exists []. repeat split. constructor.
  - destruct (r =? 0).
    + intros [= <-]. exists []. repeat split. constructor.
    + destruct (splitWrite fuel _ _ _ _ _ _ _) as [wrest|] eqn:E; [|discriminate].
      intros [= <-]. destruct (IH _ _ _ _ _ E) as (rrest & -> & Hs & Hf).
      eexists. split; [reflexivity|]. split.
      * simpl. now rewrite Hs.
      * constructor; [|exact Hf]. repeat split.
Qed.

(** *** Reassembly: properties *)

Lemma mergeRest_ok (rest : list MemPacket) : forall (d : list byte) (s : Z),
  Forall (fun p => isFaulty p = false /\ 0 <= size_ p) rest ->
  0 <= s -> s + totalSize rest < 2 ^ 16 ->
  mergeRest (map Some rest) d s
  = Some (Some (d ++ concat (map payload_ rest), s + totalSize rest)).
Proof.
  induction rest as [|p rest IH]; intros d s Hall Hs Hlt; simpl.
  - now rewrite app_nil_r, Z.add_0_r.
  - apply Forall_cons_iff in Hall as [[Hf Hp] Hall]. rewrite Hf.
    assert (Hrest : 0 <= totalSize rest).
    { clear -Hall. induction rest as [|q rest IH]; simpl; [lia|].
      apply Forall_cons_iff in Hall as [[_ Hq] Hall]. specialize (IH Hall). lia. }
    simpl in Hlt. rewrite wrap16_small by lia.
    rewrite IH; [|exact Hall|lia|lia]. rewrite <- app_assoc.
    do 3 f_equal. lia.
Qed.

Lemma mergeRest_faulty (rest : list MemPacket) : forall (d : list byte) (s : Z),
  Exists (fun p => isFaulty p = true) rest ->
  mergeRest (map Some rest) d s = Some None.
Proof.
  induction rest as [|p rest IH]; intros d s Hex; [inversion Hex|]. simpl.
  destruct (isFaulty p) eqn:Ef; [reflexivity|].
  apply IH. inversion Hex as [? ? H|? ? H]; subst; [congruence|exact H].
Qed.

Lemma payloads_length (pkts : list MemPacket) :
  Forall (fun p => length (payload_ p) = Z.to_nat (size_ p) /\ 0 <= size_ p) pkts ->
  Z.of_nat (length (concat (map payload_ pkts))) = totalSize pkts.
Proof.
  induction pkts as [|p pkts IH]; intros Hall; simpl; [reflexivity|].
  apply Forall_cons_iff in Hall as [[Hl Hp] Hall].
  rewrite length_app, Nat2Z.inj_add, IH by exact Hall. rewrite Hl. lia.
Qed.

(** Responses without a faulty packet are merged into the concatenation of
    their payloads, in the order of the vector. *)
Lemma mergeSplits_ok (p0 : MemPacket) (rest : list MemPacket) :
  Forall (fun p => isFaulty p = false) (p0 :: rest) ->
  Forall (fun p => length (payload_ p) = Z.to_nat (size_ p) /\ 0 <= size_ p)
         (p0 :: rest) ->
  totalSize (p0 :: rest) < 2 ^ 16 ->
  mergeSplits (map Some (p0 :: rest))
  = Some (vaddr_ p0, concat (map payload_ (p0 :: rest))).
Proof.
  intros Hf Hl Hlt. pose proof (payloads_length _ Hl) as Hlen.
  apply Forall_cons_iff in Hf as [Hf0 Hf].
  apply Forall_cons_iff in Hl as [[Hl0 Hp0] Hl].
  simpl in *. rewrite Hf0.
  assert (Hrest : 0 <= totalSize rest).
  { clear -Hl. induction rest as [|q rest IH]; simpl; [lia|].
    apply Forall_cons_iff in Hl as [[_ Hq] Hl]. specialize (IH Hl). lia. }
  rewrite wrap16_small by lia.
  rewrite mergeRest_ok; [|
    rewrite List.Forall_forall in Hf, Hl |- *; intros p Hp;
      split; [now apply Hf|now apply Hl] | lia | lia].
  f_equal. f_equal. unfold registerValue.
  apply firstn_all2. lia.
Qed.

(** A faulty packet anywhere in the vector makes the value empty. *)
Lemma mergeSplits_faulty (p0 : MemPacket) (rest : list MemPacket) :
  Exists (fun p => isFaulty p = true) (p0 :: rest) ->
  mergeSplits (map Some (p0 :: rest)) = Some (vaddr_ p0, []).
Proof.
  intros Hex. simpl. destruct (isFaulty p0) eqn:Ef; [reflexivity|].
  rewrite mergeRest_faulty; [reflexivity|].
  inversion Hex as [? ? H|? ? H]; subst; [congruence|exact H].
Qed.

(** The read packets answered with the bytes the write packets of the same
    split stored. *)
Definition answerAll (rpkts wpkts : list MemPacket) : list MemPacket :=
  map (fun rw => turnIntoResponse (payload_ (snd rw)) false (fst rw))
      (combine rpkts wpkts).

Lemma answerAll_spec (rpkts : list MemPacket) : forall wpkts,
  map shape rpkts = map shape wpkts ->
  Forall (fun p => access p = Read /\ fresh p) rpkts ->
  Forall (fun p => length (payload_ p) = Z.to_nat (size_ p) /\ 0 < size_ p) wpkts ->
  Forall (fun p => isFaulty p = false) (answerAll rpkts wpkts)
  /\ Forall (fun p => length (payload_ p) = Z.to_nat (size_ p) /\ 0 <= size_ p)
            (answerAll rpkts wpkts)
  /\ totalSize (answerAll rpkts wpkts) = totalSize wpkts
  /\ map vaddr_ (answerAll rpkts wpkts) = map vaddr_ wpkts
  /\ concat (map payload_ (answerAll rpkts wpkts)) = concat (map payload_ wpkts).
Proof.
  induction rpkts as [|r rpkts IH]; intros [|w wpkts] Hs Hr Hw;
    try discriminate; simpl.
  - repeat split; constructor.
  - injection Hs as Hv Hz _ _ _ Hs.
    apply Forall_cons_iff in Hr as [[Ha (_ & Hf & _)] Hr].
    apply Forall_cons_iff in Hw as [[Hl Hp] Hw].
    destruct (IH wpkts Hs Hr Hw) as (H1 & H2 & H3 & H4 & H5).
    unfold answerAll in *. simpl.
    split; [constructor; [exact Hf|exact H1]|].
    split; [constructor; [|exact H2]; simpl; rewrite Hz, Ha; split; [exact Hl|lia]|].
    split; [now rewrite H3, Hz|].
    split; [now rewrite H4, Hv|now rewrite H5, Ha].
Qed.

(** [supplyLoadInsnData] supplies the merged value of each order, in
    ascending order id. *)
Lemma supplyOrders_spec (insn : Instruction)
    (packets : StdMap.t (list (option MemPacket))) (n : nat) :
  forall (i : Z) (m m' : t),
    supplyOrders insn packets i n m = Some m' ->
    exists vals,
      map Some vals
      = map (fun j => mergeSplits (default [] (StdMap.find (i + Z.of_nat j) packets)))
            (seq 0 n)
      /\ calls m' = calls m ++ map (fun av => CallSupplyData insn (fst av) (snd av)) vals.
Proof.
  induction n as [|n IH]; intros i m m'; cbn [supplyOrders].
  - intros [= <-]. exists []. split; [reflexivity|]. now rewrite app_nil_r.
  - destruct (mergeSplits _) as [[addr value]|] eqn:E; [|discriminate].
    intros H. destruct (IH _ _ _ H) as (vals & Hv & Hc).
    exists ((addr, value) :: vals). split.
    + cbn [seq map]. rewrite Z.add_0_r, E. f_equal.
      rewrite Hv, <- seq_shift, map_map. apply map_ext. intros j.
      do 3 f_equal. lia.
    + rewrite Hc. simpl. now rewrite <- app_assoc.
Qed.

(** *** Reassembly of the responses to a load *)

(** The responses [ps] reach the receiver one after the other. *)
Fixpoint receiveAll (ps : list MemPacket) (m : t) : option t :=
  match ps with
  | [] => Some m
  | p :: ps' =>
      match receive p m with
      | Some m' => receiveAll ps' m'
      | None => None
      end
  end.

(** A response to the read request [p]: the packet with its addresses,
    size and ids, and, unless it is faulty, as many bytes as it asked for. *)
Definition answers (p r : MemPacket) : Prop :=
  shape r = shape p /\ access r = Read /\ isInstrRead r = false
  /\ (isFaulty r = false -> length (payload_ r) = Z.to_nat (size_ r)).

(** The responses of order id [i], and the value made of the responses of
    one target in the order of their split ids. *)
Definition ofOrder (i : Z) (l : list MemPacket) : list MemPacket :=
  List.filter (fun r => packetOrderId_ r =? i) l.
Definition valueOf (rs : list MemPacket) : RegisterValue :=
  if existsb isFaulty rs then [] else concat (map payload_ rs).

(** The response with order id [i] and split id [s] among those received. *)
Definition hasKey (i s : Z) (r : MemPacket) : bool :=
  (packetOrderId_ r =? i) && (packetSplitId_ r =? s).
Definition slotOf (received : list MemPacket) (i s : nat) : option MemPacket :=
  List.find (hasKey (Z.of_nat i) (Z.of_nat s)) received.
Definition keyOf (r : MemPacket) : Z * Z := (packetOrderId_ r, packetSplitId_ r).

(** The response vectors of a load whose order [i] has [lens !! i] packets,
    after the responses [received]. *)
Definition holds (lens : list nat) (received : list MemPacket)
    (T : StdMap.t (list (option MemPacket))) : Prop :=
  length T = length lens
  /\ forall i n, lens !! i = Some n ->
       exists vec,
         StdMap.find (Z.of_nat i) T = Some vec /\ length vec = n
         /\ forall s, (s < n)%nat -> vec !! s = Some (slotOf received i s).

(** A load registered with [total] packets, of which [received] are back. *)
Definition pendingLoad (uop : Instruction) (total : Z) (lens : list nat)
    (received : list MemPacket) (m : t) : Prop :=
  StdMap.find (sequenceId uop) (requestedLoads_ m)
  = Some (uop, total - Z.of_nat (length received))
  /\ exists T, StdMap.find (sequenceId uop) (readResponses_ m) = Some T
               /\ holds lens received T.

(** A response that fits a slot of the load. *)
Definition fits (uop : Instruction) (lens : list nat) (r : MemPacket) : Prop :=
  isInstrRead r = false /\ access r = Read /\ insnSeqId_ r = sequenceId uop
  /\ exists i s n, packetOrderId_ r = Z.of_nat i /\ packetSplitId_ r = Z.of_nat s
                   /\ lens !! i = Some n /\ (s < n)%nat.

Lemma find_app_first {A : Type} (f : A -> bool) (a b : list A) :
  List.find f (a ++ b)
  = match List.find f a with Some x => Some x | None => List.find f b end.
Proof.
  induction a as [|x a IH]; simpl; [reflexivity|]. now destruct (f x).
Qed.

Lemma find_none_key (received : list MemPacket) (i s : Z) :
  ~ In (i, s) (map keyOf received) -> List.find (hasKey i s) received = None.
Proof.
  induction received as [|r l IH]; simpl; [reflexivity|]. intros Hn.
  unfold hasKey at 1.
  destruct (Z.eqb_spec (packetOrderId_ r) i) as [Ei|Ei];
    destruct (Z.eqb_spec (packetSplitId_ r) s) as [Es|Es]; simpl;
    try (apply IH; tauto).
  exfalso. apply Hn. left. unfold keyOf. now rewrite Ei, Es.
Qed.

Lemma length_replace {V : Type} k (f : V -> V) (m : StdMap.t V) :
  length (StdMap.replace k f m) = length m.
Proof.
  induction m as [|[k' v] m IH]; simpl; [reflexivity|].
  destruct (k' =? k); simpl; now rewrite ?IH.
Qed.

Lemma length_insert_sorted {V : Type} k (v : V) (m : StdMap.t V) :
  length (StdMap.insert_sorted k v m) = S (length m).
Proof.
  induction m as [|[k' v'] m IH]; simpl; [reflexivity|].
  destruct (k <? k'); simpl; now rewrite ?IH.
Qed.

Lemma find_assign_eq {V : Type} k (v : V) (m : StdMap.t V) :
  StdMap.find k (assign k v m) = Some v.
Proof. unfold assign. now rewrite StdMap.find_update_eq. Qed.

Lemma find_assign_ne {V : Type} k k0 (v : V) (m : StdMap.t V) :
  k0 <> k -> StdMap.find k0 (assign k v m) = StdMap.find k0 m.
Proof. intros H. unfold assign. now apply StdMap.find_update_ne. Qed.

Lemma length_assign_found {V : Type} k (v v0 : V) (m : StdMap.t V) :
  StdMap.find k m = Some v0 -> length (assign k v m) = length m.
Proof.
  intros H. unfold assign, StdMap.update. rewrite H. apply length_replace.
Qed.

(** One more response in the vectors. *)
Lemma holds_step (lens : list nat) (received : list MemPacket)
    (T : StdMap.t (list (option MemPacket))) (r : MemPacket) (i s n : nat) vec :
  holds lens received T ->
  packetOrderId_ r = Z.of_nat i -> packetSplitId_ r = Z.of_nat s ->
  lens !! i = Some n -> (s < n)%nat ->
  ~ In (keyOf r) (map keyOf received) ->
  StdMap.find (Z.of_nat i) T = Some vec ->
  holds lens (received ++ [r]) (assign (Z.of_nat i) (<[s := Some r]> vec) T).
Proof.
  intros [Hlen Hall] Ei Es Hn Hs Hfresh Hvec. split.
  - rewrite (length_assign_found _ _ vec) by exact Hvec. exact Hlen.
  - intros i' n' Hi'. destruct (Hall i' n' Hi') as (vec' & Hf & Hl & Hslots).
    destruct (Nat.eq_dec i' i) as [->|Hne].
    + assert (vec' = vec) by congruence. subst vec'.
      assert (n' = n) by congruence. subst n'.
      exists (<[s := Some r]> vec). split; [apply find_assign_eq|].
      split; [now rewrite length_insert|].
      intros s' Hs'. unfold slotOf. rewrite find_app_first.
      destruct (Nat.eq_dec s' s) as [->|Hns].
      * rewrite list_lookup_insert_eq by lia.
        rewrite find_none_key by (unfold keyOf in Hfresh; now rewrite Ei, Es in Hfresh).
        simpl. unfold hasKey. now rewrite Ei, Es, !Z.eqb_refl.
      * rewrite list_lookup_insert_ne by congruence.
        rewrite (Hslots s' Hs'). unfold slotOf.
        destruct (List.find _ received); [reflexivity|]. simpl.
        unfold hasKey. rewrite Es.
        destruct (Z.eqb_spec (Z.of_nat s) (Z.of_nat s')); [lia|].
        now rewrite andb_false_r.
    + exists vec'. split; [rewrite find_assign_ne by lia; exact Hf|].
      split; [exact Hl|]. intros s' Hs'. rewrite (Hslots s' Hs').
      unfold slotOf. rewrite find_app_first.
      destruct (List.find _ received); [reflexivity|]. simpl.
      unfold hasKey. rewrite Ei.
      destruct (Z.eqb_spec (Z.of_nat i) (Z.of_nat i')); [lia|]. reflexivity.
Qed.

(** The receiver on a response that fits a free slot: the response is
    stored and the packets to come are counted down; the last one makes the
    receiver call [supplyLoadInsnData]. *)
Lemma receive_pending (uop : Instruction) (total : Z) (lens : list nat)
    (received : list MemPacket) (r : MemPacket) (m : t) :
  pendingLoad uop total lens received m ->
  fits uop lens r ->
  ~ In (keyOf r) (map keyOf received) ->
  0 < total - Z.of_nat (length received) < 2 ^ 16 ->
  exists m3,
    pendingLoad uop total lens (received ++ [r]) m3
    /\ calls m3 = calls m
    /\ receive r m
       = if total - Z.of_nat (length received) - 1 =? 0
         then supplyLoadInsnData (sequenceId uop) m3 else Some m3.
Proof.
  intros (Hreq & T & HT & Hholds) (Hi & Ha & Hseq & i & s & n & Ei & Es & Hn & Hs)
         Hfresh Hrem.
  destruct (proj2 Hholds i n Hn) as (vec & Hvec & Hlen & _).
  unfold receive. rewrite Hi. unfold isRead. rewrite Ha. cbv zeta.
  rewrite Hseq, Ei, Es, Nat2Z.id.
  cbn [requestedLoads_ readResponses_ set_pendingDataRequests].
  rewrite Hreq, HT. cbn [from_option id].
  rewrite Hvec. cbn [from_option id].
  destruct (Nat.ltb_spec s (length vec)) as [_|Hge]; [|lia].
  rewrite (wrap16_small (total - Z.of_nat (length received) - 1)) by lia.
  eexists. split; [|split; [|reflexivity]]; [|reflexivity].
  split.
  - cbn [requestedLoads_ set_requestedLoads set_readResponses].
    rewrite find_assign_eq, length_app. simpl. do 2 f_equal. lia.
  - eexists. cbn [readResponses_ set_requestedLoads set_readResponses].
    split; [apply find_assign_eq|].
    now apply (holds_step lens received T r i s n vec).
Qed.

Lemma receiveAll_one (r : MemPacket) (m : t) : receiveAll [r] m = receive r m.
Proof. simpl. now destruct (receive r m). Qed.

(** All the responses of a load, in any order: the receiver stores them and
    calls [supplyLoadInsnData] at the last. *)
Lemma receiveAll_pending (uop : Instruction) (total : Z) (lens : list nat)
    (resps : list MemPacket) :
  forall (received : list MemPacket) (m : t),
    pendingLoad uop total lens received m ->
    Forall (fits uop lens) resps ->
    NoDup (map keyOf (received ++ resps)) ->
    total = Z.of_nat (length received + length resps) -> total < 2 ^ 16 ->
    resps <> [] ->
    exists m3,
      pendingLoad uop total lens (received ++ resps) m3
      /\ calls m3 = calls m
      /\ receiveAll resps m = supplyLoadInsnData (sequenceId uop) m3.
Proof.
  induction resps as [|r rest IH]; intros received m Hp Hfits Hnd Htot Hlt Hne;
    [congruence|].
  apply Forall_cons_iff in Hfits as [Hr Hrest].
  assert (Hfresh : ~ In (keyOf r) (map keyOf received)).
  { rewrite map_app in Hnd. apply NoDup_app in Hnd as (_ & Hdis & _).
    intros Hin. apply list_elem_of_In in Hin. apply (Hdis _ Hin).
    simpl. apply list_elem_of_here. }
  assert (Hrem : 0 < total - Z.of_nat (length received) < 2 ^ 16)
    by (simpl in Htot; lia).
  destruct (receive_pending uop total lens received r m Hp Hr Hfresh Hrem)
    as (m3 & Hp3 & Hc3 & Er).
  destruct rest as [|r2 rest2].
  - exists m3. split; [exact Hp3|]. split; [exact Hc3|].
    rewrite receiveAll_one, Er.
    destruct (Z.eqb_spec (total - Z.of_nat (length received) - 1) 0) as [_|Hn];
      [reflexivity|simpl in Htot; lia].
  - destruct (Z.eqb_spec (total - Z.of_nat (length received) - 1) 0) as [Hz|_];
      [simpl in Htot; lia|].
    destruct (IH (received ++ [r]) m3 Hp3 Hrest) as (m4 & Hp4 & Hc4 & E4).
    + now rewrite <- app_assoc.
    + rewrite length_app. simpl in *. lia.
    + exact Hlt.
    + discriminate.
    + exists m4. rewrite <- app_assoc in Hp4. split; [exact Hp4|].
      split; [congruence|].
      change (receiveAll (r :: r2 :: rest2) m)
        with (match receive r m with
              | Some m' => receiveAll (r2 :: rest2) m'
              | None => None
              end).
      rewrite Er. exact E4.
Qed.

(** The address of the first packet of a vector. *)
Definition firstAddr (g : list MemPacket) : Z :=
  match g with p :: _ => vaddr_ p | [] => 0 end.

Lemma mergeSplits_valueOf (g : list MemPacket) :
  g <> [] ->
  Forall (fun p => 0 <= size_ p
                   /\ (isFaulty p = false
                       -> length (payload_ p) = Z.to_nat (size_ p))) g ->
  totalSize g < 2 ^ 16 ->
  mergeSplits (map Some g) = Some (firstAddr g, valueOf g).
Proof.
  intros Hne Hall Hlt. destruct g as [|p0 rest]; [congruence|].
  unfold valueOf, firstAddr. destruct (existsb isFaulty (p0 :: rest)) eqn:Ex.
  - apply mergeSplits_faulty. apply existsb_exists in Ex as (p & Hin & Hp).
    apply List.Exists_exists. now exists p.
  - assert (Hnf : Forall (fun p => isFaulty p = false) (p0 :: rest)).
    { apply List.Forall_forall. intros p Hin.
      destruct (isFaulty p) eqn:Ef; [|reflexivity].
      assert (existsb isFaulty (p0 :: rest) = true)
        by (apply existsb_exists; now exists p).
      congruence. }
    apply mergeSplits_ok; [exact Hnf| |exact Hlt].
    rewrite List.Forall_forall in Hall, Hnf |- *. intros p Hin.
    destruct (Hall p Hin) as [H0 Hl]. split; [apply Hl; now apply Hnf|exact H0].
Qed.

(** [supplyOrders] on vectors that are all filled. *)
Lemma supplyOrders_filled (uop : Instruction)
    (T : StdMap.t (list (option MemPacket))) (groups : list (list MemPacket)) :
  forall (i : nat) (m : t),
    (forall j g, groups !! j = Some g ->
       StdMap.find (Z.of_nat (i + j)) T = Some (map Some g)
       /\ g <> []
       /\ Forall (fun p => 0 <= size_ p
                           /\ (isFaulty p = false
                               -> length (payload_ p) = Z.to_nat (size_ p))) g
       /\ totalSize g < 2 ^ 16) ->
    exists m',
      supplyOrders uop T (Z.of_nat i) (length groups) m = Some m'
      /\ calls m'
         = calls m ++ map (fun g => CallSupplyData uop (firstAddr g) (valueOf g))
                          groups.
Proof.
  induction groups as [|g groups IH]; intros i m Hall.
  - exists m. split; [reflexivity|]. simpl. now rewrite app_nil_r.
  - destruct (Hall 0%nat g eq_refl) as (Hf & Hne & Hpl & Hlt).
    rewrite Nat.add_0_r in Hf. cbn [length supplyOrders]. rewrite Hf.
    cbn [from_option id]. rewrite (mergeSplits_valueOf g Hne Hpl Hlt).
    destruct (IH (S i) (log_call (CallSupplyData uop (firstAddr g) (valueOf g)) m))
      as (m' & E & Hc).
    + intros j g' Hj. replace (S i + j)%nat with (i + S j)%nat by lia.
      now apply Hall.
    + exists m'. replace (Z.of_nat i + 1) with (Z.of_nat (S i)) by lia.
      split; [exact E|]. rewrite Hc. simpl. now rewrite <- app_assoc.
Qed.

(** A target the split is proved for: it ends within the 64-bit address
    space. Its size is a [uint16_t]. *)
Definition validTarget (t : MemoryAccessTarget) : Prop :=
  0 <= vaddr t /\ 0 < size t < 2 ^ 16 /\ vaddr t + size t <= 2 ^ 64.

(** The write packets and the read packets of one target. *)
Lemma createMemPackets_spec (w : Z) (target : MemoryAccessTarget)
    (data : list byte) (seqId ordId : Z) :
  0 < w < 2 ^ 64 -> validTarget target ->
  length data = Z.to_nat (size target) ->
  exists wpkts rpkts,
    createWriteMemPackets w target data seqId ordId = Some wpkts
    /\ createReadMemPackets w target seqId ordId = Some rpkts
    /\ map shape rpkts = map shape wpkts
    /\ Forall (inOneLine w) wpkts
    /\ Forall (fun p => length (payload_ p) = Z.to_nat (size_ p)
                        /\ insnSeqId_ p = seqId /\ packetOrderId_ p = ordId
                        /\ access p = Write /\ fresh p) wpkts
    /\ Forall (fun p => access p = Read /\ fresh p) rpkts
    /\ totalSize wpkts = size target
    /\ contiguous (vaddr target) wpkts
    /\ numbered 0 wpkts
    /\ concat (map payload_ wpkts) = data.
Proof.
  intros Hw (Hv & Hsz & Hend) Hd.
  unfold createWriteMemPackets, createReadMemPackets, isAligned.
  destruct (Z.eqb_spec (size target) 0) as [E|_]; [lia|].
  rewrite (wrap64_small (vaddr target + size target - 1)) by lia.
  destruct (Z.eqb_spec (downAlign (vaddr target) w)
              (downAlign (vaddr target + size target - 1) w)) as [Eal|Eal].
  - eexists _, _. split; [reflexivity|]. split; [reflexivity|].
    split; [reflexivity|]. split.
    { constructor; [|constructor]. unfold inOneLine. simpl. split; [|exact Eal].
      replace (vaddr target + size target - 1)
        with (vaddr target + (size target - 1)) in Eal by lia.
      apply downAlign_eq_bound in Eal; lia. }
    split; [constructor; [|constructor]; simpl; repeat split; exact Hd|].
    split; [constructor; [|constructor]; repeat split|].
    simpl. repeat split; try lia. apply app_nil_r.
  - destruct (splitWrite_spec w seqId ordId (Z.to_nat (size target)) Hw
                (vaddr target) (size target) 0 data)
      as (wpkts & Ew & H1 & H2 & H3 & H4 & H5 & H6); try lia.
    destruct (splitRead_shape _ _ _ _ _ _ _ _ _ Ew) as (rpkts & Er & Hs & Hf).
    exists wpkts, rpkts. repeat split; assumption.
Qed.

(** Packets of the same shape share what depends on addresses, sizes and
    ids. *)
Lemma shape_transfer (a : list MemPacket) : forall b,
  map shape a = map shape b ->
  (forall w, Forall (inOneLine w) b -> Forall (inOneLine w) a)
  /\ totalSize a = totalSize b
  /\ (forall s, contiguous s b -> contiguous s a)
  /\ (forall k, numbered k b -> numbered k a)
  /\ (forall seqId ord,
        Forall (fun p => insnSeqId_ p = seqId /\ packetOrderId_ p = ord) b ->
        Forall (fun p => insnSeqId_ p = seqId /\ packetOrderId_ p = ord) a)
  /\ firstAddr a = firstAddr b
  /\ length a = length b.
Proof.
  induction a as [|p a IH]; intros [|q b] Hs; try discriminate.
  - repeat split; auto.
  - injection Hs as Hv Hz Hk Hq Ho Hs.
    destruct (IH b Hs) as (I1 & I2 & I3 & I4 & I5 & _ & I7).
    split; [|split; [|split; [|split; [|split; [|split]]]]].
    + intros w Hb. apply Forall_cons_iff in Hb as [[Hb1 Hb2] Hb].
      constructor; [|now apply I1]. unfold inOneLine. now rewrite Hv, Hz.
    + simpl. now rewrite Hz, I2.
    + intros s [H1 H2]. simpl. rewrite Hv, Hz. split; [exact H1|now apply I3].
    + intros k [H1 H2]. simpl. rewrite Hk. split; [exact H1|now apply I4].
    + intros seqId ord Hb. apply Forall_cons_iff in Hb as [[Hb1 Hb2] Hb].
      constructor; [now rewrite Hq, Ho|now apply I5].
    + exact Hv.
    + simpl. now rewrite I7.
Qed.

(** The read packets of the target of order [ord]. *)
Definition splitOf (w seqId : Z) (t : MemoryAccessTarget) (ord : Z)
    (g : list MemPacket) : Prop :=
  g <> [] /\ Forall (inOneLine w) g /\ totalSize g = size t
  /\ contiguous (vaddr t) g /\ numbered 0 g
  /\ Forall (fun p => insnSeqId_ p = seqId /\ packetOrderId_ p = ord) g.

Lemma createReadMemPackets_spec (w : Z) (target : MemoryAccessTarget)
    (seqId ordId : Z) :
  0 < w < 2 ^ 64 -> validTarget target ->
  exists rpkts,
    createReadMemPackets w target seqId ordId = Some rpkts
    /\ splitOf w seqId target ordId rpkts
    /\ Forall (fun p => access p = Read /\ fresh p) rpkts.
Proof.
  intros Hw Hv.
  destruct (createMemPackets_spec w target (repeat x00 (Z.to_nat (size target)))
              seqId ordId Hw Hv (repeat_length _ _))
    as (wpkts & rpkts & _ & Er & Hs & H1 & H2 & Hf & H3 & H4 & H5 & _).
  destruct (shape_transfer rpkts wpkts Hs) as (T1 & T2 & T3 & T4 & T5 & _ & T7).
  exists rpkts. split; [exact Er|]. split; [|exact Hf].
  split; [|split; [now apply T1|split; [congruence|split; [now apply T3|
           split; [now apply T4|]]]]].
  - destruct Hv as (_ & Hsz & _). intros ->. destruct wpkts; [|discriminate].
    simpl in H3. lia.
  - apply T5. eapply List.Forall_impl; [|exact H2]. simpl. tauto.
Qed.

Lemma repeat_replicate {A : Type} (x : A) (n : nat) : repeat x n = replicate n x.
Proof. induction n as [|n IH]; simpl; [reflexivity|now rewrite IH]. Qed.

(** The response vectors [requestRead] has sized for the orders below
    [length lens], none filled yet, and nothing above. *)
Definition emptyTable (lens : list nat)
    (T : StdMap.t (list (option MemPacket))) : Prop :=
  holds lens [] T
  /\ forall j, Z.of_nat (length lens) <= j -> StdMap.find j T = None.

Lemma emptyTable_resize (lens : list nat) (T : StdMap.t (list (option MemPacket)))
    (n : nat) :
  emptyTable lens T ->
  emptyTable (lens ++ [n])
             (StdMap.update (Z.of_nat (length lens)) [] (resize n) T).
Proof.
  intros [[Hlen Hall] Habove].
  assert (Hnone : StdMap.find (Z.of_nat (length lens)) T = None)
    by (apply Habove; lia).
  unfold StdMap.update. rewrite Hnone.
  assert (Er : resize n [] = repeat None n).
  { unfold resize. simpl. rewrite firstn_all2; [reflexivity|].
    now rewrite repeat_length. }
  rewrite Er. split; [split|].
  - rewrite length_insert_sorted, length_app, Hlen. simpl. lia.
  - intros i k Hi. destruct (Nat.lt_ge_cases i (length lens)) as [Hlt|Hge].
    + rewrite lookup_app_l in Hi by exact Hlt.
      destruct (Hall i k Hi) as (vec & Hf & Hl & Hs).
      exists vec. split; [|split; assumption].
      rewrite StdMap.find_insert_sorted_ne by lia. exact Hf.
    + rewrite lookup_app_r in Hi by exact Hge.
      destruct (i - length lens)%nat as [|d] eqn:Ed; [|discriminate].
      injection Hi as <-. assert (i = length lens) by lia. subst i.
      exists (repeat None n). split; [now apply StdMap.find_insert_sorted_eq|].
      split; [apply repeat_length|].
      intros s Hs. unfold slotOf. simpl.
      rewrite repeat_replicate. now apply lookup_replicate_2.
  - intros j Hj. rewrite length_app in Hj. simpl in Hj.
    rewrite StdMap.find_insert_sorted_ne by lia. apply Habove. lia.
Qed.

(** The loop of [requestRead]: each target gets its packets, of the next
    order id, and its vector of empty slots. *)
Lemma readTargets_spec (w seqId : Z) (targets : list MemoryAccessTarget) :
  0 < w < 2 ^ 64 ->
  forall (lens : list nat) (responses : StdMap.t (StdMap.t (list (option MemPacket)))),
    Forall validTarget targets ->
    Z.of_nat (length lens + length targets) <= 2 ^ 16 ->
    emptyTable lens (default [] (StdMap.find seqId responses)) ->
    exists groups responses',
      readTargets w seqId targets (Z.of_nat (length lens)) responses
      = Some (concat groups, responses')
      /\ length groups = length targets
      /\ (forall j t g, targets !! j = Some t -> groups !! j = Some g ->
            splitOf w seqId t (Z.of_nat (length lens + j)) g
            /\ Forall (fun p => access p = Read /\ fresh p) g)
      /\ emptyTable (lens ++ map length groups)
                    (default [] (StdMap.find seqId responses'))
      /\ (targets <> [] -> StdMap.find seqId responses' <> None).
Proof.
  intros Hw. induction targets as [|t targets IH]; intros lens responses Hv Hle He.
  - exists [], responses. split; [reflexivity|]. split; [reflexivity|].
    split; [intros j t g Hj; now rewrite lookup_nil in Hj|].
    split; [simpl; now rewrite app_nil_r|congruence].
  - apply Forall_cons_iff in Hv as [Ht Hv]. cbn [readTargets].
    simpl in Hle. rewrite wrap16_small by lia.
    destruct (createReadMemPackets_spec w t seqId (Z.of_nat (length lens)) Hw Ht)
      as (g & -> & Hg & Hf).
    set (responses1 := resizeResponses seqId (Z.of_nat (length lens)) (length g)
                         responses).
    assert (E1 : StdMap.find seqId responses1
                 = Some (StdMap.update (Z.of_nat (length lens)) [] (resize (length g))
                           (default [] (StdMap.find seqId responses)))).
    { unfold responses1, resizeResponses. apply StdMap.find_update_eq. }
    destruct (IH (lens ++ [length g]) responses1 Hv) as (groups & responses' & E & Hl & Hs & He2 & Hn).
    + rewrite length_app. simpl. lia.
    + rewrite E1. cbn [from_option id]. now apply emptyTable_resize.
    + exists (g :: groups), responses'.
      replace (Z.of_nat (length lens) + 1) with (Z.of_nat (length (lens ++ [length g])))
        by (rewrite length_app; simpl; lia).
      rewrite E. split; [reflexivity|]. split; [simpl; now rewrite Hl|].
      split; [|split].
      * intros [|j] t' g' Hj Hj'; simpl in Hj, Hj'.
        -- injection Hj as <-. injection Hj' as <-.
           rewrite Nat.add_0_r. now split.
        -- destruct (Hs j t' g' Hj Hj') as [S1 S2].
           rewrite length_app in S1. simpl in S1.
           replace (length lens + S j)%nat with (length lens + 1 + j)%nat by lia.
           now split.
      * simpl. now rewrite <- app_assoc in He2.
      * intros _. destruct targets as [|t2 targets2]; [|apply Hn; discriminate].
        destruct groups; [|discriminate]. simpl in E. injection E as <-.
        now rewrite E1.
Qed.

(** The groups of packets of the orders from [i0] on, each numbered by split
    id. *)
Definition groupedAs (i0 : nat) (groups : list (list MemPacket)) : Prop :=
  forall j h, groups !! j = Some h ->
    numbered 0 h /\ Forall (fun p => packetOrderId_ p = Z.of_nat (i0 + j)%nat) h.

Lemma groupedAs_tail (i0 : nat) (h : list MemPacket) (groups : list (list MemPacket)) :
  groupedAs i0 (h :: groups) -> groupedAs (S i0) groups.
Proof.
  intros H j g Hj. replace (S i0 + j)%nat with (i0 + S j)%nat by lia.
  now apply H.
Qed.

Lemma numbered_lookup (h : list MemPacket) : forall (k : Z) (s : nat) (r : MemPacket),
  numbered k h -> h !! s = Some r -> packetSplitId_ r = k + Z.of_nat s.
Proof.
  induction h as [|p h IH]; intros k [|s] r Hn Hs; try discriminate.
  - injection Hs as <-. destruct Hn as [-> _]. lia.
  - destruct Hn as [_ Hn]. simpl in Hs. rewrite (IH (k + 1) s r Hn Hs). lia.
Qed.

Lemma keys_numbered (h : list MemPacket) : forall (k i : Z),
  numbered k h -> Forall (fun p => packetOrderId_ p = i) h ->
  NoDup (map keyOf h)
  /\ forall key, In key (map keyOf h) -> fst key = i /\ k <= snd key.
Proof.
  induction h as [|p h IH]; intros k i Hn Ho.
  - split; [constructor|intros key []].
  - destruct Hn as [Hk Hn]. apply Forall_cons_iff in Ho as [Hi Ho].
    destruct (IH (k + 1) i Hn Ho) as [Hnd Hkeys]. split.
    + simpl. apply NoDup_cons. split; [|exact Hnd].
      intros Hin. apply list_elem_of_In in Hin.
      destruct (Hkeys _ Hin) as [_ Hle]. unfold keyOf in Hle. simpl in Hle. lia.
    + intros key [<-|Hin]; [unfold keyOf; simpl; lia|].
      destruct (Hkeys _ Hin). lia.
Qed.

Lemma keys_grouped (groups : list (list MemPacket)) : forall i0,
  groupedAs i0 groups ->
  NoDup (map keyOf (concat groups))
  /\ forall key, In key (map keyOf (concat groups)) -> Z.of_nat i0 <= fst key.
Proof.
  induction groups as [|h groups IH]; intros i0 Hg.
  - split; [constructor|intros key []].
  - destruct (Hg 0%nat h eq_refl) as [Hn Ho]. rewrite Nat.add_0_r in Ho.
    destruct (keys_numbered h 0 _ Hn Ho) as [Hnd Hkeys].
    destruct (IH (S i0) (groupedAs_tail _ _ _ Hg)) as [Hnd' Hkeys'].
    simpl. rewrite map_app. split.
    + apply NoDup_app. split; [exact Hnd|]. split; [|exact Hnd'].
      intros key H1 H2. apply list_elem_of_In in H1, H2.
      destruct (Hkeys _ H1) as [E _]. specialize (Hkeys' _ H2). lia.
    + intros key Hin. apply in_app_or in Hin as [Hin|Hin].
      * destruct (Hkeys _ Hin). lia.
      * specialize (Hkeys' _ Hin). lia.
Qed.

Lemma filter_every {A : Type} (f : A -> bool) (l : list A) :
  Forall (fun x => f x = true) l -> List.filter f l = l.
Proof.
  induction l as [|x l IH]; intros H; simpl; [reflexivity|].
  apply Forall_cons_iff in H as [-> H]. now rewrite IH.
Qed.

Lemma filter_nothing {A : Type} (f : A -> bool) (l : list A) :
  Forall (fun x => f x = false) l -> List.filter f l = [].
Proof.
  induction l as [|x l IH]; intros H; simpl; [reflexivity|].
  apply Forall_cons_iff in H as [-> H]. now apply IH.
Qed.

(** The responses of one order, picked from all the responses. *)
Lemma ofOrder_grouped (groups : list (list MemPacket)) :
  forall (i0 j : nat) (h : list MemPacket),
    groupedAs i0 groups -> groups !! j = Some h ->
    ofOrder (Z.of_nat (i0 + j)%nat) (concat groups) = h.
Proof.
  induction groups as [|g groups IH]; intros i0 j h Hg Hj;
    [now rewrite lookup_nil in Hj|].
  destruct (Hg 0%nat g eq_refl) as [_ Ho]. rewrite Nat.add_0_r in Ho.
  destruct (keys_grouped groups (S i0) (groupedAs_tail _ _ _ Hg)) as [_ Hkeys].
  unfold ofOrder. simpl. rewrite List.filter_app. destruct j as [|j].
  - injection Hj as <-. rewrite Nat.add_0_r.
    rewrite filter_every, filter_nothing; [apply app_nil_r| |].
    + apply List.Forall_forall. intros p Hp.
      assert (Hk : In (keyOf p) (map keyOf (concat groups))) by now apply in_map.
      specialize (Hkeys _ Hk). unfold keyOf in Hkeys. simpl in Hkeys.
      apply Z.eqb_neq. lia.
    + eapply List.Forall_impl; [|exact Ho]. intros p ->. apply Z.eqb_refl.
  - rewrite filter_nothing.
    + replace (i0 + S j)%nat with (S i0 + j)%nat by lia.
      apply (IH (S i0) j h (groupedAs_tail _ _ _ Hg) Hj).
    + eapply List.Forall_impl; [|exact Ho]. intros p ->. apply Z.eqb_neq. lia.
Qed.

Lemma Forall2_concat_split {A B : Type} (R : A -> B -> Prop)
    (groups : list (list A)) : forall (l : list B),
  Forall2 R (concat groups) l ->
  exists gs, l = concat gs /\ Forall2 (Forall2 R) groups gs.
Proof.
  induction groups as [|g groups IH]; intros l H; simpl in H.
  - apply Forall2_nil_inv_l in H as ->. exists []. split; [reflexivity|constructor].
  - apply Forall2_app_inv_l in H as (l1 & l2 & H1 & H2 & ->).
    destruct (IH l2 H2) as (gs & -> & Hgs).
    exists (l1 :: gs). split; [reflexivity|now constructor].
Qed.

Lemma find_key_unique (l : list MemPacket) (r : MemPacket) (i s : Z) :
  NoDup (map keyOf l) -> In r l -> keyOf r = (i, s) ->
  List.find (hasKey i s) l = Some r.
Proof.
  induction l as [|p l IH]; intros Hnd Hin Hk; [destruct Hin|].
  simpl in Hnd. apply NoDup_cons in Hnd as [Hp Hnd]. simpl.
  destruct (hasKey i s p) eqn:Eh.
  - destruct Hin as [->|Hin]; [reflexivity|]. exfalso. apply Hp.
    unfold hasKey in Eh. apply andb_true_iff in Eh as [E1 E2].
    apply Z.eqb_eq in E1, E2. apply list_elem_of_In.
    assert (Ek : keyOf p = keyOf r)
      by (rewrite Hk; unfold keyOf; now rewrite E1, E2).
    rewrite Ek. now apply in_map.
  - destruct Hin as [->|Hin]; [|now apply IH].
    unfold hasKey in Eh. unfold keyOf in Hk. injection Hk as E1 E2.
    rewrite E1, E2, !Z.eqb_refl in Eh. discriminate.
Qed.

(** [supplyLoadInsnData] once every response of the load is stored: one
    call of [supplyData] per order, in ascending order id, with the address
    of the first packet of the order and the value of its responses. *)
Lemma supply_complete (uop : Instruction) (total : Z)
    (groups : list (list MemPacket)) (received : list MemPacket) (m : t) :
  pendingLoad uop total (map length groups) received m ->
  NoDup (map keyOf received) ->
  (forall i h, groups !! i = Some h ->
     h <> []
     /\ Forall (fun p => 0 <= size_ p
                         /\ (isFaulty p = false
                             -> length (payload_ p) = Z.to_nat (size_ p))) h
     /\ totalSize h < 2 ^ 16
     /\ forall s r, h !! s = Some r ->
          In r received /\ keyOf r = (Z.of_nat i, Z.of_nat s)) ->
  exists m',
    supplyLoadInsnData (sequenceId uop) m = Some m'
    /\ calls m'
       = calls m ++ map (fun h => CallSupplyData uop (firstAddr h) (valueOf h)) groups.
Proof.
  intros (Hreq & T & HT & Hlen & Hall) Hnd Hgroups.
  unfold supplyLoadInsnData. rewrite Hreq, HT, Hlen, length_map.
  destruct (supplyOrders_filled uop T groups 0 m) as (m' & E & Hc).
  - intros j h Hj. destruct (Hgroups j h Hj) as (Hne & Hsz & Htot & Hkeys).
    split; [|auto]. simpl.
    destruct (Hall j (length h)) as (vec & Hf & Hl & Hs).
    { now rewrite list_lookup_fmap, Hj. }
    rewrite Hf. f_equal. apply list_eq. intros s.
    rewrite list_lookup_fmap. destruct (h !! s) as [r|] eqn:Er.
    + assert (Hlt : (s < length h)%nat) by (eapply lookup_lt_Some; eauto).
      rewrite (Hs s Hlt). destruct (Hkeys s r Er) as [Hin Hk].
      unfold slotOf. simpl. f_equal. now apply find_key_unique.
    + apply lookup_ge_None. apply lookup_ge_None in Er. lia.
  - change (Z.of_nat 0) with 0 in E. rewrite E.
    eexists. split; [reflexivity|]. exact Hc.
Qed.

(** The responses to the packets of one target. *)
Lemma answers_group (w seqId : Z) (t : MemoryAccessTarget) (ord : Z)
    (g h : list MemPacket) :
  splitOf w seqId t ord g -> Forall2 answers g h ->
  h <> [] /\ length h = length g /\ numbered 0 h
  /\ Forall (fun r => insnSeqId_ r = seqId /\ packetOrderId_ r = ord) h
  /\ totalSize h = size t /\ firstAddr h = vaddr t
  /\ Forall (fun r => isInstrRead r = false /\ access r = Read) h
  /\ Forall (fun r => 0 <= size_ r
                      /\ (isFaulty r = false
                          -> length (payload_ r) = Z.to_nat (size_ r))) h.
Proof.
  intros (Hne & Hline & Htot & Hcont & Hnum & Hids) Hans.
  assert (Hs : map shape h = map shape g).
  { clear -Hans. induction Hans as [|p r g h [Hs _] _ IH]; simpl;
      [reflexivity|now rewrite Hs, IH]. }
  destruct (shape_transfer h g Hs) as (T1 & T2 & _ & T4 & T5 & T6 & T7).
  split; [intros ->; destruct g; [congruence|discriminate]|].
  split; [exact T7|]. split; [now apply T4|]. split; [now apply T5|].
  split; [congruence|]. split.
  { rewrite T6. destruct g as [|p g]; [congruence|]. simpl. apply Hcont. }
  split.
  - clear -Hans. induction Hans as [|p r g h (_ & Ha & Hi & _) _ IH];
      constructor; auto.
  - specialize (T1 w Hline). clear -Hans T1.
    induction Hans as [|p r g h (_ & _ & _ & Hl) _ IH]; [constructor|].
    apply Forall_cons_iff in T1 as [[Hr _] T1].
    constructor; [split; [lia|exact Hl]|now apply IH].
Qed.

Lemma answers_atomic (l : list MemPacket) (resps : list MemPacket) :
  Forall2 answers (map markAsAtomic l) resps -> Forall2 answers l resps.
Proof.
  revert resps. induction l as [|p l IH]; intros resps H; simpl in H.
  - apply Forall2_nil_inv_l in H as ->. constructor.
  - apply Forall2_cons_inv_l in H as (r & rest & Hpr & Hrest & ->).
    constructor; [exact Hpr|now apply IH].
Qed.

(** From [requestRead] to the calls of [supplyData]: a load whose targets
    end within the address space is accepted and its packets are queued;
    once the responses to these packets have come back, in whatever order,
    the receiver has called [supplyLoadInsnData], which supplies for each
    target, in the order of the targets, the target's address and the value
    of its responses [valueOf]: their payloads concatenated in split-id
    order, or the empty value if one of them is faulty. *)
Lemma load_reassembled (uop : Instruction) (m : t) :
  0 < cacheLineWidth_ (config m) < 2 ^ 64 ->
  admitsRead m = true ->
  generatedAddresses uop <> [] ->
  Forall validTarget (generatedAddresses uop) ->
  Z.of_nat (length (generatedAddresses uop)) <= 2 ^ 16 ->
  StdMap.find (sequenceId uop) (readResponses_ m) = None ->
  exists m1 pkts,
    requestRead uop m = Some (true, m1)
    /\ loads_ m1 = loads_ m ++ [pkts]
    /\ calls m1 = calls m
    /\ forall resps0 resps,
         Z.of_nat (length pkts) < 2 ^ 16 ->
         Forall2 answers pkts resps0 ->
         Permutation resps resps0 ->
         exists m',
           receiveAll resps m1 = Some m'
           /\ calls m'
              = calls m1
                ++ imap (fun i t =>
                           CallSupplyData uop (vaddr t)
                             (valueOf (ofOrder (Z.of_nat i) resps0)))
                        (generatedAddresses uop).
Proof.
  intros Hw Hadm Hne Hvalid Hcount Hnone.
  set (seqId := sequenceId uop). set (w := cacheLineWidth_ (config m)) in *.
  destruct (readTargets_spec w seqId (generatedAddresses uop) Hw []
              (readResponses_ m) Hvalid)
    as (groups & responses' & E & Hl & Hs & [Hholds _] & Hsome).
  { simpl. lia. }
  { fold seqId in Hnone. rewrite Hnone. split; [split|].
    - reflexivity.
    - intros i n Hi. now rewrite lookup_nil in Hi.
    - reflexivity. }
  specialize (Hsome Hne).
  destruct (StdMap.find seqId responses') as [T|] eqn:ET; [clear Hsome|congruence].
  cbn [from_option id app] in Hholds. change (Z.of_nat (length [])) with 0 in E.
  unfold requestRead. rewrite Hadm. cbn [negb]. fold seqId w. rewrite E.
  eexists _, _. split; [reflexivity|]. split; [reflexivity|].
  split; [reflexivity|].
  set (pkts := if isLoadReserved uop then map markAsAtomic (concat groups)
               else concat groups).
  intros resps0 resps Hlt Hans Hperm.
  assert (Hlen : length pkts = length (concat groups))
    by (unfold pkts; destruct (isLoadReserved uop); [apply length_map|reflexivity]).
  assert (Hans' : Forall2 answers (concat groups) resps0)
    by (unfold pkts in Hans; destruct (isLoadReserved uop);
        [now apply answers_atomic|exact Hans]).
  destruct (Forall2_concat_split answers groups resps0 Hans') as (gs & -> & Hgs).
  assert (Hfacts : forall i h, gs !! i = Some h ->
            exists t g, generatedAddresses uop !! i = Some t
                        /\ groups !! i = Some g
                        /\ splitOf w seqId t (Z.of_nat i) g
                        /\ Forall2 answers g h).
  { intros i h Hi.
    destruct (Forall2_lookup_r _ _ _ _ _ Hgs Hi) as (g & Hg & Hgh).
    assert (Hti : is_Some (generatedAddresses uop !! i)).
    { apply lookup_lt_is_Some. rewrite <- Hl. eapply lookup_lt_Some; eauto. }
    destruct Hti as [t Ht]. exists t, g.
    destruct (Hs i t g Ht Hg) as [Hsplit _]. auto. }
  assert (Hlens : map length gs = map length groups).
  { clear -Hgs. induction Hgs as [|g h groups gs Hgh _ IH]; simpl;
      [reflexivity|]. rewrite IH. f_equal. symmetry.
    eapply Forall2_length; eauto. }
  assert (Hgrouped : groupedAs 0 gs).
  { intros j h Hj. destruct (Hfacts j h Hj) as (t & g & _ & _ & Hsplit & Hgh).
    destruct (answers_group _ _ _ _ _ _ Hsplit Hgh) as (_ & _ & Hn & Hids & _).
    split; [exact Hn|]. eapply List.Forall_impl; [|exact Hids]. simpl. tauto. }
  destruct (keys_grouped gs 0 Hgrouped) as [Hnd _].
  assert (Hnd' : NoDup (map keyOf resps)).
  { assert (Hp : Permutation (map keyOf resps) (map keyOf (concat gs)))
      by now apply Permutation_map.
    now rewrite Hp. }
  assert (Hin : forall i s h r, gs !! i = Some h -> h !! s = Some r ->
            In r resps /\ keyOf r = (Z.of_nat i, Z.of_nat s) /\ fits uop (map length gs) r).
  { intros i s h r Hi Hr.
    destruct (Hfacts i h Hi) as (t & g & _ & _ & Hsplit & Hgh).
    destruct (answers_group _ _ _ _ _ _ Hsplit Hgh)
      as (_ & _ & Hn & Hids & _ & _ & Hrd & _).
    rewrite List.Forall_forall in Hids, Hrd.
    assert (Hrh : In r h) by (apply list_elem_of_In; eapply list_elem_of_lookup_2; eauto).
    destruct (Hids r Hrh) as [Hq Ho]. destruct (Hrd r Hrh) as [Hir Hac].
    pose proof (numbered_lookup h 0 s r Hn Hr) as Hk. simpl in Hk.
    split; [|split].
    - eapply Permutation_in; [symmetry; exact Hperm|].
      apply in_concat. exists h. split; [|exact Hrh].
      apply list_elem_of_In. eapply list_elem_of_lookup_2; eauto.
    - unfold keyOf. now rewrite Ho, Hk.
    - split; [exact Hir|]. split; [exact Hac|]. split; [exact Hq|].
      exists i, s, (length h). split; [exact Ho|]. split; [exact Hk|].
      split; [now rewrite list_lookup_fmap, Hi|eapply lookup_lt_Some; eauto]. }
  assert (Hfits : Forall (fits uop (map length gs)) resps).
  { apply List.Forall_forall. intros r Hr.
    apply (Permutation_in _ Hperm) in Hr. apply in_concat in Hr as (h & Hh & Hrh).
    apply list_elem_of_In, list_elem_of_lookup in Hh as [i Hi].
    apply list_elem_of_In, list_elem_of_lookup in Hrh as [s Hsr].
    now destruct (Hin i s h r Hi Hsr) as (_ & _ & ?). }
  assert (Hcnt : length resps = length pkts).
  { rewrite (Permutation_length Hperm). symmetry. eapply Forall2_length; eauto. }
  assert (Hpos : resps <> []).
  { intros ->. simpl in Hcnt. rewrite Hlen in Hcnt.
    destruct (generatedAddresses uop) as [|t ts] eqn:Et; [congruence|].
    destruct groups as [|g groups]; [discriminate|].
    destruct (Hs 0%nat t g eq_refl eq_refl) as [(Hg & _) _].
    destruct g; [congruence|discriminate]. }
  match goal with |- exists m2, receiveAll resps ?x = _ /\ _ => set (m1 := x) end.
  destruct (receiveAll_pending uop (Z.of_nat (length pkts)) (map length gs) resps
              [] m1) as (m3 & Hp3 & Hc3 & E3).
  { split.
    - unfold m1. cbn [requestedLoads_ set_requestedLoads]. fold seqId.
      rewrite find_assign_eq. fold pkts. rewrite wrap16_small by lia.
      simpl. now rewrite Z.sub_0_r.
    - exists T. unfold m1. cbn [readResponses_ set_requestedLoads
                               set_pendingDataRequests set_readResponses].
      fold seqId. split; [exact ET|]. now rewrite Hlens. }
  { exact Hfits. }
  { exact Hnd'. }
  { simpl. now rewrite Hcnt. }
  { exact Hlt. }
  { exact Hpos. }
  simpl in Hp3.
  destruct (supply_complete uop (Z.of_nat (length pkts)) gs resps m3 Hp3 Hnd')
    as (m' & E' & Hc').
  { intros i h Hi. destruct (Hfacts i h Hi) as (t & g & Ht & _ & Hsplit & Hgh).
    destruct (answers_group _ _ _ _ _ _ Hsplit Hgh)
      as (Hhne & _ & _ & _ & Htot & _ & _ & Hsz).
    split; [exact Hhne|]. split; [exact Hsz|]. split.
    - rewrite Htot. rewrite List.Forall_forall in Hvalid.
      assert (Hvt : validTarget t)
        by (apply Hvalid, list_elem_of_In; eapply list_elem_of_lookup_2; eauto).
      destruct Hvt as (_ & ? & _). lia.
    - intros s r Hr. now destruct (Hin i s h r Hi Hr) as (? & ? & _). }
  exists m'. split; [now rewrite E3|]. rewrite Hc', Hc3. f_equal.
  apply list_eq. intros i. rewrite list_lookup_fmap, list_lookup_imap.
  destruct (gs !! i) as [h|] eqn:Hi.
  - destruct (Hfacts i h Hi) as (t & g & Ht & _ & Hsplit & Hgh).
    destruct (answers_group _ _ _ _ _ _ Hsplit Hgh) as (_ & _ & _ & _ & _ & Ha & _).
    rewrite Ht. simpl. rewrite Ha.
    pose proof (ofOrder_grouped gs 0 i h Hgrouped Hi) as Ho.
    rewrite Nat.add_0_l in Ho. now rewrite Ho.
  - apply lookup_ge_None in Hi.
    assert (Hn : generatedAddresses uop !! i = None).
    { apply lookup_ge_None. rewrite <- Hl.
      rewrite (Forall2_length _ _ _ Hgs). exact Hi. }
    now rewrite Hn.
Qed.

(** C5 (amended). A memory target of [size > 0] bytes that ends within the
    64-bit address space, split on lines of [w] bytes: the write packets and
    the read packets have the same addresses, sizes and split ids; each
    packet lies in one line (its size is at most [w], its first and last
    byte down-align to the same line); the sizes sum to the target's size,
    the packets follow each other from [vaddr] on and their split ids count
    from 0; the payloads of the write packets, concatenated in that order,
    are the payload. A vector of responses without a faulty packet is merged
    into the concatenation of the payloads in the order of the vector, and
    into the empty value as soon as one packet is faulty; so the read packets
    answered with what the write packets stored are merged into the payload
    again, at the target's address. For a load whose targets are such,
    [requestRead] queues the read packets of its targets, and once the
    responses to them have reached the receiver, in whatever order, the
    receiver has called [supplyLoadInsnData], which has supplied for each
    target, in the order of the targets (the order ids), the target's address
    with the payloads of its responses concatenated in split-id order, or
    with the empty value if one of these responses is faulty. *)
Theorem C5_split_and_reassemble
    (w : Z) (target : MemoryAccessTarget) (data : list byte) (seqId ordId : Z) :
  0 < w < 2 ^ 64 ->
  0 <= vaddr target -> 0 < size target < 2 ^ 16 ->
  vaddr target + size target <= 2 ^ 64 ->
  length data = Z.to_nat (size target) ->
  (exists wpkts rpkts,
    createWriteMemPackets w target data seqId ordId = Some wpkts
    /\ createReadMemPackets w target seqId ordId = Some rpkts
    /\ map shape rpkts = map shape wpkts
    /\ Forall (inOneLine w) wpkts
    /\ totalSize wpkts = size target
    /\ contiguous (vaddr target) wpkts
    /\ numbered 0 wpkts
    /\ Forall (fun p => insnSeqId_ p = seqId /\ packetOrderId_ p = ordId) wpkts
    /\ concat (map payload_ wpkts) = data
    /\ (forall p0 rest,
          Forall (fun p => isFaulty p = false) (p0 :: rest) ->
          Forall (fun p => length (payload_ p) = Z.to_nat (size_ p)
                           /\ 0 <= size_ p) (p0 :: rest) ->
          totalSize (p0 :: rest) < 2 ^ 16 ->
          mergeSplits (map Some (p0 :: rest))
          = Some (vaddr_ p0, concat (map payload_ (p0 :: rest))))
    /\ (forall p0 rest,
          Exists (fun p => isFaulty p = true) (p0 :: rest) ->
          mergeSplits (map Some (p0 :: rest)) = Some (vaddr_ p0, []))
    /\ mergeSplits (map Some (answerAll rpkts wpkts)) = Some (vaddr target, data)
    /\ (forall insn packets n m m',
          supplyOrders insn packets 0 n m = Some m' ->
          exists vals,
            map Some vals
            = map (fun j => mergeSplits
                              (default [] (StdMap.find (Z.of_nat j) packets)))
                  (seq 0 n)
            /\ calls m' = calls m ++ map (fun av => CallSupplyData insn (fst av) (snd av))
                                         vals))
  /\ (forall (uop : Instruction) (m : t),
        cacheLineWidth_ (config m) = w ->
        admitsRead m = true ->
        generatedAddresses uop <> [] ->
        Forall validTarget (generatedAddresses uop) ->
        Z.of_nat (length (generatedAddresses uop)) <= 2 ^ 16 ->
        StdMap.find (sequenceId uop) (readResponses_ m) = None ->
        exists m1 pkts,
          requestRead uop m = Some (true, m1)
          /\ loads_ m1 = loads_ m ++ [pkts]
          /\ calls m1 = calls m
          /\ forall resps0 resps,
               Z.of_nat (length pkts) < 2 ^ 16 ->
               Forall2 answers pkts resps0 ->
               Permutation resps resps0 ->
               exists m',
                 receiveAll resps m1 = Some m'
                 /\ calls m'
                    = calls m1
                      ++ imap (fun i t =>
                                 CallSupplyData uop (vaddr t)
                                   (valueOf (ofOrder (Z.of_nat i) resps0)))
                              (generatedAddresses uop)).
Proof.
  intros Hw Hv Hsz Hend Hd. split.
  - destruct (createMemPackets_spec w target data seqId ordId Hw
                (conj Hv (conj Hsz Hend)) Hd)
      as (wpkts & rpkts & Ew & Er & Hs & H1 & H2 & Hf & H3 & H4 & H5 & H6).
    exists wpkts, rpkts.
    split; [exact Ew|]. split; [exact Er|]. split; [exact Hs|]. split; [exact H1|].
    split; [exact H3|]. split; [exact H4|]. split; [exact H5|].
    split; [eapply List.Forall_impl; [|exact H2]; simpl; tauto|].
    split; [exact H6|]. split; [exact mergeSplits_ok|].
    split; [exact mergeSplits_faulty|].
    split; [|intros insn packets n m m' H;
             exact (supplyOrders_spec insn packets n 0 m m' H)].
    assert (Hw2 : Forall (fun p => length (payload_ p) = Z.to_nat (size_ p)
                                   /\ 0 < size_ p) wpkts).
    { rewrite List.Forall_forall in H1, H2 |- *. intros p Hp.
      destruct (H1 p Hp) as [[? _] _]. destruct (H2 p Hp) as [? _]. auto. }
    destruct (answerAll_spec rpkts wpkts Hs Hf Hw2) as (A1 & A2 & A3 & A4 & A5).
    destruct (answerAll rpkts wpkts) as [|a0 arest] eqn:Ea.
    + exfalso. destruct wpkts as [|w0 wrest]; [simpl in H3; lia|].
      discriminate.
    + rewrite mergeSplits_ok; [| exact A1 | exact A2 | lia].
      rewrite A5, H6. f_equal. f_equal.
      destruct wpkts as [|w0 wrest]; [discriminate|].
      simpl in A4, H4. injection A4 as -> _. tauto.
  - intros uop m <-. now apply load_reassembled.
Qed.


(** An 8-byte store to 0x3C with 64-byte lines: two packets of 4 bytes. *)
Definition bytes8 : list byte := [x01; x02; x03; x04; x05; x06; x07; x08].

Example split_across_lines :
  option_map (map (fun p => (vaddr_ p, size_ p, packetSplitId_ p, payload_ p)))
    (createWriteMemPackets 64 (mkTarget 60 8) bytes8 1 0)
  = Some [(60, 4, 0, [x01; x02; x03; x04]); (64, 4, 1, [x05; x06; x07; x08])].
Proof. reflexivity. Qed.

(** C5 as stated fails for a target that runs over the end of the address
    space: the 8 bytes at [2^64 - 4] are split into a packet at [2^64 - 4]
    and a packet at address 0, which is neither the next nor a higher
    address. *)
Lemma C5_counterexample_wraps :
  exists wpkts,
    createWriteMemPackets 64 (mkTarget (2 ^ 64 - 4) 8) bytes8 1 0 = Some wpkts
    /\ map (fun p => (vaddr_ p, size_ p)) wpkts = [(2 ^ 64 - 4, 4); (0, 4)]
    /\ ~ contiguous (2 ^ 64 - 4) wpkts
    /\ ~ Sorted Z.lt (map vaddr_ wpkts).
Proof.
  eexists. split; [vm_compute; reflexivity|]. split; [reflexivity|]. split.
  - simpl. intros (_ & H & _). vm_compute in H. discriminate.
  - simpl. intros H. inversion H as [|? ? _ Hd]. inversion Hd as [|? ? Hlt].
    vm_compute in Hlt. discriminate.
Qed.

(** A load of the 8 bytes at 0x3C and the 4 bytes at 0x80, with 64-byte
    lines: three packets. The responses come back with the second split of
    the first target first. *)
Definition load_two_targets : Instruction :=
  LSQ.insn 7 [mkTarget 60 8; mkTarget 128 4] 1 true.
Definition mmu_idle : t := init (mkConfig 64 32 32 4 2 2 false).
Definition responses_two : list MemPacket :=
  [turnIntoResponse [x01; x02; x03; x04] false
     (set_splitId 0 (createReadRequest 60 4 7 0));
   turnIntoResponse [x05; x06; x07; x08] false
     (set_splitId 1 (createReadRequest 64 4 7 0));
   turnIntoResponse [x09; x0a; x0b; x0c] false (createReadRequest 128 4 7 1)].
Definition delivered_two : list MemPacket :=
  match responses_two with
  | r0 :: r1 :: rest => r1 :: r0 :: rest
  | _ => responses_two
  end.

Lemma C5_split_and_reassemble_witness :
  (exists wpkts rpkts,
     createWriteMemPackets 64 (mkTarget 60 8) bytes8 1 0 = Some wpkts
     /\ createReadMemPackets 64 (mkTarget 60 8) 1 0 = Some rpkts
     /\ Forall (inOneLine 64) wpkts
     /\ totalSize wpkts = 8
     /\ concat (map payload_ wpkts) = bytes8
     /\ mergeSplits (map Some (answerAll rpkts wpkts)) = Some (60, bytes8))
  /\ exists m1 m',
       requestRead load_two_targets mmu_idle = Some (true, m1)
       /\ receiveAll delivered_two m1 = Some m'
       /\ calls m' = [CallSupplyData load_two_targets 60 bytes8;
                      CallSupplyData load_two_targets 128 [x09; x0a; x0b; x0c]].
Proof.
  destruct (C5_split_and_reassemble 64 (mkTarget 60 8) bytes8 1 0)
    as [(wpkts & rpkts & H1 & H2 & _ & H3 & H4 & _ & _ & _ & H5 & _ & _ & H6 & _)
        Hload];
    [lia | simpl; lia | simpl; lia | simpl; lia | reflexivity |].
  split; [exists wpkts, rpkts; repeat split; assumption|].
  destruct (Hload load_two_targets mmu_idle) as (m1 & pkts & E & Hl & Hc & Hall).
  - reflexivity.
  - reflexivity.
  - discriminate.
  - repeat constructor; simpl; lia.
  - simpl. lia.
  - reflexivity.
  - pose proof E as E'. vm_compute in E'. injection E' as <-.
    simpl in Hl. injection Hl as <-.
    destruct (Hall responses_two delivered_two) as (m' & Er & Hcalls).
    + simpl. lia.
    + repeat constructor; intros _; reflexivity.
    + apply perm_swap.
    + eexists _, m'. split; [exact E|]. split; [exact Er|].
      rewrite Hcalls. reflexivity.
Defined.

(** *** The calls on the MMU *)

Inductive Op : Type :=
| OpRequestRead (uop : Instruction)
| OpRequestWrite (uop : Instruction) (data : list RegisterValue)
| OpRequestWriteUntimed (translate : Z -> Translation)
    (target : MemoryAccessTarget) (data : RegisterValue)
| OpRequestInstrRead (translate : Z -> Translation) (target : MemoryAccessTarget)
| OpTick (translate : Z -> Translation)
| OpSupplyDelayedTranslation (translate : Z -> Translation) (vaddr paddr : Z)
| OpDeliver (n : nat) (payload : list byte) (failed : bool).

Definition run (op : Op) (m : t) : option t :=
  match op with
  | OpRequestRead uop => option_map snd (requestRead uop m)
  | OpRequestWrite uop data => option_map snd (requestWrite uop data m)
  | OpRequestWriteUntimed translate target data =>
      requestWriteUntimed translate target data m
  | OpRequestInstrRead translate target => requestInstrRead translate target m
  | OpTick translate => option_map (fun r => fst (fst r)) (tick translate m)
  | OpSupplyDelayedTranslation translate vaddr paddr =>
      supplyDelayedTranslation translate vaddr paddr m
  | OpDeliver n payload failed => deliver n payload failed m
  end.

Fixpoint runAll (ops : list Op) (m : t) : option t :=
  match ops with
  | [] => Some m
  | op :: ops' =>
      match run op m with
      | Some m' => runAll ops' m'
      | None => None
      end
  end.

(** *** What responses and [issueRequest] leave alone *)

Lemma supplyOrders_frame insn packets n : forall i m m',
  supplyOrders insn packets i n m = Some m' ->
  config m' = config m /\ loads_ m' = loads_ m /\ stores_ m' = stores_ m
  /\ sent m' = sent m /\ pendingRequests_ m' = pendingRequests_ m
  /\ pendingDataRequests_ m' = pendingDataRequests_ m
  /\ requestedLoads_ m' = requestedLoads_ m
  /\ readResponses_ m' = readResponses_ m.
Proof.
  induction n as [|n IH]; intros i m m'; cbn [supplyOrders].
  - intros [= <-]. repeat split.
  - destruct (mergeSplits _) as [[addr value]|]; [|discriminate].
    intros H. apply IH in H. exact H.
Qed.

Lemma receive_frame (p : MemPacket) (m m' : t) :
  receive p m = Some m' ->
  config m' = config m /\ loads_ m' = loads_ m /\ stores_ m' = stores_ m
  /\ sent m' = sent m /\ pendingRequests_ m' = pendingRequests_ m
  /\ pendingDataRequests_ m'
     = if isInstrRead p then pendingDataRequests_ m
       else wrap64 (pendingDataRequests_ m - 1).
Proof.
  unfold receive. destruct (isInstrRead p).
  - destruct (isFaulty p || ignore p); intros [= <-]; repeat split.
  - destruct (isRead p).
    + cbn [requestedLoads_ set_pendingDataRequests].
      destruct (StdMap.find _ (requestedLoads_ m)) as [[insn remaining]|];
        [|discriminate].
      destruct (_ <? _)%nat; [|discriminate].
      destruct (_ =? 0).
      * unfold supplyLoadInsnData.
        destruct (StdMap.find _ _) as [[insn' r']|]; [|discriminate].
        destruct (StdMap.find _ _) as [packets|]; [|discriminate].
        destruct (supplyOrders _ _ _ _ _) as [m1|] eqn:E; [|discriminate].
        intros [= <-]. apply supplyOrders_frame in E. simpl in *.
        destruct E as (? & ? & ? & ? & ? & ? & _). repeat split; assumption.
      * intros [= <-]. repeat split.
    + cbn [requestedStores_ set_pendingDataRequests].
      destruct (StdMap.find _ (requestedStores_ m)) as [str|].
      * destruct (_ =? 0); intros [= <-]; repeat split.
      * intros [= <-]. repeat split.
Qed.

Lemma issueRequest_frame translate (p : MemPacket) (m m' : t) :
  issueRequest translate p m = Some m' ->
  config m' = config m /\ loads_ m' = loads_ m /\ stores_ m' = stores_ m.
Proof.
  unfold issueRequest. destruct (translate (vaddr_ p)).
  - intros H. apply receive_frame in H. tauto.
  - intros [= <-]. repeat split.
  - intros [= <-]. unfold send, countRequest.
    destruct (isInstrRead _); [|destruct (isRead _)]; repeat split.
  - intros [= <-]. unfold send, countRequest.
    destruct (isInstrRead _); [|destruct (isRead _)]; repeat split.
Qed.

Lemma issueAll_frame translate pkts : forall m m',
  issueAll translate pkts m = Some m' ->
  config m' = config m /\ loads_ m' = loads_ m /\ stores_ m' = stores_ m.
Proof.
  induction pkts as [|p pkts IH]; intros m m'; simpl.
  - intros [= <-]. repeat split.
  - destruct (issueRequest translate p m) as [m1|] eqn:E; [|discriminate].
    intros H. apply IH in H. apply issueRequest_frame in E.
    destruct H as (-> & -> & ->). exact E.
Qed.

Lemma reissue_frame translate vaddr fuel : forall i m m',
  reissue fuel translate vaddr i m = Some m' ->
  config m' = config m /\ loads_ m' = loads_ m /\ stores_ m' = stores_ m.
Proof.
  induction fuel as [|fuel IH]; intros i m m'; simpl; [discriminate|].
  destruct (StdMap.find _ _) as [parked|]; [|discriminate].
  destruct (nth_error parked i) as [p|]; [|intros [= <-]; repeat split].
  destruct (issueRequest translate p m) as [m1|] eqn:E; [|discriminate].
  intros H. apply IH in H. apply issueRequest_frame in E.
  destruct H as (-> & -> & ->). exact E.
Qed.

Lemma lastStorePacket_frame pkt m m' :
  lastStorePacket pkt m = Some m' ->
  config m' = config m /\ loads_ m' = loads_ m /\ stores_ m' = stores_ m
  /\ sent m' = sent m /\ pendingRequests_ m' = pendingRequests_ m
  /\ pendingDataRequests_ m' = pendingDataRequests_ m.
Proof.
  unfold lastStorePacket. destruct (StdMap.find _ _) as [str|]; [|discriminate].
  destruct (negb _); intros [= <-]; repeat split.
Qed.

(** The packets of a queue entry are sent from its front: what was issued
    and what is left make up the entry. *)
Lemma sendPackets_spec translate isStoreReq limit pkts :
  forall used m remaining used' m' issued,
    sendPackets translate isStoreReq limit pkts used m
    = Some (remaining, used', m', issued) ->
    pkts = issued ++ remaining
    /\ config m' = config m /\ loads_ m' = loads_ m /\ stores_ m' = stores_ m.
Proof.
  induction pkts as [|pkt rest IH]; intros used m remaining used' m' issued; simpl.
  - intros [= <- <- <- <-]. repeat split.
  - destruct (_ <=? limit); [|intros [= <- <- <- <-]; repeat split].
    destruct (if isStoreReq && _ then _ else _) as [m1|] eqn:E1; [|discriminate].
    destruct (issueRequest translate pkt m1) as [m2|] eqn:E2; [|discriminate].
    destruct (sendPackets _ _ _ rest _ m2) as [[[[rem1 u1] m3] iss1]|] eqn:E3;
      [|discriminate].
    intros [= <- <- <- <-].
    destruct (IH _ _ _ _ _ _ E3) as (-> & -> & -> & ->).
    apply issueRequest_frame in E2. destruct E2 as (-> & -> & ->).
    split; [reflexivity|].
    destruct (isStoreReq && _).
    + apply lastStorePacket_frame in E1. tauto.
    + injection E1 as <-. repeat split.
Qed.

Lemma sendInsns_frame translate isStoreReq limit insns :
  forall used m remaining m' issued,
    sendInsns translate isStoreReq limit insns used m
    = Some (remaining, m', issued) ->
    concat insns = issued ++ concat remaining
    /\ (length remaining <= length insns)%nat
    /\ config m' = config m /\ loads_ m' = loads_ m /\ stores_ m' = stores_ m.
Proof.
  induction insns as [|insn others IH]; intros used m remaining m' issued; simpl.
  - intros [= <- <- <-]. repeat split; auto.
  - destruct (sendPackets _ _ _ insn used m) as [[[[rem1 u1] m1] iss1]|] eqn:E1;
      [|discriminate].
    destruct (sendPackets_spec _ _ _ _ _ _ _ _ _ _ E1) as (-> & Ec & El & Es).
    destruct rem1 as [|r rem1].
    + destruct (sendInsns _ _ _ others u1 m1) as [[[rem2 m2] iss2]|] eqn:E2;
        [|discriminate].
      intros [= <- <- <-].
      destruct (IH _ _ _ _ _ E2) as (-> & Hlen & -> & -> & ->).
      rewrite app_nil_r, <- app_assoc. repeat split; try assumption. simpl. lia.
    + intros [= <- <- <-]. simpl. rewrite <- app_assoc.
      repeat split; try assumption. lia.
Qed.

(** *** Request caps and bandwidth *)

(** The limits are unsigned. *)
Definition nonNegative (c : Config) : Prop :=
  0 <= requestLimit_ c /\ 0 <= loadRequestLimit_ c /\ 0 <= storeRequestLimit_ c
  /\ 0 <= loadBandwidth_ c /\ 0 <= storeBandwidth_ c.

(** The caps on the instructions held in [loadsStores_]: each type within
    its own limit; both together within [requestLimit_] when requests are
    not exclusive; one type only when they are. *)
Definition capsHold (m : t) : Prop :=
  let c := config m in
  Z.of_nat (length (loads_ m)) <= loadRequestLimit_ c
  /\ Z.of_nat (length (stores_ m)) <= storeRequestLimit_ c
  /\ (exclusiveRequests_ c = false ->
      Z.of_nat (length (loads_ m)) + Z.of_nat (length (stores_ m))
      <= requestLimit_ c)
  /\ (exclusiveRequests_ c = true -> loads_ m = [] \/ stores_ m = []).

Lemma capsHold_shrink (m m' : t) :
  config m' = config m ->
  (length (loads_ m') <= length (loads_ m))%nat ->
  (length (stores_ m') <= length (stores_ m))%nat ->
  capsHold m -> capsHold m'.
Proof.
  unfold capsHold. intros -> Hl Hs (H1 & H2 & H3 & H4).
  split; [lia|]. split; [lia|]. split; [intros Hx; specialize (H3 Hx); lia|].
  intros Hx. destruct (H4 Hx) as [E|E]; rewrite E in *; simpl in *.
  - left. destruct (loads_ m'); [reflexivity|simpl in Hl; lia].
  - right. destruct (stores_ m'); [reflexivity|simpl in Hs; lia].
Qed.

Lemma capsHold_same (m m' : t) :
  config m' = config m /\ loads_ m' = loads_ m /\ stores_ m' = stores_ m ->
  capsHold m -> capsHold m'.
Proof.
  intros (Hc & Hl & Hs). apply capsHold_shrink; [exact Hc|rewrite Hl|rewrite Hs]; lia.
Qed.

Lemma requestRead_caps uop m b m' :
  requestRead uop m = Some (b, m') -> capsHold m ->
  capsHold m' /\ config m' = config m
  /\ (b = false -> m' = m /\ admitsRead m = false)
  /\ (b = true -> admitsRead m = true
                  /\ exists pkts, loads_ m' = loads_ m ++ [pkts]
                                  /\ stores_ m' = stores_ m).
Proof.
  unfold requestRead. destruct (admitsRead m) eqn:Ea; simpl.
  2:{ intros [= <- <-] H. split; [assumption|]. split; [reflexivity|].
      split; [auto|discriminate]. }
  destruct (readTargets _ _ _ _ _) as [[pkts responses]|]; [|discriminate].
  intros [= <- <-] (H1 & H2 & H3 & H4).
  split; [|split; [reflexivity|split; [discriminate|intros _; split; [reflexivity|]]]].
  2:{ eexists. split; reflexivity. }
  unfold admitsRead in Ea. unfold capsHold. simpl.
  rewrite length_app. simpl.
  destruct (exclusiveRequests_ (config m)) eqn:Ex; simpl in Ea.
  - destruct (Nat.eqb_spec (length (stores_ m)) 0) as [Es|Es]; simpl in Ea;
      [|discriminate].
    destruct (Z.geb_spec (Z.of_nat (length (loads_ m))) (loadRequestLimit_ (config m)));
      [discriminate|].
    split; [lia|]. split; [exact H2|]. split; [discriminate|].
    intros _. right. destruct (stores_ m); [reflexivity|discriminate].
  - destruct (Z.geb_spec (Z.of_nat (length (loads_ m)) + Z.of_nat (length (stores_ m)))
                (requestLimit_ (config m))); [discriminate|].
    destruct (Z.geb_spec (Z.of_nat (length (loads_ m))) (loadRequestLimit_ (config m)));
      [discriminate|].
    split; [lia|]. split; [exact H2|]. split; [intros _; lia|discriminate].
Qed.

Lemma requestWrite_caps uop data m b m' :
  requestWrite uop data m = Some (b, m') -> capsHold m ->
  capsHold m' /\ config m' = config m
  /\ (b = false -> m' = m /\ admitsWrite m = false)
  /\ (b = true -> admitsWrite m = true
                  /\ exists pkts, stores_ m' = stores_ m ++ [pkts]
                                  /\ loads_ m' = loads_ m).
Proof.
  unfold requestWrite. destruct (admitsWrite m) eqn:Ea; simpl.
  2:{ intros [= <- <-] H. split; [assumption|]. split; [reflexivity|].
      split; [auto|discriminate]. }
  destruct (negb _); [discriminate|].
  destruct (writeTargets _ _ _ _ _) as [pkts|]; [|discriminate].
  intros [= <- <-] (H1 & H2 & H3 & H4).
  split; [|split; [reflexivity|split; [discriminate|intros _; split; [reflexivity|]]]].
  2:{ eexists. split; reflexivity. }
  unfold admitsWrite in Ea. unfold capsHold. simpl.
  rewrite length_app. simpl.
  destruct (exclusiveRequests_ (config m)) eqn:Ex; simpl in Ea.
  - destruct (Nat.eqb_spec (length (loads_ m)) 0) as [Es|Es]; simpl in Ea;
      [|discriminate].
    destruct (Z.geb_spec (Z.of_nat (length (stores_ m))) (storeRequestLimit_ (config m)));
      [discriminate|].
    split; [exact H1|]. split; [lia|]. split; [discriminate|].
    intros _. left. destruct (loads_ m); [reflexivity|discriminate].
  - destruct (Z.geb_spec (Z.of_nat (length (loads_ m)) + Z.of_nat (length (stores_ m)))
                (requestLimit_ (config m))); [discriminate|].
    destruct (Z.geb_spec (Z.of_nat (length (stores_ m))) (storeRequestLimit_ (config m)));
      [discriminate|].
    split; [exact H1|]. split; [lia|]. split; [intros _; lia|discriminate].
Qed.

Lemma processRequests_frame translate isStoreReq m m' issued :
  processRequests translate isStoreReq m = Some (m', issued) ->
  config m' = config m
  /\ (length (loads_ m') <= length (loads_ m))%nat
  /\ (length (stores_ m') <= length (stores_ m))%nat
  /\ (if isStoreReq then loads_ m' = loads_ m else stores_ m' = stores_ m).
Proof.
  unfold processRequests.
  destruct (sendInsns _ _ _ _ _ _) as [[[remaining m1] iss]|] eqn:E; [|discriminate].
  intros [= <- <-].
  destruct (sendInsns_frame _ _ _ _ _ _ _ _ _ E) as (_ & Hlen & Hc & Hl & Hs).
  destruct isStoreReq; simpl; rewrite ?Hl, ?Hs; repeat split; auto; lia.
Qed.

Lemma tick_frame translate m m' issuedStores issuedLoads :
  tick translate m = Some (m', issuedStores, issuedLoads) ->
  config m' = config m
  /\ (length (loads_ m') <= length (loads_ m))%nat
  /\ (length (stores_ m') <= length (stores_ m))%nat.
Proof.
  unfold tick. destruct (exclusiveRequests_ (config m)).
  - destruct (processRequests _ _ m) as [[m1 iss]|] eqn:E; [|discriminate].
    apply processRequests_frame in E. destruct E as (Hc & Hl & Hs & _).
    destruct (negb _); intros [= <- _ _]; auto.
  - destruct (processRequests _ true m) as [[m1 iss1]|] eqn:E1; [|discriminate].
    destruct (processRequests _ false m1) as [[m2 iss2]|] eqn:E2; [|discriminate].
    intros [= <- _ _].
    apply processRequests_frame in E1. destruct E1 as (Hc1 & Hl1 & Hs1 & _).
    apply processRequests_frame in E2. destruct E2 as (Hc2 & Hl2 & Hs2 & _).
    split; [congruence|]. split; lia.
Qed.

Lemma run_frame op m m' :
  run op m = Some m' ->
  match op with
  | OpRequestRead _ | OpRequestWrite _ _ => True
  | _ => config m' = config m
         /\ (length (loads_ m') <= length (loads_ m))%nat
         /\ (length (stores_ m') <= length (stores_ m))%nat
  end.
Proof.
  assert (Hsame : forall a b : t,
            config b = config a /\ loads_ b = loads_ a /\ stores_ b = stores_ a ->
            config b = config a
            /\ (length (loads_ b) <= length (loads_ a))%nat
            /\ (length (stores_ b) <= length (stores_ a))%nat).
  { intros a b (-> & -> & ->). repeat split; lia. }
  destruct op as [uop|uop data|tr target data|tr target|tr|tr va pa|n payload failed];
    simpl; try exact (fun _ => I).
  - unfold requestWriteUntimed.
    destruct (createWriteMemPackets _ _ _ _ _) as [pkts|]; [|discriminate].
    destruct (issueAll _ _ _) as [m1|] eqn:E; [|discriminate].
    intros [= <-]. apply issueAll_frame in E. apply Hsame. exact E.
  - unfold requestInstrRead. destruct (isAligned _ _) as [[|]|]; try discriminate.
    intros H. apply issueRequest_frame in H. now apply Hsame.
  - destruct (tick tr m) as [[[m1 s] l]|] eqn:E; [|discriminate].
    intros [= <-]. now apply tick_frame in E.
  - unfold supplyDelayedTranslation.
    destruct (StdMap.find _ _) as [parked|];
      [|intros [= <-]; repeat split; lia].
    destruct (reissue _ _ _ _ _) as [m1|] eqn:E; [|discriminate].
    intros [= <-]. apply reissue_frame in E. apply Hsame. exact E.
  - unfold deliver. destruct (nth_error _ _) as [p|]; [|discriminate].
    intros H. apply receive_frame in H. apply Hsame.
    destruct H as (? & ? & ? & _). auto.
Qed.

Lemma capsHold_run op m m' : run op m = Some m' -> capsHold m -> capsHold m'.
Proof.
  intros Hrun Hm. pose proof (run_frame op m m' Hrun) as Hf.
  destruct op as [uop|uop d| | | | |];
    try (destruct Hf as (Hc & Hl & Hs); now apply (capsHold_shrink m)).
  - simpl in Hrun. destruct (requestRead uop m) as [[b m1]|] eqn:E; [|discriminate].
    injection Hrun as <-. now apply (requestRead_caps _ _ _ _ E).
  - simpl in Hrun. destruct (requestWrite uop d m) as [[b m1]|] eqn:E;
      [|discriminate].
    injection Hrun as <-. now apply (requestWrite_caps _ _ _ _ _ E).
Qed.

Lemma config_run op m m' : run op m = Some m' -> config m' = config m.
Proof.
  intros Hrun. pose proof (run_frame op m m' Hrun) as Hf.
  destruct op as [uop|uop d| | | | |]; try (now destruct Hf).
  - simpl in Hrun. destruct (requestRead uop m) as [[b m1]|] eqn:E; [|discriminate].
    injection Hrun as <-. unfold requestRead in E.
    destruct (negb _); [now injection E as _ <-|].
    destruct (readTargets _ _ _ _ _) as [[? ?]|]; [|discriminate].
    now injection E as _ <-.
  - simpl in Hrun. destruct (requestWrite uop d m) as [[b m1]|] eqn:E;
      [|discriminate].
    injection Hrun as <-. unfold requestWrite in E.
    destruct (negb (admitsWrite m)); [now injection E as _ <-|].
    destruct (negb _); [discriminate|].
    destruct (writeTargets _ _ _ _ _); [|discriminate].
    now injection E as _ <-.
Qed.

Lemma capsHold_runAll ops : forall m m',
  runAll ops m = Some m' -> capsHold m -> capsHold m' /\ config m' = config m.
Proof.
  induction ops as [|op ops IH]; intros m m'; simpl.
  - intros [= <-]. auto.
  - destruct (run op m) as [m1|] eqn:E; [|discriminate].
    intros H Hm. destruct (IH _ _ H (capsHold_run _ _ _ E Hm)) as [H1 H2].
    split; [exact H1|]. rewrite H2. now apply config_run in E.
Qed.

Lemma totalSize_app (a b : list MemPacket) :
  totalSize (a ++ b) = totalSize a + totalSize b.
Proof. induction a as [|p a IH]; simpl; [reflexivity|]. rewrite IH. lia. Qed.

Lemma totalSize_nonneg (l : list MemPacket) :
  Forall (fun p => 0 <= size_ p) l -> 0 <= totalSize l.
Proof.
  induction l as [|p l IH]; simpl; intros H; [lia|].
  apply Forall_cons_iff in H as [Hp H]. specialize (IH H). lia.
Qed.

Lemma sendPackets_bandwidth translate isStoreReq limit pkts :
  forall used m remaining used' m' issued,
    sendPackets translate isStoreReq limit pkts used m
    = Some (remaining, used', m', issued) ->
    Forall (fun p => 0 <= size_ p) pkts ->
    0 <= used -> used + totalSize pkts < 2 ^ 64 ->
    used' = used + totalSize issued /\ (issued = [] \/ used' <= limit).
Proof.
  induction pkts as [|pkt rest IH]; intros used m remaining used' m' issued; simpl.
  - intros [= <- <- <- <-] _ _ _. simpl. split; [lia|now left].
  - intros H Hall Hu Hlt. apply Forall_cons_iff in Hall as [Hp Hall].
    pose proof (totalSize_nonneg _ Hall) as Hrest.
    rewrite (wrap64_small (used + size_ pkt)) in H by lia.
    destruct (Z.leb_spec (used + size_ pkt) limit) as [Hle|Hgt].
    2:{ injection H as <- <- <- <-. simpl. split; [lia|now left]. }
    destruct (if isStoreReq && _ then _ else _) as [m1|]; [|discriminate].
    destruct (issueRequest translate pkt m1) as [m2|]; [|discriminate].
    destruct (sendPackets _ _ _ rest _ m2) as [[[[rem1 u1] m3] iss1]|] eqn:E;
      [|discriminate].
    injection H as <- <- <- <-.
    destruct (IH _ _ _ _ _ _ E Hall ltac:(lia) ltac:(lia)) as [Hu1 Hor].
    simpl. split; [lia|]. right.
    destruct Hor as [->|Hor]; [simpl in Hu1; lia|exact Hor].
Qed.

Lemma sendInsns_bandwidth translate isStoreReq limit insns :
  forall used m remaining m' issued,
    sendInsns translate isStoreReq limit insns used m
    = Some (remaining, m', issued) ->
    Forall (fun p => 0 <= size_ p) (concat insns) ->
    0 <= used -> used + totalSize (concat insns) < 2 ^ 64 ->
    issued = [] \/ used + totalSize issued <= limit.
Proof.
  induction insns as [|insn others IH]; intros used m remaining m' issued; simpl.
  - intros [= <- <- <-] _ _ _. now left.
  - intros H Hall Hu Hlt. apply Forall_app in Hall as [Hall1 Hall2].
    rewrite totalSize_app in Hlt.
    pose proof (totalSize_nonneg _ Hall1) as Hn1.
    pose proof (totalSize_nonneg _ Hall2) as Hn2.
    destruct (sendPackets _ _ _ insn used m) as [[[[rem1 u1] m1] iss1]|] eqn:E1;
      [|discriminate].
    destruct (sendPackets_bandwidth _ _ _ _ _ _ _ _ _ _ E1 Hall1 Hu ltac:(lia))
      as [Hu1 Hor1].
    destruct (sendPackets_spec _ _ _ _ _ _ _ _ _ _ E1) as (Hsplit & _).
    destruct rem1 as [|r rem1].
    + rewrite app_nil_r in Hsplit. subst insn.
      destruct (sendInsns _ _ _ others u1 m1) as [[[rem2 m2] iss2]|] eqn:E2;
        [|discriminate].
      injection H as <- <- <-.
      destruct (IH _ _ _ _ _ E2 Hall2 ltac:(lia) ltac:(lia)) as [->|Hor2].
      * rewrite app_nil_r. destruct Hor1 as [->|Hor1]; [now left|right; lia].
      * right. rewrite totalSize_app. lia.
    + injection H as <- <- <-. destruct Hor1 as [->|Hor1]; [now left|right; lia].
Qed.

(** No sum of the bandwidth loop leaves 64 bits: sizes are unsigned and the
    bytes queued for each type are fewer than [2 ^ 64]. *)
Definition noOverflow (m : t) : Prop :=
  Forall (fun p => 0 <= size_ p) (concat (loads_ m))
  /\ Forall (fun p => 0 <= size_ p) (concat (stores_ m))
  /\ totalSize (concat (loads_ m)) < 2 ^ 64
  /\ totalSize (concat (stores_ m)) < 2 ^ 64.

Lemma processRequests_bandwidth translate isStoreReq m m' issued :
  processRequests translate isStoreReq m = Some (m', issued) ->
  nonNegative (config m) -> noOverflow m ->
  totalSize issued
  <= (if isStoreReq then storeBandwidth_ (config m) else loadBandwidth_ (config m)).
Proof.
  unfold processRequests. intros H (_ & _ & _ & Hlb & Hsb) (Hl & Hs & Hlt & Hst).
  destruct (sendInsns _ _ _ _ _ _) as [[[remaining m1] iss]|] eqn:E; [|discriminate].
  injection H as _ <-.
  destruct isStoreReq.
  - destruct (sendInsns_bandwidth _ _ _ _ _ _ _ _ _ E Hs ltac:(lia) ltac:(lia))
      as [->|H]; simpl; lia.
  - destruct (sendInsns_bandwidth _ _ _ _ _ _ _ _ _ E Hl ltac:(lia) ltac:(lia))
      as [->|H]; simpl; lia.
Qed.

Lemma tick_bandwidth translate m m' issuedStores issuedLoads :
  tick translate m = Some (m', issuedStores, issuedLoads) ->
  nonNegative (config m) -> noOverflow m ->
  totalSize issuedLoads <= loadBandwidth_ (config m)
  /\ totalSize issuedStores <= storeBandwidth_ (config m).
Proof.
  unfold tick. intros H Hc Hno. pose proof Hc as (_ & _ & _ & Hlb & Hsb).
  destruct (exclusiveRequests_ (config m)).
  - destruct (processRequests _ _ m) as [[m1 iss]|] eqn:E; [|discriminate].
    pose proof (processRequests_bandwidth _ _ _ _ _ E Hc Hno) as Hb.
    destruct (negb _); injection H as _ <- <-; simpl; lia.
  - destruct (processRequests _ true m) as [[m1 iss1]|] eqn:E1; [|discriminate].
    destruct (processRequests _ false m1) as [[m2 iss2]|] eqn:E2; [|discriminate].
    injection H as _ <- <-.
    pose proof (processRequests_bandwidth _ _ _ _ _ E1 Hc Hno) as Hb1.
    destruct (processRequests_frame _ _ _ _ _ E1) as (Hc1 & _ & _ & Hl1).
    simpl in Hl1.
    assert (Hno1 : noOverflow m1).
    { destruct Hno as (Hl & Hs & Hlt & Hst). unfold noOverflow. rewrite Hl1.
      unfold processRequests in E1.
      destruct (sendInsns _ _ _ _ _ _) as [[[remaining m0] iss]|] eqn:E;
        [|discriminate].
      injection E1 as <- _. simpl.
      destruct (sendInsns_frame _ _ _ _ _ _ _ _ _ E) as (Hcat & _).
      rewrite Hcat in Hs, Hst. apply Forall_app in Hs as [Hs1 Hs2].
      rewrite totalSize_app in Hst.
      pose proof (totalSize_nonneg _ Hs1). repeat split; try assumption. lia. }
    rewrite <- Hc1 in Hc.
    pose proof (processRequests_bandwidth _ _ _ _ _ E2 Hc Hno1) as Hb2.
    simpl in Hb1, Hb2. rewrite Hc1 in Hb2. lia.
Qed.

(** X29. In every state the MMU reaches from its initial state, the
    instructions held are at most [loadRequestLimit_] loads and at most
    [storeRequestLimit_] stores; when requests are not exclusive, loads and
    stores together are at most [requestLimit_]; when they are exclusive,
    loads and stores are not held together. A request that its admission
    test refuses returns false and changes nothing, and an accepted request
    passed its admission test. In one [tick], when no sum overflows, the
    load packets issued hold at most [loadBandwidth_] bytes and the store
    packets issued at most [storeBandwidth_] bytes. *)
Theorem X29_request_caps_reached (c : Config) (ops : list Op) (m : t) :
  nonNegative c ->
  runAll ops (init c) = Some m ->
  config m = c
  /\ Z.of_nat (length (loads_ m)) <= loadRequestLimit_ c
  /\ Z.of_nat (length (stores_ m)) <= storeRequestLimit_ c
  /\ (exclusiveRequests_ c = false ->
      Z.of_nat (length (loads_ m)) + Z.of_nat (length (stores_ m))
      <= requestLimit_ c)
  /\ (exclusiveRequests_ c = true -> loads_ m = [] \/ stores_ m = [])
  /\ (forall uop, admitsRead m = false -> requestRead uop m = Some (false, m))
  /\ (forall uop data, admitsWrite m = false ->
                       requestWrite uop data m = Some (false, m))
  /\ (forall uop m', requestRead uop m = Some (true, m') -> admitsRead m = true)
  /\ (forall uop data m', requestWrite uop data m = Some (true, m') ->
                          admitsWrite m = true)
  /\ (forall translate m' issuedStores issuedLoads,
        tick translate m = Some (m', issuedStores, issuedLoads) ->
        noOverflow m ->
        totalSize issuedLoads <= loadBandwidth_ c
        /\ totalSize issuedStores <= storeBandwidth_ c).
Proof.
  intros Hc Hrun.
  assert (H0 : capsHold (init c)).
  { destruct Hc as (H1 & H2 & H3 & _). unfold capsHold. simpl.
    repeat split; try lia. intros _. now left. }
  destruct (capsHold_runAll _ _ _ Hrun H0) as [(C1 & C2 & C3 & C4) Hcfg].
  simpl in Hcfg. rewrite Hcfg in C1, C2, C3, C4.
  split; [exact Hcfg|]. split; [exact C1|]. split; [exact C2|].
  split; [exact C3|]. split; [exact C4|].
  split; [intros uop Ha; unfold requestRead; now rewrite Ha|].
  split; [intros uop d Ha; unfold requestWrite; now rewrite Ha|].
  split.
  { intros uop m' H. unfold requestRead in H.
    destruct (admitsRead m); [reflexivity|discriminate]. }
  split.
  { intros uop d m' H. unfold requestWrite in H.
    destruct (admitsWrite m); [reflexivity|discriminate]. }
  intros tr m' iS iL Ht Hno. rewrite <- Hcfg.
  apply (tick_bandwidth tr m m' iS iL Ht); [rewrite Hcfg|]; assumption.
Qed.

(** Two loads of four bytes; 64-byte lines. *)
Definition loadA : Instruction := LSQ.insn 1 [mkTarget 128 4] 1 true.
Definition loadB : Instruction := LSQ.insn 2 [mkTarget 256 4] 1 true.

(** Exclusive requests, one request in all, two loads. *)
Definition config_exclusive : Config := mkConfig 64 32 32 1 2 2 true.

(** C4. The combined cap is broken under the Exclusive configuration: with
    exclusive requests, [requestLimit_ = 1] and [loadRequestLimit_ = 2], two
    calls of [requestRead] on the initial MMU are both accepted and the MMU
    holds two instructions, more than [requestLimit_]. The note in [tick]
    says that the instructions held are at most [requestLimit_] in all;
    [requestRead] and [requestWrite] test it only when requests are not
    exclusive. *)
Lemma C4_counterexample_exclusive :
  exists m1 m2,
    requestRead loadA (init config_exclusive) = Some (true, m1)
    /\ requestRead loadB m1 = Some (true, m2)
    /\ Z.of_nat (length (loads_ m2) + length (stores_ m2))
       > requestLimit_ (config m2).
Proof. eexists _, _. split; [reflexivity|]. split; [reflexivity|]. simpl. lia. Qed.

Lemma X29_request_caps_reached_witness :
  nonNegative config_exclusive
  /\ exists m,
       runAll [OpRequestRead loadA; OpRequestRead loadB; OpRequestRead loadA]
              (init config_exclusive) = Some m
       /\ Z.of_nat (length (loads_ m)) <= loadRequestLimit_ config_exclusive
       /\ (loads_ m = [] \/ stores_ m = []).
Proof.
  assert (Hc : nonNegative config_exclusive) by (unfold nonNegative; simpl; lia).
  split; [exact Hc|].
  destruct (runAll [OpRequestRead loadA; OpRequestRead loadB; OpRequestRead loadA]
                   (init config_exclusive)) as [m|] eqn:E.
  - exists m. split; [reflexivity|].
    destruct (X29_request_caps_reached config_exclusive _ m Hc E) as (_ & H1 & _ & _ & H2 & _).
    split; [exact H1|]. now apply H2.
  - vm_compute in E. discriminate E.
Defined.

(** *** Outstanding data packets *)

Local Close Scope Z_scope.

(** The data packets of a list: those that are not instruction reads. *)
Definition dataCount (l : list MemPacket) : nat :=
  length (List.filter (fun p => negb (isInstrRead p)) l).

Definition unit_ (p : MemPacket) : nat := if isInstrRead p then 0 else 1.

(** The data packets created and not answered yet: those waiting in
    [loadsStores_], those parked on a translation and those in flight. *)
Definition outstanding (m : t) : nat :=
  dataCount (concat (loads_ m)) + dataCount (concat (stores_ m))
  + dataCount (concat (StdMap.values (pendingRequests_ m)))
  + dataCount (sent m).

(** The instruction reads not answered yet. *)
Definition instrOutstanding (m : t) : nat :=
  (length (concat (StdMap.values (pendingRequests_ m)))
   - dataCount (concat (StdMap.values (pendingRequests_ m))))
  + (length (sent m) - dataCount (sent m)).

(** The counter is the number of outstanding data packets plus [k], in 64
    bits. *)
Definition balance (m : t) (k : Z) : Prop :=
  pendingDataRequests_ m = wrap64 (Z.of_nat (outstanding m) + k).

Lemma dataCount_app (a b : list MemPacket) :
  dataCount (a ++ b) = dataCount a + dataCount b.
Proof. unfold dataCount. now rewrite List.filter_app, length_app. Qed.

Lemma dataCount_cons (p : MemPacket) (l : list MemPacket) :
  dataCount (p :: l) = unit_ p + dataCount l.
Proof. unfold dataCount, unit_. simpl. now destruct (isInstrRead p). Qed.

Lemma dataCount_single (p : MemPacket) : dataCount [p] = unit_ p.
Proof. rewrite dataCount_cons. unfold dataCount. simpl. lia. Qed.

Lemma dataCount_all (l : list MemPacket) :
  Forall (fun p => isInstrRead p = false) l -> dataCount l = length l.
Proof.
  induction l as [|p l IH]; intros H; [reflexivity|].
  apply Forall_cons_iff in H as [Hp H]. rewrite dataCount_cons, IH by exact H.
  unfold unit_. now rewrite Hp.
Qed.

Lemma values_insert_sorted (k : Z) (v : list MemPacket) (m : StdMap.t (list MemPacket)) :
  dataCount (concat (StdMap.values (StdMap.insert_sorted k v m)))
  = dataCount v + dataCount (concat (StdMap.values m)).
Proof.
  induction m as [|[k' v'] m IH]; simpl.
  - now rewrite dataCount_app.
  - destruct (k <? k')%Z; simpl.
    + now rewrite !dataCount_app.
    + fold (StdMap.values (StdMap.insert_sorted k v m)). fold (StdMap.values m).
      rewrite !dataCount_app, IH. lia.
Qed.

Lemma values_replace (k : Z) (p : MemPacket) (m : StdMap.t (list MemPacket)) v :
  StdMap.find k m = Some v ->
  dataCount (concat (StdMap.values (StdMap.replace k (fun l => l ++ [p]) m)))
  = dataCount (concat (StdMap.values m)) + unit_ p.
Proof.
  induction m as [|[k' v'] m IH]; simpl; [discriminate|].
  destruct (k' =? k)%Z; simpl.
  - intros _. rewrite !dataCount_app, dataCount_single. lia.
  - intros H. fold (StdMap.values (StdMap.replace k (fun l => l ++ [p]) m)).
    fold (StdMap.values m). rewrite !dataCount_app, IH by exact H. lia.
Qed.

Lemma values_park (k : Z) (p : MemPacket) (m : StdMap.t (list MemPacket)) :
  dataCount (concat (StdMap.values (StdMap.update k [] (fun l => l ++ [p]) m)))
  = dataCount (concat (StdMap.values m)) + unit_ p.
Proof.
  unfold StdMap.update. destruct (StdMap.find k m) as [v|] eqn:E.
  - now apply (values_replace k p m v).
  - rewrite values_insert_sorted. simpl. rewrite dataCount_single. lia.
Qed.

Lemma values_erase (k : Z) (m : StdMap.t (list MemPacket)) v :
  StdMap.find k m = Some v ->
  dataCount (concat (StdMap.values (StdMap.erase k m))) + dataCount v
  = dataCount (concat (StdMap.values m)).
Proof.
  induction m as [|[k' v'] m IH]; simpl; [discriminate|].
  destruct (k' =? k)%Z; simpl.
  - intros [= ->]. fold (StdMap.values m). rewrite dataCount_app. lia.
  - intros H. fold (StdMap.values (StdMap.erase k m)). fold (StdMap.values m).
    rewrite !dataCount_app. specialize (IH H). lia.
Qed.

(** The three ways [issueRequest] ends: the request is answered at once
    (data abort), parked, or sent. *)
Lemma issueRequest_effect translate (p : MemPacket) (m m' : t) :
  issueRequest translate p m = Some m' ->
  loads_ m' = loads_ m /\ stores_ m' = stores_ m /\ config m' = config m
  /\ ((sent m' = sent m /\ pendingRequests_ m' = pendingRequests_ m
       /\ pendingDataRequests_ m'
          = if isInstrRead p then pendingDataRequests_ m
            else wrap64 (pendingDataRequests_ m - 1))
      \/ (sent m' = sent m
          /\ pendingRequests_ m'
             = StdMap.update (vaddr_ p) [] (fun l => l ++ [p]) (pendingRequests_ m)
          /\ pendingDataRequests_ m' = pendingDataRequests_ m)
      \/ (exists p', isInstrRead p' = isInstrRead p /\ sent m' = sent m ++ [p']
                     /\ pendingRequests_ m' = pendingRequests_ m
                     /\ pendingDataRequests_ m' = pendingDataRequests_ m)).
Proof.
  intros H. pose proof (issueRequest_frame _ _ _ _ H) as (Hc & Hl & Hs).
  split; [exact Hl|]. split; [exact Hs|]. split; [exact Hc|].
  unfold issueRequest in H. destruct (translate (vaddr_ p)).
  - left. apply receive_frame in H. simpl in H. tauto.
  - right; left. injection H as <-. repeat split.
  - right; right. injection H as <-. exists (markAsIgnored p).
    unfold send, countRequest.
    destruct (isInstrRead _); [|destruct (isRead _)]; repeat split.
  - right; right. injection H as <-. exists (set_paddr paddr p).
    unfold send, countRequest.
    destruct (isInstrRead _); [|destruct (isRead _)]; repeat split.
Qed.

Lemma wrap64_pred (x : Z) : wrap64 (wrap64 x - 1) = wrap64 (x - 1).
Proof. unfold wrap64. apply Zminus_mod_idemp_l. Qed.

Lemma wrap64_add_l (x y : Z) : wrap64 (wrap64 x + y) = wrap64 (x + y).
Proof. unfold wrap64. apply Zplus_mod_idemp_l. Qed.

Lemma issueRequest_balance translate (p : MemPacket) (m m' : t) (k : Z) :
  issueRequest translate p m = Some m' -> balance m k ->
  balance m' (k - Z.of_nat (unit_ p)).
Proof.
  intros H Hb. unfold balance in *.
  destruct (issueRequest_effect _ _ _ _ H)
    as (Hl & Hs & _ & [(Hse & Hp & Hc)|[(Hse & Hp & Hc)|(p' & Hi & Hse & Hp & Hc)]]);
    unfold outstanding; rewrite Hl, Hs, Hse, Hp, Hc.
  - unfold unit_. destruct (isInstrRead p).
    + rewrite Hb. unfold outstanding. f_equal. lia.
    + rewrite Hb, wrap64_pred. unfold outstanding. f_equal. lia.
  - rewrite values_park, Hb. unfold outstanding. f_equal. lia.
  - rewrite dataCount_app, dataCount_single, Hb.
    replace (unit_ p') with (unit_ p) by (unfold unit_; now rewrite Hi).
    unfold outstanding. f_equal. lia.
Qed.

Lemma issueAll_balance translate pkts : forall m m' k,
  issueAll translate pkts m = Some m' -> balance m k ->
  balance m' (k - Z.of_nat (dataCount pkts)).
Proof.
  induction pkts as [|p pkts IH]; intros m m' k; simpl.
  - intros [= <-] Hb. unfold dataCount. simpl. now rewrite Z.sub_0_r.
  - destruct (issueRequest translate p m) as [m1|] eqn:E; [|discriminate].
    intros H Hb. pose proof (issueRequest_balance _ _ _ _ _ E Hb) as Hb1.
    pose proof (IH _ _ _ H Hb1) as Hb2. rewrite dataCount_cons.
    replace (k - Z.of_nat (unit_ p + dataCount pkts))%Z
      with (k - Z.of_nat (unit_ p) - Z.of_nat (dataCount pkts))%Z by lia.
    exact Hb2.
Qed.

Lemma lastStorePacket_balance pkt m m' k :
  lastStorePacket pkt m = Some m' -> balance m k -> balance m' k.
Proof.
  intros H Hb. apply lastStorePacket_frame in H.
  destruct H as (_ & Hl & Hs & Hse & Hp & Hc).
  unfold balance, outstanding in *. now rewrite Hl, Hs, Hse, Hp, Hc.
Qed.

Lemma sendPackets_balance translate isStoreReq limit pkts :
  forall used m remaining used' m' issued k,
    sendPackets translate isStoreReq limit pkts used m
    = Some (remaining, used', m', issued) ->
    balance m k -> balance m' (k - Z.of_nat (dataCount issued)).
Proof.
  induction pkts as [|pkt rest IH]; intros used m remaining used' m' issued k; simpl.
  - intros [= <- <- <- <-] Hb. unfold dataCount. simpl. now rewrite Z.sub_0_r.
  - destruct (_ <=? limit)%Z.
    2:{ intros [= <- <- <- <-] Hb. unfold dataCount. simpl. now rewrite Z.sub_0_r. }
    destruct (if isStoreReq && _ then _ else _) as [m1|] eqn:E1; [|discriminate].
    destruct (issueRequest translate pkt m1) as [m2|] eqn:E2; [|discriminate].
    destruct (sendPackets _ _ _ rest _ m2) as [[[[rem1 u1] m3] iss1]|] eqn:E3;
      [|discriminate].
    intros [= <- <- <- <-] Hb.
    assert (Hb1 : balance m1 k).
    { destruct (isStoreReq && _).
      - eapply lastStorePacket_balance; eauto.
      - now injection E1 as <-. }
    pose proof (issueRequest_balance _ _ _ _ _ E2 Hb1) as Hb2.
    pose proof (IH _ _ _ _ _ _ _ E3 Hb2) as Hb3. rewrite dataCount_cons.
    replace (k - Z.of_nat (unit_ pkt + dataCount iss1))%Z
      with (k - Z.of_nat (unit_ pkt) - Z.of_nat (dataCount iss1))%Z by lia.
    exact Hb3.
Qed.

Lemma sendInsns_balance translate isStoreReq limit insns :
  forall used m remaining m' issued k,
    sendInsns translate isStoreReq limit insns used m
    = Some (remaining, m', issued) ->
    balance m k -> balance m' (k - Z.of_nat (dataCount issued)).
Proof.
  induction insns as [|insn others IH]; intros used m remaining m' issued k; simpl.
  - intros [= <- <- <-] Hb. unfold dataCount. simpl. now rewrite Z.sub_0_r.
  - destruct (sendPackets _ _ _ insn used m) as [[[[rem1 u1] m1] iss1]|] eqn:E1;
      [|discriminate].
    intros H Hb. pose proof (sendPackets_balance _ _ _ _ _ _ _ _ _ _ _ E1 Hb) as Hb1.
    destruct rem1 as [|r rem1].
    + destruct (sendInsns _ _ _ others u1 m1) as [[[rem2 m2] iss2]|] eqn:E2;
        [|discriminate].
      injection H as <- <- <-. pose proof (IH _ _ _ _ _ _ E2 Hb1) as Hb2.
      rewrite dataCount_app.
      replace (k - Z.of_nat (dataCount iss1 + dataCount iss2))%Z
        with (k - Z.of_nat (dataCount iss1) - Z.of_nat (dataCount iss2))%Z by lia.
      exact Hb2.
    + injection H as <- <- <-. exact Hb1.
Qed.

Lemma processRequests_balance translate isStoreReq m m' issued :
  processRequests translate isStoreReq m = Some (m', issued) ->
  balance m 0 -> balance m' 0.
Proof.
  unfold processRequests.
  destruct (sendInsns _ _ _ _ _ _) as [[[remaining m1] iss]|] eqn:E; [|discriminate].
  intros [= <- <-] Hb.
  pose proof (sendInsns_balance _ _ _ _ _ _ _ _ _ _ E Hb) as Hb1.
  destruct (sendInsns_frame _ _ _ _ _ _ _ _ _ E) as (Hcat & _ & _ & Hl & Hs).
  unfold balance, outstanding in *.
  destruct isStoreReq; simpl; rewrite Hb1; f_equal.
  - rewrite Hs, Hcat, dataCount_app. lia.
  - rewrite Hl, Hcat, dataCount_app. lia.
Qed.

Lemma splitRead_data w seqId ordId fuel : forall a r k pkts,
  splitRead fuel w a r k seqId ordId = Some pkts ->
  Forall (fun p => isInstrRead p = false) pkts.
Proof.
  induction fuel as [|fuel IH]; intros a r k pkts; simpl.
  - destruct (r =? 0)%Z; [|discriminate]. intros [= <-]. constructor.
  - destruct (r =? 0)%Z; [intros [= <-]; constructor|].
    destruct (splitRead fuel _ _ _ _ _ _) as [rest|] eqn:E; [|discriminate].
    intros [= <-]. constructor; [reflexivity|]. eapply IH; eauto.
Qed.

Lemma splitWrite_data w seqId ordId fuel : forall a r k d pkts,
  splitWrite fuel w a r k d seqId ordId = Some pkts ->
  Forall (fun p => isInstrRead p = false) pkts.
Proof.
  induction fuel as [|fuel IH]; intros a r k d pkts; simpl.
  - destruct (r =? 0)%Z; [|discriminate]. intros [= <-]. constructor.
  - destruct (r =? 0)%Z; [intros [= <-]; constructor|].
    destruct (splitWrite fuel _ _ _ _ _ _ _) as [rest|] eqn:E; [|discriminate].
    intros [= <-]. constructor; [reflexivity|]. eapply IH; eauto.
Qed.

Lemma createReadMemPackets_data w target seqId ordId pkts :
  createReadMemPackets w target seqId ordId = Some pkts ->
  Forall (fun p => isInstrRead p = false) pkts.
Proof.
  unfold createReadMemPackets. destruct (isAligned w target) as [[|]|];
    [|apply splitRead_data|discriminate].
  intros [= <-]. constructor; [reflexivity|constructor].
Qed.

Lemma createWriteMemPackets_data w target d seqId ordId pkts :
  createWriteMemPackets w target d seqId ordId = Some pkts ->
  Forall (fun p => isInstrRead p = false) pkts.
Proof.
  unfold createWriteMemPackets. destruct (isAligned w target) as [[|]|];
    [|apply splitWrite_data|discriminate].
  intros [= <-]. constructor; [reflexivity|constructor].
Qed.

Lemma readTargets_data w seqId targets : forall i responses pkts responses',
  readTargets w seqId targets i responses = Some (pkts, responses') ->
  Forall (fun p => isInstrRead p = false) pkts.
Proof.
  induction targets as [|target targets IH]; intros i responses pkts responses'; simpl.
  - intros [= <- _]. constructor.
  - destruct (createReadMemPackets _ _ _ _) as [p1|] eqn:E1; [|discriminate].
    destruct (readTargets _ _ _ _ _) as [[rest r']|] eqn:E2; [|discriminate].
    intros [= <- _]. apply Forall_app. split.
    + eapply createReadMemPackets_data; eauto.
    + eapply IH; eauto.
Qed.

Lemma writeTargets_data w seqId targets : forall d i pkts,
  writeTargets w seqId targets d i = Some pkts ->
  Forall (fun p => isInstrRead p = false) pkts.
Proof.
  induction targets as [|target targets IH]; intros d i pkts; simpl.
  - intros [= <-]. constructor.
  - destruct d as [|value d]; [discriminate|].
    destruct (createWriteMemPackets _ _ _ _ _) as [p1|] eqn:E1; [|discriminate].
    destruct (writeTargets _ _ _ _ _) as [rest|] eqn:E2; [|discriminate].
    intros [= <-]. apply Forall_app. split.
    + eapply createWriteMemPackets_data; eauto.
    + eapply IH; eauto.
Qed.

Lemma atomic_data (atomic : bool) (pkts : list MemPacket) :
  Forall (fun p => isInstrRead p = false) pkts ->
  Forall (fun p => isInstrRead p = false)
         (if atomic then map markAsAtomic pkts else pkts)
  /\ length (if atomic then map markAsAtomic pkts else pkts) = length pkts.
Proof.
  intros H. destruct atomic; [|auto]. split; [|apply length_map].
  induction pkts as [|p pkts IH]; [constructor|].
  apply Forall_cons_iff in H as [Hp H]. constructor; [exact Hp|auto].
Qed.

(** The packets an operation creates. *)
Definition created (op : Op) (m : t) : nat :=
  match op with
  | OpRequestRead uop =>
      match readTargets (cacheLineWidth_ (config m)) (sequenceId uop)
                        (generatedAddresses uop) 0 (readResponses_ m) with
      | Some (pkts, _) => length pkts
      | None => 0
      end
  | OpRequestWrite uop data =>
      match writeTargets (cacheLineWidth_ (config m)) (sequenceId uop)
                         (generatedAddresses uop) data 0 with
      | Some pkts => length pkts
      | None => 0
      end
  | OpRequestWriteUntimed _ target data =>
      match createWriteMemPackets (cacheLineWidth_ (config m)) target
                                  (formatData data (size target)) 0 0 with
      | Some pkts => length pkts
      | None => 0
      end
  | _ => 0
  end.

(** Every request of the run creates fewer than [2 ^ 16] packets, so that the
    16-bit packet count of the request is the number of its packets. *)
Fixpoint within16 (ops : list Op) (m : t) : Prop :=
  match ops with
  | [] => True
  | op :: ops' =>
      (Z.of_nat (created op m) < 2 ^ 16)%Z
      /\ match run op m with
         | Some m' => within16 ops' m'
         | None => True
         end
  end.

Lemma reissue_short translate vaddr fuel : forall i m parked,
  StdMap.find vaddr (pendingRequests_ m) = Some parked ->
  i + fuel <= length parked ->
  reissue fuel translate vaddr i m = None.
Proof.
  induction fuel as [|fuel IH]; intros i m parked Hf Hlen; simpl; [reflexivity|].
  rewrite Hf. destruct (nth_error parked i) as [p|] eqn:En.
  2:{ apply nth_error_None in En. lia. }
  destruct (issueRequest translate p m) as [m1|] eqn:E; [|reflexivity].
  destruct (issueRequest_effect _ _ _ _ E)
    as (_ & _ & _ & [(_ & Hp & _)|[(_ & Hp & _)|(p' & _ & _ & Hp & _)]]).
  - apply (IH (S i) m1 parked); [now rewrite Hp|lia].
  - destruct (Z.eq_dec (vaddr_ p) vaddr) as [Ev|Ev].
    + apply (IH (S i) m1 (parked ++ [p])).
      * rewrite Hp, Ev.
        rewrite (StdMap.find_update_eq vaddr [] (fun l => l ++ [p])), Hf.
        reflexivity.
      * rewrite length_app. simpl. lia.
    + apply (IH (S i) m1 parked); [|lia].
      rewrite Hp, StdMap.find_update_ne by congruence. exact Hf.
  - apply (IH (S i) m1 parked); [now rewrite Hp|lia].
Qed.

Lemma reissue_balance translate vaddr fuel : forall i m m' parked k,
  reissue fuel translate vaddr i m = Some m' ->
  StdMap.find vaddr (pendingRequests_ m) = Some parked ->
  fuel + i <= S (length parked) ->
  balance m k ->
  StdMap.find vaddr (pendingRequests_ m') = Some parked
  /\ balance m' (k - Z.of_nat (dataCount (skipn i parked))).
Proof.
  induction fuel as [|fuel IH]; intros i m m' parked k; simpl; [discriminate|].
  intros H Hf Hlen Hb. rewrite Hf in H.
  destruct (nth_error parked i) as [p|] eqn:En.
  2:{ injection H as <-. apply nth_error_None in En.
      rewrite skipn_all2 by exact En. unfold dataCount. simpl.
      rewrite Z.sub_0_r. auto. }
  assert (Hi : i < length parked) by (apply nth_error_Some; congruence).
  assert (Hskip : skipn i parked = p :: skipn (S i) parked).
  { clear -En. revert i En. induction parked as [|x parked IHp]; intros [|i] En;
      simpl in *; try discriminate.
    - now injection En as ->.
    - now apply IHp. }
  destruct (issueRequest translate p m) as [m1|] eqn:E; [|discriminate].
  pose proof (issueRequest_balance _ _ _ _ _ E Hb) as Hb1.
  assert (Hf1 : StdMap.find vaddr (pendingRequests_ m1) = Some parked
                \/ StdMap.find vaddr (pendingRequests_ m1) = Some (parked ++ [p])).
  { destruct (issueRequest_effect _ _ _ _ E)
      as (_ & _ & _ & [(_ & Hp & _)|[(_ & Hp & _)|(p' & _ & _ & Hp & _)]]);
      rewrite Hp; [now left| |now left].
    destruct (Z.eq_dec (vaddr_ p) vaddr) as [Ev|Ev].
    - right. rewrite Ev.
      rewrite (StdMap.find_update_eq vaddr [] (fun l => l ++ [p])), Hf. reflexivity.
    - left. rewrite StdMap.find_update_ne by congruence. exact Hf. }
  destruct Hf1 as [Hf1|Hf1].
  - destruct (IH _ _ _ _ _ H Hf1 ltac:(lia) Hb1) as [Hfin Hbal].
    split; [exact Hfin|]. rewrite Hskip, dataCount_cons.
    replace (k - Z.of_nat (unit_ p + dataCount (skipn (S i) parked)))%Z
      with (k - Z.of_nat (unit_ p) - Z.of_nat (dataCount (skipn (S i) parked)))%Z
      by lia.
    exact Hbal.
  - rewrite (reissue_short translate vaddr fuel (S i) m1 (parked ++ [p]) Hf1) in H;
      [discriminate|]. rewrite length_app. simpl. lia.
Qed.

Lemma dataCount_remove (n : nat) (l : list MemPacket) (p : MemPacket) :
  nth_error l n = Some p ->
  dataCount l = dataCount (firstn n l ++ skipn (S n) l) + unit_ p.
Proof.
  revert n. induction l as [|x l IH]; intros [|n]; simpl; try discriminate.
  - intros [= ->]. rewrite dataCount_cons, skipn_O. lia.
  - intros H. rewrite !dataCount_cons, (IH n H). lia.
Qed.

(** Every operation keeps the counter equal to the number of outstanding
    data packets. *)
Lemma balance_run op m m' :
  run op m = Some m' -> (Z.of_nat (created op m) < 2 ^ 16)%Z ->
  balance m 0 -> balance m' 0.
Proof.
  destruct op as [uop|uop d|tr target d|tr target|tr|tr va pa|n payload failed];
    simpl; intros Hrun Hsmall Hb.
  - unfold requestRead in Hrun. destruct (negb (admitsRead m)).
    { now injection Hrun as <-. }
    destruct (readTargets _ _ _ _ _) as [[pkts responses]|] eqn:E; [|discriminate].
    injection Hrun as <-. try rewrite E in Hsmall.
    destruct (atomic_data (isLoadReserved uop) pkts (readTargets_data _ _ _ _ _ _ _ E))
      as [Hdata Hlen].
    unfold balance, outstanding in *. simpl.
    rewrite concat_app, dataCount_app. simpl. rewrite app_nil_r.
    rewrite (dataCount_all _ Hdata), Hlen, Hb, wrap64_add_l.
    rewrite wrap16_small by lia. f_equal. lia.
  - unfold requestWrite in Hrun. destruct (negb (admitsWrite m)).
    { now injection Hrun as <-. }
    destruct (negb _); [discriminate|].
    destruct (writeTargets _ _ _ _ _) as [pkts|] eqn:E; [|discriminate].
    injection Hrun as <-. try rewrite E in Hsmall.
    destruct (atomic_data (isStoreCond uop) pkts (writeTargets_data _ _ _ _ _ _ E))
      as [Hdata Hlen].
    unfold balance, outstanding in *. simpl.
    rewrite concat_app, dataCount_app. simpl. rewrite app_nil_r.
    rewrite (dataCount_all _ Hdata), Hlen, Hb, wrap64_add_l.
    rewrite wrap16_small by lia. f_equal. lia.
  - unfold requestWriteUntimed in Hrun.
    destruct (createWriteMemPackets _ _ _ _ _) as [pkts|] eqn:E; [|discriminate].
    try rewrite E in Hsmall. rewrite wrap16_small in Hrun by lia.
    rewrite Nat2Z.id, firstn_all in Hrun.
    destruct (issueAll tr pkts m) as [m1|] eqn:E1; [|discriminate].
    injection Hrun as <-.
    pose proof (issueAll_balance _ _ _ _ _ E1 Hb) as Hb1.
    rewrite (dataCount_all _ (createWriteMemPackets_data _ _ _ _ _ _ E)) in Hb1.
    unfold balance, outstanding in *. simpl. rewrite Hb1, wrap64_add_l.
    f_equal. lia.
  - unfold requestInstrRead in Hrun.
    destruct (isAligned _ _) as [[|]|]; try discriminate.
    apply (issueRequest_balance _ _ _ _ _ Hrun) in Hb. exact Hb.
  - destruct (tick tr m) as [[[m1 s] l]|] eqn:E; [|discriminate].
    injection Hrun as <-. unfold tick in E.
    destruct (exclusiveRequests_ (config m)).
    + destruct (processRequests _ _ m) as [[m2 iss]|] eqn:E1; [|discriminate].
      apply processRequests_balance in E1; [|exact Hb].
      destruct (negb _); now injection E as <- _ _.
    + destruct (processRequests _ true m) as [[m2 iss1]|] eqn:E1; [|discriminate].
      destruct (processRequests _ false m2) as [[m3 iss2]|] eqn:E2; [|discriminate].
      injection E as <- _ _.
      apply processRequests_balance in E1; [|exact Hb].
      now apply processRequests_balance in E2.
  - unfold supplyDelayedTranslation in Hrun.
    destruct (StdMap.find va (pendingRequests_ m)) as [parked|] eqn:Ef;
      [|now injection Hrun as <-].
    destruct (reissue _ _ _ _ _) as [m1|] eqn:E; [|discriminate].
    injection Hrun as <-.
    destruct (reissue_balance _ _ _ _ _ _ _ _ E Ef ltac:(lia) Hb) as [Hfin Hbal].
    rewrite skipn_O in Hbal. unfold balance, outstanding in *. simpl.
    rewrite Hbal. f_equal. pose proof (values_erase _ _ _ Hfin). lia.
  - unfold deliver in Hrun. destruct (nth_error (sent m) n) as [p|] eqn:En;
      [|discriminate].
    pose proof (dataCount_remove _ _ _ En) as Hrem.
    apply receive_frame in Hrun. destruct Hrun as (_ & Hl & Hs & Hse & Hp & Hc).
    unfold balance, outstanding in *. rewrite Hl, Hs, Hse, Hp, Hc. simpl.
    unfold unit_ in Hrem. destruct (isInstrRead p).
    + rewrite Hb. f_equal. lia.
    + rewrite Hb, wrap64_pred. f_equal. lia.
Qed.

Lemma balance_runAll ops : forall m m',
  runAll ops m = Some m' -> within16 ops m -> balance m 0 -> balance m' 0.
Proof.
  induction ops as [|op ops IH]; intros m m'; simpl.
  - now intros [= <-].
  - destruct (run op m) as [m1|] eqn:E; [|discriminate].
    intros H [Hsmall Hw] Hb. eapply IH; eauto. eapply balance_run; eauto.
Qed.

Lemma config_runAll ops : forall m m',
  runAll ops m = Some m' -> config m' = config m.
Proof.
  induction ops as [|op ops IH]; intros m m'; simpl.
  - now intros [= <-].
  - destruct (run op m) as [m1|] eqn:E; [|discriminate].
    intros H. rewrite (IH _ _ H). now apply config_run in E.
Qed.

Lemma dataCount_le (l : list MemPacket) : dataCount l <= length l.
Proof.
  induction l as [|p l IH]; [unfold dataCount; simpl; lia|].
  rewrite dataCount_cons. unfold unit_. simpl. destruct (isInstrRead p); lia.
Qed.

(** An instruction read changes neither the counter nor the outstanding
    data packets. *)
Lemma issue_instrRead translate (p : MemPacket) (m m' : t) :
  isInstrRead p = true -> issueRequest translate p m = Some m' ->
  outstanding m' = outstanding m
  /\ pendingDataRequests_ m' = pendingDataRequests_ m.
Proof.
  intros Hi H.
  assert (Hu : unit_ p = 0) by (unfold unit_; now rewrite Hi).
  destruct (issueRequest_effect _ _ _ _ H)
    as (Hl & Hs & _ & [(Hse & Hp & Hc)|[(Hse & Hp & Hc)|(p' & Hi' & Hse & Hp & Hc)]]);
    unfold outstanding; rewrite Hl, Hs, Hse, Hp, Hc.
  - rewrite Hi. auto.
  - rewrite values_park, Hu. split; [lia|reflexivity].
  - rewrite dataCount_app, dataCount_single. unfold unit_. rewrite Hi', Hi.
    split; [lia|reflexivity].
Qed.

(** C10. In a state the MMU reaches from its initial state, with requests
    of fewer than [2 ^ 16] packets each and fewer than [2 ^ 64] outstanding
    data packets, [pendingDataRequests_] is the number of data packets
    created by [requestRead] and the two [requestWrite] and not answered
    through the port yet, so [hasPendingRequests()] is true exactly when that
    number is not zero. [requestInstrRead] changes neither the number nor the
    counter: after an instruction read is sent, [hasPendingRequests()] is what
    it was, false included, with one more instruction read outstanding. *)
Theorem C10_pending_requests (c : Config) (ops : list Op) (m : t) :
  runAll ops (init c) = Some m ->
  within16 ops (init c) ->
  (Z.of_nat (outstanding m) < 2 ^ 64)%Z ->
  pendingDataRequests_ m = Z.of_nat (outstanding m)
  /\ (hasPendingRequests m = true <-> outstanding m <> 0)
  /\ (forall translate target m',
        requestInstrRead translate target m = Some m' ->
        outstanding m' = outstanding m
        /\ pendingDataRequests_ m' = pendingDataRequests_ m
        /\ hasPendingRequests m' = hasPendingRequests m)
  /\ (forall translate target paddr,
        isAligned (cacheLineWidth_ c) target = Some true ->
        translate (vaddr target) = Mapped paddr ->
        exists m',
          requestInstrRead translate target m = Some m'
          /\ hasPendingRequests m' = hasPendingRequests m
          /\ instrOutstanding m' = S (instrOutstanding m)).
Proof.
  intros Hrun Hw Hlt.
  assert (Hb0 : balance (init c) 0) by reflexivity.
  pose proof (balance_runAll _ _ _ Hrun Hw Hb0) as Hb. unfold balance in Hb.
  rewrite Z.add_0_r, wrap64_small in Hb by lia.
  pose proof (config_runAll _ _ _ Hrun) as Hcfg. simpl in Hcfg.
  split; [exact Hb|]. split.
  { unfold hasPendingRequests. rewrite Hb, negb_true_iff, Z.eqb_neq. lia. }
  assert (Hinstr : forall translate target m',
            requestInstrRead translate target m = Some m' ->
            outstanding m' = outstanding m
            /\ pendingDataRequests_ m' = pendingDataRequests_ m
            /\ hasPendingRequests m' = hasPendingRequests m).
  { intros tr target m' H. unfold requestInstrRead in H.
    destruct (isAligned _ _) as [[|]|]; try discriminate.
    apply issue_instrRead in H; [|reflexivity]. destruct H as [Ho Hc].
    split; [exact Ho|]. split; [exact Hc|].
    unfold hasPendingRequests. now rewrite Hc. }
  split; [exact Hinstr|].
  intros tr target paddr Hal Htr.
  assert (Hex : exists m', requestInstrRead tr target m = Some m'
                  /\ pendingRequests_ m' = pendingRequests_ m
                  /\ exists p', isInstrRead p' = true /\ sent m' = sent m ++ [p']).
  { unfold requestInstrRead. rewrite Hcfg, Hal. unfold issueRequest.
    cbn [vaddr_ markAsInstrRead markAsUntimed createReadRequest]. rewrite Htr.
    eexists. split; [reflexivity|]. split; [reflexivity|].
    eexists. split; [|reflexivity]. reflexivity. }
  destruct Hex as (m' & Hm' & Hp & p' & Hi & Hs).
  exists m'. split; [exact Hm'|]. split; [now apply (Hinstr tr target m')|].
  unfold instrOutstanding. rewrite Hp, Hs, length_app, dataCount_app, dataCount_single.
  unfold unit_. rewrite Hi. simpl.
  pose proof (dataCount_le (sent m)).
  pose proof (dataCount_le (concat (StdMap.values (pendingRequests_ m)))). lia.
Qed.

(** A store of 8 bytes across two lines, then a tick that sends its two
    packets, then the answers to both. *)
Definition storeC : Instruction :=
  mkInstruction 3 3 0 4108 [mkTarget 60 8] 1 [bytes8] [] false true false false
                false false true false.

Definition config_plain : Config := mkConfig 64 32 32 4 2 2 false.
Definition identity_map (vaddr : Z) : Translation := Mapped vaddr.

Definition ops_store : list Op :=
  [OpRequestWrite storeC [bytes8]; OpTick identity_map].

Example pending_after_store :
  option_map (fun m => (pendingDataRequests_ m, outstanding m, length (sent m)))
    (runAll ops_store (init config_plain)) = Some (2%Z, 2, 2)
  /\ option_map (fun m => (pendingDataRequests_ m, outstanding m))
       (runAll (ops_store ++ [OpDeliver 0 [] false; OpDeliver 0 [] false])
               (init config_plain)) = Some (0%Z, 0).
Proof. split; vm_compute; reflexivity. Qed.

(** An instruction read in flight and no data packet pending. *)
Example instr_read_not_pending :
  option_map (fun m => (hasPendingRequests m, instrOutstanding m))
    (requestInstrRead identity_map (mkTarget 4096 4) (init config_plain))
  = Some (false, 1).
Proof. vm_compute. reflexivity. Qed.

Lemma within16_ops_store : within16 ops_store (init config_plain).
Proof.
  unfold ops_store. cbn [within16]. split; [vm_compute; reflexivity|].
  destruct (run (OpRequestWrite storeC [bytes8]) (init config_plain)) as [m1|];
    [|exact I].
  split; [simpl; lia|]. now destruct (run (OpTick identity_map) m1).
Qed.

Lemma C10_pending_requests_witness :
  exists m,
    runAll ops_store (init config_plain) = Some m
    /\ pendingDataRequests_ m = Z.of_nat (outstanding m)
    /\ (hasPendingRequests m = true <-> outstanding m <> 0).
Proof.
  destruct (runAll ops_store (init config_plain)) as [m|] eqn:E.
  - exists m. split; [reflexivity|].
    assert (Hlt : (Z.of_nat (outstanding m) < 2 ^ 64)%Z).
    { assert (Ho : option_map outstanding (runAll ops_store (init config_plain))
                   = Some 2) by (vm_compute; reflexivity).
      rewrite E in Ho. injection Ho as ->. lia. }
    destruct (C10_pending_requests config_plain ops_store m E within16_ops_store Hlt)
      as (H1 & H2 & _).
    split; assumption.
  - vm_compute in E. discriminate E.
Defined.

(** *** Further properties of the requests *)

Local Open Scope Z_scope.

Lemma downAlign_div (a w : Z) : 0 < w -> downAlign a w = w * (a / w).
Proof.
  intros Hw. unfold downAlign. pose proof (Z.div_mod a w ltac:(lia)). lia.
Qed.

Lemma div_same_line (a k w : Z) :
  0 < w -> 0 <= k -> ((a + k) / w = a / w <-> a mod w + k < w).
Proof.
  intros Hw Hk. split.
  - intros E. pose proof (Z.div_mod (a + k) w ltac:(lia)) as H1.
    pose proof (Z.div_mod a w ltac:(lia)) as H2.
    pose proof (Z.mod_pos_bound (a + k) w Hw). rewrite E in H1. lia.
  - intros Hlt. symmetry. apply (Z.div_unique (a + k) w (a / w) (a mod w + k)).
    + left. pose proof (Z.mod_pos_bound a w Hw). lia.
    + pose proof (Z.div_mod a w ltac:(lia)). lia.
Qed.

Lemma isAligned_div (w : Z) (target : MemoryAccessTarget) :
  0 < w -> 0 <= vaddr target -> 0 < size target ->
  vaddr target + size target <= 2 ^ 64 ->
  isAligned w target
  = Some (vaddr target / w =? (vaddr target + size target - 1) / w).
Proof.
  intros Hw Hv Hs Hend. unfold isAligned.
  destruct (Z.eqb_spec (size target) 0) as [E|_]; [lia|].
  rewrite (wrap64_small (vaddr target + size target - 1)) by lia.
  rewrite !downAlign_div by exact Hw. f_equal.
  destruct (Z.eqb_spec (vaddr target / w)
                       ((vaddr target + size target - 1) / w)) as [->|Hne].
  - apply Z.eqb_refl.
  - apply Z.eqb_neq. nia.
Qed.

(** X16. For a target of positive size inside the 64-bit address space,
    [isAligned] tells whether the first and the last byte lie in the same
    cache line, that is, whether the offset of the target in its line plus its
    size is within the line width; an end address on a line boundary counts
    as aligned. On a target of size 0 the assertion of [isAligned] fails. *)
Theorem X16_isAligned_same_line (w : Z) (target : MemoryAccessTarget) :
  0 < w -> 0 <= vaddr target -> 0 < size target ->
  vaddr target + size target <= 2 ^ 64 ->
  isAligned w target
  = Some (vaddr target / w =? (vaddr target + size target - 1) / w)
  /\ (isAligned w target = Some true <->
      vaddr target mod w + size target <= w)
  /\ isAligned w (mkTarget (vaddr target) 0) = None.
Proof.
  intros Hw Hv Hs Hend. rewrite isAligned_div by assumption.
  split; [reflexivity|]. split; [|reflexivity].
  replace (vaddr target + size target - 1)
    with (vaddr target + (size target - 1)) by lia.
  split.
  - intros [= E]. apply Z.eqb_eq in E. symmetry in E.
    apply div_same_line in E; lia.
  - intros Hle. f_equal. apply Z.eqb_eq. symmetry.
    apply div_same_line; lia.
Qed.

Lemma X16_isAligned_same_line_witness :
  isAligned 64 (mkTarget 60 4) = Some true
  /\ isAligned 64 (mkTarget 60 8) = Some false.
Proof.
  destruct (X16_isAligned_same_line 64 (mkTarget 60 4)) as (H1 & _);
    [lia | simpl; lia | simpl; lia | simpl; lia |].
  destruct (X16_isAligned_same_line 64 (mkTarget 60 8)) as (H2 & _);
    [lia | simpl; lia | simpl; lia | simpl; lia |].
  split; [exact H1|exact H2].
Defined.

(** The cache lines touched by the bytes [a .. a + r - 1]. *)
Definition linesTouched (w a r : Z) : Z := (a + r - 1) / w - a / w + 1.

Lemma splitWrite_lines (w seqId ordId : Z) (fuel : nat) :
  0 < w < 2 ^ 64 ->
  forall (a r k : Z) (data : list byte) (pkts : list MemPacket),
    0 <= a -> 0 < r -> a + r <= 2 ^ 64 -> 0 <= k -> k + r < 2 ^ 16 ->
    splitWrite fuel w a r k data seqId ordId = Some pkts ->
    map (fun p => vaddr_ p / w) pkts
    = map (fun j => a / w + Z.of_nat j) (seq 0 (Z.to_nat (linesTouched w a r))).
Proof.
  intros Hw. unfold linesTouched.
  induction fuel as [|fuel IH]; intros a r k data pkts Ha Hr Har Hk Hkr.
  - simpl. destruct (Z.eqb_spec r 0); [lia|discriminate].
  - cbn [splitWrite]. destruct (Z.eqb_spec r 0) as [E|_]; [lia|].
    destruct (regionSize_bounds w a r Hw ltac:(lia) ltac:(lia))
      as (Ereg & Hreg & Hregw & Hline).
    set (g := regionSize w a r) in *.
    rewrite (wrap64_small (r - g)) by lia.
    rewrite (wrap16_small (k + 1)) by lia.
    pose proof (Z.mod_pos_bound a w ltac:(lia)) as Hm.
    pose proof (Z.div_mod a w ltac:(lia)) as Hdm.
    destruct (Z.eq_dec (r - g) 0) as [E0|Hne0].
    + rewrite E0.
      assert (Hfuel : forall x d, splitWrite fuel w x 0 (k + 1) d seqId ordId
                                  = Some []) by (intros; destruct fuel; reflexivity).
      rewrite Hfuel. intros [= <-]. simpl.
      assert (El : (a + r - 1) / w = a / w).
      { replace (a + r - 1) with (a + (r - 1)) by lia.
        apply div_same_line; lia. }
      rewrite El. replace (a / w - a / w + 1) with 1 by lia. simpl.
      f_equal. lia.
    + rewrite (wrap64_small (a + g)) by lia.
      destruct (splitWrite fuel w (a + g) (r - g) (k + 1)
                  (skipn (Z.to_nat g) data) seqId ordId) as [rest|] eqn:E;
        [|discriminate].
      intros [= <-]. simpl.
      rewrite (IH (a + g) (r - g) (k + 1) _ _ ltac:(lia) ltac:(lia) ltac:(lia)
                  ltac:(lia) ltac:(lia) E).
      assert (Eg : g = w - a mod w) by lia.
      assert (Ediv : (a + g) / w = a / w + 1).
      { symmetry. apply (Z.div_unique (a + g) w (a / w + 1) 0); lia. }
      replace (a + g + (r - g) - 1) with (a + r - 1) by lia.
      rewrite Ediv.
      assert (Hge : a / w + 1 <= (a + r - 1) / w).
      { apply Z.div_le_lower_bound; lia. }
      replace (Z.to_nat ((a + r - 1) / w - a / w + 1))
        with (S (Z.to_nat ((a + r - 1) / w - (a / w + 1) + 1))) by lia.
      cbn [seq map]. f_equal; [lia|].
      rewrite <- seq_shift, map_map. apply map_ext. intros j. lia.
Qed.

(** X17. [createWriteMemPackets] and [createReadMemPackets] make exactly
    one packet for each cache line that the target touches, in ascending
    order of the lines: the number of packets is the number of lines from the
    line of the first byte to the line of the last byte, and packet [j] starts
    in line [j] of them. The read packets have the addresses and sizes of the
    write packets. *)
Theorem X17_one_packet_per_line
    (w : Z) (target : MemoryAccessTarget) (data : list byte) (seqId ordId : Z) :
  0 < w < 2 ^ 64 ->
  0 <= vaddr target -> 0 < size target < 2 ^ 16 ->
  vaddr target + size target <= 2 ^ 64 ->
  length data = Z.to_nat (size target) ->
  exists wpkts rpkts,
    createWriteMemPackets w target data seqId ordId = Some wpkts
    /\ createReadMemPackets w target seqId ordId = Some rpkts
    /\ length wpkts = Z.to_nat (linesTouched w (vaddr target) (size target))
    /\ length rpkts = length wpkts
    /\ map (fun p => vaddr_ p / w) wpkts
       = map (fun j => vaddr target / w + Z.of_nat j) (seq 0 (length wpkts))
    /\ map vaddr_ rpkts = map vaddr_ wpkts
    /\ map size_ rpkts = map size_ wpkts.
Proof.
  intros Hw Hv Hs Hend Hd.
  assert (Hex : exists wpkts rpkts,
    createWriteMemPackets w target data seqId ordId = Some wpkts
    /\ createReadMemPackets w target seqId ordId = Some rpkts
    /\ map shape rpkts = map shape wpkts
    /\ map (fun p => vaddr_ p / w) wpkts
       = map (fun j => vaddr target / w + Z.of_nat j)
             (seq 0 (Z.to_nat (linesTouched w (vaddr target) (size target))))).
  { unfold createWriteMemPackets, createReadMemPackets.
    rewrite isAligned_div by lia.
    destruct (Z.eqb_spec (vaddr target / w)
                         ((vaddr target + size target - 1) / w)) as [E|_].
    - eexists _, _. split; [reflexivity|]. split; [reflexivity|].
      split; [reflexivity|]. unfold linesTouched. rewrite <- E.
      replace (vaddr target / w - vaddr target / w + 1) with 1 by lia.
      simpl. f_equal. lia.
    - destruct (splitWrite_spec w seqId ordId (Z.to_nat (size target)) Hw
                  (vaddr target) (size target) 0 data)
        as (wpkts & Ew & _); try lia.
      destruct (splitRead_shape _ _ _ _ _ _ _ _ _ Ew) as (rpkts & Er & Hsh & _).
      exists wpkts, rpkts. split; [exact Ew|]. split; [exact Er|].
      split; [exact Hsh|].
      apply (splitWrite_lines w seqId ordId (Z.to_nat (size target)) Hw
               (vaddr target) (size target) 0 data wpkts); try lia.
      exact Ew. }
  destruct Hex as (wpkts & rpkts & Ew & Er & Hshape & Hl).
  exists wpkts, rpkts. split; [exact Ew|]. split; [exact Er|].
  assert (Hlen : length wpkts
                 = Z.to_nat (linesTouched w (vaddr target) (size target))).
  { apply (f_equal (@length _)) in Hl. now rewrite !length_map, length_seq in Hl. }
  split; [exact Hlen|].
  split; [apply (f_equal (@length _)) in Hshape; now rewrite !length_map in Hshape|].
  split; [now rewrite Hlen|].
  split.
  - apply (f_equal (map (fun s => fst (fst (fst (fst s)))))) in Hshape.
    now rewrite !map_map in Hshape.
  - apply (f_equal (map (fun s => snd (fst (fst (fst s)))))) in Hshape.
    now rewrite !map_map in Hshape.
Qed.

Lemma X17_one_packet_per_line_witness :
  exists wpkts rpkts,
    createWriteMemPackets 64 (mkTarget 60 8) bytes8 1 0 = Some wpkts
    /\ createReadMemPackets 64 (mkTarget 60 8) 1 0 = Some rpkts
    /\ length wpkts = 2%nat /\ length rpkts = 2%nat.
Proof.
  destruct (X17_one_packet_per_line 64 (mkTarget 60 8) bytes8 1 0)
    as (wpkts & rpkts & H1 & H2 & H3 & H4 & _);
    [lia | simpl; lia | simpl; lia | simpl; lia | reflexivity |].
  exists wpkts, rpkts. split; [exact H1|]. split; [exact H2|].
  split; [exact H3|]. rewrite H4. exact H3.
Defined.

Local Open Scope Z_scope.

(** *** Instruction reads *)

Lemma target_eta (target : MemoryAccessTarget) :
  mkTarget (vaddr target) (size target) = target.
Proof. now destruct target. Qed.

Lemma deliver_last (p : MemPacket) (payload : list byte) (failed : bool) (m : t) :
  deliver (length (sent m)) payload failed (set_sent (sent m ++ [p]) m)
  = receive (turnIntoResponse payload failed p) (set_sent (sent m) m).
Proof.
  unfold deliver. simpl.
  rewrite nth_error_app2, Nat.sub_diag by lia. simpl.
  rewrite firstn_app, Nat.sub_diag, firstn_all. simpl. rewrite app_nil_r.
  rewrite skipn_all2 by (rewrite length_app; simpl; lia).
  now rewrite app_nil_r.
Qed.

(** X18. [requestInstrRead] fails on a target that crosses a cache line.
    On an aligned target it issues one untimed instruction-read packet with
    sequence id 0 and leaves the count of pending data requests as it is.
    With the address mapped, the packet is sent with its physical address,
    and the response to it appends to the completed instruction reads the
    target with the first [size] bytes of the payload. With a data abort
    nothing is sent and the target is completed at once with no data; with an
    ignored address the packet is sent and its response completes the target
    with no data. *)
Theorem X18_instruction_read_round_trip
    (translate : Z -> Translation) (target : MemoryAccessTarget) (m : t) :
  let pkt := markAsInstrRead
               (markAsUntimed
                  (createReadRequest (vaddr target) (size target) 0 0)) in
  (isAligned (cacheLineWidth_ (config m)) target <> Some true ->
   requestInstrRead translate target m = None)
  /\ (isAligned (cacheLineWidth_ (config m)) target = Some true ->
      (forall paddr payload failed,
         translate (vaddr target) = Mapped paddr ->
         exists m1 m2,
           requestInstrRead translate target m = Some m1
           /\ sent m1 = sent m ++ [set_paddr paddr pkt]
           /\ completedInstrReads_ m1 = completedInstrReads_ m
           /\ pendingDataRequests_ m1 = pendingDataRequests_ m
           /\ numInsnReads_ m1 = wrap64 (numInsnReads_ m + 1)
           /\ deliver (length (sent m)) payload failed m1 = Some m2
           /\ completedInstrReads_ m2
              = completedInstrReads_ m
                ++ [(target, registerValue payload (size target), 0)]
           /\ sent m2 = sent m
           /\ pendingDataRequests_ m2 = pendingDataRequests_ m)
      /\ (translate (vaddr target) = DataAbort ->
          exists m1,
            requestInstrRead translate target m = Some m1
            /\ completedInstrReads_ m1
               = completedInstrReads_ m ++ [(target, [], 0)]
            /\ sent m1 = sent m
            /\ pendingDataRequests_ m1 = pendingDataRequests_ m)
      /\ (forall payload failed,
            translate (vaddr target) = Ignored ->
            exists m1 m2,
              requestInstrRead translate target m = Some m1
              /\ sent m1 = sent m ++ [markAsIgnored pkt]
              /\ deliver (length (sent m)) payload failed m1 = Some m2
              /\ completedInstrReads_ m2
                 = completedInstrReads_ m ++ [(target, [], 0)]
              /\ pendingDataRequests_ m2 = pendingDataRequests_ m)).
Proof.
  intros pkt. unfold requestInstrRead. split.
  - intros Hna. destruct (isAligned _ target) as [[|]|]; [congruence|reflexivity..].
  - intros ->. fold pkt. unfold issueRequest.
    change (vaddr_ pkt) with (vaddr target). split; [|split].
    + intros paddr payload failed ->.
      eexists _, _. split; [reflexivity|]. simpl.
      split; [reflexivity|]. split; [reflexivity|]. split; [reflexivity|].
      split; [reflexivity|].
      match goal with |- deliver _ _ _ ?m1 = _ /\ _ =>
        change m1 with (set_sent (sent (countRequest (set_paddr paddr pkt) m)
                                  ++ [set_paddr paddr pkt])
                                 (countRequest (set_paddr paddr pkt) m))
      end.
      change (length (sent m))
        with (length (sent (countRequest (set_paddr paddr pkt) m))).
      rewrite deliver_last. unfold receive. simpl.
      split; [reflexivity|]. simpl. rewrite target_eta. repeat split.
    + intros ->. unfold receive. simpl. eexists. split; [reflexivity|].
      simpl. rewrite target_eta. repeat split.
    + intros payload failed ->.
      eexists _, _. split; [reflexivity|]. simpl.
      split; [reflexivity|].
      match goal with |- deliver _ _ _ ?m1 = _ /\ _ =>
        change m1 with (set_sent (sent (countRequest (markAsIgnored pkt) m)
                                  ++ [markAsIgnored pkt])
                                 (countRequest (markAsIgnored pkt) m))
      end.
      change (length (sent m))
        with (length (sent (countRequest (markAsIgnored pkt) m))).
      rewrite deliver_last. unfold receive. simpl.
      split; [reflexivity|]. simpl. rewrite target_eta. repeat split.
Qed.

Lemma X18_instruction_read_round_trip_witness :
  exists m1 m2,
    requestInstrRead identity_map (mkTarget 64 4) (init config_plain) = Some m1
    /\ deliver 0 bytes8 false m1 = Some m2
    /\ completedInstrReads_ m2 = [(mkTarget 64 4, [x01; x02; x03; x04], 0)].
Proof.
  destruct (X18_instruction_read_round_trip identity_map (mkTarget 64 4)
              (init config_plain)) as [_ H].
  destruct (H eq_refl) as (H1 & _).
  destruct (H1 64 bytes8 false eq_refl)
    as (m1 & m2 & E1 & _ & _ & _ & _ & E2 & E3 & _).
  exists m1, m2. auto.
Defined.

(** *** Delayed translations *)

Lemma issueRequest_sent translate (p : MemPacket) (m : t) (paddr : Z) :
  translate (vaddr_ p) = Mapped paddr ->
  exists m', issueRequest translate p m = Some m'
    /\ sent m' = sent m ++ [set_paddr paddr p]
    /\ pendingRequests_ m' = pendingRequests_ m
    /\ pendingDataRequests_ m' = pendingDataRequests_ m
    /\ loads_ m' = loads_ m /\ stores_ m' = stores_ m
    /\ calls m' = calls m /\ completedInstrReads_ m' = completedInstrReads_ m.
Proof.
  intros Ht. unfold issueRequest. rewrite Ht. eexists. split; [reflexivity|].
  unfold send, countRequest.
  destruct (isInstrRead (set_paddr paddr p)); [simpl; repeat split|].
  destruct (isRead (set_paddr paddr p)); simpl; repeat split.
Qed.

Lemma skipn_nth_error {A : Type} (l : list A) : forall i x,
  nth_error l i = Some x -> skipn i l = x :: skipn (S i) l.
Proof.
  induction l as [|y l IH]; intros [|i] x; simpl; try discriminate.
  - now intros [= ->].
  - intros H. now rewrite (IH i x H).
Qed.

Lemma reissue_mapped translate vaddr paddr parked fuel :
  translate vaddr = Mapped paddr ->
  Forall (fun p => vaddr_ p = vaddr) parked ->
  forall i m,
    StdMap.find vaddr (pendingRequests_ m) = Some parked ->
    (length parked - i < fuel)%nat ->
    exists m', reissue fuel translate vaddr i m = Some m'
      /\ sent m' = sent m ++ map (set_paddr paddr) (skipn i parked)
      /\ pendingRequests_ m' = pendingRequests_ m
      /\ pendingDataRequests_ m' = pendingDataRequests_ m
      /\ loads_ m' = loads_ m /\ stores_ m' = stores_ m
      /\ calls m' = calls m /\ completedInstrReads_ m' = completedInstrReads_ m.
Proof.
  intros Ht Hall. induction fuel as [|fuel IH]; intros i m Hf Hlt; [lia|].
  simpl. rewrite Hf. destruct (nth_error parked i) as [p|] eqn:En.
  - assert (Hp : vaddr_ p = vaddr).
    { rewrite List.Forall_forall in Hall. apply Hall. eapply nth_error_In; eauto. }
    destruct (issueRequest_sent translate p m paddr ltac:(now rewrite Hp))
      as (m1 & E1 & S1 & P1 & D1 & L1 & T1 & C1 & I1).
    rewrite E1.
    assert (Hi : (i < length parked)%nat) by (apply nth_error_Some; congruence).
    destruct (IH (S i) m1 ltac:(now rewrite P1) ltac:(lia))
      as (m' & E' & S' & P' & D' & L' & T' & C' & I').
    exists m'. split; [exact E'|].
    split.
    { rewrite S', S1, <- app_assoc. f_equal.
      now rewrite (skipn_nth_error parked i p En). }
    repeat split; congruence.
  - exists m. split; [reflexivity|].
    apply nth_error_None in En. rewrite skipn_all2 by lia. simpl.
    rewrite app_nil_r. repeat split.
Qed.

(** X19. Requests whose translation was pending are parked under their
    virtual address. [supplyDelayedTranslation(vaddr, paddr)] does nothing
    when nothing is parked under [vaddr]. Otherwise, once the translation of
    [vaddr] gives a physical address, it sends the parked requests in the
    order in which they were parked, each with the address that the
    translation gives (the argument [paddr] is not used), and removes the
    entry of [vaddr]; the entries of other addresses and the count of pending
    data requests are unchanged. *)
Theorem X19_delayed_translation_reissues
    (translate : Z -> Translation) (vaddr paddr0 : Z) (m : t) :
  (StdMap.find vaddr (pendingRequests_ m) = None ->
   supplyDelayedTranslation translate vaddr paddr0 m = Some m)
  /\ (forall parked paddr,
        StdMap.find vaddr (pendingRequests_ m) = Some parked ->
        Forall (fun p => vaddr_ p = vaddr) parked ->
        translate vaddr = Mapped paddr ->
        LSQ.keysAscending (pendingRequests_ m) ->
        exists m',
          supplyDelayedTranslation translate vaddr paddr0 m = Some m'
          /\ sent m' = sent m ++ map (set_paddr paddr) parked
          /\ StdMap.find vaddr (pendingRequests_ m') = None
          /\ (forall v, v <> vaddr ->
                StdMap.find v (pendingRequests_ m')
                = StdMap.find v (pendingRequests_ m))
          /\ pendingDataRequests_ m' = pendingDataRequests_ m
          /\ loads_ m' = loads_ m /\ stores_ m' = stores_ m
          /\ calls m' = calls m)
  /\ (forall (p : MemPacket),
        translate (vaddr_ p) = Pending ->
        exists m',
          issueRequest translate p m = Some m'
          /\ StdMap.find (vaddr_ p) (pendingRequests_ m')
             = Some (default [] (StdMap.find (vaddr_ p) (pendingRequests_ m))
                     ++ [p])
          /\ sent m' = sent m).
Proof.
  unfold supplyDelayedTranslation. split; [now intros ->|]. split.
  - intros parked paddr Hf Hall Ht Hs. rewrite Hf.
    destruct (reissue_mapped translate vaddr paddr parked (S (length parked))
                Ht Hall 0%nat m Hf ltac:(lia))
      as (m' & E & S1 & P1 & D1 & L1 & T1 & C1 & _).
    rewrite E. eexists. split; [reflexivity|]. simpl.
    rewrite S1, P1, skipn_O.
    split; [reflexivity|].
    split; [now apply LSQ.find_erase_eq|].
    split; [intros v Hv; now apply StdMap.find_erase_ne|].
    repeat split; assumption.
  - intros p Ht. unfold issueRequest. rewrite Ht.
    eexists. split; [reflexivity|]. simpl. split; [|reflexivity].
    exact (StdMap.find_update_eq (vaddr_ p) [] (fun l => l ++ [p]) _).
Qed.

Lemma reissue_pending translate vaddr fuel :
  translate vaddr = Pending ->
  forall i m parked,
    StdMap.find vaddr (pendingRequests_ m) = Some parked ->
    (i < length parked)%nat ->
    Forall (fun p => vaddr_ p = vaddr) parked ->
    reissue fuel translate vaddr i m = None.
Proof.
  intros Ht. induction fuel as [|fuel IH]; intros i m parked Hf Hi Hall;
    [reflexivity|].
  simpl. rewrite Hf.
  destruct (nth_error parked i) as [p|] eqn:En;
    [|apply nth_error_None in En; lia].
  assert (Hp : vaddr_ p = vaddr).
  { rewrite List.Forall_forall in Hall. apply Hall. eapply nth_error_In; eauto. }
  unfold issueRequest. rewrite Hp, Ht.
  apply (IH (S i) _ (parked ++ [p])).
  - simpl. rewrite (StdMap.find_update_eq vaddr [] (fun l => l ++ [p]) _), Hf.
    reflexivity.
  - rewrite length_app. simpl. lia.
  - apply Forall_app. split; [exact Hall|]. repeat constructor. exact Hp.
Qed.

(** X20. When [supplyDelayedTranslation] is called for an address with
    parked requests while the translation of that address is still pending,
    every request it issues is parked again at the end of the vector that
    the loop runs over, so the loop does not end: for every number of rounds
    the loop has not returned. *)
Theorem X20_still_pending_never_returns
    (translate : Z -> Translation) (vaddr paddr : Z) (m : t)
    (parked : list MemPacket) :
  StdMap.find vaddr (pendingRequests_ m) = Some parked ->
  parked <> [] ->
  Forall (fun p => vaddr_ p = vaddr) parked ->
  translate vaddr = Pending ->
  (forall fuel, reissue fuel translate vaddr 0 m = None)
  /\ supplyDelayedTranslation translate vaddr paddr m = None.
Proof.
  intros Hf Hne Hall Ht.
  assert (Hlen : (0 < length parked)%nat)
    by (destruct parked; [congruence|simpl; lia]).
  split.
  - intros fuel. now apply (reissue_pending translate vaddr fuel Ht 0%nat m parked).
  - unfold supplyDelayedTranslation. rewrite Hf.
    now rewrite (reissue_pending translate vaddr _ Ht 0%nat m parked).
Qed.

(** A request for address 4096 parked while its translation is pending. *)
Definition parked_read : MemPacket := createReadRequest 4096 8 3 0.

Definition mmu_parked : t :=
  set_pendingRequests [(4096, [parked_read])] (init config_plain).

Lemma X19_delayed_translation_reissues_witness :
  exists m',
    supplyDelayedTranslation identity_map 4096 0 mmu_parked = Some m'
    /\ sent m' = [set_paddr 4096 parked_read]
    /\ StdMap.find 4096 (pendingRequests_ m') = None.
Proof.
  destruct (X19_delayed_translation_reissues identity_map 4096 0 mmu_parked)
    as (_ & H & _).
  destruct (H [parked_read] 4096 eq_refl) as (m' & H1 & H2 & H3 & _).
  - repeat constructor.
  - reflexivity.
  - repeat constructor.
  - exists m'. auto.
Defined.

Lemma X20_still_pending_never_returns_witness :
  supplyDelayedTranslation (fun _ => Pending) 4096 0 mmu_parked = None.
Proof.
  apply (X20_still_pending_never_returns (fun _ => Pending) 4096 0 mmu_parked
           [parked_read]); [reflexivity | discriminate | | reflexivity].
  repeat constructor.
Defined.

(** *** The order of the packets issued by [processRequests] *)

Lemma sendPackets_greedy translate isStoreReq limit pkts :
  forall used m remaining used' m' issued,
    sendPackets translate isStoreReq limit pkts used m
    = Some (remaining, used', m', issued) ->
    Forall (fun p => 0 <= size_ p) pkts ->
    0 <= used -> used + totalSize pkts < 2 ^ 64 ->
    remaining = []
    \/ exists p r, remaining = p :: r /\ limit < used + totalSize issued + size_ p.
Proof.
  induction pkts as [|pkt rest IH]; intros used m remaining used' m' issued; simpl.
  - intros [= <- <- <- <-] _ _ _. now left.
  - intros H Hall Hu Hlt. apply Forall_cons_iff in Hall as [Hp Hall].
    pose proof (totalSize_nonneg _ Hall) as Hrest.
    rewrite (wrap64_small (used + size_ pkt)) in H by lia.
    destruct (Z.leb_spec (used + size_ pkt) limit) as [Hle|Hgt].
    2:{ injection H as <- <- <- <-. right. exists pkt, rest. simpl.
        split; [reflexivity|lia]. }
    destruct (if isStoreReq && _ then _ else _) as [m1|]; [|discriminate].
    destruct (issueRequest translate pkt m1) as [m2|]; [|discriminate].
    destruct (sendPackets _ _ _ rest _ m2) as [[[[rem1 u1] m3] iss1]|] eqn:E;
      [|discriminate].
    injection H as <- <- <- <-.
    destruct (IH _ _ _ _ _ _ E Hall ltac:(lia) ltac:(lia))
      as [->|(p & r & -> & Hp')]; [now left|].
    right. exists p, r. simpl. split; [reflexivity|lia].
Qed.

Lemma sendInsns_greedy translate isStoreReq limit insns :
  forall used m remaining m' issued,
    sendInsns translate isStoreReq limit insns used m
    = Some (remaining, m', issued) ->
    Forall (fun p => 0 <= size_ p) (concat insns) ->
    0 <= used -> used + totalSize (concat insns) < 2 ^ 64 ->
    remaining = []
    \/ exists p r others,
         remaining = (p :: r) :: others
         /\ limit < used + totalSize issued + size_ p.
Proof.
  induction insns as [|insn others IH]; intros used m remaining m' issued; simpl.
  - intros [= <- <- <-] _ _ _. now left.
  - intros H Hall Hu Hlt. apply Forall_app in Hall as [Hall1 Hall2].
    rewrite totalSize_app in Hlt.
    pose proof (totalSize_nonneg _ Hall1) as Hn1.
    pose proof (totalSize_nonneg _ Hall2) as Hn2.
    destruct (sendPackets _ _ _ insn used m) as [[[[rem1 u1] m1] iss1]|] eqn:E1;
      [|discriminate].
    destruct (sendPackets_bandwidth _ _ _ _ _ _ _ _ _ _ E1 Hall1 Hu ltac:(lia))
      as [Hu1 _].
    destruct (sendPackets_greedy _ _ _ _ _ _ _ _ _ _ E1 Hall1 Hu ltac:(lia))
      as [->|(p & r & -> & Hp)].
    + destruct (sendPackets_spec _ _ _ _ _ _ _ _ _ _ E1) as (Hsplit & _).
      rewrite app_nil_r in Hsplit. subst insn.
      destruct (sendInsns _ _ _ others u1 m1) as [[[rem2 m2] iss2]|] eqn:E2;
        [|discriminate].
      injection H as <- <- <-.
      destruct (IH _ _ _ _ _ E2 Hall2 ltac:(lia) ltac:(lia))
        as [->|(p & r & oth & -> & Hp)]; [now left|].
      right. exists p, r, oth. split; [reflexivity|].
      rewrite totalSize_app. lia.
    + injection H as <- <- <-. right. exists p, r, others.
      split; [reflexivity|lia].
Qed.

Lemma issueRequest_total translate (p : MemPacket) (m : t) :
  translate (vaddr_ p) <> DataAbort -> exists m', issueRequest translate p m = Some m'.
Proof.
  unfold issueRequest. destruct (translate (vaddr_ p)); [congruence|eauto..].
Qed.

Lemma sendPackets_total translate limit pkts :
  (forall v, translate v <> DataAbort) ->
  forall used m, exists r, sendPackets translate false limit pkts used m = Some r.
Proof.
  intros Hno. induction pkts as [|pkt rest IH]; intros used m; simpl; [eauto|].
  destruct (_ <=? limit); [|eauto].
  destruct (issueRequest_total translate pkt m (Hno _)) as [m2 ->].
  destruct (IH (wrap64 (used + size_ pkt)) m2) as [[[[rem1 u1] m3] iss1] ->]. eauto.
Qed.

Lemma sendInsns_total translate limit insns :
  (forall v, translate v <> DataAbort) ->
  forall used m, exists r, sendInsns translate false limit insns used m = Some r.
Proof.
  intros Hno. induction insns as [|insn others IH]; intros used m; simpl; [eauto|].
  destruct (sendPackets_total translate limit insn Hno used m)
    as [[[[rem1 u1] m1] iss1] ->].
  destruct rem1; [|eauto].
  destruct (IH u1 m1) as [[[rem2 m2] iss2] ->]. eauto.
Qed.

(** X21. [processRequests] issues the queued packets of its type in queue
    order and stops at the first packet that the bandwidth left does not
    admit: the packets issued, followed by those left, are the packets that
    were queued, in the same order; the issued sizes sum to at most the
    bandwidth, and adding the first packet left would exceed it. Instructions
    whose packets have all been issued leave the queue; a partly issued
    instruction stays at its front. The other queue is not touched. For loads
    the call returns whenever no translation is a data abort. *)
Theorem X21_processRequests_longest_prefix
    (translate : Z -> Translation) (isStoreReq : bool) (m : t) :
  nonNegative (config m) -> noOverflow m ->
  let queue (x : t) := if isStoreReq then stores_ x else loads_ x in
  let limit := if isStoreReq then storeBandwidth_ (config m)
               else loadBandwidth_ (config m) in
  (forall m' issued,
     processRequests translate isStoreReq m = Some (m', issued) ->
     concat (queue m) = issued ++ concat (queue m')
     /\ totalSize issued <= limit
     /\ (queue m' = []
         \/ exists p r others,
              queue m' = (p :: r) :: others
              /\ limit < totalSize issued + size_ p)
     /\ (if isStoreReq then loads_ m' = loads_ m else stores_ m' = stores_ m))
  /\ (isStoreReq = false -> (forall v, translate v <> DataAbort) ->
      exists m' issued, processRequests translate isStoreReq m = Some (m', issued)).
Proof.
  intros Hc Hno queue limit. pose proof Hc as (_ & _ & _ & Hlb & Hsb).
  pose proof Hno as (Hl & Hs & Hlt & Hst). split.
  - intros m' issued H.
    pose proof (processRequests_bandwidth _ _ _ _ _ H Hc Hno) as Hb.
    unfold processRequests in H.
    destruct (sendInsns _ _ _ _ _ _) as [[[remaining m1] iss]|] eqn:E;
      [|discriminate].
    destruct (sendInsns_frame _ _ _ _ _ _ _ _ _ E) as (Hcat & _ & _ & El & Es).
    injection H as <- <-. unfold queue, limit.
    destruct isStoreReq; simpl.
    + split; [exact Hcat|]. split; [exact Hb|]. split; [|exact El].
      destruct (sendInsns_greedy _ _ _ _ _ _ _ _ _ E Hs ltac:(lia) ltac:(lia))
        as [->|(p & r & oth & -> & Hp)]; [now left|].
      right. exists p, r, oth. split; [reflexivity|lia].
    + split; [exact Hcat|]. split; [exact Hb|]. split; [|exact Es].
      destruct (sendInsns_greedy _ _ _ _ _ _ _ _ _ E Hl ltac:(lia) ltac:(lia))
        as [->|(p & r & oth & -> & Hp)]; [now left|].
      right. exists p, r, oth. split; [reflexivity|lia].
  - intros -> Hnoabort. unfold processRequests.
    destruct (sendInsns_total translate (loadBandwidth_ (config m)) (loads_ m)
                Hnoabort 0 m) as [[[remaining m1] iss] ->]. eauto.
Qed.

(** Two loads of 4 bytes queued with a load bandwidth of 6 bytes. *)
Definition config_narrow : Config := mkConfig 64 6 32 4 2 2 false.

Definition mmu_two_loads : t :=
  set_loads [[createReadRequest 128 4 1 0]; [createReadRequest 256 4 2 0]]
    (init config_narrow).

Lemma X21_processRequests_longest_prefix_witness :
  exists m' issued,
    processRequests identity_map false mmu_two_loads = Some (m', issued)
    /\ concat (loads_ mmu_two_loads) = issued ++ concat (loads_ m')
    /\ totalSize issued <= 6
    /\ map vaddr_ issued = [128].
Proof.
  destruct (X21_processRequests_longest_prefix identity_map false mmu_two_loads)
    as [Hshape Htotal].
  - unfold nonNegative. simpl. lia.
  - unfold noOverflow. simpl. repeat split; try lia; repeat constructor; simpl; lia.
  - destruct (Htotal eq_refl) as (m' & issued & E); [discriminate|].
    exists m', issued. split; [exact E|].
    destruct (Hshape m' issued E) as (H1 & H2 & _).
    split; [exact H1|]. split; [exact H2|].
    assert (Ei : option_map (fun r => map vaddr_ (snd r))
                   (processRequests identity_map false mmu_two_loads)
                 = Some [128]) by reflexivity.
    rewrite E in Ei. simpl in Ei. congruence.
Defined.

(** *** The result of a store conditional *)

Lemma receiveAll_store (seqId : Z) (uop : Instruction) (ps : list MemPacket) :
  Forall (fun p => isInstrRead p = false /\ access p = Write
                   /\ insnSeqId_ p = seqId) ps ->
  forall (n : Z) (f : bool) (m : t),
    StdMap.find seqId (requestedStores_ m) = Some (mkStoreEntry uop n f) ->
    Z.of_nat (length ps) <= n < 2 ^ 16 ->
    exists m',
      receiveAll ps m = Some m'
      /\ calls m'
         = calls m
           ++ (if (Z.of_nat (length ps) =? n) && negb (n =? 0)
               then [CallUpdateCondStoreResult uop
                       (negb (existsb hasFailed ps || f))]
               else [])
      /\ StdMap.find seqId (requestedStores_ m')
         = Some (mkStoreEntry uop (n - Z.of_nat (length ps))
                              (existsb hasFailed ps || f)).
Proof.
  induction 1 as [|p ps (Hi & Ha & Hs) Hall IH]; intros n f m Hf Hn.
  - exists m. simpl. split; [reflexivity|].
    split; [|now rewrite Z.sub_0_r].
    destruct n; simpl; now rewrite app_nil_r.
  - cbn [receiveAll]. unfold receive. rewrite Hi. unfold isRead. rewrite Ha, Hs.
    cbn [length] in Hn. cbn [requestedStores_ set_pendingDataRequests].
    rewrite Hf. cbn [storeRemaining storeFailed storeInsn].
    rewrite (wrap16_small (n - 1)) by lia.
    set (f' := if hasFailed p then true else f).
    assert (Ef' : f' = hasFailed p || f) by (unfold f'; now destruct (hasFailed p)).
    set (m1 := set_pendingDataRequests (wrap64 (pendingDataRequests_ m - 1)) m).
    set (m2 := set_requestedStores
                 (assign seqId (mkStoreEntry uop (n - 1) f') (requestedStores_ m1))
                 m1).
    assert (Hf2 : StdMap.find seqId (requestedStores_ m2)
                  = Some (mkStoreEntry uop (n - 1) f')).
    { unfold m2. simpl. unfold assign.
      exact (StdMap.find_update_eq seqId _ (fun _ => mkStoreEntry uop (n - 1) f') _). }
    destruct (Z.eqb_spec (n - 1) 0) as [E0|Hne0].
    + assert (ps = []) by (destruct ps; [reflexivity|simpl in Hn; lia]). subst ps.
      assert (En : n = 1) by lia. subst n.
      cbn [receiveAll length existsb]. eexists. split; [reflexivity|].
      split.
      * simpl. now rewrite orb_false_r, <- Ef'.
      * change (StdMap.find seqId (requestedStores_ m2)
                = Some (mkStoreEntry uop (1 - Z.of_nat 1)
                                     (hasFailed p || false || f))).
        rewrite Hf2, orb_false_r, <- Ef'. reflexivity.
    + destruct (IH (n - 1) f' m2 Hf2 ltac:(lia)) as (m' & E & Hc & Hfin).
      exists m'. split; [exact E|]. split.
      * rewrite Hc. change (calls m2) with (calls m). f_equal.
        assert (Eb : (Z.of_nat (length (p :: ps)) =? n)
                     = (Z.of_nat (length ps) =? n - 1)).
        { cbn [length].
          destruct (Z.eqb_spec (Z.of_nat (S (length ps))) n),
                   (Z.eqb_spec (Z.of_nat (length ps)) (n - 1)); lia || reflexivity. }
        rewrite Eb.
        assert (En0 : (n =? 0) = false) by (apply Z.eqb_neq; lia).
        assert (En1 : (n - 1 =? 0) = false) by (apply Z.eqb_neq; lia).
        rewrite En0, En1.
        destruct (Z.of_nat (length ps) =? n - 1); simpl; [|reflexivity].
        rewrite Ef'. cbn [existsb].
        destruct (hasFailed p), (existsb hasFailed ps), f; reflexivity.
      * rewrite Hfin. rewrite Ef'. cbn [length existsb].
        replace (n - 1 - Z.of_nat (length ps))
          with (n - Z.of_nat (S (length ps))) by lia.
        destruct (hasFailed p), (existsb hasFailed ps), f; reflexivity.
Qed.

(** X22. The responses to the packets of a store that is registered with
    [n] packets outstanding: each response lowers the count, and a failed one
    marks the store as failed. The result is reported to the instruction
    once, by the response that brings the count to 0, as success exactly when
    none of the responses had failed; before that nothing is reported. A
    write response for a sequence id that is not registered (a store that is
    not conditional leaves the map when its last packet is sent) is counted
    and otherwise ignored. *)
Theorem X22_cond_store_result
    (seqId : Z) (uop : Instruction) (n : Z) (ps : list MemPacket) (m : t) :
  Forall (fun p => isInstrRead p = false /\ access p = Write
                   /\ insnSeqId_ p = seqId) ps ->
  0 < n < 2 ^ 16 ->
  (StdMap.find seqId (requestedStores_ m) = Some (mkStoreEntry uop n false) ->
   Z.of_nat (length ps) = n ->
   exists m',
     receiveAll ps m = Some m'
     /\ calls m'
        = calls m ++ [CallUpdateCondStoreResult uop (negb (existsb hasFailed ps))])
  /\ (StdMap.find seqId (requestedStores_ m) = Some (mkStoreEntry uop n false) ->
      Z.of_nat (length ps) < n ->
      exists m', receiveAll ps m = Some m' /\ calls m' = calls m)
  /\ (StdMap.find seqId (requestedStores_ m) = None ->
      forall p, In p ps ->
        receive p m
        = Some (set_pendingDataRequests (wrap64 (pendingDataRequests_ m - 1)) m)).
Proof.
  intros Hall Hn. split; [|split].
  - intros Hf Hlen.
    destruct (receiveAll_store seqId uop ps Hall n false m Hf ltac:(lia))
      as (m' & E & Hc & _).
    exists m'. split; [exact E|]. rewrite Hc.
    destruct (Z.eqb_spec (Z.of_nat (length ps)) n) as [_|?]; [|lia].
    destruct (Z.eqb_spec n 0) as [?|_]; [lia|]. simpl.
    now rewrite orb_false_r.
  - intros Hf Hlen.
    destruct (receiveAll_store seqId uop ps Hall n false m Hf ltac:(lia))
      as (m' & E & Hc & _).
    exists m'. split; [exact E|]. rewrite Hc.
    destruct (Z.eqb_spec (Z.of_nat (length ps)) n) as [?|_]; [lia|].
    simpl. apply app_nil_r.
  - intros Hf p Hp. rewrite List.Forall_forall in Hall.
    destruct (Hall p Hp) as (Hi & Ha & Hs).
    unfold receive. rewrite Hi. unfold isRead. rewrite Ha, Hs. simpl.
    now rewrite Hf.
Qed.

(** A store conditional registered with two packets, and their responses,
    the second of them failed. *)
Definition storeCond9 : Instruction :=
  mkInstruction 9 9 0 4132 [mkTarget 60 8] 1 [] [] false true false true false
                false true false.

Definition mmu_cond_store : t :=
  set_requestedStores [(9, mkStoreEntry storeCond9 2 false)] (init config_plain).

Definition cond_responses : list MemPacket :=
  [turnIntoResponse [] false (createWriteRequest 60 4 9 0 []);
   turnIntoResponse [] true (createWriteRequest 64 4 9 0 [])].

Lemma X22_cond_store_result_witness :
  exists m',
    receiveAll cond_responses mmu_cond_store = Some m'
    /\ calls m' = [CallUpdateCondStoreResult storeCond9 false].
Proof.
  destruct (X22_cond_store_result 9 storeCond9 2 cond_responses mmu_cond_store)
    as (H & _).
  - repeat constructor.
  - lia.
  - destruct (H eq_refl eq_refl) as (m' & H1 & H2). exists m'. auto.
Defined.

Local Close Scope Z_scope.

End MMU.

(** ** DispatchIssueUnit: operand forwarding *)

Module DispatchIssue.

Local Open Scope Z_scope.

Definition Register_eqb (a b : Register) : bool :=
  (rtype a =? rtype b) && (rtag a =? rtag b).

Lemma Register_eqb_eq a b : Register_eqb a b = true <-> a = b.
Proof.
  unfold Register_eqb. rewrite andb_true_iff, !Z.eqb_eq.
  destruct a, b; simpl. split; [intros [-> ->]; reflexivity|].
  intros [= -> ->]. auto.
Qed.

(** An entry of the dependency matrix: the waiting instruction (a shared
    pointer, null after a [std::move] out of it), its port and the index of
    the operand it waits for. *)
Record Entry : Type := mkEntry {
  uop : option nat;
  port : nat;
  operandIndex : nat
}.

Section Unit.
(** The instructions behind the pointers, with what the unit calls on them. *)
Context {Insn : Type}.
Variable supplyOperand : Insn -> nat -> RegisterValue -> Insn.
Variable canExecute : Insn -> bool.
Variable getOperandRegisters : Insn -> list Register.
Variable getDestinationRegisters : Insn -> list Register.
Variable getResults : Insn -> list RegisterValue.
Variable getProducerGroup : Insn -> Z.
Variable getConsumerGroup : Insn -> Z.
(** Modelled from the spec: [Instruction::canForward] is not among the
    sources. It returns the forwarding latency [L] of a producer group and a
    consumer group, which the spec has zero, positive or negative;
    [forwardOperands] keeps it in an [int8_t], so the value taken here is the
    one of that type. *)
Variable canForward : Insn -> Z -> Z -> Z.

(** The members of the unit used by [forwardOperands] and by the start of
    [tick]. [scoreboard_] and [dependencyMatrix_] are indexed by register
    type and tag; [ready] is the ready queue of a reservation station port,
    indexed by the pair that [portMapping_] gives for an issue port. *)
Record t : Type := mk {
  heap : nat -> Insn;
  scoreboard_ : Register -> bool;
  dependencyMatrix_ : Register -> list Entry;
  waitingInstructions_ : list (Z * (Entry * RegisterValue));
  dependantInstructions_ : list Entry;
  portMapping_ : nat -> nat * nat;
  ready : nat * nat -> list nat;
  ticks_ : Z;
  enableBypassLatency_ : bool
}.

Definition set_heap (p : nat) (i : Insn) (d : t) : t :=
  mk (fun q => if (q =? p)%nat then i else heap d q) (scoreboard_ d)
     (dependencyMatrix_ d) (waitingInstructions_ d) (dependantInstructions_ d)
     (portMapping_ d) (ready d) (ticks_ d) (enableBypassLatency_ d).
Definition set_scoreboard (r : Register) (b : bool) (d : t) : t :=
  mk (heap d) (fun q => if Register_eqb q r then b else scoreboard_ d q)
     (dependencyMatrix_ d) (waitingInstructions_ d) (dependantInstructions_ d)
     (portMapping_ d) (ready d) (ticks_ d) (enableBypassLatency_ d).
Definition set_dependencies (r : Register) (l : list Entry) (d : t) : t :=
  mk (heap d) (scoreboard_ d)
     (fun q => if Register_eqb q r then l else dependencyMatrix_ d q)
     (waitingInstructions_ d) (dependantInstructions_ d)
     (portMapping_ d) (ready d) (ticks_ d) (enableBypassLatency_ d).
Definition set_waiting (l : list (Z * (Entry * RegisterValue))) (d : t) : t :=
  mk (heap d) (scoreboard_ d) (dependencyMatrix_ d) l (dependantInstructions_ d)
     (portMapping_ d) (ready d) (ticks_ d) (enableBypassLatency_ d).
Definition set_dependants (l : list Entry) (d : t) : t :=
  mk (heap d) (scoreboard_ d) (dependencyMatrix_ d) (waitingInstructions_ d) l
     (portMapping_ d) (ready d) (ticks_ d) (enableBypassLatency_ d).
Definition set_ticks (n : Z) (d : t) : t :=
  mk (heap d) (scoreboard_ d) (dependencyMatrix_ d) (waitingInstructions_ d)
     (dependantInstructions_ d) (portMapping_ d) (ready d) n
     (enableBypassLatency_ d).

(** [reservationStations_[rsInfo.first].ports[rsInfo.second].ready.push_back]. *)
Definition push_ready (rsInfo : nat * nat) (p : nat) (d : t) : t :=
  mk (heap d) (scoreboard_ d) (dependencyMatrix_ d) (waitingInstructions_ d)
     (dependantInstructions_ d) (portMapping_ d)
     (fun q => if ((fst q =? fst rsInfo)%nat && (snd q =? snd rsInfo)%nat)%bool
               then ready d q ++ [p] else ready d q)
     (ticks_ d) (enableBypassLatency_ d).

(** The operand is supplied to the instruction of the entry, which joins the
    ready queue of its port if it can execute now. *)
Definition supplyAndWake (p : nat) (entry : Entry) (value : RegisterValue)
    (d : t) : t :=
  let d1 := set_heap p (supplyOperand (heap d p) (operandIndex entry) value) d in
  if canExecute (heap d1 p) then push_ready (portMapping_ d1 (port entry)) p d1
  else d1.

(** The body of the loop of [forwardOperands] over the dependents of a
    register, for the result [value] of the instruction at [insn]. [None] is
    a null pointer followed. *)
Definition forwardEntry (insn : nat) (value : RegisterValue) (entry : Entry)
    (d : t) : option t :=
  match uop entry with
  | None => None
  | Some p =>
      let forwardLatency :=
        if enableBypassLatency_ d
        then canForward (heap d insn) (getProducerGroup (heap d insn))
                        (getConsumerGroup (heap d p))
        else 0 in
      if forwardLatency =? 0 then Some (supplyAndWake p entry value d)
      else if forwardLatency =? -1 then
        Some (set_dependants (dependantInstructions_ d ++ [entry]) d)
      else
        Some (set_waiting
                (waitingInstructions_ d
                 ++ [(wrap64 (ticks_ d + forwardLatency), (entry, value))]) d)
  end.

Fixpoint forwardEntries (insn : nat) (value : RegisterValue)
    (dependents : list Entry) (d : t) : option t :=
  match dependents with
  | [] => Some d
  | entry :: rest =>
      match forwardEntry insn value entry d with
      | None => None
      | Some d' => forwardEntries insn value rest d'
      end
  end.

(** The loop of [forwardOperands] over the destination registers and their
    values. *)
Fixpoint forwardRegisters (insn : nat) (registers : list Register)
    (values : list RegisterValue) (d : t) : option t :=
  match registers, values with
  | reg :: registers', value :: values' =>
      let d1 := set_scoreboard reg true d in
      match forwardEntries insn value (dependencyMatrix_ d1 reg) d1 with
      | None => None
      | Some d2 =>
          forwardRegisters insn registers' values' (set_dependencies reg [] d2)
      end
  | _, _ => Some d
  end.

(** [forwardOperands]; [None] also for the failed assertion on the sizes. *)
Definition forwardOperands (insn : nat) (d : t) : option t :=
  let registers := getDestinationRegisters (heap d insn) in
  let values := getResults (heap d insn) in
  if negb (length registers =? length values)%nat then None
  else forwardRegisters insn registers values d.

(** The body of the first loop of [tick], over [waitingInstructions_]: an
    entry due at this tick is supplied and erased. *)
Definition wake (w : Z * (Entry * RegisterValue)) (d : t)
    : option (bool * t) :=
  if fst w =? ticks_ d then
    match uop (fst (snd w)) with
    | None => None
    | Some p => Some (true, supplyAndWake p (fst (snd w)) (snd (snd w)) d)
    end
  else Some (false, d).

Fixpoint scanWaiting (l : list (Z * (Entry * RegisterValue))) (d : t)
    : option (list (Z * (Entry * RegisterValue)) * t) :=
  match l with
  | [] => Some ([], d)
  | w :: rest =>
      match wake w d with
      | None => None
      | Some (erased, d1) =>
          match scanWaiting rest d1 with
          | None => None
          | Some (kept, d2) => Some (if erased then kept else w :: kept, d2)
          end
      end
  end.

(** The body of the second loop of [tick], over [dependantInstructions_]:
    once the scoreboard has the register of the missing operand ready, its
    value is read from the register file and the entry is erased. The
    pointer of an entry that is kept while its instruction can execute has
    been moved to the ready queue and is null. *)
Definition service (registerFile : Register -> RegisterValue) (entry : Entry)
    (d : t) : option (option Entry * t) :=
  match uop entry with
  | None => None
  | Some p =>
      match nth_error (getOperandRegisters (heap d p)) (operandIndex entry) with
      | None => None
      | Some reg =>
          let supplied := scoreboard_ d reg in
          let d1 := if supplied
                    then set_heap p (supplyOperand (heap d p) (operandIndex entry)
                                                   (registerFile reg)) d
                    else d in
          let executable := canExecute (heap d1 p) in
          let d2 := if executable
                    then push_ready (portMapping_ d1 (port entry)) p d1 else d1 in
          Some (if supplied then None
                else Some (if executable
                           then mkEntry None (port entry) (operandIndex entry)
                           else entry),
                d2)
      end
  end.

Fixpoint scanDependants (registerFile : Register -> RegisterValue)
    (l : list Entry) (d : t) : option (list Entry * t) :=
  match l with
  | [] => Some ([], d)
  | entry :: rest =>
      match service registerFile entry d with
      | None => None
      | Some (kept1, d1) =>
          match scanDependants registerFile rest d1 with
          | None => None
          | Some (kept, d2) =>
              Some (match kept1 with Some e => e :: kept | None => kept end, d2)
          end
      end
  end.

(** [tick], up to the dispatch from the input buffer: the counter is
    incremented and the two lists are scanned. *)
Definition tick (registerFile : Register -> RegisterValue) (d : t) : option t :=
  let d0 := set_ticks (wrap64 (ticks_ d + 1)) d in
  match scanWaiting (waitingInstructions_ d0) d0 with
  | None => None
  | Some (waiting, d1) =>
      let d2 := set_waiting waiting d1 in
      match scanDependants registerFile (dependantInstructions_ d2) d2 with
      | None => None
      | Some (dependants, d3) => Some (set_dependants dependants d3)
      end
  end.

Lemma heap_supplyAndWake p entry value d :
  heap (supplyAndWake p entry value d) p
  = supplyOperand (heap d p) (operandIndex entry) value
  /\ (forall q, q <> p -> heap (supplyAndWake p entry value d) q = heap d q)
  /\ ready (supplyAndWake p entry value d) (portMapping_ d (port entry))
     = ready d (portMapping_ d (port entry))
       ++ (if canExecute (supplyOperand (heap d p) (operandIndex entry) value)
           then [p] else [])
  /\ waitingInstructions_ (supplyAndWake p entry value d) = waitingInstructions_ d
  /\ dependantInstructions_ (supplyAndWake p entry value d)
     = dependantInstructions_ d
  /\ scoreboard_ (supplyAndWake p entry value d) = scoreboard_ d
  /\ ticks_ (supplyAndWake p entry value d) = ticks_ d.
Proof.
  unfold supplyAndWake. simpl. rewrite Nat.eqb_refl.
  destruct (canExecute _); simpl; rewrite ?Nat.eqb_refl; simpl.
  - repeat split. intros q Hq. destruct (Nat.eqb_spec q p); [contradiction|reflexivity].
  - rewrite app_nil_r. repeat split.
    intros q Hq. destruct (Nat.eqb_spec q p); [contradiction|reflexivity].
Qed.

(** [forwardOperands] of an instruction with one result, on a register with
    one dependent, is the loop body on that dependent. *)
Lemma forwardOperands_single insn reg value entry d :
  getDestinationRegisters (heap d insn) = [reg] ->
  getResults (heap d insn) = [value] ->
  dependencyMatrix_ d reg = [entry] ->
  forwardOperands insn d
  = option_map (set_dependencies reg [])
      (forwardEntry insn value entry (set_scoreboard reg true d)).
Proof.
  intros Hr Hv Hd. unfold forwardOperands. rewrite Hr, Hv. simpl.
  rewrite Hd. simpl. now destruct (forwardEntry _ _ _ _).
Qed.

(** The scans of [tick] reach an appended entry last, with the loop body. *)
Lemma scanDependants_app registerFile l entry : forall d,
  scanDependants registerFile (l ++ [entry]) d
  = match scanDependants registerFile l d with
    | None => None
    | Some (kept, d1) =>
        match service registerFile entry d1 with
        | None => None
        | Some (kept1, d2) =>
            Some (kept ++ match kept1 with Some e => [e] | None => [] end, d2)
        end
    end.
Proof.
  induction l as [|e l IH]; intros d; simpl.
  - destruct (service registerFile entry d) as [[[k|] d1]|]; reflexivity.
  - destruct (service registerFile e d) as [[k1 d1]|]; [|reflexivity].
    rewrite IH. destruct (scanDependants registerFile l d1) as [[kept d2]|];
      [|reflexivity].
    destruct (service registerFile entry d2) as [[k2 d3]|]; [|reflexivity].
    now destruct k1.
Qed.

Lemma scanWaiting_app l w : forall d,
  scanWaiting (l ++ [w]) d
  = match scanWaiting l d with
    | None => None
    | Some (kept, d1) =>
        match wake w d1 with
        | None => None
        | Some (erased, d2) => Some (kept ++ (if erased then [] else [w]), d2)
        end
    end.
Proof.
  induction l as [|e l IH]; intros d; simpl.
  - destruct (wake w d) as [[[|] d1]|]; reflexivity.
  - destruct (wake e d) as [[k1 d1]|]; [|reflexivity].
    rewrite IH. destruct (scanWaiting l d1) as [[kept d2]|]; [|reflexivity].
    destruct (wake w d2) as [[k2 d3]|]; [|reflexivity].
    now destruct k1.
Qed.

End Unit.

(** *** A concrete instruction: operand slots and a latency table *)

Record Uop : Type := mkUop {
  sources : list Register;
  slots : list (option RegisterValue);
  destinations : list Register;
  results : list RegisterValue;
  producerGroup : Z;
  consumerGroup : Z
}.

Definition supply (u : Uop) (i : nat) (v : RegisterValue) : Uop :=
  mkUop (sources u) (<[i := Some v]> (slots u)) (destinations u) (results u)
        (producerGroup u) (consumerGroup u).

Definition executable (u : Uop) : bool :=
  forallb (fun s => match s with Some _ => true | None => false end) (slots u).

(** Forwarding latency by consumer group: 0, 3, -1 and -2. *)
Definition latency (u : Uop) (producer consumer : Z) : Z :=
  if consumer =? 0 then 0
  else if consumer =? 1 then 3
  else if consumer =? 2 then -1
  else -2.

Definition r1 : Register := mkRegister 0 1.
Definition result1 : RegisterValue := [x2a].

Definition producer0 : Uop := mkUop [] [] [r1] [result1] 0 0.
Definition consumer (group : Z) : Uop := mkUop [r1] [None] [] [] 0 group.
Definition entry1 : Entry := mkEntry (Some 1%nat) 0 0.

(** The producer at pointer 0, a consumer of group [group] at pointer 1
    waiting for [r1], at tick 10. *)
Definition unit0 (group : Z) : @t Uop :=
  mk (fun p => if (p =? 0)%nat then producer0 else consumer group)
     (fun _ => false)
     (fun r => if Register_eqb r r1 then [entry1] else [])
     [] [] (fun p => (0%nat, p)) (fun _ => []) 10 true.

Definition registers0 (r : Register) : RegisterValue := [x2a].

Definition forward0 (group : Z) : option (@t Uop) :=
  forwardOperands supply executable destinations results producerGroup
                  consumerGroup latency 0 (unit0 group).

Definition tick0 (d : @t Uop) : option (@t Uop) :=
  tick supply executable sources registers0 d.

Fixpoint ticksN (n : nat) (d : @t Uop) : option (@t Uop) :=
  match n with
  | O => Some d
  | S n' => match tick0 d with Some d' => ticksN n' d' | None => None end
  end.

(** What is observed of a unit: the consumer's operand slots, the two lists
    and the scoreboard bit of [r1]. *)
Definition observe (d : @t Uop)
    : list (option RegisterValue) * list Z * list Entry * bool :=
  (slots (heap d 1%nat), map fst (waitingInstructions_ d),
   dependantInstructions_ d, scoreboard_ d r1).

Example forward_latency_0 :
  option_map observe (forward0 0) = Some ([Some result1], [], [], true).
Proof. reflexivity. Qed.

Example forward_latency_3 :
  option_map observe (forward0 1) = Some ([None], [13], [], true)
  /\ option_map observe (mbind (ticksN 2) (forward0 1))
     = Some ([None], [13], [], true)
  /\ option_map observe (mbind (ticksN 3) (forward0 1))
     = Some ([Some result1], [], [], true).
Proof. repeat split; vm_compute; reflexivity. Qed.

Example forward_latency_minus1 :
  option_map observe (forward0 2) = Some ([None], [], [entry1], true)
  /\ option_map observe (mbind (ticksN 1) (forward0 2))
     = Some ([Some result1], [], [], true).
Proof. repeat split; vm_compute; reflexivity. Qed.

Lemma stuck_tick (d : @t Uop) :
  map fst (waitingInstructions_ d) = [8] ->
  dependantInstructions_ d = [] ->
  10 <= ticks_ d -> ticks_ d + 1 < 2 ^ 64 ->
  exists d', tick0 d = Some d'
    /\ map fst (waitingInstructions_ d') = [8]
    /\ dependantInstructions_ d' = []
    /\ ticks_ d' = ticks_ d + 1
    /\ heap d' = heap d /\ scoreboard_ d' = scoreboard_ d.
Proof.
  intros Hw Hd Hlo Hhi. unfold tick0, tick.
  set (d0 := set_ticks (wrap64 (ticks_ d + 1)) d).
  assert (Ht0 : ticks_ d0 = ticks_ d + 1)
    by (unfold d0; simpl; apply wrap64_small; lia).
  change (waitingInstructions_ d0) with (waitingInstructions_ d).
  destruct (waitingInstructions_ d) as [|[due w] [|? ?]] eqn:Ew; try discriminate.
  injection Hw as ->. cbn [scanWaiting]. unfold wake. cbn [fst snd].
  rewrite Ht0. destruct (Z.eqb_spec 8 (ticks_ d + 1)) as [E|_]; [lia|].
  cbn [dependantInstructions_ set_waiting].
  change (dependantInstructions_ d0) with (dependantInstructions_ d).
  rewrite Hd. cbn [scanDependants].
  eexists. split; [reflexivity|].
  split; [reflexivity|]. split; [reflexivity|]. split; [exact Ht0|].
  split; reflexivity.
Qed.

Lemma stuck_ticks (n : nat) : forall d : @t Uop,
  map fst (waitingInstructions_ d) = [8] ->
  dependantInstructions_ d = [] ->
  10 <= ticks_ d -> ticks_ d + Z.of_nat n < 2 ^ 64 ->
  exists d', ticksN n d = Some d'
    /\ heap d' = heap d /\ scoreboard_ d' = scoreboard_ d
    /\ dependantInstructions_ d' = [].
Proof.
  induction n as [|n IH]; intros d Hw Hd Hlo Hhi.
  - exists d. simpl. auto.
  - destruct (stuck_tick d Hw Hd Hlo ltac:(lia)) as (d1 & Ht & Hw1 & Hd1 & Ht1 & Hh & Hs).
    destruct (IH d1 Hw1 Hd1 ltac:(lia) ltac:(lia)) as (d' & Hn & Hh' & Hs' & Hd').
    exists d'. simpl. rewrite Ht. split; [exact Hn|].
    split; [congruence|]. split; [congruence|exact Hd'].
Qed.

(** *** [forwardOperands] on all destination registers *)

Section Forwarding.
Context {Insn : Type}.
Variable supplyOperand : Insn -> nat -> RegisterValue -> Insn.
Variable canExecute : Insn -> bool.
Variable getDestinationRegisters : Insn -> list Register.
Variable getResults : Insn -> list RegisterValue.
Variable getProducerGroup : Insn -> Z.
Variable getConsumerGroup : Insn -> Z.
Variable canForward : Insn -> Z -> Z -> Z.

Local Abbreviation supplyAndWake := (supplyAndWake supplyOperand canExecute).
Local Abbreviation forwardEntry :=
  (forwardEntry supplyOperand canExecute getProducerGroup getConsumerGroup
                canForward).
Local Abbreviation forwardEntries :=
  (forwardEntries supplyOperand canExecute getProducerGroup getConsumerGroup
                  canForward).
Local Abbreviation forwardRegisters :=
  (forwardRegisters supplyOperand canExecute getProducerGroup getConsumerGroup
                    canForward).
Local Abbreviation forwardOperands :=
  (forwardOperands supplyOperand canExecute getDestinationRegisters getResults
                   getProducerGroup getConsumerGroup canForward).

(** What the loop over the dependents leaves alone, and what it adds to the
    two lists served by [tick] when the bypass latency is off. *)
Definition sameBoard (d d' : @t Insn) : Prop :=
  scoreboard_ d' = scoreboard_ d /\ dependencyMatrix_ d' = dependencyMatrix_ d
  /\ ticks_ d' = ticks_ d /\ portMapping_ d' = portMapping_ d
  /\ enableBypassLatency_ d' = enableBypassLatency_ d
  /\ (enableBypassLatency_ d = false ->
      waitingInstructions_ d' = waitingInstructions_ d
      /\ dependantInstructions_ d' = dependantInstructions_ d).

Lemma Register_eq_dec (a b : Register) : {a = b} + {a <> b}.
Proof. decide equality; apply Z.eq_dec. Qed.

Lemma sameBoard_refl (d : @t Insn) : sameBoard d d.
Proof. unfold sameBoard. auto 10. Qed.

Lemma sameBoard_trans (d1 d2 d3 : @t Insn) :
  sameBoard d1 d2 -> sameBoard d2 d3 -> sameBoard d1 d3.
Proof.
  intros (A1 & A2 & A3 & A4 & A5 & A6) (B1 & B2 & B3 & B4 & B5 & B6).
  unfold sameBoard. rewrite B1, B2, B3, B4, B5, A1, A2, A3, A4, A5.
  split; [reflexivity|]. split; [reflexivity|]. split; [reflexivity|].
  split; [reflexivity|]. split; [reflexivity|].
  intros H. destruct (A6 H) as [Aw Ad].
  destruct (B6 ltac:(congruence)) as [Bw Bd]. split; congruence.
Qed.

Lemma forwardEntry_board insn value entry (d : @t Insn) :
  uop entry <> None ->
  exists d', forwardEntry insn value entry d = Some d' /\ sameBoard d d'.
Proof.
  intros Hu. unfold DispatchIssue.forwardEntry.
  destruct (uop entry) as [p|]; [|congruence].
  destruct (enableBypassLatency_ d) eqn:Eb.
  - destruct (_ =? 0).
    + eexists. split; [reflexivity|]. unfold sameBoard, DispatchIssue.supplyAndWake.
      destruct (canExecute _); simpl; rewrite Eb; repeat split; discriminate.
    + destruct (_ =? -1); eexists; (split; [reflexivity|]);
        unfold sameBoard; simpl; rewrite Eb; repeat split; discriminate.
  - simpl. eexists. split; [reflexivity|].
    unfold sameBoard, DispatchIssue.supplyAndWake.
    destruct (canExecute _); simpl; repeat split.
Qed.

Lemma forwardEntries_board insn value dependents : forall d : @t Insn,
  Forall (fun e => uop e <> None) dependents ->
  exists d', forwardEntries insn value dependents d = Some d' /\ sameBoard d d'.
Proof.
  induction dependents as [|e rest IH]; intros d Hall; simpl.
  - exists d. split; [reflexivity|apply sameBoard_refl].
  - apply Forall_cons_1 in Hall as [He Hall].
    destruct (forwardEntry_board insn value e d He) as (d1 & -> & H1).
    destruct (IH d1 Hall) as (d2 & -> & H2).
    exists d2. split; [reflexivity|]. eapply sameBoard_trans; eauto.
Qed.

Lemma forwardRegisters_board insn registers : forall values (d : @t Insn),
  length registers = length values ->
  (forall r, In r registers -> Forall (fun e => uop e <> None) (dependencyMatrix_ d r)) ->
  exists d',
    forwardRegisters insn registers values d = Some d'
    /\ (forall r, In r registers ->
          scoreboard_ d' r = true /\ dependencyMatrix_ d' r = [])
    /\ (forall r, ~ In r registers ->
          scoreboard_ d' r = scoreboard_ d r
          /\ dependencyMatrix_ d' r = dependencyMatrix_ d r)
    /\ ticks_ d' = ticks_ d /\ portMapping_ d' = portMapping_ d
    /\ (enableBypassLatency_ d = false ->
        waitingInstructions_ d' = waitingInstructions_ d
        /\ dependantInstructions_ d' = dependantInstructions_ d).
Proof.
  induction registers as [|reg registers IH]; intros values d Hlen Hnn.
  - exists d. simpl. split; [reflexivity|]. split; [intros r []|]. auto.
  - destruct values as [|value values]; [discriminate|]. simpl in Hlen.
    cbn [DispatchIssue.forwardRegisters].
    set (d1 := set_scoreboard reg true d).
    destruct (forwardEntries_board insn value (dependencyMatrix_ d1 reg) d1)
      as (d2 & -> & (S1 & S2 & S3 & S4 & S5 & S6)).
    { apply Hnn. now left. }
    set (d3 := set_dependencies reg [] d2).
    destruct (IH values d3 ltac:(lia)) as (d' & E & Hin & Hout & Ht & Hp & Hb).
    { intros r Hr. unfold d3. simpl. rewrite S2. simpl.
      destruct (Register_eqb r reg); [constructor|]. apply Hnn. now right. }
    exists d'. split; [exact E|].
    assert (Hreg : forall r, Register_eqb r reg = true <-> r = reg)
      by (intros r; apply Register_eqb_eq).
    split; [|split; [|split; [|split]]].
    + intros r [<-|Hr]; [|now apply Hin].
      destruct (in_dec Register_eq_dec reg registers) as [Hr|Hr];
        [now apply Hin|].
      destruct (Hout reg Hr) as [-> ->]. unfold d3. simpl. rewrite S1. simpl.
      now rewrite (proj2 (Register_eqb_eq reg reg) eq_refl).
    + intros r Hr. simpl in Hr.
      destruct (Hout r ltac:(tauto)) as [-> ->]. unfold d3. simpl.
      rewrite S1, S2. simpl.
      destruct (Register_eqb r reg) eqn:Er; [|auto].
      apply Register_eqb_eq in Er. subst r. tauto.
    + rewrite Ht. unfold d3. simpl. now rewrite S3.
    + rewrite Hp. unfold d3. simpl. now rewrite S4.
    + intros Hoff. unfold d3 in Hb. simpl in Hb. rewrite S5 in Hb.
      destruct (Hb Hoff) as [-> ->]. simpl. now apply S6.
Qed.

(** **** What [forwardOperands] does with every dependent *)

(** [getOperandRegisters] of the instructions and the rest of [tick]. *)
Variable getOperandRegisters : Insn -> list Register.

Local Abbreviation wake := (wake supplyOperand canExecute).
Local Abbreviation scanWaiting := (scanWaiting supplyOperand canExecute).
Local Abbreviation service :=
  (service supplyOperand canExecute getOperandRegisters).
Local Abbreviation scanDependants :=
  (scanDependants supplyOperand canExecute getOperandRegisters).
Local Abbreviation tick := (tick supplyOperand canExecute getOperandRegisters).

(** The latency that [forwardOperands] reads for the dependent [entry] of
    the instruction at [insn]. *)
Definition latencyOf (insn : nat) (d : @t Insn) (entry : Entry) : Z :=
  match uop entry with
  | Some p =>
      if enableBypassLatency_ d
      then canForward (heap d insn) (getProducerGroup (heap d insn))
                      (getConsumerGroup (heap d p))
      else 0
  | None => 0
  end.

(** The dependents of the destination registers with the value forwarded to
    each, in the order of the two loops. The list of a register is cleared
    once its dependents are done, so a register named twice has dependents
    the first time only. *)
Fixpoint dependentsOf (registers : list Register) (values : list RegisterValue)
    (matrix : Register -> list Entry) : list (Entry * RegisterValue) :=
  match registers, values with
  | reg :: registers', value :: values' =>
      map (fun e => (e, value)) (matrix reg)
      ++ dependentsOf registers' values'
           (fun r => if Register_eqb r reg then [] else matrix r)
  | _, _ => []
  end.

(** The dependents of latency 0, of latency -1, and the others. *)
Definition zeroOf (lat : Entry -> Z) (evs : list (Entry * RegisterValue))
    : list (Entry * RegisterValue) :=
  List.filter (fun ev => lat (fst ev) =? 0) evs.
Definition barredOf (lat : Entry -> Z) (evs : list (Entry * RegisterValue))
    : list (Entry * RegisterValue) :=
  List.filter (fun ev => lat (fst ev) =? -1) evs.
Definition timedOf (lat : Entry -> Z) (evs : list (Entry * RegisterValue))
    : list (Entry * RegisterValue) :=
  List.filter (fun ev => negb (lat (fst ev) =? 0) && negb (lat (fst ev) =? -1)) evs.

(** The operand of an entry supplied now, and those of a list in order. *)
Definition supplyNow (d : @t Insn) (ev : Entry * RegisterValue) : @t Insn :=
  match uop (fst ev) with
  | Some p => supplyAndWake p (fst ev) (snd ev) d
  | None => d
  end.
Definition supplyAll (evs : list (Entry * RegisterValue)) (d : @t Insn)
    : @t Insn :=
  fold_left supplyNow evs d.

(** Supplying an operand changes neither the groups of an instruction nor
    its forwarding latencies. *)
Definition groupsKept : Prop :=
  forall u i v,
    getProducerGroup (supplyOperand u i v) = getProducerGroup u
    /\ getConsumerGroup (supplyOperand u i v) = getConsumerGroup u
    /\ forall a b, canForward (supplyOperand u i v) a b = canForward u a b.

(** Supplying an operand does not change the operand registers. *)
Definition operandsKept : Prop :=
  forall u i v,
    getOperandRegisters (supplyOperand u i v) = getOperandRegisters u.

(** The register that the entry waits for and whether the scoreboard has it
    ready. *)
Definition regOf (d : @t Insn) (entry : Entry) : option Register :=
  match uop entry with
  | Some p => nth_error (getOperandRegisters (heap d p)) (operandIndex entry)
  | None => None
  end.
Definition readyAt (d : @t Insn) (entry : Entry) : bool :=
  match regOf d entry with
  | Some reg => scoreboard_ d reg
  | None => false
  end.

(** The entry with the value of its register in the register file. *)
Definition fromFile (registerFile : Register -> RegisterValue) (d : @t Insn)
    (entry : Entry) : Entry * RegisterValue :=
  (entry, match regOf d entry with Some reg => registerFile reg | None => [] end).

(** An entry that [tick] keeps: as it was, or with its pointer moved out. *)
Definition keptAs (entry kept : Entry) : Prop :=
  port kept = port entry /\ operandIndex kept = operandIndex entry
  /\ (uop kept = uop entry \/ uop kept = None).

(** What [forwardOperands] does to the instructions, the ready queues and
    the two lists, for the dependents [evs] with latencies [lat]. *)
Definition effect (lat : Entry -> Z) (evs : list (Entry * RegisterValue))
    (d d' : @t Insn) : Prop :=
  heap d' = heap (supplyAll (zeroOf lat evs) d)
  /\ ready d' = ready (supplyAll (zeroOf lat evs) d)
  /\ waitingInstructions_ d'
     = waitingInstructions_ d
       ++ map (fun ev => (wrap64 (ticks_ d + lat (fst ev)), ev)) (timedOf lat evs)
  /\ dependantInstructions_ d'
     = dependantInstructions_ d ++ map fst (barredOf lat evs)
  /\ ticks_ d' = ticks_ d /\ portMapping_ d' = portMapping_ d
  /\ enableBypassLatency_ d' = enableBypassLatency_ d.

Lemma supplyNow_fields (d : @t Insn) ev :
  ticks_ (supplyNow d ev) = ticks_ d
  /\ portMapping_ (supplyNow d ev) = portMapping_ d
  /\ enableBypassLatency_ (supplyNow d ev) = enableBypassLatency_ d
  /\ scoreboard_ (supplyNow d ev) = scoreboard_ d
  /\ dependencyMatrix_ (supplyNow d ev) = dependencyMatrix_ d
  /\ waitingInstructions_ (supplyNow d ev) = waitingInstructions_ d
  /\ dependantInstructions_ (supplyNow d ev) = dependantInstructions_ d.
Proof.
  unfold supplyNow, DispatchIssue.supplyAndWake.
  destruct (uop (fst ev)); [|auto 10].
  destruct (canExecute _); simpl; auto 10.
Qed.

Lemma supplyAll_fields evs : forall d : @t Insn,
  ticks_ (supplyAll evs d) = ticks_ d
  /\ portMapping_ (supplyAll evs d) = portMapping_ d
  /\ enableBypassLatency_ (supplyAll evs d) = enableBypassLatency_ d
  /\ scoreboard_ (supplyAll evs d) = scoreboard_ d
  /\ dependencyMatrix_ (supplyAll evs d) = dependencyMatrix_ d
  /\ waitingInstructions_ (supplyAll evs d) = waitingInstructions_ d
  /\ dependantInstructions_ (supplyAll evs d) = dependantInstructions_ d.
Proof.
  induction evs as [|ev evs IH]; intros d; simpl; [auto 10|].
  destruct (IH (supplyNow d ev)) as (H1 & H2 & H3 & H4 & H5 & H6 & H7).
  destruct (supplyNow_fields d ev) as (G1 & G2 & G3 & G4 & G5 & G6 & G7).
  unfold supplyAll in *. rewrite H1, H2, H3, H4, H5, H6, H7. auto 10.
Qed.

(** The instructions and the ready queues after a supply depend on the
    instructions, the ready queues and the port mapping before only. *)
Lemma supplyNow_core (d1 d2 : @t Insn) ev :
  heap d1 = heap d2 -> ready d1 = ready d2 -> portMapping_ d1 = portMapping_ d2 ->
  heap (supplyNow d1 ev) = heap (supplyNow d2 ev)
  /\ ready (supplyNow d1 ev) = ready (supplyNow d2 ev)
  /\ portMapping_ (supplyNow d1 ev) = portMapping_ (supplyNow d2 ev).
Proof.
  intros Hh Hr Hp. unfold supplyNow, DispatchIssue.supplyAndWake.
  destruct (uop (fst ev)) as [p|]; [|auto]. simpl.
  rewrite Nat.eqb_refl, Hh, Hp.
  destruct (canExecute _); simpl; rewrite ?Hh, ?Hr, ?Hp; auto.
Qed.

Lemma supplyAll_core evs : forall d1 d2 : @t Insn,
  heap d1 = heap d2 -> ready d1 = ready d2 -> portMapping_ d1 = portMapping_ d2 ->
  heap (supplyAll evs d1) = heap (supplyAll evs d2)
  /\ ready (supplyAll evs d1) = ready (supplyAll evs d2).
Proof.
  induction evs as [|ev evs IH]; intros d1 d2 Hh Hr Hp; simpl; [auto|].
  destruct (supplyNow_core d1 d2 ev Hh Hr Hp) as (H1 & H2 & H3).
  now apply IH.
Qed.

(** The instructions after a supply depend on the instructions before
    only. *)
Lemma supplyAll_heap evs : forall d1 d2 : @t Insn,
  heap d1 = heap d2 -> heap (supplyAll evs d1) = heap (supplyAll evs d2).
Proof.
  induction evs as [|ev evs IH]; intros d1 d2 Hh; simpl; [exact Hh|].
  apply IH. unfold supplyNow, DispatchIssue.supplyAndWake.
  destruct (uop (fst ev)) as [p|]; [|exact Hh]. simpl.
  rewrite Nat.eqb_refl, Hh.
  destruct (canExecute _); simpl; now rewrite Hh.
Qed.

Lemma supplyAll_app a b (d : @t Insn) :
  supplyAll (a ++ b) d = supplyAll b (supplyAll a d).
Proof. apply fold_left_app. Qed.

Lemma effect_nil lat (d d' : @t Insn) :
  heap d' = heap d -> ready d' = ready d ->
  waitingInstructions_ d' = waitingInstructions_ d ->
  dependantInstructions_ d' = dependantInstructions_ d ->
  ticks_ d' = ticks_ d -> portMapping_ d' = portMapping_ d ->
  enableBypassLatency_ d' = enableBypassLatency_ d ->
  effect lat [] d d'.
Proof.
  intros. unfold effect. simpl. rewrite !app_nil_r. auto 10.
Qed.

Lemma effect_app lat a b (d d1 d2 : @t Insn) :
  effect lat a d d1 -> effect lat b d1 d2 -> effect lat (a ++ b) d d2.
Proof.
  intros (A1 & A2 & A3 & A4 & A5 & A6 & A7) (B1 & B2 & B3 & B4 & B5 & B6 & B7).
  destruct (supplyAll_fields (zeroOf lat a) d) as (_ & Fp & _).
  destruct (supplyAll_core (zeroOf lat b) d1 (supplyAll (zeroOf lat a) d)
              A1 A2 ltac:(congruence)) as [Ch Cr].
  unfold effect, zeroOf, timedOf, barredOf in *.
  rewrite !List.filter_app, !map_app, supplyAll_app.
  rewrite B1, B2, B3, B4, B5, B6, B7, A3, A4, A5, <- !app_assoc.
  repeat split; assumption.
Qed.

(** One dependent. *)
Lemma forwardEntry_effect insn value entry p (d : @t Insn) :
  uop entry = Some p ->
  enableBypassLatency_ d = false \/ groupsKept ->
  exists d',
    forwardEntry insn value entry d = Some d'
    /\ effect (latencyOf insn d) [(entry, value)] d d'
    /\ (forall e, latencyOf insn d' e = latencyOf insn d e).
Proof.
  intros Hu Hk. unfold DispatchIssue.forwardEntry. rewrite Hu.
  assert (EL : latencyOf insn d entry
               = if enableBypassLatency_ d
                 then canForward (heap d insn) (getProducerGroup (heap d insn))
                                 (getConsumerGroup (heap d p))
                 else 0).
  { unfold latencyOf. now rewrite Hu. }
  rewrite <- EL.
  unfold effect, zeroOf, timedOf, barredOf. cbn [List.filter fst snd].
  destruct (Z.eqb_spec (latencyOf insn d entry) 0) as [E0|E0].
  - eexists. split; [reflexivity|].
    assert (E1 : (latencyOf insn d entry =? -1) = false)
      by (rewrite E0; reflexivity).
    rewrite E1. cbn [negb andb map supplyAll fold_left]. rewrite !app_nil_r.
    unfold supplyNow. cbn [fst snd]. rewrite Hu.
    destruct (supplyNow_fields d (entry, value)) as (G1 & G2 & G3 & G4 & G5 & G6 & G7).
    unfold supplyNow in G1, G2, G3, G4, G5, G6, G7. cbn [fst snd] in *.
    rewrite Hu in G1, G2, G3, G4, G5, G6, G7.
    split; [auto 10|].
    intros e. unfold latencyOf. destruct (uop e) as [q|]; [|reflexivity].
    rewrite G3. destruct (enableBypassLatency_ d) eqn:Eb; [|reflexivity].
    destruct Hk as [Hk|Hk]; [discriminate|].
    unfold DispatchIssue.supplyAndWake.
    assert (Hset : forall x,
              heap (set_heap p (supplyOperand (heap d p) (operandIndex entry) value) d) x
              = if (x =? p)%nat
                then supplyOperand (heap d p) (operandIndex entry) value
                else heap d x) by reflexivity.
    assert (Hh : forall x,
              getProducerGroup
                (heap (set_heap p (supplyOperand (heap d p) (operandIndex entry)
                                                 value) d) x)
              = getProducerGroup (heap d x)
              /\ getConsumerGroup
                   (heap (set_heap p (supplyOperand (heap d p) (operandIndex entry)
                                                    value) d) x)
                 = getConsumerGroup (heap d x)
              /\ forall a b,
                   canForward
                     (heap (set_heap p (supplyOperand (heap d p)
                                          (operandIndex entry) value) d) x) a b
                   = canForward (heap d x) a b).
    { intros x. rewrite Hset. destruct (Nat.eqb_spec x p) as [->|_]; [|auto].
      apply Hk. }
    destruct (canExecute _); cbn [heap push_ready];
      destruct (Hh insn) as (P1 & _ & P3); destruct (Hh q) as (_ & Q2 & _);
      now rewrite P1, Q2, P3.
  - destruct (Z.eqb_spec (latencyOf insn d entry) (-1)) as [E1|E1].
    + eexists. split; [reflexivity|].
      cbn [negb andb map supplyAll fold_left]. rewrite !app_nil_r.
      split; [simpl; auto 10|]. intros e. reflexivity.
    + eexists. split; [reflexivity|].
      cbn [negb andb map supplyAll fold_left fst snd]. rewrite !app_nil_r.
      split; [simpl; auto 10|]. intros e. reflexivity.
Qed.

(** The dependents of one register. *)
Lemma forwardEntries_effect insn value dependents : forall d : @t Insn,
  Forall (fun e => uop e <> None) dependents ->
  enableBypassLatency_ d = false \/ groupsKept ->
  exists d',
    forwardEntries insn value dependents d = Some d'
    /\ effect (latencyOf insn d) (map (fun e => (e, value)) dependents) d d'
    /\ (forall e, latencyOf insn d' e = latencyOf insn d e).
Proof.
  induction dependents as [|e rest IH]; intros d Hall Hk.
  - exists d. split; [reflexivity|]. split; [now apply effect_nil|reflexivity].
  - apply Forall_cons_1 in Hall as [He Hall].
    destruct (uop e) as [p|] eqn:Eu; [|congruence].
    destruct (forwardEntry_effect insn value e p d Eu Hk) as (d1 & E1 & F1 & L1).
    assert (Hk1 : enableBypassLatency_ d1 = false \/ groupsKept).
    { destruct Hk as [Hk|Hk]; [left|now right].
      destruct F1 as (_ & _ & _ & _ & _ & _ & ->). exact Hk. }
    destruct (IH d1 Hall Hk1) as (d2 & E2 & F2 & L2).
    exists d2. cbn [DispatchIssue.forwardEntries]. rewrite E1.
    split; [exact E2|]. split.
    + change (map (fun e0 => (e0, value)) (e :: rest))
        with ([(e, value)] ++ map (fun e0 => (e0, value)) rest).
      apply (effect_app _ _ _ d d1 d2 F1).
      destruct F2 as (B1 & B2 & B3 & B4 & B5 & B6 & B7).
      assert (Ext : forall l : list (Entry * RegisterValue),
                List.filter (fun ev => latencyOf insn d1 (fst ev) =? 0) l
                = List.filter (fun ev => latencyOf insn d (fst ev) =? 0) l
                /\ List.filter (fun ev => latencyOf insn d1 (fst ev) =? -1) l
                   = List.filter (fun ev => latencyOf insn d (fst ev) =? -1) l
                /\ List.filter (fun ev => negb (latencyOf insn d1 (fst ev) =? 0)
                                          && negb (latencyOf insn d1 (fst ev) =? -1)) l
                   = List.filter (fun ev => negb (latencyOf insn d (fst ev) =? 0)
                                            && negb (latencyOf insn d (fst ev) =? -1)) l).
      { intros l. repeat split; apply filter_ext; intros ev; now rewrite L1. }
      unfold effect, zeroOf, timedOf, barredOf in *.
      destruct (Ext (map (fun e0 => (e0, value)) rest)) as (X1 & X2 & X3).
      rewrite X1, X2, X3 in *.
      rewrite B1, B2, B3, B4, B5, B6, B7.
      repeat split; try reflexivity.
      f_equal. apply map_ext. intros ev. now rewrite L1.
    + intros e0. now rewrite L2, L1.
Qed.
Lemma effect_ext lat lat' evs (d d' : @t Insn) :
  (forall e, lat e = lat' e) -> effect lat evs d d' -> effect lat' evs d d'.
Proof.
  intros Hl (A1 & A2 & A3 & A4 & A5 & A6 & A7).
  assert (X1 : zeroOf lat' evs = zeroOf lat evs)
    by (apply filter_ext; intros ev; now rewrite Hl).
  assert (X2 : barredOf lat' evs = barredOf lat evs)
    by (apply filter_ext; intros ev; now rewrite Hl).
  assert (X3 : timedOf lat' evs = timedOf lat evs)
    by (apply filter_ext; intros ev; now rewrite Hl).
  unfold effect. rewrite X1, X2, X3, A3. repeat split; try assumption.
  f_equal. apply map_ext. intros ev. now rewrite Hl.
Qed.

(** The dependents of all destination registers. *)
Lemma forwardRegisters_effect insn registers : forall values (d : @t Insn),
  length registers = length values ->
  (forall r, In r registers -> Forall (fun e => uop e <> None) (dependencyMatrix_ d r)) ->
  enableBypassLatency_ d = false \/ groupsKept ->
  exists d',
    forwardRegisters insn registers values d = Some d'
    /\ effect (latencyOf insn d)
              (dependentsOf registers values (dependencyMatrix_ d)) d d'.
Proof.
  induction registers as [|reg registers IH]; intros values d Hlen Hnn Hk.
  - exists d. split; [reflexivity|]. now apply effect_nil.
  - destruct values as [|value values]; [discriminate|]. simpl in Hlen.
    cbn [DispatchIssue.forwardRegisters dependentsOf].
    set (d1 := set_scoreboard reg true d).
    assert (Hdeps : Forall (fun e => uop e <> None) (dependencyMatrix_ d1 reg))
      by (apply Hnn; now left).
    destruct (forwardEntries_effect insn value (dependencyMatrix_ d1 reg) d1
                Hdeps Hk) as (d2 & E2 & F2 & L2).
    destruct (forwardEntries_board insn value (dependencyMatrix_ d1 reg) d1 Hdeps)
      as (d2' & E2' & (_ & S2 & _ & _ & S5 & _)).
    assert (d2' = d2) by congruence. subst d2'. rewrite E2.
    set (d3 := set_dependencies reg [] d2).
    assert (Em : dependencyMatrix_ d3
                 = fun r => if Register_eqb r reg then [] else dependencyMatrix_ d r).
    { unfold d3. simpl. now rewrite S2. }
    destruct (IH values d3 ltac:(lia)) as (d' & E & F).
    { intros r Hr. rewrite Em. destruct (Register_eqb r reg); [constructor|].
      apply Hnn. now right. }
    { destruct Hk as [Hk|Hk]; [left|now right].
      unfold d3. simpl. rewrite S5. exact Hk. }
    exists d'. split; [exact E|]. rewrite Em in F.
    apply (effect_app _ _ _ d d2 d').
    + change (map (fun e => (e, value)) (dependencyMatrix_ d reg))
        with ([] ++ map (fun e => (e, value)) (dependencyMatrix_ d1 reg)).
      apply (effect_app _ _ _ d d1 d2); [now apply effect_nil|exact F2].
    + change (dependentsOf registers values
                (fun r => if Register_eqb r reg then [] else dependencyMatrix_ d r))
        with ([] ++ dependentsOf registers values
                      (fun r => if Register_eqb r reg then []
                                else dependencyMatrix_ d r)).
      apply (effect_app _ _ _ d2 d3 d'); [now apply effect_nil|].
      apply (effect_ext (latencyOf insn d3)); [|exact F].
      intros e. exact (L2 e).
Qed.

Lemma forwardOperands_effect insn (d : @t Insn) :
  length (getDestinationRegisters (heap d insn))
  = length (getResults (heap d insn)) ->
  (forall r, In r (getDestinationRegisters (heap d insn)) ->
     Forall (fun e => uop e <> None) (dependencyMatrix_ d r)) ->
  enableBypassLatency_ d = false \/ groupsKept ->
  exists d',
    forwardOperands insn d = Some d'
    /\ effect (latencyOf insn d)
              (dependentsOf (getDestinationRegisters (heap d insn))
                            (getResults (heap d insn)) (dependencyMatrix_ d))
              d d'.
Proof.
  intros Hlen Hnn Hk. unfold DispatchIssue.forwardOperands.
  rewrite Hlen, Nat.eqb_refl. simpl. now apply forwardRegisters_effect.
Qed.

(** **** What [tick] does with the two lists *)

(** The first scan supplies the entries listed for the current tick, in
    order, and keeps the others. *)
Lemma scanWaiting_effect l : forall d : @t Insn,
  (forall w, In w l -> fst w = ticks_ d -> uop (fst (snd w)) <> None) ->
  scanWaiting l d
  = Some (List.filter (fun w => negb (fst w =? ticks_ d)) l,
          supplyAll (map snd (List.filter (fun w => fst w =? ticks_ d) l)) d).
Proof.
  induction l as [|w l IH]; intros d Hnn; [reflexivity|].
  cbn [DispatchIssue.scanWaiting List.filter]. unfold DispatchIssue.wake.
  destruct (Z.eqb_spec (fst w) (ticks_ d)) as [Ew|Ew].
  - destruct (uop (fst (snd w))) as [p|] eqn:Eu;
      [|now destruct (Hnn w (or_introl eq_refl) Ew)].
    assert (Et : ticks_ (supplyAndWake p (fst (snd w)) (snd (snd w)) d) = ticks_ d).
    { unfold DispatchIssue.supplyAndWake. now destruct (canExecute _). }
    rewrite IH.
    + rewrite Et. cbn [negb map supplyAll fold_left]. unfold supplyNow.
      now rewrite Eu.
    + intros w' Hw'. rewrite Et. apply Hnn. now right.
  - rewrite IH by (intros w' Hw'; apply Hnn; now right). reflexivity.
Qed.

Lemma regOf_same (d d' : @t Insn) :
  (forall p, getOperandRegisters (heap d' p) = getOperandRegisters (heap d p)) ->
  scoreboard_ d' = scoreboard_ d ->
  forall e, regOf d' e = regOf d e /\ readyAt d' e = readyAt d e.
Proof.
  intros Hh Hs e. unfold readyAt, regOf. destruct (uop e) as [p|]; [|auto].
  now rewrite Hh, Hs.
Qed.

(** The second scan supplies, from the register file, the entries whose
    register the scoreboard has ready, in order, and keeps the others. *)
Lemma scanDependants_effect registerFile l : forall d : @t Insn,
  operandsKept ->
  (forall e, In e l -> uop e <> None /\ regOf d e <> None) ->
  exists kept d',
    scanDependants registerFile l d = Some (kept, d')
    /\ Forall2 keptAs (List.filter (fun e => negb (readyAt d e)) l) kept
    /\ heap d'
       = heap (supplyAll (map (fromFile registerFile d) (List.filter (readyAt d) l)) d)
    /\ (kept = List.filter (fun e => negb (readyAt d e)) l ->
        ready d'
        = ready (supplyAll (map (fromFile registerFile d)
                                (List.filter (readyAt d) l)) d))
    /\ scoreboard_ d' = scoreboard_ d
    /\ dependencyMatrix_ d' = dependencyMatrix_ d
    /\ ticks_ d' = ticks_ d /\ portMapping_ d' = portMapping_ d
    /\ waitingInstructions_ d' = waitingInstructions_ d
    /\ enableBypassLatency_ d' = enableBypassLatency_ d.
Proof.
  induction l as [|e l IH]; intros d Hok Hnn.
  - exists [], d. split; [reflexivity|]. split; [constructor|]. auto 10.
  - destruct (Hnn e (or_introl eq_refl)) as [Hu Hr].
    destruct (uop e) as [p|] eqn:Eu; [|congruence].
    assert (Er : regOf d e
                 = nth_error (getOperandRegisters (heap d p)) (operandIndex e)).
    { unfold regOf. now rewrite Eu. }
    destruct (nth_error (getOperandRegisters (heap d p)) (operandIndex e))
      as [reg|] eqn:Ereg; [|congruence].
    assert (Era : readyAt d e = scoreboard_ d reg).
    { unfold readyAt. now rewrite Er. }
    cbn [DispatchIssue.scanDependants List.filter].
    unfold DispatchIssue.service. rewrite Eu, Ereg, Era.
    destruct (scoreboard_ d reg) eqn:Esb.
    + (* supplied from the register file *)
      set (d1 := set_heap p (supplyOperand (heap d p) (operandIndex e)
                                           (registerFile reg)) d).
      set (d2 := if canExecute (heap d1 p)
                 then push_ready (portMapping_ d1 (port e)) p d1 else d1).
      assert (E2 : d2 = supplyNow d (fromFile registerFile d e)).
      { unfold supplyNow, fromFile. cbn [fst snd]. rewrite Eu, Er. reflexivity. }
      assert (Hsame : forall q, getOperandRegisters (heap d2 q)
                                = getOperandRegisters (heap d q)).
      { intros q. unfold d2. 
        assert (H1 : heap d1 q = if (q =? p)%nat
                                 then supplyOperand (heap d p) (operandIndex e)
                                                    (registerFile reg)
                                 else heap d q) by reflexivity.
        destruct (canExecute (heap d1 p)); cbn [heap push_ready]; rewrite H1;
          (destruct (Nat.eqb_spec q p) as [Eq|_]; [rewrite Eq; apply Hok|reflexivity]). }
      assert (Hsb : scoreboard_ d2 = scoreboard_ d).
      { unfold d2. now destruct (canExecute (heap d1 p)). }
      destruct (IH d2 Hok) as (kept & d' & E & K & Hh & Hrd & F1 & F2 & F3 & F4 & F5 & F6).
      { intros e' He'. destruct (Hnn e' (or_intror He')) as [H1 H2].
        split; [exact H1|].
        now rewrite (proj1 (regOf_same d d2 Hsame Hsb e')). }
      assert (Xr : List.filter (readyAt d2) l = List.filter (readyAt d) l).
      { apply filter_ext. intros e'. apply (regOf_same d d2 Hsame Hsb). }
      assert (Xn : List.filter (fun e' => negb (readyAt d2 e')) l
                   = List.filter (fun e' => negb (readyAt d e')) l).
      { apply filter_ext. intros e'.
        now rewrite (proj2 (regOf_same d d2 Hsame Hsb e')). }
      assert (Xf : map (fromFile registerFile d2) (List.filter (readyAt d) l)
                   = map (fromFile registerFile d) (List.filter (readyAt d) l)).
      { apply map_ext. intros e'. unfold fromFile.
        now rewrite (proj1 (regOf_same d d2 Hsame Hsb e')). }
      rewrite Xr, Xn, Xf in *.
      exists kept, d'. rewrite E. cbn [negb map supplyAll fold_left].
      fold (supplyAll (map (fromFile registerFile d) (List.filter (readyAt d) l))
                      (supplyNow d (fromFile registerFile d e))).
      rewrite <- E2.
      split; [reflexivity|]. split; [exact K|]. split; [exact Hh|].
      split; [exact Hrd|].
      assert (G : ticks_ d2 = ticks_ d /\ portMapping_ d2 = portMapping_ d
                  /\ waitingInstructions_ d2 = waitingInstructions_ d
                  /\ enableBypassLatency_ d2 = enableBypassLatency_ d
                  /\ dependencyMatrix_ d2 = dependencyMatrix_ d).
      { unfold d2. destruct (canExecute (heap d1 p)); simpl; auto. }
      destruct G as (G1 & G2 & G3 & G4 & G5).
      rewrite F1, F2, F3, F4, F5, F6. auto 10.
    + (* not ready: kept *)
      set (d2 := if canExecute (heap d p)
                 then push_ready (portMapping_ d (port e)) p d else d).
      assert (Hheap : heap d2 = heap d).
      { unfold d2. now destruct (canExecute (heap d p)). }
      assert (Hsb : scoreboard_ d2 = scoreboard_ d).
      { unfold d2. now destruct (canExecute (heap d p)). }
      assert (Hsame : forall q, getOperandRegisters (heap d2 q)
                                = getOperandRegisters (heap d q))
        by (intros q; now rewrite Hheap).
      destruct (IH d2 Hok) as (kept & d' & E & K & Hh & Hrd & F1 & F2 & F3 & F4 & F5 & F6).
      { intros e' He'. destruct (Hnn e' (or_intror He')) as [H1 H2].
        split; [exact H1|].
        now rewrite (proj1 (regOf_same d d2 Hsame Hsb e')). }
      assert (Xr : List.filter (readyAt d2) l = List.filter (readyAt d) l).
      { apply filter_ext. intros e'. apply (regOf_same d d2 Hsame Hsb). }
      assert (Xn : List.filter (fun e' => negb (readyAt d2 e')) l
                   = List.filter (fun e' => negb (readyAt d e')) l).
      { apply filter_ext. intros e'.
        now rewrite (proj2 (regOf_same d d2 Hsame Hsb e')). }
      assert (Xf : map (fromFile registerFile d2) (List.filter (readyAt d) l)
                   = map (fromFile registerFile d) (List.filter (readyAt d) l)).
      { apply map_ext. intros e'. unfold fromFile.
        now rewrite (proj1 (regOf_same d d2 Hsame Hsb e')). }
      rewrite Xr, Xn, Xf in *.
      eexists _, d'. rewrite E. cbn [negb].
      split; [reflexivity|].
      assert (G : ticks_ d2 = ticks_ d /\ portMapping_ d2 = portMapping_ d
                  /\ waitingInstructions_ d2 = waitingInstructions_ d
                  /\ enableBypassLatency_ d2 = enableBypassLatency_ d
                  /\ dependencyMatrix_ d2 = dependencyMatrix_ d).
      { unfold d2. destruct (canExecute (heap d p)); simpl; auto. }
      destruct G as (G1 & G2 & G3 & G4 & G5).
      split.
      { constructor; [|exact K]. unfold keptAs.
        destruct (canExecute (heap d p)); simpl; auto. }
      split.
      { rewrite Hh. now apply supplyAll_heap. }
      split.
      { intros Hkept. injection Hkept as Hk0 Hk1.
        destruct (canExecute (heap d p)) eqn:Ex.
        - rewrite <- Hk0 in Eu. discriminate.
        - now apply Hrd. }
      rewrite F1, F2, F3, F4, F5, F6. auto 10.
Qed.

(** [tick], up to the dispatch. *)
Lemma tick_effect registerFile (d : @t Insn) :
  operandsKept ->
  (forall w, In w (waitingInstructions_ d) -> fst w = wrap64 (ticks_ d + 1) ->
             uop (fst (snd w)) <> None) ->
  (forall e, In e (dependantInstructions_ d) -> uop e <> None /\ regOf d e <> None) ->
  let due := List.filter (fun w => fst w =? wrap64 (ticks_ d + 1))
                         (waitingInstructions_ d) in
  let served := List.filter (readyAt d) (dependantInstructions_ d) in
  let supplied := map snd due ++ map (fromFile registerFile d) served in
  exists d',
    tick registerFile d = Some d'
    /\ ticks_ d' = wrap64 (ticks_ d + 1)
    /\ waitingInstructions_ d'
       = List.filter (fun w => negb (fst w =? wrap64 (ticks_ d + 1)))
                     (waitingInstructions_ d)
    /\ Forall2 keptAs
         (List.filter (fun e => negb (readyAt d e)) (dependantInstructions_ d))
         (dependantInstructions_ d')
    /\ heap d' = heap (supplyAll supplied d)
    /\ (dependantInstructions_ d'
        = List.filter (fun e => negb (readyAt d e)) (dependantInstructions_ d) ->
        ready d' = ready (supplyAll supplied d))
    /\ scoreboard_ d' = scoreboard_ d
    /\ dependencyMatrix_ d' = dependencyMatrix_ d
    /\ portMapping_ d' = portMapping_ d.
Proof.
  intros Hok Hw Hd due served supplied. unfold DispatchIssue.tick.
  set (d0 := set_ticks (wrap64 (ticks_ d + 1)) d).
  change (waitingInstructions_ d0) with (waitingInstructions_ d).
  rewrite scanWaiting_effect by exact Hw.
  change (ticks_ d0) with (wrap64 (ticks_ d + 1)). fold due.
  set (d1 := supplyAll (map snd due) d0).
  set (waiting := List.filter _ (waitingInstructions_ d)).
  destruct (supplyAll_fields (map snd due) d0) as (A1 & A2 & A3 & A4 & A5 & A6 & A7).
  fold d1 in A1, A2, A3, A4, A5, A6, A7.
  set (d2 := set_waiting waiting d1).
  assert (Edeps : dependantInstructions_ d2 = dependantInstructions_ d) by exact A7.
  rewrite Edeps.
  (* the operand registers after the first scan *)
  assert (Hregs : forall evs (x : @t Insn) q,
            getOperandRegisters (heap (supplyAll evs x) q)
            = getOperandRegisters (heap x q)).
  { induction evs as [|ev evs IHe]; intros x q; [reflexivity|].
    cbn [supplyAll fold_left]. fold (supplyAll evs (supplyNow x ev)).
    rewrite IHe. unfold supplyNow, DispatchIssue.supplyAndWake.
    destruct (uop (fst ev)) as [p|]; [|reflexivity].
    assert (H1 : forall y, heap (set_heap p y x) q
                           = if (q =? p)%nat then y else heap x q) by reflexivity.
    destruct (canExecute _); cbn [heap push_ready]; rewrite H1;
      (destruct (Nat.eqb_spec q p) as [Eq|_]; [rewrite Eq; apply Hok|reflexivity]). }
  assert (Hsame : forall q, getOperandRegisters (heap d2 q)
                            = getOperandRegisters (heap d q)).
  { intros q. change (heap d2 q) with (heap d1 q). unfold d1. now rewrite Hregs. }
  assert (Hsb : scoreboard_ d2 = scoreboard_ d) by exact A4.
  destruct (scanDependants_effect registerFile (dependantInstructions_ d) d2 Hok)
    as (kept & d3 & E & K & Hh & Hrd & F1 & F2 & F3 & F4 & F5 & F6).
  { intros e He. destruct (Hd e He) as [H1 H2]. split; [exact H1|].
    now rewrite (proj1 (regOf_same d d2 Hsame Hsb e)). }
  assert (Xr : List.filter (readyAt d2) (dependantInstructions_ d) = served).
  { apply filter_ext. intros e. apply (regOf_same d d2 Hsame Hsb). }
  assert (Xn : List.filter (fun e => negb (readyAt d2 e)) (dependantInstructions_ d)
               = List.filter (fun e => negb (readyAt d e)) (dependantInstructions_ d)).
  { apply filter_ext. intros e. now rewrite (proj2 (regOf_same d d2 Hsame Hsb e)). }
  assert (Xf : map (fromFile registerFile d2) served
               = map (fromFile registerFile d) served).
  { apply map_ext. intros e. unfold fromFile.
    now rewrite (proj1 (regOf_same d d2 Hsame Hsb e)). }
  rewrite Xr, Xn, Xf in *. rewrite E.
  destruct (supplyAll_core (map (fromFile registerFile d) served) d2
              (supplyAll (map snd due) d)) as [Ch Cr].
  { change (heap d2) with (heap d1). unfold d1. now apply supplyAll_heap. }
  { change (ready d2) with (ready d1). unfold d1.
    now apply (supplyAll_core (map snd due) d0 d). }
  { change (portMapping_ d2) with (portMapping_ d1). rewrite A2.
    destruct (supplyAll_fields (map snd due) d) as (_ & -> & _). reflexivity. }
  eexists. split; [reflexivity|]. cbn [ticks_ waitingInstructions_
    dependantInstructions_ heap ready scoreboard_ dependencyMatrix_ portMapping_
    set_dependants].
  unfold supplied. rewrite supplyAll_app, <- Ch, <- Cr.
  split; [now rewrite F3|]. split; [now rewrite F5|]. split; [exact K|].
  split; [exact Hh|]. split; [exact Hrd|].
  split; [rewrite F1; exact Hsb|]. split; [rewrite F2; exact A5|].
  rewrite F4. exact A2.
Qed.


(** C8 (amended). [forwardOperands] with bypass latency enabled goes
    through the dependent entries of each produced register and reads the
    forwarding latency [L] of producer and consumer for each. The entries
    with [L = 0] are supplied at once, in order: each gets the result as its
    operand and joins the ready queue of its port if it can execute then; no
    other entry is supplied. An entry with [L = -1] is appended to the list
    that [tick] serves from the register file, and any other entry is listed
    for the supply of the result at tick [ticks_ + L]; the produced registers
    are ready in the scoreboard. One [tick] then supplies, in order, the
    entries listed for the tick that it starts and keeps those listed for
    another tick; after them it supplies, from the register file, the entries
    of the second list whose register the scoreboard has ready, and keeps the
    others. *)
Theorem C8_forward_latency (insn : nat) (d : @t Insn) :
  groupsKept ->
  enableBypassLatency_ d = true ->
  length (getDestinationRegisters (heap d insn))
  = length (getResults (heap d insn)) ->
  (forall r, In r (getDestinationRegisters (heap d insn)) ->
     Forall (fun e => uop e <> None) (dependencyMatrix_ d r)) ->
  let evs := dependentsOf (getDestinationRegisters (heap d insn))
                          (getResults (heap d insn)) (dependencyMatrix_ d) in
  let lat := latencyOf insn d in
  (exists d',
     forwardOperands insn d = Some d'
     /\ heap d' = heap (supplyAll (zeroOf lat evs) d)
     /\ ready d' = ready (supplyAll (zeroOf lat evs) d)
     /\ waitingInstructions_ d'
        = waitingInstructions_ d
          ++ map (fun ev => (wrap64 (ticks_ d + lat (fst ev)), ev)) (timedOf lat evs)
     /\ dependantInstructions_ d'
        = dependantInstructions_ d ++ map fst (barredOf lat evs)
     /\ (forall r, In r (getDestinationRegisters (heap d insn)) ->
           scoreboard_ d' r = true)
     /\ ticks_ d' = ticks_ d)
  /\ (forall (registerFile : Register -> RegisterValue) (d1 : @t Insn),
        operandsKept ->
        (forall w, In w (waitingInstructions_ d1) ->
                   fst w = wrap64 (ticks_ d1 + 1) -> uop (fst (snd w)) <> None) ->
        (forall e, In e (dependantInstructions_ d1) ->
                   uop e <> None /\ regOf d1 e <> None) ->
        let due := List.filter (fun w => fst w =? wrap64 (ticks_ d1 + 1))
                               (waitingInstructions_ d1) in
        let served := List.filter (readyAt d1) (dependantInstructions_ d1) in
        let supplied := map snd due ++ map (fromFile registerFile d1) served in
        exists d2,
          tick registerFile d1 = Some d2
          /\ ticks_ d2 = wrap64 (ticks_ d1 + 1)
          /\ waitingInstructions_ d2
             = List.filter (fun w => negb (fst w =? wrap64 (ticks_ d1 + 1)))
                           (waitingInstructions_ d1)
          /\ Forall2 keptAs
               (List.filter (fun e => negb (readyAt d1 e))
                            (dependantInstructions_ d1))
               (dependantInstructions_ d2)
          /\ heap d2 = heap (supplyAll supplied d1)
          /\ (dependantInstructions_ d2
              = List.filter (fun e => negb (readyAt d1 e))
                            (dependantInstructions_ d1) ->
              ready d2 = ready (supplyAll supplied d1))
          /\ scoreboard_ d2 = scoreboard_ d1
          /\ dependencyMatrix_ d2 = dependencyMatrix_ d1
          /\ portMapping_ d2 = portMapping_ d1).
Proof.
  intros Hk Hon Hlen Hnn evs lat. split.
  - destruct (forwardOperands_effect insn d Hlen Hnn (or_intror Hk))
      as (d' & E & (F1 & F2 & F3 & F4 & F5 & _)).
    exists d'. split; [exact E|]. split; [exact F1|]. split; [exact F2|].
    split; [exact F3|]. split; [exact F4|]. split; [|exact F5].
    assert (Hb : exists d2,
               forwardOperands insn d = Some d2
               /\ (forall r, In r (getDestinationRegisters (heap d insn)) ->
                     scoreboard_ d2 r = true /\ dependencyMatrix_ d2 r = [])).
    { unfold DispatchIssue.forwardOperands. rewrite Hlen, Nat.eqb_refl. simpl.
      destruct (forwardRegisters_board insn _ (getResults (heap d insn)) d Hlen Hnn)
        as (d2 & E2 & H2 & _). eauto. }
    destruct Hb as (d2 & E2 & H2).
    assert (d2 = d') by congruence. subst d2.
    intros r Hr. now apply H2.
  - intros registerFile d1 Hok Hw Hd. now apply tick_effect.
Qed.

End Forwarding.

(** C8 as stated fails for a negative latency other than -1: with latency
    -2 the dependent entry is not put on the list that [tick] serves from
    the register file but on the timed list, for tick 8 at tick 10; the
    scoreboard has the register ready, and for every number of ticks before
    the counter wraps the operand of the consumer is still not supplied. *)
Lemma C8_counterexample_latency_minus2 :
  latency producer0 (producerGroup producer0) (consumerGroup (consumer 3)) = -2
  /\ dependencyMatrix_ (unit0 3) r1 = [entry1]
  /\ option_map observe (forward0 3) = Some ([None], [8], [], true)
  /\ forall n : nat, 10 + Z.of_nat n < 2 ^ 64 ->
       exists d,
         mbind (ticksN n) (forward0 3) = Some d
         /\ slots (heap d 1%nat) = [None]
         /\ scoreboard_ d r1 = true
         /\ dependantInstructions_ d = [].
Proof.
  split; [reflexivity|]. split; [reflexivity|]. split; [reflexivity|].
  intros n Hn.
  destruct (forward0 3) as [d1|] eqn:E; [|discriminate].
  assert (Ho : observe d1 = ([None], [8], [], true)).
  { assert (H : option_map observe (forward0 3) = Some ([None], [8], [], true))
      by reflexivity.
    rewrite E in H. simpl in H. congruence. }
  assert (Ht : ticks_ d1 = 10).
  { assert (H : option_map ticks_ (forward0 3) = Some 10) by reflexivity.
    rewrite E in H. simpl in H. congruence. }
  unfold observe in Ho. injection Ho as Hslots Hw Hd Hs.
  destruct (stuck_ticks n d1 Hw Hd ltac:(lia) ltac:(lia))
    as (d & Hrun & Hh & Hsc & Hdep).
  exists d. simpl. split; [exact Hrun|]. rewrite Hh, Hsc. auto.
Qed.

Lemma supply_groupsKept :
  groupsKept supply producerGroup consumerGroup latency.
Proof. intros u i v. repeat split. Qed.

Lemma supply_operandsKept : operandsKept supply sources.
Proof. intros u i v. reflexivity. Qed.

(** The consumer of group 1, of latency 3: nothing is supplied at tick 10,
    the supply is listed for tick 13, and the tick that starts tick 11 keeps
    it listed. *)
Lemma C8_forward_latency_witness :
  exists d',
    forward0 1 = Some d'
    /\ slots (heap d' 1%nat) = [None]
    /\ waitingInstructions_ d' = [(13, (entry1, result1))]
    /\ scoreboard_ d' r1 = true
    /\ exists d2,
         tick0 d' = Some d2
         /\ ticks_ d2 = 11
         /\ waitingInstructions_ d2 = [(13, (entry1, result1))].
Proof.
  destruct (C8_forward_latency supply executable destinations results
              producerGroup consumerGroup latency sources 0%nat (unit0 1)
              supply_groupsKept eq_refl eq_refl) as [HA HB].
  { intros r [<-|[]]. repeat constructor. discriminate. }
  destruct HA as (d' & E & Hh & _ & Hw & _ & Hs & Ht).
  exists d'. split; [exact E|].
  split; [rewrite Hh; reflexivity|]. split; [rewrite Hw; reflexivity|].
  split; [apply Hs; now left|].
  destruct (HB registers0 d' supply_operandsKept) as (d2 & E2 & T2 & W2 & _).
  - rewrite Hw, Ht. intros w [<-|[]]. discriminate.
  - assert (Hd : dependantInstructions_ d' = []).
    { assert (H : option_map (@dependantInstructions_ Uop) (forward0 1) = Some [])
        by reflexivity.
      unfold forward0 in H. rewrite E in H. now injection H. }
    rewrite Hd. intros e [].
  - exists d2. split; [exact E2|]. rewrite T2, W2, Hw, Ht.
    split; reflexivity.
Defined.



(** *** The reservation stations set up by the constructor *)

(** The two structs are declared in a header that is not among the sources;
    their fields are those that the functions of this file use. A port of a
    reservation station has the issue port it feeds and its ready queue. *)
Record ReservationStationPort : Type := mkRSPort {
  issuePort : nat;
  rsReady : list nat
}.

(** A reservation station. *)
Record ReservationStation : Type := mkRS {
  capacity : Z;
  currentSize : Z;
  ports : list ReservationStationPort
}.

(** [vector::resize(n, x)]. *)
Definition resizeTo {A : Type} (n : nat) (x : A) (l : list A) : list A :=
  firstn n (l ++ replicate (n - length l) x).

(** The number of ports already mapped to reservation station [r]. *)
Definition portsOf (r : nat) (l : list nat) : nat :=
  length (List.filter (fun x => (x =? r)%nat) l).

(** The body of the loop of the constructor over [rsArrangement], for issue
    port [port] and its entry [RS]; [port_index] is a [uint8_t]. *)
Definition addPort (port : nat) (RS : nat * Z)
    (s : list (nat * nat) * list ReservationStation)
    : list (nat * nat) * list ReservationStation :=
  let '(portMapping, stations) := s in
  let stations1 :=
    if (length stations <? fst RS + 1)%nat
    then resizeTo (fst RS + 1) (mkRS 0 0 []) stations else stations in
  let stations2 :=
    alter (fun st => mkRS (snd RS) (currentSize st) (ports st)) (fst RS) stations1 in
  let port_index := (portsOf (fst RS) (map fst portMapping) mod 256)%nat in
  let portMapping' := portMapping ++ [(fst RS, port_index)] in
  let stations3 :=
    alter (fun st =>
             mkRS (capacity st) (currentSize st)
                  (alter (fun pt => mkRSPort port (rsReady pt)) port_index
                         (resizeTo (port_index + 1) (mkRSPort 0 []) (ports st))))
          (fst RS) stations2 in
  (portMapping', stations3).

Fixpoint constructFrom (port : nat) (rsArrangement : list (nat * Z))
    (s : list (nat * nat) * list ReservationStation)
    : list (nat * nat) * list ReservationStation :=
  match rsArrangement with
  | [] => s
  | RS :: rest => constructFrom (S port) rest (addPort port RS s)
  end.

(** The last loop of the constructor, [for (uint8_t i = 0; i <
    reservationStations_.size(); i++) flushed_.emplace(i, {})], on the keys of
    [flushed_]: the counter is a [uint8_t], so 0 follows 255, and [emplace]
    leaves a key that is there. The result is [None] when the rounds allowed
    by [fuel] are used up. *)
Fixpoint emplaceFlushed (fuel : nat) (i size : nat) (flushed : list nat)
    : option (list nat) :=
  match fuel with
  | O => None
  | S fuel' =>
      if (i <? size)%nat then
        emplaceFlushed fuel' ((i + 1) mod 256)%nat size
          (if existsb (Nat.eqb i) flushed then flushed else flushed ++ [i])
      else Some flushed
  end.

(** What the constructor sets up: [portMapping_], [reservationStations_],
    [dispatches] and the keys of [flushed_]. *)
Record Constructed : Type := mkConstructed {
  cPortMapping : list (nat * nat);
  cStations : list ReservationStation;
  cDispatches : list Z;
  cFlushed : list nat
}.

(** The constructor, from the loop over [rsArrangement] on. The first
    component of an entry of [rsArrangement] is a [uint8_t], a station index
    of at most 255. *)
Definition construct (fuel : nat) (rsArrangement : list (nat * Z))
    : option Constructed :=
  let s := constructFrom 0 rsArrangement ([], []) in
  match emplaceFlushed fuel 0 (length (snd s)) [] with
  | Some flushed =>
      Some (mkConstructed (fst s) (snd s)
                          (resizeTo (length (snd s)) 0 []) flushed)
  | None => None
  end.

Lemma resizeTo_length {A : Type} n (x : A) l : length (resizeTo n x l) = n.
Proof.
  unfold resizeTo. rewrite length_firstn, length_app, length_replicate. lia.
Qed.

Lemma resizeTo_lookup_old {A : Type} n (x : A) l j :
  (j < length l)%nat -> (j < n)%nat -> resizeTo n x l !! j = l !! j.
Proof.
  intros Hj Hn. unfold resizeTo. rewrite lookup_take_lt by exact Hn.
  now apply lookup_app_l.
Qed.

Lemma resizeTo_lookup_new {A : Type} n (x : A) l j :
  (length l <= j)%nat -> (j < n)%nat -> resizeTo n x l !! j = Some x.
Proof.
  intros Hj Hn. unfold resizeTo. rewrite lookup_take_lt by exact Hn.
  rewrite lookup_app_r by exact Hj. apply lookup_replicate_2. lia.
Qed.

Lemma portsOf_app r a b : portsOf r (a ++ b) = (portsOf r a + portsOf r b)%nat.
Proof. unfold portsOf. now rewrite List.filter_app, length_app. Qed.

Lemma portsOf_le r l : (portsOf r l <= length l)%nat.
Proof. unfold portsOf. apply List.filter_length_le. Qed.

Lemma portsOf_zero r l : ~ In r l -> portsOf r l = 0%nat.
Proof.
  unfold portsOf. induction l as [|x l IH]; simpl; [reflexivity|].
  intros H. destruct (Nat.eqb_spec x r) as [->|_]; [tauto|]. apply IH. tauto.
Qed.

(** What holds of the two structures after the entries [done]. *)
Definition mapped (done : list (nat * Z))
    (s : list (nat * nat) * list ReservationStation) : Prop :=
  map fst (fst s) = map fst done
  /\ (forall p r i, fst s !! p = Some (r, i) ->
        i = portsOf r (firstn p (map fst done))
        /\ exists st pt, snd s !! r = Some st /\ ports st !! i = Some pt
                         /\ issuePort pt = p)
  /\ (forall r st, snd s !! r = Some st ->
        length (ports st) = portsOf r (map fst done)
        /\ capacity st
           = List.last (map snd (List.filter (fun e => (fst e =? r)%nat) done)) 0)
  /\ (forall r, In r (map fst done) -> (r < length (snd s))%nat).

Lemma filter_none_fst (r : nat) (done : list (nat * Z)) :
  ~ In r (map fst done) -> List.filter (fun e => (fst e =? r)%nat) done = [].
Proof.
  induction done as [|[r' c] done IH]; simpl; [reflexivity|].
  intros H. destruct (Nat.eqb_spec r' r) as [->|_]; [tauto|]. apply IH. tauto.
Qed.

Lemma addPort_mapped (done : list (nat * Z)) (RS : nat * Z) s :
  mapped done s -> (length done < 256)%nat ->
  mapped (done ++ [RS]) (addPort (length done) RS s).
Proof.
  destruct s as [pm rs]. destruct RS as [r c].
  intros (Ha & Hb & Hc & Hd) Hlen. simpl in Ha, Hb, Hc, Hd.
  unfold addPort. cbn [fst snd].
  set (rs1 := if (length rs <? r + 1)%nat
              then resizeTo (r + 1) (mkRS 0 0 []) rs else rs).
  assert (Hlen1 : (r < length rs1)%nat /\ (length rs <= length rs1)%nat).
  { unfold rs1. destruct (Nat.ltb_spec (length rs) (r + 1)).
    - rewrite resizeTo_length. lia.
    - lia. }
  assert (Hold : forall j, (j < length rs)%nat -> rs1 !! j = rs !! j).
  { intros j Hj. unfold rs1. destruct (Nat.ltb_spec (length rs) (r + 1));
      [|reflexivity]. apply resizeTo_lookup_old; lia. }
  assert (Hnew : forall j st, (length rs <= j)%nat -> rs1 !! j = Some st ->
                              st = mkRS 0 0 []).
  { intros j st Hj. unfold rs1. destruct (Nat.ltb_spec (length rs) (r + 1)).
    - intros H1. pose proof (lookup_lt_Some _ _ _ H1) as Hlt.
      rewrite resizeTo_length in Hlt.
      rewrite resizeTo_lookup_new in H1 by lia. congruence.
    - intros H1. apply lookup_lt_Some in H1. lia. }
  assert (Hst1 : forall j st, rs1 !! j = Some st ->
            length (ports st) = portsOf j (map fst done)
            /\ capacity st
               = List.last (map snd (List.filter (fun e => (fst e =? j)%nat) done)) 0).
  { intros j st Hj. destruct (Nat.lt_ge_cases j (length rs)) as [Hlo|Hhi].
    - rewrite Hold in Hj by exact Hlo. now apply Hc.
    - rewrite (Hnew j st Hhi Hj). simpl.
      assert (Hn : ~ In j (map fst done)) by (intros Hin; apply Hd in Hin; lia).
      now rewrite portsOf_zero, filter_none_fst. }
  rewrite Ha.
  set (idx := portsOf r (map fst done)).
  assert (Hidx : (idx mod 256 = idx)%nat).
  { apply Nat.mod_small. pose proof (portsOf_le r (map fst done)).
    rewrite length_map in H. unfold idx. lia. }
  rewrite Hidx.
  destruct (lookup_lt_is_Some_2 rs1 r (proj1 Hlen1)) as [st1 Est1].
  destruct (Hst1 r st1 Est1) as [Hp1 Hc1]. fold idx in Hp1.
  set (f1 := fun st => mkRS c (currentSize st) (ports st)).
  set (f2 := fun st =>
               mkRS (capacity st) (currentSize st)
                    (alter (fun pt => mkRSPort (length done) (rsReady pt)) idx
                           (resizeTo (idx + 1) (mkRSPort 0 []) (ports st)))).
  assert (Er : alter f2 r (alter f1 r rs1) !! r = Some (f2 (f1 st1))).
  { rewrite list_lookup_alter_eq, list_lookup_alter_eq, Est1. reflexivity. }
  assert (Eo : forall j, j <> r -> alter f2 r (alter f1 r rs1) !! j = rs1 !! j).
  { intros j Hj. rewrite !list_lookup_alter_ne by congruence. reflexivity. }
  assert (Eports : ports (f2 (f1 st1))
                   = alter (fun pt => mkRSPort (length done) (rsReady pt)) idx
                           (resizeTo (idx + 1) (mkRSPort 0 []) (ports st1)))
    by reflexivity.
  assert (Enew : ports (f2 (f1 st1)) !! idx
                 = Some (mkRSPort (length done) [])).
  { rewrite Eports, list_lookup_alter_eq.
    rewrite resizeTo_lookup_new by lia. reflexivity. }
  assert (Eold : forall i, (i < idx)%nat ->
                   ports (f2 (f1 st1)) !! i = ports st1 !! i).
  { intros i Hi. rewrite Eports, list_lookup_alter_ne by lia.
    apply resizeTo_lookup_old; lia. }
  unfold mapped. cbn [fst snd]. split; [|split; [|split]].
  - rewrite !map_app, Ha. reflexivity.
  - intros p r0 i Hp.
    apply lookup_app_Some in Hp as [Hp|[Hge Hp]].
    + pose proof (lookup_lt_Some _ _ _ Hp) as Hlt.
      assert (Hlt' : (p < length done)%nat).
      { apply (f_equal (@length _)) in Ha. rewrite !length_map in Ha. lia. }
      destruct (Hb p r0 i Hp) as (Hi & st & pt & Hs & Hpt & Hip).
      split.
      { rewrite map_app, firstn_app, length_map.
        replace (p - length done)%nat with 0%nat by lia.
        simpl. now rewrite app_nil_r. }
      destruct (Nat.eq_dec r0 r) as [->|Hne].
      * exists (f2 (f1 st1)), pt. split; [exact Er|]. split; [|exact Hip].
        pose proof (lookup_lt_Some _ _ _ Hs) as Hr.
        rewrite Hold in Est1 by exact Hr.
        assert (st1 = st) by congruence. subst st1.
        rewrite Eold; [exact Hpt|].
        apply lookup_lt_Some in Hpt. lia.
      * exists st, pt. split; [|auto]. rewrite Eo by exact Hne.
        rewrite Hold; [exact Hs|]. now apply lookup_lt_Some in Hs.
    + assert (Hp0 : p = length done).
      { apply (f_equal (@length _)) in Ha. rewrite !length_map in Ha.
        destruct (p - length pm)%nat as [|k] eqn:Ek; [lia|].
        simpl in Hp. now rewrite lookup_nil in Hp. }
      subst p. replace (length done - length pm)%nat with 0%nat in Hp
        by (apply (f_equal (@length _)) in Ha; rewrite !length_map in Ha; lia).
      simpl in Hp. injection Hp as <- <-.
      split.
      { rewrite map_app, firstn_app, length_map, Nat.sub_diag. simpl.
        rewrite app_nil_r, <- (length_map fst done), firstn_all. reflexivity. }
      exists (f2 (f1 st1)), (mkRSPort (length done) []).
      split; [exact Er|]. split; [exact Enew|reflexivity].
  - intros r0 st Hs. rewrite map_app, portsOf_app, List.filter_app, map_app.
    simpl. destruct (Nat.eq_dec r0 r) as [->|Hne].
    + rewrite Er in Hs. injection Hs as <-.
      rewrite Eports, length_alter, resizeTo_length.
      unfold portsOf at 2. simpl. rewrite Nat.eqb_refl. simpl.
      split; [fold idx; lia|]. now rewrite last_last.
    + rewrite Eo in Hs by exact Hne.
      destruct (Hst1 r0 st Hs) as [H1 H2].
      unfold portsOf at 2. simpl.
      destruct (Nat.eqb_spec r r0) as [?|_]; [congruence|]. simpl.
      rewrite app_nil_r. split; [lia|exact H2].
  - intros r0 Hin. rewrite !length_alter.
    rewrite map_app in Hin. apply in_app_or in Hin as [Hin|[<-|[]]].
    + apply Hd in Hin. lia.
    + simpl. lia.
Qed.

Lemma constructFrom_mapped rest : forall done s,
  mapped done s -> (length done + length rest <= 256)%nat ->
  mapped (done ++ rest) (constructFrom (length done) rest s).
Proof.
  induction rest as [|RS rest IH]; intros done s Hm Hlen; simpl.
  - now rewrite app_nil_r.
  - simpl in Hlen.
    replace (done ++ RS :: rest) with ((done ++ [RS]) ++ rest)
      by (now rewrite <- app_assoc).
    replace (S (length done)) with (length (done ++ [RS]))
      by (rewrite length_app; simpl; lia).
    apply IH.
    + apply addPort_mapped; [exact Hm|lia].
    + rewrite length_app. simpl. lia.
Qed.

(** The number of reservation stations that an arrangement asks for. *)
Definition stationCount (rsArrangement : list (nat * Z)) : nat :=
  fold_right (fun RS n => Nat.max (fst RS + 1) n) 0%nat rsArrangement.

Lemma addPort_length (port : nat) (RS : nat * Z) s :
  length (snd (addPort port RS s)) = Nat.max (fst RS + 1) (length (snd s)).
Proof.
  destruct s as [pm rs]. unfold addPort. cbn [fst snd].
  rewrite !length_alter.
  destruct (Nat.ltb_spec (length rs) (fst RS + 1)).
  - rewrite resizeTo_length. lia.
  - lia.
Qed.

Lemma constructFrom_length rest : forall port s,
  length (snd (constructFrom port rest s))
  = Nat.max (stationCount rest) (length (snd s)).
Proof.
  induction rest as [|RS rest IH]; intros port s; simpl; [reflexivity|].
  rewrite IH, addPort_length. lia.
Qed.

Lemma stationCount_small rsArrangement :
  List.Forall (fun RS => (fst RS < 255)%nat) rsArrangement ->
  (stationCount rsArrangement <= 255)%nat.
Proof.
  induction 1 as [|RS l H _ IH]; simpl; lia.
Qed.

Lemma stationCount_large rsArrangement :
  List.Exists (fun RS => (255 <= fst RS)%nat) rsArrangement ->
  (256 <= stationCount rsArrangement)%nat.
Proof.
  induction 1 as [RS l H|RS l _ IH]; simpl; lia.
Qed.

(** With at most 255 stations the last loop ends with the keys
    [i .. size - 1] added. *)
Lemma emplaceFlushed_ends (size : nat) : forall (n i fuel : nat),
  (size <= 255)%nat -> (i + n = size)%nat -> (n < fuel)%nat ->
  emplaceFlushed fuel i size (seq 0 i) = Some (seq 0 size).
Proof.
  induction n as [|n IH]; intros i fuel Hs Hi Hf;
    (destruct fuel as [|fuel]; [lia|]); cbn [emplaceFlushed].
  - destruct (Nat.ltb_spec i size); [lia|]. f_equal. f_equal. lia.
  - destruct (Nat.ltb_spec i size); [|lia].
    assert (Hfresh : existsb (Nat.eqb i) (seq 0 i) = false).
    { destruct (existsb (Nat.eqb i) (seq 0 i)) eqn:E; [|reflexivity].
      apply existsb_exists in E as (x & Hx & Ex).
      apply in_seq in Hx. apply Nat.eqb_eq in Ex. lia. }
    rewrite Hfresh, Nat.mod_small by lia.
    replace (seq 0 i ++ [i]) with (seq 0 (i + 1))
      by (rewrite seq_app; reflexivity).
    apply IH; lia.
Qed.

(** With 256 stations the counter never reaches the size. *)
Lemma emplaceFlushed_loops (size : nat) (fuel : nat) : forall i flushed,
  (256 <= size)%nat -> (i < 256)%nat ->
  emplaceFlushed fuel i size flushed = None.
Proof.
  induction fuel as [|fuel IH]; intros i flushed Hs Hi; [reflexivity|].
  cbn [emplaceFlushed]. destruct (Nat.ltb_spec i size); [|lia].
  apply IH; [exact Hs|]. apply Nat.mod_upper_bound. lia.
Qed.

(** X24. On an arrangement of at most 256 issue ports that names no station
    above 254, the constructor returns and maps issue port [p] to the
    reservation station named by entry [p] and, within it, to the port whose
    index is the number of earlier issue ports mapped to the same station;
    that port of the station leads back to issue port [p]. So no two issue
    ports share a port of a station, every station has as many ports as issue
    ports are mapped to it, and its capacity is the one given by the last
    entry that names it; [flushed_] gets one key per station. When an entry
    names station 255, the last loop of the constructor, whose counter is a
    [uint8_t], does not end: for every number of rounds the constructor has
    not returned. *)
Theorem X24_constructor_port_mapping (rsArrangement : list (nat * Z)) :
  (length rsArrangement <= 256)%nat ->
  (List.Forall (fun RS => (fst RS < 255)%nat) rsArrangement ->
   forall fuel, (256 <= fuel)%nat ->
   exists c,
     construct fuel rsArrangement = Some c
     /\ length (cPortMapping c) = length rsArrangement
     /\ (forall p r capacity0, rsArrangement !! p = Some (r, capacity0) ->
           exists i st pt,
             cPortMapping c !! p = Some (r, i)
             /\ i = portsOf r (firstn p (map fst rsArrangement))
             /\ cStations c !! r = Some st
             /\ ports st !! i = Some pt
             /\ issuePort pt = p
             /\ length (ports st) = portsOf r (map fst rsArrangement)
             /\ capacity st
                = List.last (map snd (List.filter (fun e => (fst e =? r)%nat)
                                                  rsArrangement)) 0)
     /\ NoDup (cPortMapping c)
     /\ length (cStations c) = stationCount rsArrangement
     /\ cDispatches c = replicate (length (cStations c)) 0
     /\ cFlushed c = seq 0 (length (cStations c)))
  /\ (List.Exists (fun RS => fst RS = 255%nat) rsArrangement ->
      forall fuel, construct fuel rsArrangement = None).
Proof.
  intros Hlen. split.
  - intros Hsmall fuel Hfuel.
    set (s := constructFrom 0 rsArrangement ([], [])).
    assert (Hn : length (snd s) = stationCount rsArrangement).
    { unfold s. rewrite constructFrom_length. simpl. lia. }
    pose proof (stationCount_small _ Hsmall) as Hcount.
    assert (Hm : mapped rsArrangement s).
    { apply (constructFrom_mapped rsArrangement [] ([], [])); [|simpl; lia].
      unfold mapped. simpl. split; [reflexivity|].
      split; [intros p r i H; now rewrite lookup_nil in H|].
      split; [intros r st H; now rewrite lookup_nil in H|intros r []]. }
    unfold construct. fold s.
    pose proof (emplaceFlushed_ends (length (snd s)) (length (snd s)) 0 fuel
                  ltac:(lia) ltac:(lia) ltac:(lia)) as Ee.
    change (seq 0 0) with (@nil nat) in Ee. rewrite Ee.
    eexists. split; [reflexivity|]. cbn [cPortMapping cStations cDispatches cFlushed].
    destruct Hm as (Ha & Hb & Hc & Hd).
    assert (Hl : length (fst s) = length rsArrangement).
    { apply (f_equal (@length _)) in Ha. now rewrite !length_map in Ha. }
    split; [exact Hl|]. split; [|split; [|split; [exact Hn|split]]].
    + intros p r c Hp.
      pose proof (lookup_lt_Some _ _ _ Hp) as Hlt.
      destruct (lookup_lt_is_Some_2 (fst s) p ltac:(lia)) as [[r0 i] Hpm].
      assert (r0 = r).
      { assert (H1 : map fst (fst s) !! p = Some r0)
          by (rewrite list_lookup_fmap, Hpm; reflexivity).
        rewrite Ha, list_lookup_fmap, Hp in H1. simpl in H1. congruence. }
      subst r0. destruct (Hb p r i Hpm) as (Hi & st & pt & Hs & Hpt & Hip).
      destruct (Hc r st Hs) as [Hnp Hcap].
      exists i, st, pt. auto 10.
    + apply NoDup_alt. intros p q [r i] Ep Eq.
      destruct (Hb p r i Ep) as (_ & st & pt & Hs & Hpt & Hip).
      destruct (Hb q r i Eq) as (_ & st' & pt' & Hs' & Hpt' & Hip').
      congruence.
    + unfold resizeTo. simpl. rewrite Nat.sub_0_r. apply firstn_all2.
      rewrite length_replicate. lia.
    + reflexivity.
  - intros Hex fuel. unfold construct.
    rewrite emplaceFlushed_loops; [reflexivity| |lia].
    rewrite constructFrom_length.
    assert (Hbig : (256 <= stationCount rsArrangement)%nat).
    { apply stationCount_large. eapply List.Exists_impl; [|exact Hex].
      simpl. intros RS ->. lia. }
    lia.
Qed.

Lemma X24_constructor_port_mapping_witness :
  (exists c,
     construct 256 [(0%nat, 20); (1%nat, 10); (0%nat, 30)] = Some c
     /\ cPortMapping c = [(0%nat, 0%nat); (1%nat, 0%nat); (0%nat, 1%nat)]
     /\ cFlushed c = [0%nat; 1%nat]
     /\ exists st pt,
          cStations c !! 0%nat = Some st
          /\ ports st !! 1%nat = Some pt /\ issuePort pt = 2%nat
          /\ capacity st = 30)
  /\ construct 1000 [(0%nat, 20); (255%nat, 10)] = None.
Proof.
  split.
  - destruct (X24_constructor_port_mapping [(0%nat, 20); (1%nat, 10); (0%nat, 30)])
      as [H _]; [simpl; lia|].
    destruct (H ltac:(repeat constructor; simpl; lia) 256%nat ltac:(lia))
      as (c & E & _ & Hp & _ & _ & _ & Hf).
    exists c. split; [exact E|].
    destruct (Hp 2%nat 0%nat 30 eq_refl)
      as (i & st & pt & H1 & H2 & H3 & H4 & H5 & _ & H7).
    simpl in H2. subst i.
    pose proof E as E'. vm_compute in E'. injection E' as <-.
    split; [reflexivity|]. split; [reflexivity|]. exists st, pt. auto.
  - destruct (X24_constructor_port_mapping [(0%nat, 20); (255%nat, 10)])
      as [_ H]; [simpl; lia|].
    apply H. right. now left.
Defined.

(** *** [issue] *)

Module Issue.


(** The members that [issue] reads and writes. Instructions are pointers
    into a heap that [issue] does not touch; [allocatorIssued] lists the
    calls [portAllocator_.issued(i)]. *)
Record t : Type := mk {
  reservationStations_ : list ReservationStation;
  portMapping_ : list (nat * nat);
  issuePorts_ : list (@PipelineBuffer.t (option nat));
  portBusyStalls_ : Z;
  backendStalls_ : Z;
  frontendStalls_ : Z;
  allocatorIssued : list nat
}.

(** The body of the loop over the issue ports, with the count of issued
    instructions; [None] is an access outside a vector or the failed
    assertion on [currentSize]. *)
Definition issuePort1 (i : nat) (s : t) (issued : Z) : option (t * Z) :=
  match portMapping_ s !! i with
  | None => None
  | Some (r, k) =>
      match reservationStations_ s !! r with
      | None => None
      | Some rs =>
          match ports rs !! k with
          | None => None
          | Some pt =>
              match issuePorts_ s !! i with
              | None => None
              | Some buffer =>
                  if PipelineBuffer.isStalled buffer then
                    Some (if (0 <? length (rsReady pt))%nat
                          then mk (reservationStations_ s) (portMapping_ s)
                                       (issuePorts_ s)
                                       (wrap64 (portBusyStalls_ s + 1))
                                       (backendStalls_ s) (frontendStalls_ s)
                                       (allocatorIssued s)
                          else s,
                          issued)
                  else
                    match rsReady pt with
                    | [] => Some (s, issued)
                    | uop :: rest =>
                        if currentSize rs >? 0 then
                          Some (mk
                                  (<[r := mkRS (capacity rs) (currentSize rs - 1)
                                               (<[k := mkRSPort (issuePort pt) rest]>
                                                  (ports rs))]>
                                     (reservationStations_ s))
                                  (portMapping_ s)
                                  (<[i := PipelineBuffer.setTailSlot buffer 0
                                                                     (Some uop)]>
                                     (issuePorts_ s))
                                  (portBusyStalls_ s) (backendStalls_ s)
                                  (frontendStalls_ s) (allocatorIssued s ++ [i]),
                                issued + 1)
                        else None
                    end
              end
          end
      end
  end.

Fixpoint issueLoop (n : nat) (i : nat) (s : t) (issued : Z)
    : option (t * Z) :=
  match n with
  | O => Some (s, issued)
  | S n' =>
      match issuePort1 i s issued with
      | None => None
      | Some (s', issued') => issueLoop n' (S i) s' issued'
      end
  end.

(** [issue]: the loop over the issue ports, then the stall counters when
    nothing was issued. *)
Definition issue (s : t) : option t :=
  match issueLoop (length (issuePorts_ s)) 0 s 0 with
  | None => None
  | Some (s', issued) =>
      if issued =? 0 then
        if existsb (fun rs => negb (currentSize rs =? 0)) (reservationStations_ s')
        then Some (mk (reservationStations_ s') (portMapping_ s')
                           (issuePorts_ s') (portBusyStalls_ s')
                           (wrap64 (backendStalls_ s' + 1)) (frontendStalls_ s')
                           (allocatorIssued s'))
        else Some (mk (reservationStations_ s') (portMapping_ s')
                           (issuePorts_ s') (portBusyStalls_ s')
                           (backendStalls_ s') (wrap64 (frontendStalls_ s' + 1))
                           (allocatorIssued s'))
      else Some s'
  end.

(** The ready queue behind issue port [i]. *)
Definition readyOf (s : t) (i : nat) : option (list nat) :=
  match portMapping_ s !! i with
  | None => None
  | Some (r, k) =>
      match reservationStations_ s !! r with
      | None => None
      | Some rs => option_map rsReady (ports rs !! k)
      end
  end.

(** The instructions in the ready queues of a station. *)
Definition queued (rs : ReservationStation) : Z :=
  fold_right (fun pt acc => Z.of_nat (length (rsReady pt)) + acc) 0 (ports rs).

(** The state is as the constructor and the dispatch of [tick] keep it: every
    issue port has a buffer and a port of a station of its own, and a station
    holds at least the instructions of its ready queues. *)
Definition wellFormed (s : t) : Prop :=
  length (portMapping_ s) = length (issuePorts_ s)
  /\ (forall i r k, portMapping_ s !! i = Some (r, k) ->
        exists rs pt, reservationStations_ s !! r = Some rs
                      /\ ports rs !! k = Some pt)
  /\ NoDup (portMapping_ s)
  /\ (forall r rs, reservationStations_ s !! r = Some rs ->
        queued rs <= currentSize rs).

(** What [issue] does at issue port [i], from the buffer and the ready queue
    as they were: the buffer and the ready queue afterwards. *)
Definition issuedAt (buffer : @PipelineBuffer.t (option nat)) (queue : list nat)
    : @PipelineBuffer.t (option nat) * list nat :=
  if PipelineBuffer.isStalled buffer then (buffer, queue)
  else match queue with
       | [] => (buffer, queue)
       | uop :: rest => (PipelineBuffer.setTailSlot buffer 0 (Some uop), rest)
       end.

Lemma queued_insert (pts : list ReservationStationPort) (k : nat)
    (pt pt' : ReservationStationPort) :
  pts !! k = Some pt ->
  fold_right (fun p acc => Z.of_nat (length (rsReady p)) + acc) 0 (<[k := pt']> pts)
  = fold_right (fun p acc => Z.of_nat (length (rsReady p)) + acc) 0 pts
    - Z.of_nat (length (rsReady pt)) + Z.of_nat (length (rsReady pt')).
Proof.
  revert k. induction pts as [|p pts IH]; intros [|k]; simpl; try discriminate.
  - intros [= ->]. lia.
  - intros H. rewrite (IH k H). lia.
Qed.

Lemma queued_ge (pts : list ReservationStationPort) (k : nat)
    (pt : ReservationStationPort) :
  pts !! k = Some pt ->
  Z.of_nat (length (rsReady pt))
  <= fold_right (fun p acc => Z.of_nat (length (rsReady p)) + acc) 0 pts.
Proof.
  revert k. induction pts as [|p pts IH]; intros [|k]; simpl; try discriminate.
  - intros [= ->].
    assert (0 <= fold_right (fun p acc => Z.of_nat (length (rsReady p)) + acc) 0 pts).
    { clear. induction pts; simpl; lia. }
    lia.
  - intros H. specialize (IH k H). lia.
Qed.

(** Whether issue port [i] can issue: it is not stalled and its ready queue
    is not empty. *)
Definition issuesAt (s : t) (i : nat) : bool :=
  match issuePorts_ s !! i, readyOf s i with
  | Some buffer, Some (_ :: _) => negb (PipelineBuffer.isStalled buffer)
  | _, _ => false
  end.

(** One round of the loop at a well-formed state. *)
Lemma issuePort1_spec (i : nat) (s : t) (issued : Z) :
  wellFormed s -> (i < length (issuePorts_ s))%nat ->
  exists s' buffer queue,
    issuePorts_ s !! i = Some buffer /\ readyOf s i = Some queue
    /\ issuePort1 i s issued
       = Some (s', if PipelineBuffer.isStalled buffer then issued
                   else match queue with [] => issued | _ => issued + 1 end)
    /\ wellFormed s'
    /\ portMapping_ s' = portMapping_ s
    /\ length (issuePorts_ s') = length (issuePorts_ s)
    /\ issuePorts_ s' !! i = Some (fst (issuedAt buffer queue))
    /\ readyOf s' i = Some (snd (issuedAt buffer queue))
    /\ (forall j, j <> i ->
          issuePorts_ s' !! j = issuePorts_ s !! j
          /\ readyOf s' j = readyOf s j)
    /\ allocatorIssued s' = allocatorIssued s ++ (if issuesAt s i then [i] else [])
    /\ backendStalls_ s' = backendStalls_ s
    /\ frontendStalls_ s' = frontendStalls_ s
    /\ (issuesAt s i = false ->
          reservationStations_ s' = reservationStations_ s
          /\ issuePorts_ s' = issuePorts_ s).
Proof.
  intros (Hlen & Hmap & Hnd & Hq) Hi.
  destruct (lookup_lt_is_Some_2 (issuePorts_ s) i Hi) as [buffer Eb].
  destruct (lookup_lt_is_Some_2 (portMapping_ s) i ltac:(lia)) as [[r k] Em].
  destruct (Hmap i r k Em) as (rs & pt & Er & Ep).
  exists (match issuePort1 i s issued with Some (s', _) => s' | None => s end),
         buffer, (rsReady pt).
  split; [exact Eb|].
  assert (Hro : readyOf s i = Some (rsReady pt)).
  { unfold readyOf. now rewrite Em, Er, Ep. }
  split; [exact Hro|].
  assert (Hia : issuesAt s i
                = match rsReady pt with
                  | [] => false
                  | _ :: _ => negb (PipelineBuffer.isStalled buffer)
                  end).
  { unfold issuesAt. now rewrite Eb, Hro. }
  rewrite Hia. clear Hia.
  unfold issuePort1, issuedAt. rewrite Em, Er, Ep, Eb.
  destruct (PipelineBuffer.isStalled buffer) eqn:Est.
  - assert (Hnil : match rsReady pt with [] => false | _ :: _ => negb true end
                  = false)
      by (now destruct (rsReady pt)).
    rewrite Hnil.
    destruct (0 <? length (rsReady pt))%nat; simpl;
      (split; [reflexivity|]); (split; [unfold wellFormed; simpl; auto|]);
      rewrite ?app_nil_r; repeat split; auto.
  - destruct (rsReady pt) as [|uop rest] eqn:Eq.
    + simpl. split; [reflexivity|]. split; [unfold wellFormed; auto|].
      rewrite ?app_nil_r. repeat split; auto.
    + assert (Hpos : 0 < currentSize rs).
      { pose proof (Hq r rs Er) as H1. unfold queued in H1.
        pose proof (queued_ge (ports rs) k pt Ep) as H2. rewrite Eq in H2.
        simpl in H2. lia. }
      destruct (Z.gtb_spec (currentSize rs) 0) as [_|?]; [|lia].
      simpl. split; [reflexivity|].
      set (rs' := mkRS (capacity rs) (currentSize rs - 1)
                       (<[k := mkRSPort (issuePort pt) rest]> (ports rs))).
      assert (Hr' : (r < length (reservationStations_ s))%nat)
        by (now apply lookup_lt_Some in Er).
      assert (Hk' : (k < length (ports rs))%nat) by (now apply lookup_lt_Some in Ep).
      assert (Hst : forall r0, <[r := rs']> (reservationStations_ s) !! r0
                               = if Nat.eq_dec r0 r then Some rs'
                                 else reservationStations_ s !! r0).
      { intros r0. destruct (Nat.eq_dec r0 r) as [->|Hne].
        - now apply list_lookup_insert_eq.
        - apply list_lookup_insert_ne. congruence. }
      split.
      { unfold wellFormed. simpl. rewrite length_insert.
        split; [exact Hlen|]. split; [|split; [exact Hnd|]].
        - intros i0 r0 k0 Hm0. destruct (Hmap i0 r0 k0 Hm0) as (rs0 & pt0 & Hr0 & Hp0).
          rewrite Hst. destruct (Nat.eq_dec r0 r) as [->|Hne].
          + assert (rs0 = rs) by congruence. subst rs0.
            destruct (Nat.eq_dec k0 k) as [->|Hnk].
            * exists rs', (mkRSPort (issuePort pt) rest). split; [reflexivity|].
              simpl. now apply list_lookup_insert_eq.
            * exists rs', pt0. split; [reflexivity|]. simpl.
              rewrite list_lookup_insert_ne by congruence. exact Hp0.
          + eauto.
        - intros r0 rs0. rewrite Hst. destruct (Nat.eq_dec r0 r) as [->|Hne].
          + intros [= <-]. unfold queued. simpl.
            rewrite (queued_insert _ _ _ _ Ep), Eq. simpl.
            pose proof (Hq r rs Er) as H1. unfold queued in H1. lia.
          + apply Hq. }
      split; [reflexivity|]. split; [apply length_insert|].
      split; [now apply list_lookup_insert_eq|].
      split.
      { unfold readyOf. simpl. rewrite Em, Hst.
        destruct (Nat.eq_dec r r); [|congruence]. simpl.
        now rewrite list_lookup_insert_eq. }
      split.
      { intros j Hj. split; [apply list_lookup_insert_ne; congruence|].
        unfold readyOf. simpl.
        destruct (portMapping_ s !! j) as [[r0 k0]|] eqn:Ej; [|reflexivity].
        rewrite Hst. destruct (Nat.eq_dec r0 r) as [->|Hne]; [|reflexivity].
        rewrite Er. simpl.
        assert (Hk0 : k0 <> k).
        { intros ->. apply Hj.
          apply (proj1 (NoDup_alt _) Hnd j i (r, k)); assumption. }
        now rewrite list_lookup_insert_ne by congruence. }
      repeat split; try reflexivity; discriminate.
Qed.

(** The loop over the issue ports from port [i] on. *)
Lemma issueLoop_spec (n : nat) : forall (i : nat) (s : t) (issued : Z),
  wellFormed s -> (i + n)%nat = length (issuePorts_ s) ->
  exists s' issued',
    issueLoop n i s issued = Some (s', issued')
    /\ wellFormed s'
    /\ portMapping_ s' = portMapping_ s
    /\ length (issuePorts_ s') = length (issuePorts_ s)
    /\ (forall j, (j < i)%nat ->
          issuePorts_ s' !! j = issuePorts_ s !! j
          /\ readyOf s' j = readyOf s j)
    /\ (forall j buffer queue, (i <= j)%nat ->
          issuePorts_ s !! j = Some buffer -> readyOf s j = Some queue ->
          issuePorts_ s' !! j = Some (fst (issuedAt buffer queue))
          /\ readyOf s' j = Some (snd (issuedAt buffer queue)))
    /\ issued' = issued + Z.of_nat (length (List.filter (issuesAt s) (seq i n)))
    /\ allocatorIssued s' = allocatorIssued s ++ List.filter (issuesAt s) (seq i n)
    /\ backendStalls_ s' = backendStalls_ s
    /\ frontendStalls_ s' = frontendStalls_ s
    /\ (List.filter (issuesAt s) (seq i n) = [] ->
          reservationStations_ s' = reservationStations_ s
          /\ issuePorts_ s' = issuePorts_ s).
Proof.
  induction n as [|n IH]; intros i s issued Hwf Hn.
  - exists s, issued. simpl. rewrite app_nil_r.
    split; [reflexivity|]. split; [exact Hwf|]. do 2 (split; [reflexivity|]).
    split; [auto|]. split; [|repeat split; auto; lia].
    intros j buffer queue Hj Hb. apply lookup_lt_Some in Hb. lia.
  - destruct (issuePort1_spec i s issued Hwf ltac:(lia))
      as (s1 & buffer & queue & Eb & Eq & E1 & Hwf1 & Hm1 & Hl1 & Hb1 & Hq1
          & Hfr & Ha1 & Hbs1 & Hfs1 & Hsame1).
    set (issued1 := if PipelineBuffer.isStalled buffer then issued
                    else match queue with [] => issued | _ => issued + 1 end) in *.
    destruct (IH (S i) s1 issued1 Hwf1 ltac:(lia))
      as (s' & issued' & E & Hwf' & Hm' & Hl' & Hlt & Hge & Hi' & Ha' & Hbs'
          & Hfs' & Hsame').
    assert (Hext : List.filter (issuesAt s1) (seq (S i) n)
                   = List.filter (issuesAt s) (seq (S i) n)).
    { apply filter_ext_in. intros j Hj. apply in_seq in Hj.
      unfold issuesAt. destruct (Hfr j ltac:(lia)) as [-> ->]. reflexivity. }
    rewrite Hext in *.
    assert (Hcount : issued1 = issued + (if issuesAt s i then 1 else 0)).
    { unfold issued1, issuesAt. rewrite Eb, Eq.
      destruct (PipelineBuffer.isStalled buffer), queue; simpl; lia. }
    exists s', issued'. cbn [issueLoop seq List.filter]. rewrite E1.
    fold issued1. split; [exact E|]. split; [exact Hwf'|].
    split; [congruence|]. split; [congruence|].
    split.
    { intros j Hj. destruct (Hlt j ltac:(lia)) as [-> ->]. apply Hfr. lia. }
    split.
    { intros j b q Hj Hb Hq. destruct (Nat.eq_dec j i) as [->|Hne].
      - assert (b = buffer) by congruence. assert (q = queue) by congruence.
        subst b q. destruct (Hlt i ltac:(lia)) as [-> ->]. auto.
      - destruct (Hfr j Hne) as [Hb' Hq']. apply Hge; [lia| |]; congruence. }
    split.
    { rewrite Hi', Hcount. destruct (issuesAt s i); simpl length; lia. }
    split.
    { rewrite Ha', Ha1, <- app_assoc. now destruct (issuesAt s i). }
    split; [congruence|]. split; [congruence|].
    intros Hnone. destruct (issuesAt s i) eqn:Ei; [discriminate|].
    destruct (Hsame1 eq_refl) as [<- <-]. now apply Hsame'.
Qed.

(** The issue ports that issue an instruction. *)
Definition issuing (s : t) : list nat :=
  List.filter (issuesAt s) (seq 0 (length (issuePorts_ s))).

(** X25. At a well-formed unit [issue] returns, and at every issue port it
    takes at most one instruction: a port that is not stalled and whose ready
    queue is not empty gets the front of that queue in tail slot 0, and the
    queue loses it; a stalled port, or one with an empty ready queue, keeps
    its buffer and its queue. The port allocator is told of the issuing ports
    in ascending order. When no port issues, the reservation stations and the
    buffers are as before and one stall counter is incremented:
    [backendStalls_] if some reservation station holds an instruction,
    [frontendStalls_] otherwise; when a port issues, neither is. *)
Theorem X25_issue_one_per_port (s : t) :
  wellFormed s ->
  exists s',
    issue s = Some s'
    /\ wellFormed s'
    /\ portMapping_ s' = portMapping_ s
    /\ (forall i buffer queue,
          issuePorts_ s !! i = Some buffer -> readyOf s i = Some queue ->
          (PipelineBuffer.isStalled buffer = true \/ queue = [] ->
             issuePorts_ s' !! i = Some buffer /\ readyOf s' i = Some queue)
          /\ (forall uop rest,
                PipelineBuffer.isStalled buffer = false -> queue = uop :: rest ->
                issuePorts_ s' !! i
                = Some (PipelineBuffer.setTailSlot buffer 0 (Some uop))
                /\ readyOf s' i = Some rest))
    /\ allocatorIssued s' = allocatorIssued s ++ issuing s
    /\ (issuing s <> [] ->
          backendStalls_ s' = backendStalls_ s
          /\ frontendStalls_ s' = frontendStalls_ s)
    /\ (issuing s = [] ->
          reservationStations_ s' = reservationStations_ s
          /\ issuePorts_ s' = issuePorts_ s
          /\ if existsb (fun rs => negb (currentSize rs =? 0))
                        (reservationStations_ s)
             then backendStalls_ s' = wrap64 (backendStalls_ s + 1)
                  /\ frontendStalls_ s' = frontendStalls_ s
             else backendStalls_ s' = backendStalls_ s
                  /\ frontendStalls_ s' = wrap64 (frontendStalls_ s + 1)).
Proof.
  intros Hwf.
  destruct (issueLoop_spec (length (issuePorts_ s)) 0 s 0 Hwf eq_refl)
    as (s1 & issued & E & Hwf1 & Hm & Hl & _ & Hge & Hi & Ha & Hbs & Hfs & Hsame).
  fold (issuing s) in Hi, Ha, Hsame.
  assert (Hports : forall s2 : t,
            reservationStations_ s2 = reservationStations_ s1 ->
            portMapping_ s2 = portMapping_ s1 ->
            issuePorts_ s2 = issuePorts_ s1 ->
            forall i buffer queue,
              issuePorts_ s !! i = Some buffer -> readyOf s i = Some queue ->
              (PipelineBuffer.isStalled buffer = true \/ queue = [] ->
                 issuePorts_ s2 !! i = Some buffer /\ readyOf s2 i = Some queue)
              /\ (forall uop rest,
                    PipelineBuffer.isStalled buffer = false ->
                    queue = uop :: rest ->
                    issuePorts_ s2 !! i
                    = Some (PipelineBuffer.setTailSlot buffer 0 (Some uop))
                    /\ readyOf s2 i = Some rest)).
  { intros s2 H1 H2 H3 i buffer queue Hb Hq.
    destruct (Hge i buffer queue ltac:(lia) Hb Hq) as [Hb' Hq'].
    unfold readyOf in *. rewrite H1, H2, H3, Hb', Hq'. unfold issuedAt.
    split.
    - intros [->| ->]; [auto|]. now destruct (PipelineBuffer.isStalled buffer).
    - intros uop rest -> ->. auto. }
  assert (Hwf2 : forall s2 : t,
            reservationStations_ s2 = reservationStations_ s1 ->
            portMapping_ s2 = portMapping_ s1 ->
            issuePorts_ s2 = issuePorts_ s1 -> wellFormed s2).
  { intros s2 H1 H2 H3. unfold wellFormed. rewrite H1, H2, H3. exact Hwf1. }
  unfold issue. rewrite E.
  destruct (Z.eqb_spec issued 0) as [H0|H0].
  - assert (Hnone : issuing s = []).
    { destruct (issuing s); [reflexivity|]. simpl length in Hi. lia. }
    destruct (Hsame Hnone) as [Hst Hip]. rewrite Hst.
    destruct (existsb _ (reservationStations_ s)); eexists; (split; [reflexivity|]);
      (split; [now apply Hwf2|]); (split; [exact Hm|]);
      (split; [now apply Hports|]); simpl;
      (split; [exact Ha|]); (split; [congruence|]);
      intros _; rewrite Hbs, Hfs; auto.
  - exists s1. split; [reflexivity|]. split; [exact Hwf1|]. split; [exact Hm|].
    split; [now apply Hports|]. split; [exact Ha|].
    split; [auto|]. intros Hnone. rewrite Hnone in Hi. simpl in Hi. lia.
Qed.

(** Two issue ports on one reservation station of three instructions: port 0
    is free with instructions 7 and 8 ready, port 1 is stalled with
    instruction 9 ready. *)
Definition unit2 : t :=
  mk [mkRS 4 3 [mkRSPort 0 [7; 8]; mkRSPort 1 [9]]%nat]
     [(0, 0); (0, 1)]%nat
     [PipelineBuffer.make 1 None;
      PipelineBuffer.stall true (PipelineBuffer.make 1 None)]
     0 0 0 [].

Lemma unit2_wellFormed : wellFormed unit2.
Proof.
  unfold wellFormed, unit2. simpl. split; [reflexivity|]. split; [|split].
  - intros [|[|i]] r k; simpl; intros [= <- <-]; eauto.
  - apply NoDup_alt. intros [|[|i]] [|[|j]] x; simpl; rewrite ?lookup_nil; congruence.
  - intros [|r] rs; simpl; [|discriminate]. intros [= <-]. unfold queued. simpl. lia.
Qed.

Lemma X25_issue_one_per_port_witness :
  exists s',
    issue unit2 = Some s'
    /\ option_map (fun b => PipelineBuffer.getTailSlot b 0) (issuePorts_ s' !! 0%nat)
       = Some (Some (Some 7%nat))
    /\ readyOf s' 0%nat = Some [8%nat]
    /\ readyOf s' 1%nat = Some [9%nat]
    /\ allocatorIssued s' = [0%nat].
Proof.
  destruct (X25_issue_one_per_port unit2 unit2_wellFormed)
    as (s' & E & _ & _ & Hp & Ha & _).
  exists s'. split; [exact E|].
  destruct (Hp 0%nat (PipelineBuffer.make 1 None) [7; 8]%nat eq_refl eq_refl)
    as [_ H0].
  destruct (H0 7%nat [8%nat] eq_refl eq_refl) as [Hb0 Hq0].
  destruct (Hp 1%nat (PipelineBuffer.stall true (PipelineBuffer.make 1 None))
               [9%nat] eq_refl eq_refl) as [H1 _].
  destruct (H1 (or_introl eq_refl)) as [_ Hq1].
  rewrite Hb0. repeat split; auto.
Defined.

End Issue.

End DispatchIssue.

(** ** The in-order core: exceptions and flushes (models/inorder/Core.cc) *)

Module InorderCore.

Local Open Scope Z_scope.

(** What [flushIfNeeded] reads from an execution unit. *)
Record ExecuteUnit : Type := mkExecuteUnit {
  shouldFlush : bool;
  getFlushInsnId : Z;
  getFlushAddress : Z
}.

(** Calls made on the units of the core whose code is elsewhere. *)
Inductive Call : Type :=
| FetchFlushLoopBuffer
| FetchUpdatePC (address : Z)
| DecodePurgeFlushed
| IssueFlush (insnId : Z)
| StagingFlush (insnId : Z)
| ExecutePurgeFlushed (eu : nat)
| LsqPurgeFlushed.

(** The members of [Core] that [raiseException] and [flushIfNeeded] read and
    write. A macro-op in [fetchToDecodeBuffer_] is a vector of instructions;
    [violatingLoad] is what [loadStoreQueue_.getViolatingLoad()] returns and
    [decodeShouldFlush], [decodeFlushAddress] what [decodeUnit_] answers. *)
Record t : Type := mk {
  executionUnits_ : list ExecuteUnit;
  loadViolation_ : bool;
  loadViolations_ : Z;
  violatingLoad : option Instruction;
  decodeShouldFlush : bool;
  decodeFlushAddress : Z;
  fetchToDecodeBuffer_ : @PipelineBuffer.t (list Instruction);
  decodeToIssueBuffer_ : @PipelineBuffer.t (option Instruction);
  completionSlots_ : list (@PipelineBuffer.t (option Instruction));
  exceptionGenerated_ : bool;
  exceptionGeneratingInstruction_ : option Instruction;
  flushes_ : Z;
  calls : list Call
}.

(** [exceptionGenerated_ = true; exceptionGeneratingInstruction_ = insn]. *)
Definition set_exception (insn : Instruction) (c : t) : t :=
  mk (executionUnits_ c) (loadViolation_ c) (loadViolations_ c) (violatingLoad c)
     (decodeShouldFlush c) (decodeFlushAddress c) (fetchToDecodeBuffer_ c)
     (decodeToIssueBuffer_ c) (completionSlots_ c) true (Some insn)
     (flushes_ c) (calls c).

(** [raiseException]; [None] is the read through a null
    [exceptionGeneratingInstruction_]. *)
Definition raiseException (insn : Instruction) (c : t) : option t :=
  if exceptionGenerated_ c then
    match exceptionGeneratingInstruction_ c with
    | None => None
    | Some current =>
        if sequenceId current <? sequenceId insn then Some c
        else Some (set_exception insn c)
    end
  else Some (set_exception insn c).

(** Calls of [raiseException] one after the other. *)
Fixpoint raiseAll (insns : list Instruction) (c : t) : option t :=
  match insns with
  | [] => Some c
  | insn :: rest =>
      match raiseException insn c with
      | None => None
      | Some c' => raiseAll rest c'
      end
  end.

(** The locals [shouldFlush], [targetAddress] and [lowestInsnId] of
    [flushIfNeeded]. *)
Record Choice : Type := mkChoice {
  flush : bool;
  targetAddress : Z;
  lowestInsnId : Z
}.

(** The body of the loop over the execution units. *)
Definition chooseUnit (ch : Choice) (eu : ExecuteUnit) : Choice :=
  if shouldFlush eu && (negb (flush ch) || (getFlushInsnId eu <? lowestInsnId ch))
  then mkChoice true (getFlushAddress eu) (getFlushInsnId eu)
  else ch.

(** The test of the violating load; its instruction id less one is computed
    in 64 bits. *)
Definition chooseLoad (ch : Choice) (load : Instruction) : Choice :=
  if negb (flush ch) || (wrap64 (instructionId load - 1) <? lowestInsnId ch)
  then mkChoice true (instructionAddress load) (wrap64 (instructionId load - 1))
  else ch.

Section Flush.
(** [isFlushed()] of an instruction, as read after the units have flushed. *)
Variable isFlushed : Instruction -> bool.

(** The two tests on a completion slot: the head slot 0, then the tail slot
    0; [None] is a buffer without a slot 0. *)
Definition clearSlot (slot : @PipelineBuffer.t (option Instruction))
    : option (@PipelineBuffer.t (option Instruction)) :=
  match PipelineBuffer.getHeadSlot slot 0 with
  | None => None
  | Some h =>
      let slot1 :=
        match h with
        | Some insn => if isFlushed insn
                       then PipelineBuffer.setHeadSlot slot 0 None else slot
        | None => slot
        end in
      match PipelineBuffer.getTailSlot slot1 0 with
      | None => None
      | Some tl =>
          Some match tl with
               | Some insn => if isFlushed insn
                              then PipelineBuffer.setTailSlot slot1 0 None
                              else slot1
               | None => slot1
               end
      end
  end.

Fixpoint clearSlots (slots : list (@PipelineBuffer.t (option Instruction)))
    : option (list (@PipelineBuffer.t (option Instruction))) :=
  match slots with
  | [] => Some []
  | slot :: rest =>
      match clearSlot slot, clearSlots rest with
      | Some slot', Some rest' => Some (slot' :: rest')
      | _, _ => None
      end
  end.

(** [flushIfNeeded]; [None] is a read through a null pointer or of a slot
    that the buffer does not have. *)
Definition flushIfNeeded (c : t) : option t :=
  let ch0 := fold_left chooseUnit (executionUnits_ c) (mkChoice false 0 0) in
  let loadViolations := if loadViolation_ c then wrap64 (loadViolations_ c + 1)
                        else loadViolations_ c in
  match (if loadViolation_ c
         then option_map (chooseLoad ch0) (violatingLoad c)
         else Some ch0) with
  | None => None
  | Some ch =>
      if flush ch then
        match clearSlots (completionSlots_ c) with
        | None => None
        | Some slots =>
            let called :=
              calls c
              ++ [FetchFlushLoopBuffer; FetchUpdatePC (targetAddress ch);
                  DecodePurgeFlushed; IssueFlush (lowestInsnId ch);
                  StagingFlush (lowestInsnId ch)]
              ++ map ExecutePurgeFlushed (seq 0 (length (executionUnits_ c)))
              ++ [LsqPurgeFlushed] in
            let finish (generated : bool) (insn : option Instruction) :=
              mk (executionUnits_ c) (loadViolation_ c) loadViolations
                 (violatingLoad c) (decodeShouldFlush c) (decodeFlushAddress c)
                 (PipelineBuffer.fill [] (fetchToDecodeBuffer_ c))
                 (PipelineBuffer.fill None (decodeToIssueBuffer_ c))
                 slots generated insn (wrap64 (flushes_ c + 1)) called in
            if exceptionGenerated_ c then
              match exceptionGeneratingInstruction_ c with
              | None => None
              | Some insn =>
                  if isFlushed insn then Some (finish false None)
                  else Some (finish true (Some insn))
              end
            else Some (finish false (exceptionGeneratingInstruction_ c))
        end
      else if decodeShouldFlush c then
        Some (mk (executionUnits_ c) (loadViolation_ c) loadViolations
                 (violatingLoad c) (decodeShouldFlush c) (decodeFlushAddress c)
                 (PipelineBuffer.fill [] (fetchToDecodeBuffer_ c))
                 (decodeToIssueBuffer_ c) (completionSlots_ c)
                 (exceptionGenerated_ c) (exceptionGeneratingInstruction_ c)
                 (wrap64 (flushes_ c + 1))
                 (calls c ++ [FetchFlushLoopBuffer;
                              FetchUpdatePC (decodeFlushAddress c)]))
      else
        Some (mk (executionUnits_ c) (loadViolation_ c) loadViolations
                 (violatingLoad c) (decodeShouldFlush c) (decodeFlushAddress c)
                 (fetchToDecodeBuffer_ c) (decodeToIssueBuffer_ c)
                 (completionSlots_ c) (exceptionGenerated_ c)
                 (exceptionGeneratingInstruction_ c) (flushes_ c) (calls c))
  end.

(** The flushes asked for, as pairs of an instruction id and an address: those
    of the execution units that flush, in order, then that of the violating
    load. *)
Definition candidates (c : t) : list (Z * Z) :=
  map (fun eu => (getFlushInsnId eu, getFlushAddress eu))
      (List.filter shouldFlush (executionUnits_ c))
  ++ (if loadViolation_ c
      then match violatingLoad c with
           | Some load => [(wrap64 (instructionId load - 1), instructionAddress load)]
           | None => []
           end
      else []).

(** The pointers that the function reads are set and every completion slot
    is a buffer with a slot 0. *)
Definition wellFormed (c : t) : Prop :=
  (loadViolation_ c = true -> violatingLoad c <> None)
  /\ (exceptionGenerated_ c = true -> exceptionGeneratingInstruction_ c <> None)
  /\ List.Forall (fun slot => PipelineBuffer.wf slot
                              /\ (0 < PipelineBuffer.width slot)%nat)
                 (completionSlots_ c).

(** An instruction pointer after the test for a flushed instruction. *)
Definition unlessFlushed (x : option Instruction) : option Instruction :=
  match x with
  | Some insn => if isFlushed insn then None else x
  | None => None
  end.

End Flush.

(** The test on a candidate that both loops make. *)
Definition pick (ch : Choice) (x : Z * Z) : Choice :=
  if negb (flush ch) || (fst x <? lowestInsnId ch)
  then mkChoice true (snd x) (fst x) else ch.

(** [x] is the first of the smallest instruction ids of [l]. *)
Definition firstLowest (l : list (Z * Z)) (x : Z * Z) : Prop :=
  exists before after,
    l = before ++ x :: after
    /\ List.Forall (fun y => fst x < fst y) before
    /\ List.Forall (fun y => fst x <= fst y) after.

Lemma pick_firstLowest (l : list (Z * Z)) : forall ch,
  flush ch = true ->
  flush (fold_left pick l ch) = true
  /\ firstLowest ((lowestInsnId ch, targetAddress ch) :: l)
                 (lowestInsnId (fold_left pick l ch),
                  targetAddress (fold_left pick l ch)).
Proof.
  induction l as [|[i a] l IH]; intros ch Hf; simpl.
  - split; [exact Hf|]. exists [], []. repeat split; constructor.
  - assert (Ep : pick ch (i, a)
                 = if i <? lowestInsnId ch then mkChoice true a i else ch).
    { unfold pick. rewrite Hf. reflexivity. }
    rewrite Ep. clear Ep.
    destruct (Z.ltb_spec i (lowestInsnId ch)) as [Hlt|Hge].
    + destruct (IH (mkChoice true a i) eq_refl) as [H1 (before & after & E & Hb & Ha)].
      set (r := fold_left pick l (mkChoice true a i)) in *. clearbody r.
      split; [exact H1|]. simpl in E.
      exists ((lowestInsnId ch, targetAddress ch) :: before), after.
      split; [simpl; now rewrite E|]. split; [|exact Ha].
      constructor; [|exact Hb]. simpl in *.
      destruct before as [|y before]; simpl in E.
      * injection E as E1 E2 _. lia.
      * injection E as E1 _. subst y. inversion Hb as [|? ? Hb1 Hb2].
        simpl in *. lia.
    + destruct (IH ch Hf) as [H1 (before & after & E & Hb & Ha)].
      set (r := fold_left pick l ch) in *. clearbody r.
      split; [exact H1|].
      destruct before as [|y before]; simpl in E.
      * injection E as E1 E2 E3. exists [], ((i, a) :: after).
        split; [simpl; congruence|]. split; [constructor|].
        constructor; [simpl in *; lia|exact Ha].
      * injection E as E1 E2. subst y.
        exists ((lowestInsnId ch, targetAddress ch) :: (i, a) :: before), after.
        split; [simpl; now rewrite E2|]. split; [|exact Ha].
        inversion Hb as [|? ? Hb1 Hb2]. simpl in *.
        constructor; [simpl; lia|]. constructor; [simpl; lia|assumption].
Qed.

Lemma chooseUnits_pick (eus : list ExecuteUnit) : forall ch,
  fold_left chooseUnit eus ch
  = fold_left pick (map (fun eu => (getFlushInsnId eu, getFlushAddress eu))
                        (List.filter shouldFlush eus)) ch.
Proof.
  induction eus as [|eu eus IH]; intros ch; simpl; [reflexivity|].
  rewrite IH. unfold chooseUnit, pick. destruct (shouldFlush eu); reflexivity.
Qed.

(** The locals of [flushIfNeeded] after the two tests. *)
Lemma choice_candidates (c : t) :
  (loadViolation_ c = true -> violatingLoad c <> None) ->
  (if loadViolation_ c
   then option_map
          (chooseLoad (fold_left chooseUnit (executionUnits_ c) (mkChoice false 0 0)))
          (violatingLoad c)
   else Some (fold_left chooseUnit (executionUnits_ c) (mkChoice false 0 0)))
  = Some (fold_left pick (candidates c) (mkChoice false 0 0)).
Proof.
  intros Hl. unfold candidates. rewrite fold_left_app, <- chooseUnits_pick.
  destruct (loadViolation_ c); [|reflexivity].
  destruct (violatingLoad c) as [load|]; [reflexivity|].
  now destruct (Hl eq_refl).
Qed.

Lemma choice_firstLowest (l : list (Z * Z)) :
  l <> [] ->
  flush (fold_left pick l (mkChoice false 0 0)) = true
  /\ firstLowest l (lowestInsnId (fold_left pick l (mkChoice false 0 0)),
                    targetAddress (fold_left pick l (mkChoice false 0 0))).
Proof.
  destruct l as [|[i a] l]; [congruence|]. intros _. simpl.
  change (pick (mkChoice false 0 0) (i, a)) with (mkChoice true a i).
  apply (pick_firstLowest l (mkChoice true a i) eq_refl).
Qed.

Section FlushProps.
Variable isFlushed : Instruction -> bool.

Lemma clearSlot_spec (slot : @PipelineBuffer.t (option Instruction)) :
  PipelineBuffer.wf slot -> (0 < PipelineBuffer.width slot)%nat ->
  exists h tl slot',
    PipelineBuffer.getHeadSlot slot 0 = Some h
    /\ PipelineBuffer.getTailSlot slot 0 = Some tl
    /\ clearSlot isFlushed slot = Some slot'
    /\ PipelineBuffer.getHeadSlot slot' 0 = Some (unlessFlushed isFlushed h)
    /\ PipelineBuffer.getTailSlot slot' 0 = Some (unlessFlushed isFlushed tl)
    /\ (forall i, (0 < i < PipelineBuffer.width slot)%nat ->
          PipelineBuffer.getHeadSlot slot' i = PipelineBuffer.getHeadSlot slot i
          /\ PipelineBuffer.getTailSlot slot' i = PipelineBuffer.getTailSlot slot i)
    /\ PipelineBuffer.wf slot'
    /\ PipelineBuffer.width slot' = PipelineBuffer.width slot
    /\ PipelineBuffer.isStalled slot' = PipelineBuffer.isStalled slot.
Proof.
  intros Hwf Hw.
  pose proof (PipelineBuffer.headOffset_in_range slot 0 Hwf Hw) as Hh.
  pose proof (PipelineBuffer.tailOffset_in_range slot 0 Hwf Hw) as Ht.
  destruct (lookup_lt_is_Some_2 _ _ Hh) as [h Eh].
  destruct (lookup_lt_is_Some_2 _ _ Ht) as [tl Et].
  assert (Hne : (PipelineBuffer.headOffset slot + 0
                 <> PipelineBuffer.tailOffset slot + 0)%nat).
  { unfold PipelineBuffer.headOffset, PipelineBuffer.tailOffset.
    destruct (PipelineBuffer.headIsStart slot); simpl; lia. }
  assert (Hoff : forall i, (0 < i < PipelineBuffer.width slot)%nat ->
            (PipelineBuffer.headOffset slot + 0 <> PipelineBuffer.tailOffset slot + i
             /\ PipelineBuffer.tailOffset slot + 0 <> PipelineBuffer.headOffset slot + i
             /\ PipelineBuffer.headOffset slot + 0 <> PipelineBuffer.headOffset slot + i
             /\ PipelineBuffer.tailOffset slot + 0
                <> PipelineBuffer.tailOffset slot + i)%nat).
  { intros i Hi. unfold PipelineBuffer.headOffset, PipelineBuffer.tailOffset.
    destruct (PipelineBuffer.headIsStart slot); simpl; lia. }
  exists h, tl.
  unfold clearSlot, PipelineBuffer.getHeadSlot, PipelineBuffer.getTailSlot.
  rewrite Eh.
  set (slot1 := match h with
                | Some insn => if isFlushed insn
                               then PipelineBuffer.setHeadSlot slot 0 None else slot
                | None => slot
                end).
  assert (H1 : PipelineBuffer.headIsStart slot1 = PipelineBuffer.headIsStart slot
               /\ PipelineBuffer.width slot1 = PipelineBuffer.width slot
               /\ PipelineBuffer.isStalled_ slot1 = PipelineBuffer.isStalled_ slot
               /\ PipelineBuffer.buffer slot1
                  = <[(PipelineBuffer.headOffset slot + 0)%nat
                      := unlessFlushed isFlushed h]> (PipelineBuffer.buffer slot)).
  { unfold slot1, unlessFlushed. destruct h as [insn|].
    - destruct (isFlushed insn); simpl; repeat split; auto;
        symmetry; now apply list_insert_id.
    - repeat split; auto. symmetry. now apply list_insert_id. }
  destruct H1 as (Hs1 & Hw1 & Hst1 & Hb1).
  assert (Et1 : PipelineBuffer.buffer slot1
                !! (PipelineBuffer.tailOffset slot1 + 0)%nat = Some tl).
  { unfold PipelineBuffer.tailOffset. rewrite Hs1, Hw1, Hb1.
    rewrite list_lookup_insert_ne by exact Hne. exact Et. }
  rewrite Et1.
  set (slot2 := match tl with
                | Some insn => if isFlushed insn
                               then PipelineBuffer.setTailSlot slot1 0 None else slot1
                | None => slot1
                end).
  assert (H2 : PipelineBuffer.headIsStart slot2 = PipelineBuffer.headIsStart slot
               /\ PipelineBuffer.width slot2 = PipelineBuffer.width slot
               /\ PipelineBuffer.isStalled_ slot2 = PipelineBuffer.isStalled_ slot
               /\ PipelineBuffer.buffer slot2
                  = <[(PipelineBuffer.tailOffset slot + 0)%nat
                      := unlessFlushed isFlushed tl]>
                      (<[(PipelineBuffer.headOffset slot + 0)%nat
                         := unlessFlushed isFlushed h]> (PipelineBuffer.buffer slot))).
  { assert (Eo : PipelineBuffer.tailOffset slot1 = PipelineBuffer.tailOffset slot)
      by (unfold PipelineBuffer.tailOffset; now rewrite Hs1, Hw1).
    rewrite <- Hb1, <- Eo.
    unfold slot2, unlessFlushed. destruct tl as [insn|].
    - destruct (isFlushed insn); simpl; repeat split; auto;
        symmetry; now apply list_insert_id.
    - repeat split; auto. symmetry. now apply list_insert_id. }
  destruct H2 as (Hs2 & Hw2 & Hst2 & Hb2).
  exists slot2. split; [reflexivity|]. split; [exact Et|]. split; [reflexivity|].
  unfold PipelineBuffer.headOffset, PipelineBuffer.tailOffset in *.
  rewrite Hs2, Hw2, Hb2.
  split.
  { rewrite list_lookup_insert_ne by (intros E; apply Hne; now rewrite E).
    apply list_lookup_insert_eq. exact Hh. }
  split.
  { apply list_lookup_insert_eq. now rewrite length_insert. }
  split.
  { intros i Hi. destruct (Hoff i Hi) as (Ha & Hb & Hc & Hd).
    split; rewrite !list_lookup_insert_ne; auto. }
  split.
  { unfold PipelineBuffer.wf in *. rewrite Hw2, Hb2, !length_insert. exact Hwf. }
  split; [reflexivity|]. exact Hst2.
Qed.

Lemma clearSlots_spec (slots : list (@PipelineBuffer.t (option Instruction))) :
  List.Forall (fun slot => PipelineBuffer.wf slot
                           /\ (0 < PipelineBuffer.width slot)%nat) slots ->
  exists slots',
    clearSlots isFlushed slots = Some slots'
    /\ length slots' = length slots
    /\ forall k slot, slots !! k = Some slot ->
         exists slot', slots' !! k = Some slot'
                       /\ clearSlot isFlushed slot = Some slot'.
Proof.
  induction 1 as [|slot slots [Hwf Hw] _ IH]; simpl.
  - exists []. repeat split. intros k slot H. now rewrite lookup_nil in H.
  - destruct IH as (slots' & E & Hl & Hk).
    destruct (clearSlot_spec slot Hwf Hw) as (h & tl & slot' & _ & _ & Es & _).
    rewrite Es, E. exists (slot' :: slots'). split; [reflexivity|].
    split; [simpl; now rewrite Hl|].
    intros [|k] s0; simpl; [intros [= <-]; eauto|apply Hk].
Qed.

Lemma fill_slots {T : Type} (b : @PipelineBuffer.t T) (v : T) (i : nat) :
  PipelineBuffer.wf b -> (i < PipelineBuffer.width b)%nat ->
  PipelineBuffer.getHeadSlot (PipelineBuffer.fill v b) i = Some v
  /\ PipelineBuffer.getTailSlot (PipelineBuffer.fill v b) i = Some v.
Proof.
  intros Hwf Hi.
  pose proof (PipelineBuffer.headOffset_in_range b i Hwf Hi) as Hh.
  pose proof (PipelineBuffer.tailOffset_in_range b i Hwf Hi) as Ht.
  unfold PipelineBuffer.getHeadSlot, PipelineBuffer.getTailSlot, PipelineBuffer.fill.
  simpl. split; now apply lookup_replicate_2.
Qed.

(** The flush asked for at the execute stage, when there is one. *)
Lemma flushIfNeeded_execute (c : t) :
  wellFormed c -> candidates c <> [] ->
  exists slots id address,
    firstLowest (candidates c) (id, address)
    /\ clearSlots isFlushed (completionSlots_ c) = Some slots
    /\ flushIfNeeded isFlushed c
       = Some (mk (executionUnits_ c) (loadViolation_ c)
                  (if loadViolation_ c then wrap64 (loadViolations_ c + 1)
                   else loadViolations_ c)
                  (violatingLoad c) (decodeShouldFlush c) (decodeFlushAddress c)
                  (PipelineBuffer.fill [] (fetchToDecodeBuffer_ c))
                  (PipelineBuffer.fill None (decodeToIssueBuffer_ c))
                  slots
                  (exceptionGenerated_ c
                   && match exceptionGeneratingInstruction_ c with
                      | Some insn => negb (isFlushed insn)
                      | None => false
                      end)
                  (if exceptionGenerated_ c
                   then unlessFlushed isFlushed (exceptionGeneratingInstruction_ c)
                   else exceptionGeneratingInstruction_ c)
                  (wrap64 (flushes_ c + 1))
                  (calls c
                   ++ [FetchFlushLoopBuffer; FetchUpdatePC address;
                       DecodePurgeFlushed; IssueFlush id; StagingFlush id]
                   ++ map ExecutePurgeFlushed (seq 0 (length (executionUnits_ c)))
                   ++ [LsqPurgeFlushed])).
Proof.
  intros (Hl & He & Hs) Hc.
  destruct (choice_firstLowest (candidates c) Hc) as [Hf Hlow].
  destruct (clearSlots_spec _ Hs) as (slots & Es & _).
  exists slots, (lowestInsnId (fold_left pick (candidates c) (mkChoice false 0 0))),
         (targetAddress (fold_left pick (candidates c) (mkChoice false 0 0))).
  split; [exact Hlow|]. split; [exact Es|].
  unfold flushIfNeeded. rewrite (choice_candidates c Hl), Hf, Es.
  destruct (exceptionGenerated_ c) eqn:Eg; [|reflexivity].
  destruct (exceptionGeneratingInstruction_ c) as [insn|] eqn:Ei.
  - simpl. now destruct (isFlushed insn).
  - now destruct (He eq_refl).
Qed.

End FlushProps.

(** [e] is the last of the smallest sequence ids of [l]. *)
Definition lastLowest (l : list Instruction) (e : Instruction) : Prop :=
  exists before after,
    l = before ++ e :: after
    /\ List.Forall (fun x => sequenceId e <= sequenceId x) before
    /\ List.Forall (fun x => sequenceId e < sequenceId x) after.

Lemma raiseAll_held (insns : list Instruction) : forall (c : t) (e0 : Instruction),
  exceptionGenerated_ c = false ->
  exists e, raiseAll insns (set_exception e0 c) = Some (set_exception e c)
            /\ lastLowest (e0 :: insns) e.
Proof.
  induction insns as [|insn insns IH]; intros c e0 Hc.
  - exists e0. split; [reflexivity|]. exists [], []. repeat split; constructor.
  - cbn [raiseAll]. unfold raiseException. cbn [exceptionGenerated_
      exceptionGeneratingInstruction_ set_exception].
    destruct (Z.ltb_spec (sequenceId e0) (sequenceId insn)) as [Hlt|Hge].
    + destruct (IH c e0 Hc) as (e & E & before & after & El & Hb & Ha).
      exists e. split; [exact E|].
      destruct before as [|y before]; simpl in El.
      * injection El as E1 E2. subst e after. exists [], (insn :: insns).
        split; [reflexivity|]. split; [constructor|].
        constructor; [lia|exact Ha].
      * injection El as E1 E2. subst y insns.
        inversion Hb as [|? ? Hb1 Hb2].
        exists (e0 :: insn :: before), after. split; [reflexivity|].
        split; [|exact Ha]. constructor; [lia|]. constructor; [lia|assumption].
    + change (set_exception insn (set_exception e0 c)) with (set_exception insn c).
      destruct (IH c insn Hc) as (e & E & before & after & El & Hb & Ha).
      exists e. split; [exact E|].
      exists (e0 :: before), after. split; [simpl; now rewrite El|].
      split; [|exact Ha]. constructor; [|exact Hb].
      destruct before as [|y before]; simpl in El.
      * injection El as E1 _. subst e. lia.
      * injection El as E1 _. subst y. inversion Hb as [|? ? Hb1 Hb2]. lia.
Qed.

(** X26. Whatever the order in which the instructions of a cycle raise
    their exceptions, the core holds the exception of the oldest: after
    [raiseException] on each instruction of a list, [exceptionGenerated_] is
    set and [exceptionGeneratingInstruction_] is the instruction of smallest
    sequence id, the last raised of those when several share it. Nothing
    else of the core changes. *)
Theorem X26_raiseException_keeps_oldest (insns : list Instruction) (c : t) :
  exceptionGenerated_ c = false -> insns <> [] ->
  exists e,
    raiseAll insns c = Some (set_exception e c)
    /\ lastLowest insns e
    /\ In e insns
    /\ forall x, In x insns -> sequenceId e <= sequenceId x.
Proof.
  intros Hc Hne. destruct insns as [|e0 insns]; [congruence|].
  destruct (raiseAll_held insns c e0 Hc) as (e & E & Hlow).
  exists e. cbn [raiseAll]. unfold raiseException. rewrite Hc.
  split; [exact E|]. split; [exact Hlow|].
  destruct Hlow as (before & after & El & Hb & Ha). rewrite El.
  split; [apply in_or_app; right; now left|].
  intros x Hx. apply in_app_or in Hx as [Hx|[<-|Hx]]; [|lia|].
  - rewrite List.Forall_forall in Hb. now apply Hb.
  - rewrite List.Forall_forall in Ha. specialize (Ha x Hx). lia.
Qed.

(** An instruction that has only a sequence id, an instruction id and an
    address. *)
Definition insn0 (seqId insnId address : Z) : Instruction :=
  mkInstruction seqId insnId 0 address [] 0 [] [] false false false false false
                false false true.

(** A core with [eus] as execution units, one completion slot whose head
    holds [h] and whose tail holds [tl], and nothing else. *)
Definition core0 (eus : list ExecuteUnit) (violation : bool)
    (load : option Instruction) (decodeFlush : bool)
    (h tl : option Instruction) : t :=
  mk eus violation 0 load decodeFlush 64
     (PipelineBuffer.make 1 []) (PipelineBuffer.make 1 None)
     [PipelineBuffer.setTailSlot
        (PipelineBuffer.setHeadSlot (PipelineBuffer.make 1 None) 0 h) 0 tl]
     false None 0 [].

Lemma X26_raiseException_keeps_oldest_witness :
  raiseAll [insn0 5 5 80; insn0 3 3 48; insn0 7 7 112; insn0 3 3 52]
           (core0 [] false None false None None)
  = Some (set_exception (insn0 3 3 52) (core0 [] false None false None None)).
Proof.
  destruct (X26_raiseException_keeps_oldest
              [insn0 5 5 80; insn0 3 3 48; insn0 7 7 112; insn0 3 3 52]
              (core0 [] false None false None None) eq_refl)
    as (e & E & _); [discriminate|].
  pose proof E as E'. vm_compute in E'. injection E' as <-. exact E.
Defined.

Section FlushTheorems.
Variable isFlushed : Instruction -> bool.

(** X27. [flushIfNeeded] flushes from the oldest request: of the flushes
    asked for by the execution units and by the violating load (for which
    the instruction id less one counts), it takes the first of those with the
    smallest instruction id, sends the fetch unit to its address and flushes
    the issue unit and the staging unit after its id. The flush of the decode
    unit is taken only when there is no such request, and only the fetch side
    is reset then; with no request at all nothing changes. *)
Theorem X27_flushIfNeeded_oldest_request (c : t) :
  wellFormed c ->
  exists c',
    flushIfNeeded isFlushed c = Some c'
    /\ (candidates c <> [] ->
          exists id address,
            firstLowest (candidates c) (id, address)
            /\ calls c'
               = calls c
                 ++ [FetchFlushLoopBuffer; FetchUpdatePC address;
                     DecodePurgeFlushed; IssueFlush id; StagingFlush id]
                 ++ map ExecutePurgeFlushed (seq 0 (length (executionUnits_ c)))
                 ++ [LsqPurgeFlushed]
            /\ flushes_ c' = wrap64 (flushes_ c + 1))
    /\ (candidates c = [] -> decodeShouldFlush c = true ->
          calls c' = calls c ++ [FetchFlushLoopBuffer;
                                 FetchUpdatePC (decodeFlushAddress c)]
          /\ fetchToDecodeBuffer_ c' = PipelineBuffer.fill [] (fetchToDecodeBuffer_ c)
          /\ decodeToIssueBuffer_ c' = decodeToIssueBuffer_ c
          /\ completionSlots_ c' = completionSlots_ c
          /\ exceptionGenerated_ c' = exceptionGenerated_ c
          /\ exceptionGeneratingInstruction_ c' = exceptionGeneratingInstruction_ c
          /\ flushes_ c' = wrap64 (flushes_ c + 1))
    /\ (candidates c = [] -> decodeShouldFlush c = false -> c' = c).
Proof.
  intros Hwf.
  assert (Hcase : candidates c = [] \/ candidates c <> [])
    by (destruct (candidates c); [now left|now right]).
  destruct Hcase as [Hnil|Hne].
  - destruct Hwf as (Hl & _ & _).
    assert (Hv : loadViolation_ c = false).
    { destruct (loadViolation_ c) eqn:Ev; [|reflexivity].
      unfold candidates in Hnil. rewrite Ev in Hnil.
      destruct (violatingLoad c); [|now destruct (Hl eq_refl)].
      now destruct (map _ _). }
    unfold flushIfNeeded. rewrite (choice_candidates c Hl), Hnil, Hv. simpl.
    destruct (decodeShouldFlush c) eqn:Ed.
    + eexists. split; [reflexivity|]. split; [congruence|].
      split; [|discriminate]. intros _ _. simpl. auto 10.
    + exists c. split; [destruct c; simpl in *; congruence|].
      split; [congruence|]. split; [discriminate|]. auto.
  - destruct (flushIfNeeded_execute isFlushed c Hwf Hne)
      as (slots & id & address & Hlow & _ & E).
    eexists. split; [exact E|]. split; [|split; congruence].
    intros _. exists id, address. simpl. auto.
Qed.

(** X28. A flush asked for at the execute stage leaves [fetchToDecodeBuffer_]
    and [decodeToIssueBuffer_] with every slot empty. Of each completion
    slot it clears head slot 0 and tail slot 0 when they hold a flushed
    instruction and leaves them, and every other slot, as they were; the
    exception held by the core is dropped exactly when its instruction is
    flushed. *)
Theorem X28_flush_clears_flushed (c : t) :
  wellFormed c -> candidates c <> [] ->
  PipelineBuffer.wf (fetchToDecodeBuffer_ c) ->
  PipelineBuffer.wf (decodeToIssueBuffer_ c) ->
  exists c',
    flushIfNeeded isFlushed c = Some c'
    /\ (forall i, (i < PipelineBuffer.width (fetchToDecodeBuffer_ c))%nat ->
          PipelineBuffer.getHeadSlot (fetchToDecodeBuffer_ c') i = Some []
          /\ PipelineBuffer.getTailSlot (fetchToDecodeBuffer_ c') i = Some [])
    /\ (forall i, (i < PipelineBuffer.width (decodeToIssueBuffer_ c))%nat ->
          PipelineBuffer.getHeadSlot (decodeToIssueBuffer_ c') i = Some None
          /\ PipelineBuffer.getTailSlot (decodeToIssueBuffer_ c') i = Some None)
    /\ length (completionSlots_ c') = length (completionSlots_ c)
    /\ (forall k slot, completionSlots_ c !! k = Some slot ->
          exists h tl slot',
            PipelineBuffer.getHeadSlot slot 0 = Some h
            /\ PipelineBuffer.getTailSlot slot 0 = Some tl
            /\ completionSlots_ c' !! k = Some slot'
            /\ PipelineBuffer.getHeadSlot slot' 0 = Some (unlessFlushed isFlushed h)
            /\ PipelineBuffer.getTailSlot slot' 0 = Some (unlessFlushed isFlushed tl)
            /\ (forall i, (0 < i < PipelineBuffer.width slot)%nat ->
                  PipelineBuffer.getHeadSlot slot' i = PipelineBuffer.getHeadSlot slot i
                  /\ PipelineBuffer.getTailSlot slot' i
                     = PipelineBuffer.getTailSlot slot i)
            /\ PipelineBuffer.isStalled slot' = PipelineBuffer.isStalled slot)
    /\ (exceptionGenerated_ c' = true <->
        exceptionGenerated_ c = true
        /\ exists insn, exceptionGeneratingInstruction_ c = Some insn
                        /\ isFlushed insn = false)
    /\ (exceptionGenerated_ c' = true ->
          exceptionGeneratingInstruction_ c' = exceptionGeneratingInstruction_ c).
Proof.
  intros Hwf Hne Hf Hd.
  destruct (flushIfNeeded_execute isFlushed c Hwf Hne)
    as (slots & id & address & _ & Es & E).
  destruct Hwf as (_ & _ & Hs).
  destruct (clearSlots_spec isFlushed _ Hs) as (slots' & Es' & Hlen & Hk).
  assert (slots' = slots) by congruence. subst slots'.
  eexists. split; [exact E|]. cbn [fetchToDecodeBuffer_ decodeToIssueBuffer_
    completionSlots_ exceptionGenerated_ exceptionGeneratingInstruction_].
  split; [intros i Hi; now apply fill_slots|].
  split; [intros i Hi; now apply fill_slots|].
  split; [exact Hlen|]. split.
  { intros k slot Hslot. destruct (Hk k slot Hslot) as (slot' & Hk' & Ec).
    rewrite List.Forall_forall in Hs.
    destruct (Hs slot) as [Hwfs Hw].
    { apply list_elem_of_In, list_elem_of_lookup. now exists k. }
    destruct (clearSlot_spec isFlushed slot Hwfs Hw)
      as (h & tl & slot2 & Hh & Ht & Ec2 & Hh' & Ht' & Hrest & _ & _ & Hst).
    assert (slot2 = slot') by congruence. subst slot2.
    exists h, tl, slot'. auto 10. }
  split.
  - rewrite andb_true_iff. split.
    + intros [Hg Hi]. split; [exact Hg|].
      destruct (exceptionGeneratingInstruction_ c) as [insn|]; [|discriminate].
      exists insn. split; [reflexivity|]. now apply negb_true_iff.
    + intros [Hg (insn & -> & Hi)]. split; [exact Hg|]. now rewrite Hi.
  - rewrite andb_true_iff. intros [Hg Hi]. rewrite Hg.
    destruct (exceptionGeneratingInstruction_ c) as [insn|]; [|discriminate].
    simpl. apply negb_true_iff in Hi. now rewrite Hi.
Qed.

End FlushTheorems.

(** Instructions after sequence id [n] are flushed. *)
Definition flushedAfter (n : Z) (insn : Instruction) : bool := sequenceId insn >? n.

(** Four execution units, of which the first, the third and the fourth ask
    for a flush, and a violating load of instruction id 5; the completion
    slot holds instruction 3 at its head and instruction 12 at its tail. *)
Definition core4 : t :=
  core0 [mkExecuteUnit true 9 900; mkExecuteUnit false 1 100;
         mkExecuteUnit true 4 400; mkExecuteUnit true 4 444]
        true (Some (insn0 20 5 500)) true
        (Some (insn0 3 3 48)) (Some (insn0 12 6 96)).

Lemma core4_wellFormed : wellFormed core4.
Proof.
  unfold wellFormed, core4, core0. simpl. split; [discriminate|].
  split; [discriminate|]. constructor; [|constructor].
  split; [reflexivity|vm_compute; lia].
Qed.

Lemma X27_flushIfNeeded_oldest_request_witness :
  exists c',
    flushIfNeeded (flushedAfter 10) core4 = Some c'
    /\ candidates core4 = [(9, 900); (4, 400); (4, 444); (4, 500)]
    /\ calls c'
       = [FetchFlushLoopBuffer; FetchUpdatePC 400; DecodePurgeFlushed;
          IssueFlush 4; StagingFlush 4; ExecutePurgeFlushed 0;
          ExecutePurgeFlushed 1; ExecutePurgeFlushed 2; ExecutePurgeFlushed 3;
          LsqPurgeFlushed].
Proof.
  destruct (X27_flushIfNeeded_oldest_request (flushedAfter 10) core4
              core4_wellFormed) as (c' & E & _).
  exists c'. split; [exact E|]. split; [reflexivity|].
  pose proof E as E'. vm_compute in E'. injection E' as <-. reflexivity.
Defined.

Lemma X28_flush_clears_flushed_witness :
  exists c' slot',
    flushIfNeeded (flushedAfter 10) core4 = Some c'
    /\ completionSlots_ c' !! 0%nat = Some slot'
    /\ PipelineBuffer.getHeadSlot slot' 0 = Some (Some (insn0 3 3 48))
    /\ PipelineBuffer.getTailSlot slot' 0 = Some None.
Proof.
  destruct (X28_flush_clears_flushed (flushedAfter 10) core4 core4_wellFormed)
    as (c' & E & _ & _ & _ & Hk & _);
    [discriminate|now apply PipelineBuffer.make_wf|now apply PipelineBuffer.make_wf|].
  destruct (Hk 0%nat _ eq_refl)
    as (h & tl & slot' & Hh & Ht & Hs & Hh' & Ht' & _).
  vm_compute in Hh. injection Hh as <-. vm_compute in Ht. injection Ht as <-.
  exists c', slot'. split; [exact E|]. split; [exact Hs|].
  split; [exact Hh'|exact Ht'].
Defined.

End InorderCore.
